(** * model3d: a shallow embedding of the geometry core and its specification

    The development follows the Go sources of the repository:
    - [fast_maps.go]        the hybrid coordinate-keyed maps,
    - [mesh_ops.go]         [Mesh.Repair], [Mesh.NeedsRepair] and
                            [Mesh.SingularVertices],
    - [parameterization.go] [BuildAutomaticUVMap], [floater97],
                            [boundarySequence] and [buildParamQuadTree],
    - the ARAP deformer, the decimator and its [fillLoop], Dual Contouring
      with its cube layout and [segmentOrientation],
    - [mesh_hierarchy.go]   [MeshToHierarchy].

    Go maps are finite maps ([gmap]); a Go [panic] is the [None] of an
    [option] (or the [Panicked] outcome where the message matters); Go's
    [int] is the 64-bit two's complement integer. *)

From Stdlib Require Import ZArith Lia List Bool.
From Stdlib Require Import Floats.PrimFloat.
From stdpp Require Import gmap list strings fin_maps.

Local Open Scope Z_scope.

(** ** Go's [int] *)

Module GoInt.

Definition bits : Z := 64.

  (** Two's complement wrap-around of an unbounded integer into [int]. *)
Definition wrap (z : Z) : Z :=
    (z + 2 ^ (bits - 1)) mod 2 ^ bits - 2 ^ (bits - 1).

Definition in_range (z : Z) : Prop :=
    - 2 ^ (bits - 1) <= z < 2 ^ (bits - 1).

  (** [x << uint(i)] at type [int]. *)
Definition shl (x i : Z) : Z := wrap (Z.shiftl x i).

Lemma wrap_small z : in_range z -> wrap z = z.
  Proof.
    unfold in_range, wrap, bits. intros H.
    rewrite Z.mod_small; lia.
  Qed.

Lemma shl_one_pow i : 0 <= i < 32 -> shl 1 i = 2 ^ i.
  Proof.
    intros Hi. unfold shl. rewrite Z.shiftl_1_l.
    apply wrap_small. unfold in_range, bits.
    assert (0 < 2 ^ i) by (apply Z.pow_pos_nonneg; lia).
    assert (2 ^ i < 2 ^ 32) by (apply Z.pow_lt_mono_r; lia).
    assert (2 ^ 32 < 2 ^ (64 - 1)) by (apply Z.pow_lt_mono_r; lia).
    lia.
  Qed.

End GoInt.

(** ** Outcomes of a call that may panic *)

Inductive outcome (A : Type) : Type :=
| Returned (a : A)
| Panicked (msg : string).
Arguments Returned {A} a.
Arguments Panicked {A} msg.

(** ** [BuildAutomaticUVMap] (parameterization.go) *)

Module AutoUV.
Section WithBody.

Context {Mesh MeshUVMap MeshOp : Type}.

  (** Everything [BuildAutomaticUVMap] does after the resolution check
      (splitting into plane graphs, parameterising and packing), together
      with the list of operations it performs on the mesh. *)
Variable uvBody : Mesh -> Z -> bool -> list MeshOp * MeshUVMap.

  (** [for i := 0; i < 32; i++ { if 1<<uint(i) == resolution { ...; break } }]
      with [n] iterations left, the counter standing at [i]. *)
Fixpoint foundPowerFrom (n : nat) (i resolution : Z) : bool :=
    match n with
    | O => false
    | S n' =>
        if GoInt.shl 1 i =? resolution then true
        else foundPowerFrom n' (i + 1) resolution
    end.

Definition foundPower (resolution : Z) : bool :=
    foundPowerFrom 32 0 resolution.

  (** The run of a call: the mesh operations performed, and the outcome. *)
Record run : Type := mkRun {
    trace : list MeshOp;
    result : outcome MeshUVMap
  }.

Definition BuildAutomaticUVMap (m : Mesh) (resolution : Z) (verbose : bool) : run :=
    if foundPower resolution then
      let '(ops, uv) := uvBody m resolution verbose in
      {| trace := ops; result := Returned uv |}
    else
      {| trace := []; result := Panicked "resolution must be power of 2" |}.

Definition isPowerOfTwo32 (resolution : Z) : Prop :=
    exists i, 0 <= i < 32 /\ resolution = GoInt.shl 1 i.

Lemma foundPowerFrom_spec n i resolution :
    foundPowerFrom n i resolution = true <->
    exists j, i <= j < i + Z.of_nat n /\ resolution = GoInt.shl 1 j.
  Proof.
    revert i. induction n as [|n IH]; intros i; cbn [foundPowerFrom].
    - split; [discriminate|]. intros (j & Hj & _). lia.
    - destruct (Z.eqb_spec (GoInt.shl 1 i) resolution) as [Heq|Hne].
      + split; [|reflexivity]. intros _. exists i. split; [lia|congruence].
      + rewrite IH. split.
        * intros (j & Hj & ->). exists j. split; [lia|reflexivity].
        * intros (j & Hj & ->). exists j. split; [|reflexivity].
          destruct (Z.eq_dec j i) as [->|]; [congruence|lia].
  Qed.

Lemma foundPower_spec resolution :
    foundPower resolution = true <-> isPowerOfTwo32 resolution.
  Proof.
    unfold foundPower, isPowerOfTwo32. rewrite foundPowerFrom_spec.
    split; intros (j & Hj & ->); exists j; (split; [lia|reflexivity]).
  Qed.

Lemma isPowerOfTwo32_pow resolution :
    isPowerOfTwo32 resolution <-> exists i, 0 <= i < 32 /\ resolution = 2 ^ i.
  Proof.
    unfold isPowerOfTwo32.
    split; intros (i & Hi & ->); exists i; (split; [lia|]);
      [|symmetry]; apply GoInt.shl_one_pow; lia.
  Qed.

(** C10. [BuildAutomaticUVMap] panics with an empty trace of mesh
    operations exactly when [resolution] is not [1 << i] (equivalently
    [2 ^ i]) for some [0 <= i < 32]; in particular zero and negative
    values are rejected.  For such a power of two the check passes and the
    call runs the body. *)
Theorem BuildAutomaticUVMap_resolution_check
    (m : Mesh) (resolution : Z) (verbose : bool) :
  (BuildAutomaticUVMap m resolution verbose
     = {| trace := []; result := Panicked "resolution must be power of 2" |}
   <-> ~ (exists i, 0 <= i < 32 /\ resolution = GoInt.shl 1 i))
  /\ (BuildAutomaticUVMap m resolution verbose
       = {| trace := fst (uvBody m resolution verbose);
            result := Returned (snd (uvBody m resolution verbose)) |}
     <-> exists i, 0 <= i < 32 /\ resolution = 2 ^ i)
  /\ (resolution <= 0 ->
     BuildAutomaticUVMap m resolution verbose
     = {| trace := []; result := Panicked "resolution must be power of 2" |}).
Proof.
  pose proof (foundPower_spec resolution) as Hspec.
  pose proof (isPowerOfTwo32_pow resolution) as Hpow.
  fold (isPowerOfTwo32 resolution).
  unfold BuildAutomaticUVMap.
  destruct (foundPower resolution) eqn:Hfound.
  - assert (Hp : isPowerOfTwo32 resolution) by (apply Hspec; reflexivity).
    destruct (uvBody m resolution verbose) as [ops uv]; cbn [fst snd].
    repeat split.
    + discriminate.
    + intros Hn. contradiction.
    + intros _. apply Hpow, Hp.
    + intros Hle. apply Hpow in Hp. destruct Hp as (i & Hi & ->).
      assert (0 < 2 ^ i) by (apply Z.pow_pos_nonneg; lia). lia.
  - assert (Hp : ~ isPowerOfTwo32 resolution).
    { intros Hp. apply Hspec in Hp. congruence. }
    repeat split.
    + intros _. exact Hp.
    + destruct (uvBody m resolution verbose); discriminate.
    + intros Hex. exfalso. apply Hp, Hpow, Hex.
Qed.

End WithBody.
End AutoUV.

(** ** The hybrid coordinate-keyed maps (fast_maps.go)

    [CoordMap], [CoordToFaces], [EdgeMap] and the other maps of the family
    are instances of one template: they differ in the key type, the value
    type and the hash function only.  The key type is any type with a
    decidable equality that agrees with Go's [==]; the fingerprint
    [fastHash64] is a function of the key and may collide. *)

Module FastMaps.
Section CoordMap.

Context {K V : Type} `{Countable K}.

(** [hashForCoordMap], that is [c.fastHash64()], a [uint64]. *)
Variable hashForCoordMap : K -> N.

Record cellForCoordMap : Type := mkCell { Key : K; Value : V }.

(** Both fields are Go maps, hence [nil] ([None]) or allocated. *)
Record CoordMap : Type := mkCoordMap {
  slowMap : option (gmap K V);
  fastMap : option (gmap N cellForCoordMap)
}.

Definition NewCoordMap : CoordMap :=
  {| slowMap := None; fastMap := Some ∅ |}.

(** Reading a [nil] map reads an empty map. *)
Definition readMap {A B : Type} `{Countable A} (m : option (gmap A B)) : gmap A B :=
  default ∅ m.

Definition Len (m : CoordMap) : nat :=
  match fastMap m with
  | Some fm => size fm
  | None => size (readMap (slowMap m))
  end.

(** [Load] returns [(value, ok)]; [None] stands for [(nil, false)]. *)
Definition Load (m : CoordMap) (key : K) : option V :=
  match fastMap m with
  | Some fm =>
      match fm !! hashForCoordMap key with
      | Some cell => if decide (Key cell = key) then Some (Value cell) else None
      | None => None
      end
  | None => readMap (slowMap m) !! key
  end.


Definition fastToSlow (m : CoordMap) : CoordMap :=
  {| slowMap :=
       Some (map_fold (fun _ cell sm => <[Key cell := Value cell]> sm) ∅
               (readMap (fastMap m)));
     fastMap := None |}.

(** [m.slowMap[key] = value]: assigning to an entry of a [nil] map panics. *)
Definition storeSlow (m : CoordMap) (key : K) (value : V) : option CoordMap :=
  match slowMap m with
  | Some sm => Some {| slowMap := Some (<[key := value]> sm); fastMap := fastMap m |}
  | None => None
  end.

Definition Store (m : CoordMap) (key : K) (value : V) : option CoordMap :=
  match fastMap m with
  | Some fm =>
      let hash := hashForCoordMap key in
      match fm !! hash with
      | Some cell =>
          if decide (Key cell = key)
          then Some {| slowMap := slowMap m;
                       fastMap := Some (<[hash := mkCell key value]> fm) |}
          else storeSlow (fastToSlow m) key value
      | None =>
          Some {| slowMap := slowMap m;
                  fastMap := Some (<[hash := mkCell key value]> fm) |}
      end
  | None => storeSlow m key value
  end.

(** [Value] is [Load] without the second result; [zero] is the zero value. *)
Definition ValueOr (zero : V) (m : CoordMap) (key : K) : V :=
  default zero (Load m key).

(** [Range] calls [f] on each entry until it returns [false].  The state
    [S] is what [f] writes to. *)
Definition rangeStep {S : Type} (f : K -> V -> S -> S * bool)
    (k : K) (v : V) (acc : S * bool) : S * bool :=
  if acc.2 then f k v acc.1 else acc.

Definition Range {S : Type} (m : CoordMap) (f : K -> V -> S -> S * bool) (s : S) : S :=
  (match fastMap m with
   | Some fm =>
       map_fold (fun _ cell => rangeStep f (Key cell) (Value cell)) (s, true) fm
   | None => map_fold (rangeStep f) (s, true) (readMap (slowMap m))
   end).1.

(** *** Sequences of operations and what a caller observes *)





(** *** The representation invariant *)

(** Every cell of the fast map sits at the hash of its key. *)
Definition cellsAtHash (fm : gmap N cellForCoordMap) : Prop :=
  forall h cell, fm !! h = Some cell -> hashForCoordMap (Key cell) = h.

Definition fastLookup (fm : gmap N cellForCoordMap) (key : K) : option V :=
  match fm !! hashForCoordMap key with
  | Some cell => if decide (Key cell = key) then Some (Value cell) else None
  | None => None
  end.

(** [represents m r]: the container [m] holds exactly the entries of [r]. *)
Definition represents (m : CoordMap) (r : gmap K V) : Prop :=
  match fastMap m with
  | Some fm =>
      cellsAtHash fm /\ (forall k, r !! k = fastLookup fm k) /\ size r = size fm
  | None => slowMap m = Some r
  end.

(** *** Each operation preserves the invariant and agrees with the reference *)

Lemma represents_new : represents NewCoordMap ∅.
Proof.
  unfold represents, NewCoordMap; cbn. split; [|split].
  - intros h cell Hl. rewrite lookup_empty in Hl. discriminate.
  - intros k. unfold fastLookup. rewrite !lookup_empty. reflexivity.
  - reflexivity.
Qed.

Lemma represents_Len m r : represents m r -> Len m = size r.
Proof.
  unfold represents, Len. destruct (fastMap m) as [fm|].
  - intros (_ & _ & Hsz). congruence.
  - intros ->. reflexivity.
Qed.

Lemma represents_Load m r key : represents m r -> Load m key = r !! key.
Proof.
  unfold represents, Load. destruct (fastMap m) as [fm|].
  - intros (_ & Hlk & _). rewrite Hlk. reflexivity.
  - intros ->. reflexivity.
Qed.

Lemma fastLookup_insert fm key value k :
  (forall cell, fm !! hashForCoordMap key = Some cell -> Key cell = key) ->
  fastLookup (<[hashForCoordMap key := mkCell key value]> fm) k
  = if decide (key = k) then Some value else fastLookup fm k.
Proof.
  intros Hsame. unfold fastLookup.
  destruct (decide (key = k)) as [->|Hne].
  - rewrite lookup_insert_eq. cbn. rewrite decide_True; reflexivity.
  - destruct (decide (hashForCoordMap key = hashForCoordMap k)) as [Hh|Hh].
    + rewrite <- Hh, lookup_insert_eq. cbn. rewrite decide_False by assumption.
      destruct (fm !! hashForCoordMap key) as [cell|] eqn:Hc; [|reflexivity].
      rewrite decide_False; [reflexivity|]. rewrite (Hsame cell eq_refl). assumption.
    + rewrite lookup_insert_ne by assumption. reflexivity.
Qed.



(** [fastToSlow] copies every cell: the slow map it builds holds the
    entries the fast map represented. *)
Lemma fastToSlow_fold fm :
  cellsAtHash fm ->
  forall k,
    map_fold (fun _ cell sm => <[Key cell := Value cell]> sm) (∅ : gmap K V) fm !! k
    = fastLookup fm k.
Proof.
  refine (map_fold_weak_ind
            (fun sm fm => cellsAtHash fm -> forall k, sm !! k = fastLookup fm k)
            _ _ _ _ fm).
  - intros _ k. unfold fastLookup. rewrite !lookup_empty. reflexivity.
  - intros h cell fm' sm Hfresh IH Hat k.
    assert (Hh : hashForCoordMap (Key cell) = h) by (apply Hat, lookup_insert_eq).
    assert (Hat' : cellsAtHash fm').
    { intros h' c' Hl. apply Hat. rewrite lookup_insert_ne; [assumption|].
      intros ->. congruence. }
    destruct cell as [ck cv]; cbn in *. subst h.
    rewrite fastLookup_insert by (intros c Hc; congruence).
    rewrite lookup_insert. destruct (decide (ck = k)); [reflexivity|].
    apply IH, Hat'.
Qed.

Lemma represents_fastToSlow m r :
  represents m r -> is_Some (fastMap m) -> represents (fastToSlow m) r.
Proof.
  unfold represents, fastToSlow. intros Hrep [fm Hfm]. rewrite Hfm in *. cbn.
  destruct Hrep as (Hat & Hlk & _). f_equal. apply map_eq. intros k.
  rewrite fastToSlow_fold by assumption. symmetry. apply Hlk.
Qed.

Lemma represents_storeSlow m r key value :
  represents m r -> fastMap m = None ->
  exists m', storeSlow m key value = Some m'
             /\ represents m' (<[key := value]> r).
Proof.
  unfold represents, storeSlow. intros Hrep Hfm. rewrite Hfm in *. rewrite Hrep.
  eexists. split; [reflexivity|]. reflexivity.
Qed.

Lemma represents_Store m r key value :
  represents m r ->
  exists m', Store m key value = Some m'
             /\ represents m' (<[key := value]> r).
Proof.
  intros Hrep. unfold Store.
  destruct (fastMap m) as [fm|] eqn:Hfm.
  2:{ apply represents_storeSlow; assumption. }
  assert (Hfast : represents m r) by assumption.
  unfold represents in Hrep. rewrite Hfm in Hrep. destruct Hrep as (Hat & Hlk & Hsz).
  pose proof (Hlk key) as Hkey. unfold fastLookup in Hkey.
  assert (Hins : (forall cell, fm !! hashForCoordMap key = Some cell -> Key cell = key) ->
                 represents {| slowMap := slowMap m;
                               fastMap := Some (<[hashForCoordMap key := mkCell key value]> fm) |}
                            (<[key := value]> r)).
  { intros Hsame. unfold represents; cbn. repeat split.
    - intros h c Hl. apply lookup_insert_Some in Hl as [[<- <-]|[_ Hl]]; [reflexivity|].
      apply Hat, Hl.
    - intros k. rewrite fastLookup_insert by assumption. rewrite lookup_insert.
      destruct (decide (key = k)); [reflexivity|apply Hlk].
    - rewrite !map_size_insert, Hkey.
      destruct (fm !! hashForCoordMap key) as [c|] eqn:Hc; [|congruence].
      rewrite decide_True by (apply Hsame; reflexivity). congruence. }
  destruct (fm !! hashForCoordMap key) as [cell|] eqn:Hc.
  - destruct (decide (Key cell = key)) as [Heq|Hne].
    + eexists. split; [reflexivity|]. apply Hins. intros c Hc'. congruence.
    + apply represents_storeSlow; [|reflexivity].
      apply represents_fastToSlow; [assumption|]. rewrite Hfm. eauto.
  - eexists. split; [reflexivity|]. apply Hins. intros c Hc'. discriminate.
Qed.




(** *** [KeyRange], [ValueRange] and the order of a [Range] *)













End CoordMap.



(** *** [CoordToInt.Add] and [CoordToFaces.Append] *)

Section Accumulate.

Context {K T : Type} `{Countable K}.

Variable hashForCoordToInt : K -> N.

Abbreviation CoordToInt := (@CoordMap K Z _ _).
Abbreviation CoordToFaces := (@CoordMap K (list T) _ _).

(** The [else] branch of [Add]: [value := m.slowMap[key] + x], where a
    missing key reads as [0]. *)
Definition addSlow (m : CoordToInt) (key : K) (x : Z) : option (CoordToInt * Z) :=
  let value := GoInt.wrap (default 0 (readMap (slowMap m) !! key) + x) in
  storeSlow m key value ≫= fun m' => Some (m', value).

(** [Add] returns the container and the new value.  After [fastToSlow]
    the call [m.Add(key, x)] takes the [else] branch. *)
Definition Add (m : CoordToInt) (key : K) (x : Z) : option (CoordToInt * Z) :=
  match fastMap m with
  | Some fm =>
      let hash := hashForCoordToInt key in
      match fm !! hash with
      | Some cell =>
          if decide (Key cell = key)
          then
            let value := GoInt.wrap (Value cell + x) in
            Some ({| slowMap := slowMap m;
                     fastMap := Some (<[hash := mkCell key value]> fm) |}, value)
          else addSlow (fastToSlow m) key x
      | None =>
          let value := GoInt.wrap (0 + x) in
          Some ({| slowMap := slowMap m;
                   fastMap := Some (<[hash := mkCell key value]> fm) |}, value)
      end
  | None => addSlow m key x
  end.







End Accumulate.



(** Two keys with one hash: the second [Add] moves the container to slow
    mode and both counters are kept. *)
Example demo_Add_collision :
  (Add (fun _ : Z => 0%N) NewCoordMap 1 5 ≫= fun p =>
   Add (fun _ : Z => 0%N) p.1 2 7 ≫= fun q =>
   Add (fun _ : Z => 0%N) q.1 1 1 ≫= fun s =>
   Some (fastMap s.1, Load (fun _ : Z => 0%N) s.1 1, Load (fun _ : Z => 0%N) s.1 2))
  = Some (None, Some 6, Some 7).
Proof. vm_compute. reflexivity. Qed.

(** *** [hashForEdgeMap] *)

Section EdgeHash.

Context {Coord3D : Type}.

(** [c.fastHash()], a [uint32]. *)
Variable fastHash : Coord3D -> N.

(** [uint64(h1) | (uint64(h2) << 32)] *)
Definition hashForEdgeMap (c : Coord3D * Coord3D) : N :=
  let h1 := fastHash c.1 in
  let h2 := fastHash c.2 in
  N.lor h1 (N.shiftl h2 32 mod 2 ^ 64).

Lemma lor_shiftl_32 (h1 h2 : N) :
  (h1 < 2 ^ 32)%N -> N.lor h1 (N.shiftl h2 32) = (h1 + h2 * 2 ^ 32)%N.
Proof.
  intros H1. rewrite N.shiftl_mul_pow2.
  rewrite <- N.lxor_lor, <- N.add_nocarry_lxor; [reflexivity| |].
  - apply N.bits_inj. intros n. rewrite N.land_spec, N.bits_0.
    destruct (N.lt_ge_cases n 32) as [Hlo|Hhi].
    + rewrite N.mul_pow2_bits_low by exact Hlo. apply andb_false_r.
    + rewrite <- (N.mod_small h1 (2 ^ 32)) by exact H1.
      rewrite N.mod_pow2_bits_high by exact Hhi. reflexivity.
  - apply N.bits_inj. intros n. rewrite N.land_spec, N.bits_0.
    destruct (N.lt_ge_cases n 32) as [Hlo|Hhi].
    + rewrite N.mul_pow2_bits_low by exact Hlo. apply andb_false_r.
    + rewrite <- (N.mod_small h1 (2 ^ 32)) by exact H1.
      rewrite N.mod_pow2_bits_high by exact Hhi. reflexivity.
Qed.

Lemma hashForEdgeMap_sum :
  (forall c, fastHash c < 2 ^ 32)%N ->
  forall c, hashForEdgeMap c = (fastHash c.1 + fastHash c.2 * 2 ^ 32)%N.
Proof.
  intros Hr c. unfold hashForEdgeMap. cbv zeta.
  pose proof (Hr c.1) as H1. pose proof (Hr c.2) as H2.
  rewrite N.mod_small.
  - apply lor_shiftl_32, H1.
  - rewrite N.shiftl_mul_pow2. change (2 ^ 64)%N with (2 ^ 32 * 2 ^ 32)%N.
    apply N.mul_lt_mono_pos_r; [reflexivity|exact H2].
Qed.

(** X12.  [hashForEdgeMap] keeps both 32-bit hashes of an edge: the low
    half of the result is the hash of the first end and the high half the
    hash of the second, so two edges have one hash exactly when their
    first ends have one hash and their second ends have one hash. *)
Theorem hashForEdgeMap_pairs :
  (forall c, fastHash c < 2 ^ 32)%N ->
  forall c c',
    (hashForEdgeMap c mod 2 ^ 32 = fastHash c.1
     /\ hashForEdgeMap c / 2 ^ 32 = fastHash c.2
     /\ hashForEdgeMap c < 2 ^ 64)%N
    /\ (hashForEdgeMap c = hashForEdgeMap c'
        <-> fastHash c.1 = fastHash c'.1 /\ fastHash c.2 = fastHash c'.2).
Proof.
  intros Hr c c'. rewrite !(hashForEdgeMap_sum Hr).
  pose proof (Hr c.1) as H1. pose proof (Hr c.2) as H2.
  pose proof (Hr c'.1) as H1'. pose proof (Hr c'.2) as H2'.
  assert (Hmod : forall a b, (a < 2 ^ 32 -> (a + b * 2 ^ 32) mod 2 ^ 32 = a)%N).
  { intros a b Ha. rewrite N.Div0.mod_add. apply N.mod_small, Ha. }
  assert (Hdiv : forall a b, (a < 2 ^ 32 -> (a + b * 2 ^ 32) / 2 ^ 32 = b)%N).
  { intros a b Ha. rewrite N.div_add by discriminate. rewrite N.div_small by exact Ha.
    reflexivity. }
  split; [split; [apply Hmod, H1|split; [apply Hdiv, H1|]]|].
  - change (2 ^ 64)%N with (2 ^ 32 * 2 ^ 32)%N. nia.
  - split.
    + intros Heq. split.
      * rewrite <- (Hmod _ (fastHash c.2) H1), Heq. apply Hmod, H1'.
      * rewrite <- (Hdiv _ (fastHash c.2) H1), Heq. apply Hdiv, H1'.
    + intros [-> ->]. reflexivity.
Qed.

End EdgeHash.

Lemma hashForEdgeMap_pairs_witness :
  (forall c : Z, Z.to_N c mod 2 ^ 32 < 2 ^ 32)%N
  /\ forall c c' : Z * Z,
       (hashForEdgeMap (fun c => Z.to_N c mod 2 ^ 32) c mod 2 ^ 32 = Z.to_N c.1 mod 2 ^ 32
        /\ hashForEdgeMap (fun c => Z.to_N c mod 2 ^ 32) c / 2 ^ 32 = Z.to_N c.2 mod 2 ^ 32
        /\ hashForEdgeMap (fun c => Z.to_N c mod 2 ^ 32) c < 2 ^ 64)%N
       /\ (hashForEdgeMap (fun c => Z.to_N c mod 2 ^ 32) c
           = hashForEdgeMap (fun c => Z.to_N c mod 2 ^ 32) c'
           <-> (Z.to_N c.1 mod 2 ^ 32 = Z.to_N c'.1 mod 2 ^ 32
                /\ Z.to_N c.2 mod 2 ^ 32 = Z.to_N c'.2 mod 2 ^ 32))%N.
Proof.
  assert (Hr : (forall c : Z, Z.to_N c mod 2 ^ 32 < 2 ^ 32)%N).
  { intros c. apply N.mod_lt. discriminate. }
  split; [exact Hr|].
  apply (hashForEdgeMap_pairs (fun c : Z => (Z.to_N c mod 2 ^ 32)%N) Hr).
Defined.

Example demo_hashForEdgeMap :
  hashForEdgeMap (fun c => Z.to_N c mod 2 ^ 32)%N (3, 5) = 21474836483%N
  /\ hashForEdgeMap (fun c => Z.to_N c mod 2 ^ 32)%N (5, 3) = 12884901893%N.
Proof. vm_compute. split; reflexivity. Qed.

End FastMaps.

(** ** Triangles and meshes

    A [Coord3D] is a key with decidable equality; a [Triangle] is the Go
    array [[3]Coord3D]; a [Mesh] owns a collection of triangle objects, in
    which the same three corners may occur more than once.  The list gives
    the triangles in some order: Go iterates over the underlying map in an
    unspecified one. *)

Module Geometry.
Section Mesh.

Context {Coord3D : Type} `{EqDecision Coord3D}.

Record Triangle : Type := mkTriangle { T0 : Coord3D; T1 : Coord3D; T2 : Coord3D }.

(** [t[i]] for [i] in [0, 3). *)
Definition corner (t : Triangle) (i : nat) : Coord3D :=
  match i with
  | O => T0 t
  | S O => T1 t
  | _ => T2 t
  end.

Definition corners (t : Triangle) : list Coord3D := [T0 t; T1 t; T2 t].

Definition Mesh : Type := list Triangle.

Definition hasCorner (t : Triangle) (p : Coord3D) : bool :=
  bool_decide (p ∈ corners t).

(** Modelled from the spec: [Mesh.Find] is not among the sources; by the
    spec, [find(a,b)] / [find(a,b,c)] returns the triangles incident on a
    vertex, an edge or a triangle, that is, the triangles of the mesh that
    have every given point as a corner. *)
Definition Find (m : Mesh) (ps : list Coord3D) : list Triangle :=
  filter (fun t => forallb (hasCorner t) ps = true) (m : list Triangle).

(** Modelled from the spec: [Mesh.MapCoords] is not among the sources; it
    emits a new mesh by remapping the coordinates of every triangle. *)
Definition mapTriangle (f : Coord3D -> Coord3D) (t : Triangle) : Triangle :=
  {| T0 := f (T0 t); T1 := f (T1 t); T2 := f (T2 t) |}.

Definition MapCoords (f : Coord3D -> Coord3D) (m : Mesh) : Mesh :=
  map (mapTriangle f) m.

(** *** [Mesh.NeedsRepair] (mesh_ops.go) *)

(** [for i := 0; i < 3; i++ { ...; if len(m.Find(p1, p2)) != 2 { return true } }]
    with [n] iterations left from index [i]; [true] when the loop returns. *)
Fixpoint edgeLoop (m : Mesh) (t : Triangle) (n i : nat) : bool :=
  match n with
  | O => false
  | S n' =>
      let p1 := corner t i in
      let p2 := corner t ((i + 1) mod 3) in
      if bool_decide (length (Find m [p1; p2]) <> 2%nat) then true
      else edgeLoop m t n' (S i)
  end.

(** [for t := range m.triangles { ... }] over the triangles in the order
    [order] of the iteration. *)
Fixpoint NeedsRepairIn (m : Mesh) (order : list Triangle) : bool :=
  match order with
  | [] => false
  | t :: rest => if edgeLoop m t 3 0 then true else NeedsRepairIn m rest
  end.

Definition NeedsRepair (m : Mesh) : bool := NeedsRepairIn m m.

(** *** Edges and their incidence *)

(** [(a, b)] is an edge of the mesh: two consecutive corners of a triangle. *)
Definition isEdge (m : Mesh) (a b : Coord3D) : Prop :=
  exists t i, t ∈ m /\ (i < 3)%nat /\ a = corner t i /\ b = corner t ((i + 1) mod 3).

(** The number of triangles of the mesh incident to the edge [(a, b)]. *)
Fixpoint incidence (m : Mesh) (a b : Coord3D) : nat :=
  match m with
  | [] => 0
  | t :: rest =>
      (if hasCorner t a && hasCorner t b then 1 else 0) + incidence rest a b
  end%nat.

Lemma Find_incidence m a b : length (Find m [a; b]) = incidence m a b.
Proof.
  unfold Find. induction m as [|t m IH]; [reflexivity|].
  rewrite filter_cons. cbn [incidence].
  assert (Hb : forallb (hasCorner t) [a; b] = hasCorner t a && hasCorner t b).
  { cbn [forallb]. rewrite andb_true_r. reflexivity. }
  destruct (decide (forallb (hasCorner t) [a; b] = true)) as [Ht|Hf];
    rewrite Hb in *.
  - rewrite Ht. cbn [length]. rewrite IH. reflexivity.
  - apply not_true_is_false in Hf. rewrite Hf. exact IH.
Qed.

Lemma edgeLoop_true m t n i :
  edgeLoop m t n i = true <->
  exists j, (i <= j < i + n)%nat
            /\ incidence m (corner t j) (corner t ((j + 1) mod 3)) <> 2%nat.
Proof.
  revert i. induction n as [|n IH]; intros i; cbn [edgeLoop].
  - split; [discriminate|]. intros (j & Hj & _). lia.
  - rewrite Find_incidence. case_bool_decide as Hinc.
    + split; [|reflexivity]. intros _. exists i. split; [lia|assumption].
    + rewrite IH. split.
      * intros (j & Hj & Hne). exists j. split; [lia|assumption].
      * intros (j & Hj & Hne). exists j. split; [|assumption].
        destruct (decide (j = i)) as [->|]; [contradiction|lia].
Qed.

Lemma NeedsRepairIn_true m order :
  NeedsRepairIn m order = true <->
  exists t i, t ∈ order /\ (i < 3)%nat
              /\ incidence m (corner t i) (corner t ((i + 1) mod 3)) <> 2%nat.
Proof.
  induction order as [|t order IH]; cbn [NeedsRepairIn].
  - split; [discriminate|]. intros (t & i & Hin & _). inversion Hin.
  - destruct (edgeLoop m t 3 0) eqn:Hloop.
    + split; [|reflexivity]. intros _.
      apply edgeLoop_true in Hloop as (j & Hj & Hne).
      exists t, j. split; [left|split; [lia|assumption]].
    + rewrite IH. split.
      * intros (t' & i & Hin & Hi & Hne). exists t', i. split; [right; assumption|auto].
      * intros (t' & i & Hin & Hi & Hne). exists t', i. split; [|auto].
        apply elem_of_cons in Hin as [->|Hin]; [|assumption].
        exfalso. assert (edgeLoop m t 3 0 = true); [|congruence].
        apply edgeLoop_true. exists i. split; [lia|assumption].
Qed.

(** C6. [NeedsRepair] returns [true] exactly when some edge of the mesh is
    incident to a number of triangles other than two, in whatever order
    the triangles are visited. *)
Theorem NeedsRepair_iff_edge_incidence (m : Mesh) (order : list Triangle) :
  (NeedsRepair m = true <-> exists a b, isEdge m a b /\ incidence m a b <> 2%nat)
  /\ (order ≡ₚ m -> NeedsRepairIn m order = NeedsRepair m).
Proof.
  assert (Hiff : forall o, o ≡ₚ m ->
            (NeedsRepairIn m o = true
             <-> exists a b, isEdge m a b /\ incidence m a b <> 2%nat)).
  { intros o Hperm. rewrite NeedsRepairIn_true. unfold isEdge. split.
    - intros (t & i & Hin & Hi & Hne).
      exists (corner t i), (corner t ((i + 1) mod 3)). split; [|assumption].
      exists t, i. rewrite <- Hperm. auto.
    - intros (a & b & (t & i & Hin & Hi & -> & ->) & Hne).
      exists t, i. rewrite Hperm. auto. }
  split.
  - apply Hiff. reflexivity.
  - intros Hperm. pose proof (Hiff order Hperm) as H1.
    pose proof (Hiff m (reflexivity m)) as H2. unfold NeedsRepair in *.
    destruct (NeedsRepairIn m order), (NeedsRepairIn m m); try reflexivity.
    + symmetry. apply H2, H1. reflexivity.
    + apply H1, H2. reflexivity.
Qed.

End Mesh.
End Geometry.

(** ** Slices *)

(** [s[i]] for an [int] index: out of range panics. *)
Definition index {A : Type} (s : list A) (i : Z) : option A :=
  if i <? 0 then None else s !! Z.to_nat i.

(** ** The ARAP deformer

    The floating-point parts of the deformer (the cotangent weights, the
    rotation fit by SVD, the energy, the right-hand sides and the sparse
    Cholesky solve) are parameters: any functions may stand for them. *)

Module ARAP.
Section Deformer.

Context {Coord3D : Type} `{Countable Coord3D}.
Context {Matrix3 Energy Weights : Type}.

Abbreviation Triangle := (@Geometry.Triangle Coord3D).
Abbreviation Mesh := (list (@Geometry.Triangle Coord3D)).

(** [Coord3D{}], the zero value. *)
Variable zeroCoord : Coord3D.
Variable Add : Coord3D -> Coord3D -> Coord3D.

(** [neighbors], [weights], [rotWeights] and [tolerance] make up [numerics]. *)
Record ARAP : Type := mkARAP {
  coordToIdx : gmap Coord3D nat;
  coords : list Coord3D;
  triangles : list (nat * nat * nat);
  numerics : Weights;
  maxIters : Z;
  minIters : Z
}.

Definition ARAPConstraints : Type := gmap Coord3D Coord3D.

(** [for i, c := range coords { a.coordToIdx[c] = i }] from index [i]. *)
Fixpoint indexCoords (i : nat) (cs : list Coord3D) (acc : gmap Coord3D nat)
  : gmap Coord3D nat :=
  match cs with
  | [] => acc
  | c :: rest => indexCoords (S i) rest (<[c := i]> acc)
  end.

(** [tIdxs[i] = a.coordToIdx[c]]: a missing key reads as [0]. *)
Definition triangleIdxs (idx : gmap Coord3D nat) (t : Triangle) : nat * nat * nat :=
  (default 0%nat (idx !! Geometry.T0 t),
   default 0%nat (idx !! Geometry.T1 t),
   default 0%nat (idx !! Geometry.T2 t)).

Definition ARAPMaxIterations : Z := 5000.
Definition ARAPMinIterations : Z := 2.

(** [NewARAPWeighted] on a mesh whose [VertexSlice()] is [vertexSlice] and
    whose triangles are iterated in the order [triangleSlice]; [w] holds
    the neighbours and weights computed from them. *)
Definition NewARAPWeighted (vertexSlice : list Coord3D) (triangleSlice : Mesh)
    (w : Weights) : ARAP :=
  let idx := indexCoords 0 vertexSlice ∅ in
  {| coordToIdx := idx;
     coords := vertexSlice;
     triangles := map (triangleIdxs idx) triangleSlice;
     numerics := w;
     maxIters := ARAPMaxIterations;
     minIters := ARAPMinIterations |}.

Definition SetMaxIterations (a : ARAP) (m : Z) : ARAP :=
  {| coordToIdx := coordToIdx a; coords := coords a; triangles := triangles a;
     numerics := numerics a; maxIters := m; minIters := minIters a |}.

Definition SetMinIterations (a : ARAP) (m : Z) : ARAP :=
  {| coordToIdx := coordToIdx a; coords := coords a; triangles := triangles a;
     numerics := numerics a; maxIters := maxIters a; minIters := m |}.

(** [indexConstraints]: panics on a key that is not in the original mesh. *)
Definition indexConstraints (a : ARAP) (constraints : ARAPConstraints)
  : option (gmap nat Coord3D) :=
  map_fold (fun c out (acc : option (gmap nat Coord3D)) =>
              match acc, coordToIdx a !! c with
              | Some res, Some idx => Some (<[idx := out]> res)
              | _, _ => None
              end)
           (Some ∅) constraints.

Record arapOperator : Type := mkOperator {
  arap : ARAP;
  constraints : gmap nat Coord3D;
  squeezedToFull : list nat;
  fullToSqueezed : list Z
}.

(** The loop of [newARAPOperator], [n] iterations left from index [i]. *)
Fixpoint squeezeLoop (cs : gmap nat Coord3D) (n i : nat)
    (s2f : list nat) (f2s : list Z) : list nat * list Z :=
  match n with
  | O => (s2f, f2s)
  | S n' =>
      match cs !! i with
      | None => squeezeLoop cs n' (S i) (s2f ++ [i]) (f2s ++ [Z.of_nat (length s2f)])
      | Some _ => squeezeLoop cs n' (S i) s2f (f2s ++ [-1])
      end
  end.

Definition newARAPOperator (a : ARAP) (cs : gmap nat Coord3D) : arapOperator :=
  let '(s2f, f2s) := squeezeLoop cs (length (coords a)) 0 [] [] in
  {| arap := a; constraints := cs; squeezedToFull := s2f; fullToSqueezed := f2s |}.

Definition Squeeze (l : arapOperator) (full : list Coord3D) : option (list Coord3D) :=
  mapM (fun j => full !! j) (squeezedToFull l).

(** One entry of [Unsqueeze]: the solved value, or the constraint itself. *)
Definition unsqueezeAt (l : arapOperator) (squeezed : list Coord3D)
    (i : nat) (s : Z) : option Coord3D :=
  if decide (s <> -1) then index squeezed s
  else Some (default zeroCoord (constraints l !! i)).

Definition Unsqueeze (l : arapOperator) (squeezed : list Coord3D)
  : option (list Coord3D) :=
  let n := length (coords (arap l)) in
  if decide (length (fullToSqueezed l) <= n)%nat then
    match mapM (fun p => unsqueezeAt l squeezed p.1 p.2)
               (imap pair (fullToSqueezed l)) with
    | Some res => Some (res ++ replicate (n - length (fullToSqueezed l)) zeroCoord)
    | None => None
    end
  else None.

(** The floating-point parts. *)
Variable rotations : ARAP -> list Coord3D -> list Matrix3.
Variable energy : ARAP -> list Coord3D -> list Matrix3 -> Energy.
(** [1-energy/lastEnergy < a.tolerance] *)
Variable converged : ARAP -> Energy -> Energy -> bool.
Variable Targets : arapOperator -> list Matrix3 -> list Coord3D.
Variable SqueezeDelta : arapOperator -> list Coord3D.
Variable Apply : arapOperator -> list Coord3D -> list Coord3D.
(** [NewSparseCholesky(a.squeezedMatrix()).ApplyInverseVec3]; [None] when
    the factorisation fails. *)
Variable cholSolve : arapOperator -> list Coord3D -> option (list Coord3D).

(** [for i, c := range a.SqueezeDelta() { b[i] = b[i].Add(c) }] *)
Definition addDelta (b delta : list Coord3D) : option (list Coord3D) :=
  if decide (length delta <= length b)%nat then
    Some (imap (fun i x => match delta !! i with
                           | Some c => Add x c
                           | None => x
                           end) b)
  else None.

Definition LinSolve (l : arapOperator) (b : list Coord3D) : option (list Coord3D) :=
  match squeezedToFull l with
  | [] => Squeeze l b ≫= Unsqueeze l
  | _ :: _ =>
      Squeeze l b ≫= fun b1 =>
      addDelta b1 (SqueezeDelta l) ≫= fun b2 =>
      cholSolve l b2 ≫= Unsqueeze l
  end.

Definition laplace (a : ARAP) (l : arapOperator) : option (list Coord3D) :=
  let fullL := newARAPOperator a ∅ in
  LinSolve l (Apply fullL (coords a)).

(** The alternation loop of [deformMap]: [n] iterations left, counter [iter]. *)
Fixpoint deformLoop (a : ARAP) (l : arapOperator) (n : nat) (iter : Z)
    (currentOutput : list Coord3D) (rots : list Matrix3) (lastEnergy : Energy)
  : option (list Coord3D) :=
  match n with
  | O => Some currentOutput
  | S n' =>
      match LinSolve l (Targets l rots) with
      | None => None
      | Some currentOutput' =>
          let rots' := rotations a currentOutput' in
          let e := energy a currentOutput' rots' in
          if (minIters a <=? iter + 1) && converged a e lastEnergy
          then Some currentOutput'
          else deformLoop a l n' (iter + 1) currentOutput' rots' e
      end
  end.

Definition deformMap (a : ARAP) (l : arapOperator)
    (initialGuess : option (list Coord3D)) : option (list Coord3D) :=
  (match initialGuess with
   | None => laplace a l
   | Some g => Some g
   end : option (list Coord3D)) ≫= fun guess =>
  (Squeeze l guess ≫= Unsqueeze l) ≫= fun currentOutput =>
  let rots := rotations a currentOutput in
  deformLoop a l (Z.to_nat (maxIters a)) 0 currentOutput rots
             (energy a currentOutput rots).

(** [res[idx] = v] for a key of the guess; a key off the mesh panics. *)
Definition initialGuessSlice (a : ARAP) (m : option (gmap Coord3D Coord3D))
  : option (option (list Coord3D)) :=
  match m with
  | None => Some None
  | Some g =>
      Some <$>
      map_fold (fun k v (acc : option (list Coord3D)) =>
                  match acc, coordToIdx a !! k with
                  | Some res, Some idx =>
                      if decide (idx < length res)%nat
                      then Some (<[idx := v]> res) else None
                  | _, _ => None
                  end)
               (Some (coords a)) g
  end.

(** [for i, c := range s { res[a.coords[i]] = c }] from index [i]. *)
Fixpoint coordsToMapFrom (a : ARAP) (i : nat) (s : list Coord3D)
    (res : gmap Coord3D Coord3D) : option (gmap Coord3D Coord3D) :=
  match s with
  | [] => Some res
  | c :: rest =>
      match coords a !! i with
      | Some k => coordsToMapFrom a (S i) rest (<[k := c]> res)
      | None => None
      end
  end.

Definition coordsToMap (a : ARAP) (s : list Coord3D) : option (gmap Coord3D Coord3D) :=
  coordsToMapFrom a 0 s ∅.

Definition coordsToMesh (a : ARAP) (s : list Coord3D) : option Mesh :=
  mapM (fun '(i0, i1, i2) =>
          s !! i0 ≫= fun c0 =>
          s !! i1 ≫= fun c1 =>
          s !! i2 ≫= fun c2 =>
          Some (Geometry.mkTriangle c0 c1 c2))
       (triangles a).

Definition Deform (a : ARAP) (cs : ARAPConstraints) : option Mesh :=
  indexConstraints a cs ≫= fun idx =>
  deformMap a (newARAPOperator a idx) None ≫= coordsToMesh a.

Definition DeformMap (a : ARAP) (cs : ARAPConstraints)
    (initialGuess : option (gmap Coord3D Coord3D))
  : option (gmap Coord3D Coord3D) :=
  indexConstraints a cs ≫= fun idx =>
  initialGuessSlice a initialGuess ≫= fun guess =>
  deformMap a (newARAPOperator a idx) guess ≫= coordsToMap a.

(** *** Well-formed instances and operators *)

(** What [NewARAPWeighted] establishes: [coordToIdx] maps a vertex to the
    last position it has in [coords], every vertex is indexed, and the
    corners of the triangles are positions of [coords]. *)
Definition wfARAP (a : ARAP) : Prop :=
  (forall c i, coordToIdx a !! c = Some i ->
     coords a !! i = Some c /\ forall j, (i < j)%nat -> coords a !! j <> Some c)
  /\ (forall c, c ∈ coords a -> is_Some (coordToIdx a !! c))
  /\ (forall i0 i1 i2, (i0, i1, i2) ∈ triangles a ->
        (i0 < length (coords a) /\ i1 < length (coords a)
         /\ i2 < length (coords a))%nat).

(** The two index tables of an operator over the first [m] vertices. *)
Definition squeezedOk (cs : gmap nat Coord3D) (m : nat)
    (s2f : list nat) (f2s : list Z) : Prop :=
  length f2s = m
  /\ (forall j, (j < m)%nat ->
        match cs !! j with
        | Some _ => f2s !! j = Some (-1)
        | None => exists k, f2s !! j = Some (Z.of_nat k) /\ s2f !! k = Some j
        end)
  /\ (forall k j, s2f !! k = Some j -> (j < m)%nat).

Definition opOk (l : arapOperator) : Prop :=
  squeezedOk (constraints l) (length (coords (arap l)))
             (squeezedToFull l) (fullToSqueezed l).

(** [s] holds every constraint at its vertex: the property of the claim. *)
Definition pinned (l : arapOperator) (s : list Coord3D) : Prop :=
  length s = length (coords (arap l))
  /\ forall i t, constraints l !! i = Some t ->
                 (i < length (coords (arap l)))%nat -> s !! i = Some t.

(** The contract of the numerical services. *)
Definition numericsContract : Prop :=
  (forall l b, exists x, cholSolve l b = Some x /\ length x = length b)
  /\ (forall l r, length (Targets l r) = length (coords (arap l)))
  /\ (forall l, length (SqueezeDelta l) = length (squeezedToFull l))
  /\ (forall l v, length (Apply l v) = length v).

Lemma squeezeLoop_ok cs n : forall i s2f f2s,
  squeezedOk cs i s2f f2s ->
  squeezedOk cs (i + n) (squeezeLoop cs n i s2f f2s).1 (squeezeLoop cs n i s2f f2s).2.
Proof.
  induction n as [|n IH]; intros i s2f f2s Hok; cbn [squeezeLoop].
  - rewrite Nat.add_0_r. exact Hok.
  - destruct Hok as (Hlen & Hent & Hs2f).
    replace (i + S n)%nat with (S i + n)%nat by lia.
    destruct (cs !! i) as [t|] eqn:Hci; apply IH; (split; [|split]).
    + rewrite length_app. cbn. lia.
    + intros j Hj. destruct (decide (j = i)) as [->|Hne].
      * rewrite Hci, lookup_app_r by lia.
        replace (i - length f2s)%nat with 0%nat by lia. reflexivity.
      * assert (Hlt : (j < i)%nat) by lia. specialize (Hent j Hlt).
        rewrite lookup_app_l by lia. exact Hent.
    + intros k j Hk. apply Hs2f in Hk. lia.
    + rewrite length_app. cbn. lia.
    + intros j Hj. destruct (decide (j = i)) as [->|Hne].
      * rewrite Hci. exists (length s2f). split.
        -- rewrite lookup_app_r by lia.
           replace (i - length f2s)%nat with 0%nat by lia. reflexivity.
        -- rewrite lookup_app_r by lia. rewrite Nat.sub_diag. reflexivity.
      * assert (Hlt : (j < i)%nat) by lia. specialize (Hent j Hlt).
        rewrite lookup_app_l by lia.
        destruct (cs !! j); [exact Hent|].
        destruct Hent as (k & Hf & Hs). exists k. split; [exact Hf|].
        rewrite lookup_app_l; [exact Hs|]. apply lookup_lt_Some in Hs. exact Hs.
    + intros k j Hk. apply lookup_app_Some in Hk as [Hk|[_ Hk]].
      * apply Hs2f in Hk. lia.
      * apply list_lookup_singleton_Some in Hk as [_ <-]. lia.
Qed.

Lemma newARAPOperator_ok a cs : opOk (newARAPOperator a cs).
Proof.
  unfold opOk, newARAPOperator.
  pose proof (squeezeLoop_ok cs (length (coords a)) 0 [] []) as Hok.
  destruct (squeezeLoop cs (length (coords a)) 0 [] []) as [s2f f2s]. cbn in *.
  apply Hok. split; [reflexivity|]. split.
  - intros j Hj. lia.
  - intros k j Hk. rewrite lookup_nil in Hk. discriminate.
Qed.

Lemma newARAPOperator_arap a cs : arap (newARAPOperator a cs) = a.
Proof.
  unfold newARAPOperator. destruct (squeezeLoop _ _ _ _ _). reflexivity.
Qed.

Lemma newARAPOperator_constraints a cs : constraints (newARAPOperator a cs) = cs.
Proof.
  unfold newARAPOperator. destruct (squeezeLoop _ _ _ _ _). reflexivity.
Qed.

(** *** [Unsqueeze] writes the constraints; every solve ends in it *)

Lemma Unsqueeze_pinned l squeezed out :
  opOk l -> Unsqueeze l squeezed = Some out -> pinned l out.
Proof.
  intros (Hlen & Hent & _). unfold Unsqueeze. rewrite Hlen.
  rewrite decide_True by lia. rewrite Nat.sub_diag. cbn [replicate].
  destruct (mapM _ _) as [res|] eqn:Hm; [|discriminate].
  intros [= <-]. rewrite app_nil_r.
  apply mapM_Some in Hm. split.
  - apply Forall2_length in Hm. rewrite length_imap in Hm. congruence.
  - intros i t Hc Hi.
    assert (Hf : fullToSqueezed l !! i = Some (-1)).
    { specialize (Hent i Hi). rewrite Hc in Hent. exact Hent. }
    assert (Hp : imap pair (fullToSqueezed l) !! i = Some (i, -1)).
    { rewrite list_lookup_imap, Hf. reflexivity. }
    eapply Forall2_lookup_l in Hp as (y & Hy & Hun); [|exact Hm].
    rewrite Hy. cbn in Hun. unfold unsqueezeAt in Hun.
    rewrite decide_False in Hun by (intros Hn; apply Hn; reflexivity).
    rewrite Hc in Hun. cbn in Hun. congruence.
Qed.

Lemma Unsqueeze_total l squeezed :
  opOk l -> (length (squeezedToFull l) <= length squeezed)%nat ->
  is_Some (Unsqueeze l squeezed).
Proof.
  intros (Hlen & Hent & _) Hsq. unfold Unsqueeze. rewrite Hlen.
  rewrite decide_True by lia.
  assert (Hall : is_Some (mapM (fun p => unsqueezeAt l squeezed p.1 p.2)
                               (imap pair (fullToSqueezed l)))).
  { apply mapM_is_Some, Forall_lookup. intros i [j s] Hl.
    apply list_lookup_imap_Some in Hl as (s' & Hs' & [= -> ->]).
    assert (Hi : (i < length (coords (arap l)))%nat).
    { rewrite <- Hlen. eapply lookup_lt_Some, Hs'. }
    specialize (Hent i Hi). cbn. unfold unsqueezeAt.
    destruct (constraints l !! i) as [t|] eqn:Hc.
    - rewrite Hs' in Hent. injection Hent as ->.
      rewrite decide_False by (intros Hn; apply Hn; reflexivity). eauto.
    - destruct Hent as (k & Hf & Hk). rewrite Hs' in Hf. injection Hf as ->.
      rewrite decide_True by lia. unfold index.
      destruct (Z.ltb_spec (Z.of_nat k) 0) as [|_]; [lia|].
      rewrite Nat2Z.id. apply lookup_lt_is_Some.
      apply lookup_lt_Some in Hk. lia. }
  destruct Hall as [res ->]. eauto.
Qed.

Lemma Squeeze_total l full :
  opOk l -> length full = length (coords (arap l)) ->
  exists sq, Squeeze l full = Some sq /\ length sq = length (squeezedToFull l).
Proof.
  intros (_ & _ & Hs2f) Hfull. unfold Squeeze.
  assert (Hall : is_Some (mapM (fun j => full !! j) (squeezedToFull l))).
  { apply mapM_is_Some, Forall_lookup. intros k j Hk. cbn.
    apply lookup_lt_is_Some. rewrite Hfull. eapply Hs2f, Hk. }
  destruct Hall as [sq Hsq]. exists sq. split; [exact Hsq|].
  apply length_mapM in Hsq. congruence.
Qed.

Lemma LinSolve_pinned l b out : opOk l -> LinSolve l b = Some out -> pinned l out.
Proof.
  intros Hok. unfold LinSolve.
  destruct (squeezedToFull l); cbn.
  - destruct (Squeeze l b) as [sq|]; cbn; [|discriminate].
    apply Unsqueeze_pinned, Hok.
  - destruct (Squeeze l b) as [b1|]; cbn; [|discriminate].
    destruct (addDelta b1 (SqueezeDelta l)) as [b2|]; cbn; [|discriminate].
    destruct (cholSolve l b2) as [x|]; cbn; [|discriminate].
    apply Unsqueeze_pinned, Hok.
Qed.

Lemma LinSolve_total l b :
  numericsContract -> opOk l -> length b = length (coords (arap l)) ->
  is_Some (LinSolve l b).
Proof.
  intros (Hchol & _ & Hdelta & _) Hok Hb.
  destruct (Squeeze_total l b Hok Hb) as (sq & Hsq & Hlen).
  unfold LinSolve. destruct (squeezedToFull l) as [|j s2f] eqn:Hs2f.
  - rewrite Hsq. cbn. apply Unsqueeze_total; [exact Hok|]. rewrite Hs2f. cbn. lia.
  - rewrite Hsq. cbn. unfold addDelta.
    rewrite decide_True by (rewrite Hdelta, Hs2f, Hlen; reflexivity). cbn.
    destruct (Hchol l (imap (fun i x => match SqueezeDelta l !! i with
                                        | Some c => Add x c
                                        | None => x
                                        end) sq)) as (x & -> & Hx).
    cbn. apply Unsqueeze_total; [exact Hok|].
    rewrite Hx, length_imap, Hlen, Hs2f. reflexivity.
Qed.

Lemma deformLoop_pinned a l n : forall iter cur rots e out,
  opOk l -> pinned l cur ->
  deformLoop a l n iter cur rots e = Some out -> pinned l out.
Proof.
  induction n as [|n IH]; intros iter cur rots e out Hok Hcur; cbn [deformLoop].
  - intros [= <-]. exact Hcur.
  - destruct (LinSolve l (Targets l rots)) as [cur'|] eqn:Hsolve; [|discriminate].
    pose proof (LinSolve_pinned _ _ _ Hok Hsolve) as Hcur'.
    destruct (_ && _).
    + intros [= <-]. exact Hcur'.
    + apply IH; assumption.
Qed.

Lemma deformLoop_total a l n : forall iter cur rots e,
  numericsContract -> opOk l -> is_Some (deformLoop a l n iter cur rots e).
Proof.
  induction n as [|n IH]; intros iter cur rots e Hnum Hok; cbn [deformLoop].
  - eauto.
  - destruct (LinSolve_total l (Targets l rots) Hnum Hok) as [cur' ->].
    { destruct Hnum as (_ & Htargets & _). apply Htargets. }
    destruct (_ && _); [eauto|]. apply IH; assumption.
Qed.

Lemma deformMap_pinned a l guess out :
  opOk l -> deformMap a l guess = Some out -> pinned l out.
Proof.
  intros Hok. unfold deformMap.
  destruct (match guess with None => laplace a l | Some g => Some g end)
    as [g|]; cbn; [|discriminate].
  destruct (Squeeze l g) as [sq|]; cbn; [|discriminate].
  destruct (Unsqueeze l sq) as [cur|] eqn:Hun; cbn; [|discriminate].
  apply deformLoop_pinned; [exact Hok|].
  eapply Unsqueeze_pinned; eassumption.
Qed.

Lemma deformMap_total a l guess :
  numericsContract -> opOk l -> arap l = a ->
  (forall g, guess = Some g -> length g = length (coords a)) ->
  is_Some (deformMap a l guess).
Proof.
  intros Hnum Hok Harap Hguess. unfold deformMap.
  assert (Hinit : exists g,
             match guess with None => laplace a l | Some g => Some g end = Some g
             /\ length g = length (coords a)).
  { destruct guess as [g|].
    - exists g. split; [reflexivity|]. apply Hguess. reflexivity.
    - unfold laplace.
      destruct (LinSolve_total l (Apply (newARAPOperator a ∅) (coords a)) Hnum Hok)
        as [g Hg].
      { destruct Hnum as (_ & _ & _ & Happly). rewrite Happly, Harap. reflexivity. }
      exists g. split; [exact Hg|].
      apply LinSolve_pinned in Hg as [Hlen _]; [|exact Hok]. congruence. }
  destruct Hinit as (g & -> & Hg). cbn.
  destruct (Squeeze_total l g Hok) as (sq & -> & Hsq); [congruence|]. cbn.
  destruct (Unsqueeze_total l sq Hok) as [cur ->]; [lia|]. cbn.
  apply deformLoop_total; assumption.
Qed.

(** *** The instance built by [NewARAPWeighted] *)

Lemma indexCoords_lookup cs : forall i acc c k,
  indexCoords i cs acc !! c = Some k ->
  (exists p, k = (i + p)%nat /\ cs !! p = Some c
             /\ forall q, (p < q)%nat -> cs !! q <> Some c)
  \/ ((c ∉ cs) /\ acc !! c = Some k).
Proof.
  induction cs as [|c0 cs IH]; intros i acc c k; cbn [indexCoords].
  - intros Hk. right. split; [apply not_elem_of_nil|exact Hk].
  - intros Hk. apply IH in Hk as [(p & -> & Hp & Hlast)|[Hnin Hacc]].
    + left. exists (S p). split; [lia|]. split; [exact Hp|].
      intros [|q] Hq; [lia|]. cbn. apply Hlast. lia.
    + apply lookup_insert_Some in Hacc as [[<- <-]|[Hne Hacc]].
      * left. exists 0%nat. split; [lia|]. split; [reflexivity|].
        intros [|q] Hq; [lia|]. cbn. intros Hq'.
        apply Hnin. eapply list_elem_of_lookup_2, Hq'.
      * right. split; [|exact Hacc]. intros Hin.
        apply elem_of_cons in Hin as [->|Hin]; [congruence|contradiction].
Qed.

Lemma indexCoords_elem cs : forall i acc c,
  (c ∈ cs) \/ is_Some (acc !! c) -> is_Some (indexCoords i cs acc !! c).
Proof.
  induction cs as [|c0 cs IH]; intros i acc c; cbn [indexCoords].
  - intros [Hin|Hacc]; [inversion Hin|exact Hacc].
  - intros [Hin|Hacc]; apply IH.
    + apply elem_of_cons in Hin as [->|Hin]; [right|left; exact Hin].
      rewrite lookup_insert_eq. eauto.
    + right. rewrite lookup_insert_is_Some'. right. exact Hacc.
Qed.

Lemma NewARAPWeighted_wf vertexSlice triangleSlice w :
  (forall t c, t ∈ triangleSlice -> c ∈ Geometry.corners t -> c ∈ vertexSlice) ->
  wfARAP (NewARAPWeighted vertexSlice triangleSlice w).
Proof.
  intros Hcorners. unfold wfARAP, NewARAPWeighted; cbn. split; [|split].
  - intros c i Hi. apply indexCoords_lookup in Hi as [(p & -> & Hp & Hlast)|[_ Hemp]].
    + split; [exact Hp|exact Hlast].
    + rewrite lookup_empty in Hemp. discriminate.
  - intros c Hin. apply indexCoords_elem. left. exact Hin.
  - intros i0 i1 i2 Hin. apply list_elem_of_fmap in Hin as (t & Heq & Ht).
    unfold triangleIdxs in Heq. injection Heq as -> -> ->.
    assert (Hidx : forall c, c ∈ Geometry.corners t ->
              (default 0%nat (indexCoords 0 vertexSlice ∅ !! c) < length vertexSlice)%nat).
    { intros c Hc. specialize (Hcorners t c Ht Hc).
      destruct (indexCoords_elem vertexSlice 0 ∅ c (or_introl Hcorners)) as [k Hk].
      rewrite Hk. cbn.
      apply indexCoords_lookup in Hk as [(p & -> & Hp & _)|[Hnin _]]; [|contradiction].
      apply lookup_lt_Some in Hp. lia. }
    unfold Geometry.corners in Hidx.
    repeat split; apply Hidx; set_solver.
Qed.

Lemma wfARAP_SetMaxIterations a m : wfARAP a -> wfARAP (SetMaxIterations a m).
Proof. intros Hwf. exact Hwf. Qed.

Lemma wfARAP_SetMinIterations a m : wfARAP a -> wfARAP (SetMinIterations a m).
Proof. intros Hwf. exact Hwf. Qed.

(** *** Constraints by index *)

Lemma indexConstraints_spec a cs :
  wfARAP a ->
  (forall c, is_Some (cs !! c) -> c ∈ coords a) ->
  exists idx, indexConstraints a cs = Some idx
    /\ forall i t, idx !! i = Some t
                   <-> exists c, cs !! c = Some t /\ coordToIdx a !! c = Some i.
Proof.
  intros (Hidx & Hall & _). unfold indexConstraints.
  refine (map_fold_weak_ind
            (fun r m =>
               (forall c, is_Some (m !! c) -> c ∈ coords a) ->
               exists idx, r = Some idx
                 /\ forall i t, idx !! i = Some t
                      <-> exists c, m !! c = Some t /\ coordToIdx a !! c = Some i)
            _ _ _ _ cs).
  - intros _. exists ∅. split; [reflexivity|]. intros i t. rewrite lookup_empty.
    split; [discriminate|]. intros (c & Hc & _). rewrite lookup_empty in Hc. discriminate.
  - intros c0 out m r Hfresh IH Hkeys.
    destruct IH as (idx & -> & Hchar).
    { intros c Hc. apply Hkeys. rewrite lookup_insert_is_Some'. right. exact Hc. }
    destruct (Hall c0) as [i0 Hi0].
    { apply Hkeys. rewrite lookup_insert_eq. eauto. }
    rewrite Hi0. exists (<[i0 := out]> idx). split; [reflexivity|].
    intros i t. rewrite lookup_insert_Some, Hchar. split.
    + intros [[<- <-]|[Hne (c & Hc & Hi)]].
      * exists c0. rewrite lookup_insert_eq. auto.
      * exists c. split; [|exact Hi]. rewrite lookup_insert_ne; [exact Hc|].
        intros <-. congruence.
    + intros (c & Hc & Hi). apply lookup_insert_Some in Hc as [[<- <-]|[Hne Hc]].
      * left. split; congruence.
      * right. split; [|exists c; auto].
        intros <-. apply Hne.
        destruct (Hidx _ _ Hi0) as [H0 _]. destruct (Hidx _ _ Hi) as [H1 _]. congruence.
Qed.

(** *** From the solved slice to the results *)

Lemma coordsToMapFrom_other a s : forall i res r c,
  coordsToMapFrom a i s res = Some r ->
  (forall q, (i <= q)%nat -> coords a !! q <> Some c) ->
  r !! c = res !! c.
Proof.
  induction s as [|x s IH]; intros i res r c; cbn [coordsToMapFrom].
  - intros [= <-] _. reflexivity.
  - destruct (coords a !! i) as [k|] eqn:Hk; [|discriminate].
    intros Hr Hnone. rewrite (IH _ _ _ _ Hr).
    + apply lookup_insert_ne. intros ->. apply (Hnone i); [lia|exact Hk].
    + intros q Hq. apply Hnone. lia.
Qed.

Lemma coordsToMapFrom_lookup a s : forall i res r c j,
  coordsToMapFrom a i s res = Some r ->
  coords a !! j = Some c ->
  (forall q, (j < q)%nat -> coords a !! q <> Some c) ->
  (i <= j < i + length s)%nat ->
  r !! c = s !! (j - i)%nat.
Proof.
  induction s as [|x s IH]; intros i res r c j; cbn [coordsToMapFrom length].
  - intros _ _ _ Hj. lia.
  - destruct (coords a !! i) as [k|] eqn:Hk; [|discriminate].
    intros Hr Hj Hlast Hrange. destruct (decide (j = i)) as [->|Hne].
    + rewrite Nat.sub_diag. cbn.
      rewrite (coordsToMapFrom_other _ _ _ _ _ _ Hr).
      * assert (k = c) by congruence. subst k. apply lookup_insert_eq.
      * intros q Hq. apply Hlast. lia.
    + replace (j - i)%nat with (S (j - S i)) by lia. cbn.
      eapply IH; eauto. lia.
Qed.

Lemma coordsToMapFrom_total a s : forall i res,
  (i + length s <= length (coords a))%nat ->
  is_Some (coordsToMapFrom a i s res).
Proof.
  induction s as [|x s IH]; intros i res; cbn [coordsToMapFrom length]; [eauto|].
  intros Hlen. destruct (lookup_lt_is_Some_2 (coords a) i) as [k ->]; [lia|].
  apply IH. lia.
Qed.

Lemma coordsToMesh_total a s :
  wfARAP a -> length s = length (coords a) -> is_Some (coordsToMesh a s).
Proof.
  intros (_ & _ & Htri) Hlen. unfold coordsToMesh.
  apply mapM_is_Some, Forall_forall. intros [[i0 i1] i2] Hin.
  destruct (Htri _ _ _ Hin) as (H0 & H1 & H2). cbn.
  destruct (lookup_lt_is_Some_2 s i0) as [c0 ->]; [lia|].
  destruct (lookup_lt_is_Some_2 s i1) as [c1 ->]; [lia|].
  destruct (lookup_lt_is_Some_2 s i2) as [c2 ->]; [lia|].
  cbn. eauto.
Qed.

(** *** The constraints in the results *)

Definition triIdx (tri : nat * nat * nat) (j : nat) : nat :=
  match j with
  | O => tri.1.1
  | S O => tri.1.2
  | _ => tri.2
  end.

(** In the deformed mesh, a corner of a triangle that stands for the
    constrained vertex [c] is at the target of [c]. *)
Definition meshPinned (a : ARAP) (cs : ARAPConstraints) (mesh : Mesh) : Prop :=
  length mesh = length (triangles a)
  /\ forall k tri tr c t j,
       triangles a !! k = Some tri -> mesh !! k = Some tr ->
       cs !! c = Some t -> coordToIdx a !! c = Some (triIdx tri j) ->
       Geometry.corner tr j = t.

Lemma coordsToMesh_pinned a cs idx s mesh :
  (forall i t, idx !! i = Some t
               <-> exists c, cs !! c = Some t /\ coordToIdx a !! c = Some i) ->
  pinned (newARAPOperator a idx) s ->
  coordsToMesh a s = Some mesh ->
  meshPinned a cs mesh.
Proof.
  intros Hchar [Hlen Hpin] Hmesh.
  rewrite newARAPOperator_arap, newARAPOperator_constraints in *.
  unfold coordsToMesh in Hmesh. apply mapM_Some in Hmesh. split.
  - symmetry. eapply Forall2_length, Hmesh.
  - intros k [[i0 i1] i2] tr c t j Hk Htr Hc Hj.
    eapply Forall2_lookup_l in Hk as (tr' & Htr' & Hbuild); [|exact Hmesh].
    assert (tr' = tr) by congruence. subst tr'. cbn in Hbuild.
    destruct (s !! i0) as [c0|] eqn:H0; cbn in Hbuild; [|discriminate].
    destruct (s !! i1) as [c1|] eqn:H1; cbn in Hbuild; [|discriminate].
    destruct (s !! i2) as [c2|] eqn:H2; cbn in Hbuild; [|discriminate].
    injection Hbuild as <-.
    assert (Hs : s !! triIdx (i0, i1, i2) j = Some t).
    { apply Hpin.
      - apply Hchar. exists c. auto.
      - rewrite <- Hlen. destruct j as [|[|j]]; cbn; eapply lookup_lt_Some; eauto. }
    destruct j as [|[|j]]; cbn in *; congruence.
Qed.

(** C5. For an instance built by [NewARAPWeighted] (any [wfARAP] instance)
    and constraints whose keys are vertices of the mesh: whenever [Deform]
    returns, each corner of the deformed mesh that stands for a constrained
    vertex is exactly its target; whenever [DeformMap] returns, with or
    without an initial guess, it maps each constrained vertex exactly to
    its target; this for any iteration bounds and any numerical services.
    When the services keep their contract, both calls do return. *)
Theorem Deform_constraints_exact (a : ARAP) (cs : ARAPConstraints) :
  wfARAP a ->
  (forall c, is_Some (cs !! c) -> c ∈ coords a) ->
  (forall mesh, Deform a cs = Some mesh -> meshPinned a cs mesh)
  /\ (forall guess res c t,
        DeformMap a cs guess = Some res -> cs !! c = Some t -> res !! c = Some t)
  /\ (numericsContract -> is_Some (Deform a cs) /\ is_Some (DeformMap a cs None)).
Proof.
  intros Hwf Hkeys.
  destruct (indexConstraints_spec a cs Hwf Hkeys) as (idx & Hidx & Hchar).
  pose proof (newARAPOperator_ok a idx) as Hok.
  unfold Deform, DeformMap. rewrite Hidx. cbn [mbind option_bind].
  split; [|split].
  - intros mesh Hmesh.
    destruct (deformMap a (newARAPOperator a idx) None) as [s|] eqn:Hs;
      cbn in Hmesh; [|discriminate].
    eapply coordsToMesh_pinned; eauto using deformMap_pinned.
  - intros guess res c t Hres Hc.
    destruct (initialGuessSlice a guess) as [g|]; cbn in Hres; [|discriminate].
    destruct (deformMap a (newARAPOperator a idx) g) as [s|] eqn:Hs;
      cbn in Hres; [|discriminate].
    apply deformMap_pinned in Hs as [Hlen Hpin]; [|exact Hok].
    rewrite newARAPOperator_arap, newARAPOperator_constraints in *.
    destruct Hwf as (Hlast & Hall & _).
    destruct (Hall c) as [i Hi]; [apply Hkeys; eauto|].
    destruct (Hlast c i Hi) as [Hci Hafter].
    assert (Hlt : (i < length (coords a))%nat) by (eapply lookup_lt_Some, Hci).
    unfold coordsToMap in Hres.
    rewrite (coordsToMapFrom_lookup _ _ _ _ _ _ _ Hres Hci Hafter) by lia.
    rewrite Nat.sub_0_r. apply Hpin; [|exact Hlt].
    apply Hchar. exists c. auto.
  - intros Hnum.
    assert (Hdef : forall g, (forall x, g = Some x -> length x = length (coords a)) ->
               exists s, deformMap a (newARAPOperator a idx) g = Some s
                         /\ length s = length (coords a)).
    { intros g Hg.
      destruct (deformMap_total a (newARAPOperator a idx) g Hnum Hok) as [s Hs].
      - apply newARAPOperator_arap.
      - exact Hg.
      - exists s. split; [exact Hs|].
        apply deformMap_pinned in Hs as [Hlen _]; [|exact Hok].
        rewrite newARAPOperator_arap in Hlen. exact Hlen. }
    destruct (Hdef None) as (s & Hs & Hlen); [discriminate|].
    cbn [initialGuessSlice mbind option_bind]. rewrite Hs. cbn [mbind option_bind].
    split.
    + apply coordsToMesh_total; assumption.
    + apply coordsToMapFrom_total. lia.
Qed.

(** *** [Squeeze] and [Unsqueeze] on the free vertices *)

(** Each entry of [squeezedToFull] is read back by [fullToSqueezed], at a
    vertex without a constraint. *)
Definition tablesInverse (cs : gmap nat Coord3D) (s2f : list nat) (f2s : list Z) : Prop :=
  forall k j, s2f !! k = Some j -> f2s !! j = Some (Z.of_nat k) /\ cs !! j = None.

Lemma squeezeLoop_inverse cs n : forall i s2f f2s,
  length f2s = i -> tablesInverse cs s2f f2s ->
  tablesInverse cs (squeezeLoop cs n i s2f f2s).1 (squeezeLoop cs n i s2f f2s).2.
Proof.
  induction n as [|n IH]; intros i s2f f2s Hlen Hinv; cbn [squeezeLoop]; [exact Hinv|].
  destruct (cs !! i) as [t|] eqn:Hci; apply IH.
  - rewrite length_app. cbn. lia.
  - intros k j Hk. destruct (Hinv k j Hk) as [Hf Hc]. split; [|exact Hc].
    rewrite lookup_app_l; [exact Hf|]. eapply lookup_lt_Some, Hf.
  - rewrite length_app. cbn. lia.
  - intros k j Hk. apply lookup_app_Some in Hk as [Hk|[Hge Hk]].
    + destruct (Hinv k j Hk) as [Hf Hc]. split; [|exact Hc].
      rewrite lookup_app_l; [exact Hf|]. eapply lookup_lt_Some, Hf.
    + apply list_lookup_singleton_Some in Hk as [Hk <-].
      assert (k = length s2f) by lia. subst k. split; [|exact Hci].
      rewrite lookup_app_r by lia. rewrite Hlen, Nat.sub_diag. reflexivity.
Qed.

Lemma newARAPOperator_inverse a cs :
  tablesInverse cs (squeezedToFull (newARAPOperator a cs))
                (fullToSqueezed (newARAPOperator a cs)).
Proof.
  unfold newARAPOperator.
  pose proof (squeezeLoop_inverse cs (length (coords a)) 0 [] [] eq_refl) as Hinv.
  destruct (squeezeLoop cs (length (coords a)) 0 [] []) as [s2f f2s]. cbn in *.
  apply Hinv. intros k j Hk. rewrite lookup_nil in Hk. discriminate.
Qed.

Lemma Unsqueeze_lookup l squeezed full :
  opOk l -> Unsqueeze l squeezed = Some full ->
  length full = length (coords (arap l))
  /\ forall i s, fullToSqueezed l !! i = Some s -> full !! i = unsqueezeAt l squeezed i s.
Proof.
  intros (Hlen & _ & _). unfold Unsqueeze. rewrite Hlen.
  rewrite decide_True by lia. rewrite Nat.sub_diag. cbn [replicate].
  destruct (mapM _ _) as [res|] eqn:Hm; [|discriminate].
  intros [= <-]. rewrite app_nil_r. apply mapM_Some in Hm. split.
  - apply Forall2_length in Hm. rewrite length_imap in Hm. congruence.
  - intros i s Hs.
    assert (Hp : imap pair (fullToSqueezed l) !! i = Some (i, s)).
    { rewrite list_lookup_imap, Hs. reflexivity. }
    eapply Forall2_lookup_l in Hp as (y & Hy & Hun); [|exact Hm].
    cbn in Hun. rewrite Hy, Hun. reflexivity.
Qed.

(** X16.  For the operator that [newARAPOperator] builds, [Squeeze] and
    [Unsqueeze] are inverse to each other up to the constraints:
    unsqueezing a vector of free values and squeezing the result gives the
    vector back, and squeezing a full vector and unsqueezing it gives the
    full vector back at the free vertices and the constraint at each
    constrained vertex.  Neither call panics on vectors of these lengths. *)
Theorem Squeeze_Unsqueeze_inverse (a : ARAP) (cs : gmap nat Coord3D) :
  let l := newARAPOperator a cs in
  (forall x, length x = length (squeezedToFull l) ->
     exists full, Unsqueeze l x = Some full
                  /\ length full = length (coords a)
                  /\ Squeeze l full = Some x)
  /\ (forall full, length full = length (coords a) ->
        exists x full',
          Squeeze l full = Some x
          /\ Unsqueeze l x = Some full'
          /\ forall i, (i < length (coords a))%nat ->
               full' !! i = match cs !! i with
                            | Some t => Some t
                            | None => full !! i
                            end).
Proof.
  intros l.
  pose proof (newARAPOperator_ok a cs) as Hok. fold l in Hok.
  pose proof (newARAPOperator_inverse a cs) as Hinv. fold l in Hinv.
  pose proof (newARAPOperator_arap a cs) as Harap. fold l in Harap.
  pose proof (newARAPOperator_constraints a cs) as Hcs. fold l in Hcs.
  split.
  - intros x Hx.
    destruct (Unsqueeze_total l x Hok) as [full Hfull]; [lia|].
    destruct (Unsqueeze_lookup l x full Hok Hfull) as (Hlen & Hlk).
    exists full. split; [exact Hfull|]. split; [congruence|].
    unfold Squeeze. apply mapM_Some, Forall2_same_length_lookup. split; [lia|].
    intros k j y Hk Hy. destruct (Hinv k j Hk) as [Hf _].
    rewrite (Hlk j _ Hf). unfold unsqueezeAt.
    rewrite decide_True by lia. unfold index.
    destruct (Z.ltb_spec (Z.of_nat k) 0) as [Hneg|_]; [lia|]. rewrite Nat2Z.id. exact Hy.
  - intros full Hfull.
    destruct (Squeeze_total l full Hok) as (x & Hx & Hxlen); [congruence|].
    destruct (Unsqueeze_total l x Hok) as [full' Hfull']; [lia|].
    destruct (Unsqueeze_lookup l x full' Hok Hfull') as (Hlen & Hlk).
    exists x, full'. split; [exact Hx|]. split; [exact Hfull'|].
    intros i Hi. destruct Hok as (Hflen & Hent & _).
    rewrite Harap in Hent, Hflen. specialize (Hent i Hi). rewrite Hcs in Hent.
    destruct (cs !! i) as [t|] eqn:Hci.
    + rewrite (Hlk i _ Hent). unfold unsqueezeAt. rewrite decide_False by lia.
      rewrite Hcs, Hci. reflexivity.
    + destruct Hent as (k & Hf & Hs). rewrite (Hlk i _ Hf). unfold unsqueezeAt.
      rewrite decide_True by lia. unfold index.
      destruct (Z.ltb_spec (Z.of_nat k) 0) as [Hneg|_]; [lia|]. rewrite Nat2Z.id.
      unfold Squeeze in Hx. apply mapM_Some in Hx.
      eapply Forall2_lookup_l in Hs as (y & Hy & Hfy); [|exact Hx].
      rewrite Hy, Hfy. reflexivity.
Qed.

(** *** [arapOperator.Update] *)

(** [for k := range constraints { if _, ok := a.constraints[k]; !ok { ... } }]:
    some key of [cs] is not constrained in [l]. *)
Definition newKey (l : arapOperator) (cs : gmap nat Coord3D) : bool :=
  map_fold (fun k _ (found : bool) => found || bool_decide (constraints l !! k = None))
           false cs.

Definition Update (l : arapOperator) (cs : gmap nat Coord3D) : arapOperator :=
  if decide (size cs <> size (constraints l)) then newARAPOperator (arap l) cs
  else if newKey l cs then newARAPOperator (arap l) cs
  else {| arap := arap l; constraints := cs;
          squeezedToFull := squeezedToFull l; fullToSqueezed := fullToSqueezed l |}.

Lemma newKey_false l cs :
  newKey l cs = false -> forall k, is_Some (cs !! k) -> is_Some (constraints l !! k).
Proof.
  unfold newKey.
  apply (map_fold_weak_ind
           (fun (r : bool) (m : gmap nat Coord3D) =>
              r = false -> forall k, is_Some (m !! k) -> is_Some (constraints l !! k))).
  - intros _ k [x Hx]. rewrite lookup_empty in Hx. discriminate.
  - intros i x m r Hi IH Hr k Hk. apply orb_false_elim in Hr as [Hr Hb].
    apply bool_decide_eq_false in Hb.
    rewrite lookup_insert_is_Some in Hk. destruct Hk as [<-|[_ Hk]]; [|apply IH; auto].
    destruct (constraints l !! i); [eauto|contradiction].
Qed.

Lemma squeezeLoop_ext cs cs' n : forall i s2f f2s,
  (forall k, is_Some (cs !! k) <-> is_Some (cs' !! k)) ->
  squeezeLoop cs n i s2f f2s = squeezeLoop cs' n i s2f f2s.
Proof.
  induction n as [|n IH]; intros i s2f f2s Hdom; cbn [squeezeLoop]; [reflexivity|].
  specialize (Hdom i) as Hi.
  destruct (cs !! i) as [t|], (cs' !! i) as [t'|]; try (apply IH; exact Hdom).
  - destruct Hi as [Hi _]. destruct (Hi (ex_intro _ t eq_refl)) as [? [=]].
  - destruct Hi as [_ Hi]. destruct (Hi (ex_intro _ t' eq_refl)) as [? [=]].
Qed.

(** X17.  [Update] gives the operator that [newARAPOperator] builds for
    the new constraints: when it keeps the index tables, because as many
    vertices are constrained and each of them was constrained before, the
    tables it keeps are the ones a rebuild would compute. *)
Theorem Update_as_rebuilt (a : ARAP) (cs0 cs : gmap nat Coord3D) :
  Update (newARAPOperator a cs0) cs = newARAPOperator a cs.
Proof.
  unfold Update. rewrite newARAPOperator_arap, newARAPOperator_constraints.
  destruct (decide (size cs <> size cs0)) as [|Hsize]; [reflexivity|].
  destruct (newKey (newARAPOperator a cs0) cs) eqn:Hnew; [reflexivity|].
  pose proof (newKey_false _ _ Hnew) as Hsub.
  rewrite newARAPOperator_constraints in Hsub.
  assert (Hdom : dom cs = dom cs0).
  { apply set_subseteq_size_eq.
    - intros k Hk. apply elem_of_dom in Hk. apply elem_of_dom, Hsub, Hk.
    - rewrite !size_dom. lia. }
  assert (Hext : forall k, is_Some (cs0 !! k) <-> is_Some (cs !! k)).
  { intros k. rewrite <- !elem_of_dom, Hdom. reflexivity. }
  unfold newARAPOperator.
  rewrite (squeezeLoop_ext cs0 cs _ 0 [] [] Hext).
  destruct (squeezeLoop cs (length (coords a)) 0 [] []) as [s2f f2s]. reflexivity.
Qed.

(** *** A constraint off the mesh *)

Lemma indexConstraints_None a cs :
  indexConstraints a cs = None
  <-> exists c t, cs !! c = Some t /\ coordToIdx a !! c = None.
Proof.
  unfold indexConstraints.
  apply (map_fold_weak_ind
           (fun (r : option (gmap nat Coord3D)) (m : gmap Coord3D Coord3D) =>
              r = None <-> exists c t, m !! c = Some t /\ coordToIdx a !! c = None)).
  - split; [discriminate|]. intros (c & t & Hc & _). rewrite lookup_empty in Hc.
    discriminate.
  - intros i x m r Hi IH. split.
    + intros Hr. destruct r as [res|].
      * destruct (coordToIdx a !! i) as [idx|] eqn:Hidx; [discriminate|].
        exists i, x. rewrite lookup_insert_eq. auto.
      * destruct IH as [IH _]. destruct (IH eq_refl) as (c & t & Hc & Hmiss).
        exists c, t. split; [|exact Hmiss]. rewrite lookup_insert_ne; [exact Hc|].
        intros ->. congruence.
    + intros (c & t & Hc & Hmiss). apply lookup_insert_Some in Hc as [[<- <-]|[Hne Hc]].
      * rewrite Hmiss. destruct r; reflexivity.
      * destruct IH as [_ IH]. rewrite IH by eauto. reflexivity.
Qed.

(** X18.  [indexConstraints] panics exactly when some key of the
    constraints is not a vertex of the mesh the deformer was built for,
    and then [Deform] and [DeformMap] panic too, whatever the numerical
    parts would do. *)
Theorem indexConstraints_panics (a : ARAP) (cs : ARAPConstraints) :
  (indexConstraints a cs = None
   <-> exists c t, cs !! c = Some t /\ coordToIdx a !! c = None)
  /\ (indexConstraints a cs = None ->
      Deform a cs = None /\ forall guess, DeformMap a cs guess = None).
Proof.
  split; [apply indexConstraints_None|].
  intros Hpanic. unfold Deform, DeformMap. rewrite Hpanic. auto.
Qed.

(** *** Guesses as maps and as slices *)

Lemma initialGuessSlice_spec (a : ARAP) (g : gmap Coord3D Coord3D) :
  wfARAP a -> NoDup (coords a) ->
  (forall k, is_Some (g !! k) -> k ∈ coords a) ->
  exists res, initialGuessSlice a (Some g) = Some (Some res)
    /\ length res = length (coords a)
    /\ forall i c, coords a !! i = Some c -> res !! i = Some (default c (g !! c)).
Proof.
  intros (Hidx & Hall & _) Hnd. unfold initialGuessSlice.
  cbn [fmap option_fmap option_map].
  assert (Hfold : (forall k, is_Some (g !! k) -> k ∈ coords a) ->
            exists res,
              map_fold (fun k v (acc : option (list Coord3D)) =>
                          match acc, coordToIdx a !! k with
                          | Some res, Some idx =>
                              if decide (idx < length res)%nat
                              then Some (<[idx := v]> res) else None
                          | _, _ => None
                          end) (Some (coords a)) g = Some res
              /\ length res = length (coords a)
              /\ forall i c, coords a !! i = Some c ->
                             res !! i = Some (default c (g !! c))).
  { apply (map_fold_weak_ind
             (fun r (m : gmap Coord3D Coord3D) =>
                (forall k, is_Some (m !! k) -> k ∈ coords a) ->
                exists res, r = Some res /\ length res = length (coords a)
                  /\ forall i c, coords a !! i = Some c ->
                                 res !! i = Some (default c (m !! c)))).
    - intros _. exists (coords a). split; [reflexivity|]. split; [reflexivity|].
      intros i c Hi. rewrite lookup_empty. exact Hi.
    - intros k v m r Hfresh IH Hkeys.
      destruct IH as (res & -> & Hlen & Hres).
      { intros k' Hk'. apply Hkeys. destruct (decide (k' = k)) as [->|Hne].
        - rewrite lookup_insert_eq. eauto.
        - rewrite lookup_insert_ne by congruence. exact Hk'. }
      destruct (Hall k) as [idx Hk].
      { apply Hkeys. rewrite lookup_insert_eq. eauto. }
      rewrite Hk. destruct (Hidx k idx Hk) as [Hpos _].
      pose proof (lookup_lt_Some _ _ _ Hpos) as Hlt.
      destruct (decide (idx < length res)%nat) as [_|Hge]; [|lia].
      eexists. split; [reflexivity|]. split; [rewrite length_insert; exact Hlen|].
      intros i c Hi. destruct (decide (i = idx)) as [->|Hne].
      + assert (c = k) by congruence. subst c.
        rewrite list_lookup_insert_eq by lia. rewrite lookup_insert_eq. reflexivity.
      + rewrite list_lookup_insert_ne by congruence.
        assert (c <> k).
        { intros ->. apply Hne. exact (NoDup_lookup _ _ _ _ Hnd Hi Hpos). }
        rewrite lookup_insert_ne by congruence. apply Hres. exact Hi. }
  intros Hkeys. destruct (Hfold Hkeys) as (res & -> & Hlen & Hres).
  exists res. auto.
Qed.

(** X27.  [initialGuessSlice] on a guess whose keys are vertices of the
    mesh does not panic: it returns one coordinate per vertex, the value
    of the guess for a vertex that is a key and the original coordinate
    for a vertex that is not, whatever the order of the iteration over the
    map. *)
Theorem initialGuessSlice_fills (a : ARAP) (g : gmap Coord3D Coord3D) :
  wfARAP a -> NoDup (coords a) ->
  (forall k, is_Some (g !! k) -> k ∈ coords a) ->
  exists res, initialGuessSlice a (Some g) = Some (Some res)
    /\ length res = length (coords a)
    /\ forall i c, coords a !! i = Some c -> res !! i = Some (default c (g !! c)).
Proof. apply initialGuessSlice_spec. Qed.

(** X28.  [coordsToMap] and [initialGuessSlice] are inverse on the slices
    that have one coordinate per vertex: the map holds the coordinate at
    [i] under the vertex at [i], and turning the map back into a slice
    gives the slice again. *)
Theorem coordsToMap_initialGuessSlice (a : ARAP) (s : list Coord3D) :
  wfARAP a -> NoDup (coords a) -> length s = length (coords a) ->
  exists m, coordsToMap a s = Some m
    /\ (forall i c, coords a !! i = Some c -> m !! c = s !! i)
    /\ (forall k, is_Some (m !! k) <-> k ∈ coords a)
    /\ initialGuessSlice a (Some m) = Some (Some s).
Proof.
  intros Hwf Hnd Hlen. unfold coordsToMap.
  destruct (coordsToMapFrom_total a s 0 ∅ ltac:(lia)) as [m Hm]. exists m.
  split; [exact Hm|].
  assert (Hat : forall i c, coords a !! i = Some c -> m !! c = s !! i).
  { intros i c Hi. pose proof (lookup_lt_Some _ _ _ Hi) as Hlt.
    rewrite (coordsToMapFrom_lookup a s 0 ∅ m c i Hm Hi).
    - f_equal. lia.
    - intros q Hq Hq'. pose proof (NoDup_lookup _ _ _ _ Hnd Hi Hq'). lia.
    - lia. }
  assert (Hkeys : forall k, is_Some (m !! k) <-> k ∈ coords a).
  { intros k. split.
    - intros Hk. destruct (decide (k ∈ coords a)) as [Hin|Hnin]; [exact Hin|].
      rewrite (coordsToMapFrom_other a s 0 ∅ m k Hm) in Hk.
      + rewrite lookup_empty in Hk. destruct Hk as [? Hk]. discriminate.
      + intros q _ Hq. apply Hnin. eapply list_elem_of_lookup_2, Hq.
    - intros Hin. apply list_elem_of_lookup in Hin as [i Hi].
      rewrite (Hat i k Hi). apply lookup_lt_is_Some. apply lookup_lt_Some in Hi. lia. }
  split; [exact Hat|]. split; [exact Hkeys|].
  destruct (initialGuessSlice_spec a m Hwf Hnd (fun k Hk => proj1 (Hkeys k) Hk))
    as (res & -> & Hreslen & Hres).
  do 2 f_equal. apply list_eq. intros i.
  destruct (coords a !! i) as [c|] eqn:Hi.
  - rewrite (Hres i c Hi), (Hat i c Hi).
    destruct (lookup_lt_is_Some_2 s i) as [x ->]; [apply lookup_lt_Some in Hi; lia|].
    reflexivity.
  - apply lookup_ge_None in Hi. rewrite !lookup_ge_None_2 by lia. reflexivity.
Qed.

End Deformer.

(** A small instance: one triangle with integer coordinates, three
    iterations that never converge early, and an identity solve. *)
Definition demoARAP : @ARAP Z _ _ unit :=
  SetMaxIterations
    (NewARAPWeighted [10; 20; 30] [Geometry.mkTriangle 10 20 30] tt) 3.

Definition demoConstraints : gmap Z Z := {[ 10 := 11 ]}.

Lemma Deform_constraints_exact_witness :
  let rotations := fun (_ : @ARAP Z _ _ unit) (_ : list Z) => @nil unit in
  let energy := fun (_ : @ARAP Z _ _ unit) (_ : list Z) (_ : list unit) => tt in
  let converged := fun (_ : @ARAP Z _ _ unit) (_ _ : unit) => false in
  let Targets := fun (l : @arapOperator Z _ _ unit) (_ : list unit) => coords (arap l) in
  let SqueezeDelta := fun (l : @arapOperator Z _ _ unit) => map (fun _ => 0) (squeezedToFull l) in
  let Apply := fun (_ : @arapOperator Z _ _ unit) (v : list Z) => v in
  let cholSolve := fun (_ : @arapOperator Z _ _ unit) (b : list Z) => Some b in
  wfARAP demoARAP
  /\ (forall c, is_Some (demoConstraints !! c) -> c ∈ coords demoARAP)
  /\ ((forall mesh,
         Deform 0 Z.add rotations energy converged Targets SqueezeDelta Apply
                cholSolve demoARAP demoConstraints = Some mesh ->
         meshPinned demoARAP demoConstraints mesh)
      /\ (forall guess res c t,
            DeformMap 0 Z.add rotations energy converged Targets SqueezeDelta Apply
                      cholSolve demoARAP demoConstraints guess = Some res ->
            demoConstraints !! c = Some t -> res !! c = Some t)
      /\ (numericsContract Targets SqueezeDelta Apply cholSolve ->
          is_Some (Deform 0 Z.add rotations energy converged Targets SqueezeDelta
                          Apply cholSolve demoARAP demoConstraints)
          /\ is_Some (DeformMap 0 Z.add rotations energy converged Targets
                                SqueezeDelta Apply cholSolve demoARAP
                                demoConstraints None))).
Proof.
  intros rotations energy converged Targets SqueezeDelta Apply cholSolve.
  assert (Hwf : wfARAP demoARAP).
  { apply wfARAP_SetMaxIterations, (NewARAPWeighted_wf 0 Z.add).
    intros t c Ht Hc. apply list_elem_of_singleton in Ht. subst t. exact Hc. }
  assert (Hkeys : forall c, is_Some (demoConstraints !! c) -> c ∈ coords demoARAP).
  { intros c [t Hc]. unfold demoConstraints in Hc.
    apply lookup_singleton_Some in Hc as [<- _]. cbn. set_solver. }
  split; [exact Hwf|]. split; [exact Hkeys|].
  exact (Deform_constraints_exact 0 Z.add rotations energy converged Targets
           SqueezeDelta Apply cholSolve demoARAP demoConstraints Hwf Hkeys).
Defined.

(** The demo instance runs: the constrained vertex [10] lands on [11]. *)
Example demoARAP_DeformMap :
  DeformMap 0 Z.add (fun _ _ => @nil unit) (fun _ _ _ => tt) (fun _ _ _ => false)
            (fun l _ => coords (arap l))
            (fun l => map (fun _ => 0) (squeezedToFull l))
            (fun _ v => v) (fun _ b => Some b)
            demoARAP demoConstraints None
  = Some {[ 10 := 11; 20 := 20; 30 := 30 ]}.
Proof. vm_compute. reflexivity. Qed.

Lemma demoARAP_wf : wfARAP demoARAP.
Proof.
  apply wfARAP_SetMaxIterations, (NewARAPWeighted_wf 0 Z.add).
  intros t c Ht Hc. apply list_elem_of_singleton in Ht. subst t. exact Hc.
Qed.

Lemma demoARAP_NoDup : NoDup (coords demoARAP).
Proof.
  cbn. repeat (constructor; [rewrite ?elem_of_cons, elem_of_nil; lia|]). constructor.
Qed.

Lemma initialGuessSlice_fills_witness :
  wfARAP demoARAP
  /\ NoDup (coords demoARAP)
  /\ (forall k, is_Some (demoConstraints !! k) -> k ∈ coords demoARAP)
  /\ exists res, initialGuessSlice demoARAP (Some demoConstraints) = Some (Some res)
       /\ length res = length (coords demoARAP)
       /\ forall i c, coords demoARAP !! i = Some c ->
                      res !! i = Some (default c (demoConstraints !! c)).
Proof.
  assert (Hkeys : forall k, is_Some (demoConstraints !! k) -> k ∈ coords demoARAP).
  { intros c [t Hc]. unfold demoConstraints in Hc.
    apply lookup_singleton_Some in Hc as [<- _]. cbn. rewrite !elem_of_cons. auto. }
  split; [exact demoARAP_wf|]. split; [exact demoARAP_NoDup|]. split; [exact Hkeys|].
  exact (initialGuessSlice_fills demoARAP demoConstraints demoARAP_wf demoARAP_NoDup Hkeys).
Defined.

Lemma coordsToMap_initialGuessSlice_witness :
  wfARAP demoARAP
  /\ NoDup (coords demoARAP)
  /\ length [1; 2; 3] = length (coords demoARAP)
  /\ exists m, coordsToMap demoARAP [1; 2; 3] = Some m
       /\ (forall i c, coords demoARAP !! i = Some c -> m !! c = [1; 2; 3] !! i)
       /\ (forall k, is_Some (m !! k) <-> k ∈ coords demoARAP)
       /\ initialGuessSlice demoARAP (Some m) = Some (Some [1; 2; 3]).
Proof.
  split; [exact demoARAP_wf|]. split; [exact demoARAP_NoDup|]. split; [reflexivity|].
  exact (coordsToMap_initialGuessSlice demoARAP [1; 2; 3] demoARAP_wf demoARAP_NoDup
           eq_refl).
Defined.

(** The guess [{10: 11}] over the vertices [10], [20], [30]; a key that
    is not a vertex is a panic, and without a guess the slice is [nil]. *)
Example demo_initialGuessSlice :
  initialGuessSlice demoARAP (Some demoConstraints) = Some (Some [11; 20; 30])
  /\ initialGuessSlice demoARAP (Some {[ 40 := 41 ]}) = None
  /\ initialGuessSlice demoARAP None = Some None.
Proof. vm_compute. repeat split. Qed.

End ARAP.

(** ** [floater97] (parameterization.go)

    The scalars are a type [F] with a zero; the assembly of the sparse
    system and the iterative solver are parameters. *)

Module Floater.
Section Floater97.

Context {Coord3D : Type} `{Countable Coord3D}.
Context {F System EdgeWeights : Type}.

Abbreviation Mesh := (list (@Geometry.Triangle Coord3D)).
(** [model2d.Coord] and [numerical.Vec2] *)
Abbreviation Coord2D := (F * F)%type.
Abbreviation ParamMap := (@FastMaps.CoordMap Coord3D Coord2D _ _).

Variable zeroF : F.
Variable hashForCoordMap : Coord3D -> N.

(** Modelled from the spec: [Mesh.VertexSlice] is not among the sources;
    it lists the distinct vertices of the mesh. *)
Definition VertexSlice (m : Mesh) : list Coord3D :=
  remove_dups (flat_map Geometry.corners m).

(** Lines 385-414: the matrix and the bias of the system, or a panic on a
    missing or negative weight or a total weight away from [1]. *)
Variable assembleSystem :
  Mesh -> ParamMap -> EdgeWeights -> list Coord3D -> option System.
(** [solver.SolveLinearSystem(matrix.Apply, bias1d, initGuess)] for the
    coordinate [axis]. *)
Variable SolveLinearSystem : System -> nat -> option (list F) -> list F.

(** The loop of lines 378-383, from the vertices still to visit. *)
Fixpoint nonBoundaryLoop (boundary : ParamMap) (vs : list Coord3D)
    (nonBoundary : list Coord3D) : list Coord3D :=
  match vs with
  | [] => nonBoundary
  | v :: rest =>
      match FastMaps.Load hashForCoordMap boundary v with
      | None => nonBoundaryLoop boundary rest (nonBoundary ++ [v])
      | Some _ => nonBoundaryLoop boundary rest nonBoundary
      end
  end.

Definition axisOf (i : nat) (c : Coord2D) : F :=
  match i with O => c.1 | _ => c.2 end.

Definition setAxis (i : nat) (x : F) (c : Coord2D) : Coord2D :=
  match i with O => (x, c.2) | _ => (c.1, x) end.

(** [for j, x := range xs { solution[j][i] = x }] *)
Fixpoint writeAxis (i : nat) (j : nat) (xs : list F) (solution : list Coord2D)
  : option (list Coord2D) :=
  match xs with
  | [] => Some solution
  | x :: rest =>
      match solution !! j with
      | Some c => writeAxis i (S j) rest (<[j := setAxis i x c]> solution)
      | None => None
      end
  end.

Definition initGuess (previousParam : option ParamMap) (nonBoundary : list Coord3D)
    (i : nat) : option (list F) :=
  match previousParam with
  | None => None
  | Some prev =>
      Some (map (fun p => axisOf i (FastMaps.ValueOr hashForCoordMap (zeroF, zeroF) prev p))
                nonBoundary)
  end.

(** Lines 419-435. *)
Definition solve (sys : System) (previousParam : option ParamMap)
    (nonBoundary : list Coord3D) : option (list Coord2D) :=
  let solution := replicate (length nonBoundary) (zeroF, zeroF) in
  writeAxis 0 0 (SolveLinearSystem sys 0 (initGuess previousParam nonBoundary 0)) solution
  ≫= writeAxis 1 0 (SolveLinearSystem sys 1 (initGuess previousParam nonBoundary 1)).

(** [boundary.Range(func(k, v) bool { result.Store(k, v); return true })] *)
Definition copyBoundary (boundary : ParamMap) (result : option ParamMap)
  : option ParamMap :=
  FastMaps.Range boundary
    (fun k v (acc : option ParamMap) =>
       (acc ≫= fun r => FastMaps.Store hashForCoordMap r k v, true))
    result.

(** [for i, point := range solution { result.Store(nonBoundary[i], ...) }] *)
Fixpoint storeSolution (nonBoundary : list Coord3D) (i : nat)
    (solution : list Coord2D) (result : ParamMap) : option ParamMap :=
  match solution with
  | [] => Some result
  | point :: rest =>
      match nonBoundary !! i with
      | Some k =>
          FastMaps.Store hashForCoordMap result k point
          ≫= storeSolution nonBoundary (S i) rest
      | None => None
      end
  end.

Definition floater97 (m : Mesh) (boundary : ParamMap) (edgeWeights : EdgeWeights)
    (previousParam : option ParamMap) : option ParamMap :=
  let nonBoundary := nonBoundaryLoop boundary (VertexSlice m) [] in
  assembleSystem m boundary edgeWeights nonBoundary ≫= fun sys =>
  solve sys previousParam nonBoundary ≫= fun solution =>
  copyBoundary boundary (Some FastMaps.NewCoordMap) ≫= fun result =>
  storeSolution nonBoundary 0 solution result.

Definition Floater97 (m : Mesh) (boundary : ParamMap) (edgeWeights : EdgeWeights)
  : option ParamMap :=
  floater97 m boundary edgeWeights None.

Abbreviation represents := (FastMaps.represents hashForCoordMap).
Abbreviation Load := (FastMaps.Load hashForCoordMap).
Abbreviation Store := (FastMaps.Store hashForCoordMap).

Lemma nonBoundaryLoop_elem boundary vs : forall acc v,
  v ∈ nonBoundaryLoop boundary vs acc
  <-> v ∈ acc \/ (v ∈ vs /\ Load boundary v = None).
Proof.
  induction vs as [|x vs IH]; intros acc v; cbn [nonBoundaryLoop].
  - split; [auto|]. intros [Hacc|[Hin _]]; [exact Hacc|inversion Hin].
  - destruct (FastMaps.Load hashForCoordMap boundary x) as [c|] eqn:Hx;
      rewrite IH, ?elem_of_app, ?list_elem_of_singleton, elem_of_cons.
    + split; [tauto|]. intros [Hacc|[[->|Hin] Hnone]]; [tauto|congruence|tauto].
    + split; [|tauto]. intros [[Hacc| ->]|[Hin Hnone]]; tauto.
Qed.

(** Copying the boundary into a fresh map yields a map with its entries. *)
Lemma copyBoundary_represents boundary rb :
  represents boundary rb ->
  exists result, copyBoundary boundary (Some FastMaps.NewCoordMap) = Some result
                 /\ represents result rb.
Proof.
  intros Hrep. unfold copyBoundary, FastMaps.Range.
  unfold FastMaps.represents in Hrep.
  destruct (FastMaps.fastMap boundary) as [fm|].
  - destruct Hrep as (Hat & Hlk & _).
    assert (Hfold :
      FastMaps.cellsAtHash hashForCoordMap fm ->
      let acc := map_fold
                   (fun (_ : N) cell =>
                      FastMaps.rangeStep
                        (fun k v (acc : option ParamMap) =>
                           (acc ≫= fun r => Store r k v, true))
                        (FastMaps.Key cell) (FastMaps.Value cell))
                   (Some FastMaps.NewCoordMap, true) fm in
      acc.2 = true
      /\ exists res r, acc.1 = Some res /\ represents res r
           /\ forall k, r !! k = FastMaps.fastLookup hashForCoordMap fm k).
    { apply (map_fold_weak_ind
               (fun acc fm =>
                  FastMaps.cellsAtHash hashForCoordMap fm ->
                  acc.2 = true
                  /\ exists res r, acc.1 = Some res /\ represents res r
                       /\ forall k, r !! k = FastMaps.fastLookup hashForCoordMap fm k)).
      - intros _. split; [reflexivity|].
        exists FastMaps.NewCoordMap, ∅. split; [reflexivity|].
        split; [apply FastMaps.represents_new|].
        intros k. unfold FastMaps.fastLookup. rewrite !lookup_empty. reflexivity.
      - intros h [ck cv] fm' acc Hfresh IH Hat'.
        assert (Hh : hashForCoordMap ck = h) by (apply (Hat' h (FastMaps.mkCell ck cv)), lookup_insert_eq).
        destruct IH as (Hgo & res & r & Hres & Hrep & Hr).
        { intros h' c' Hl. apply Hat'. rewrite lookup_insert_ne; [exact Hl|].
          intros ->. congruence. }
        unfold FastMaps.rangeStep. rewrite Hgo. cbn [fst snd FastMaps.Key FastMaps.Value].
        split; [reflexivity|]. rewrite Hres. cbn [mbind option_bind].
        destruct (FastMaps.represents_Store hashForCoordMap res r ck cv Hrep)
          as (res' & -> & Hrep').
        exists res', (<[ck := cv]> r). split; [reflexivity|]. split; [exact Hrep'|].
        intros k. subst h. rewrite FastMaps.fastLookup_insert by (intros c Hc; congruence).
        rewrite lookup_insert. destruct (decide (ck = k)); [reflexivity|apply Hr]. }
    destruct (Hfold Hat) as (_ & res & r & Hres & Hrep & Hr).
    rewrite Hres. exists res. split; [reflexivity|].
    replace rb with r; [exact Hrep|]. apply map_eq. intros k. rewrite Hr, Hlk. reflexivity.
  - rewrite Hrep. cbn [FastMaps.readMap default].
    assert (Hfold :
      let acc := map_fold
                   (FastMaps.rangeStep
                      (fun k v (acc : option ParamMap) =>
                         (acc ≫= fun r => Store r k v, true)))
                   (Some FastMaps.NewCoordMap, true) rb in
      acc.2 = true /\ exists res, acc.1 = Some res /\ represents res rb).
    { apply (map_fold_weak_ind
               (fun acc (m : gmap Coord3D Coord2D) =>
                  acc.2 = true /\ exists res, acc.1 = Some res /\ represents res m)).
      - split; [reflexivity|]. exists FastMaps.NewCoordMap.
        split; [reflexivity|apply FastMaps.represents_new].
      - intros k v m' acc Hfresh (Hgo & res & Hres & Hrep').
        unfold FastMaps.rangeStep. rewrite Hgo. cbn [fst snd].
        split; [reflexivity|]. rewrite Hres. cbn [mbind option_bind].
        destruct (FastMaps.represents_Store hashForCoordMap res m' k v Hrep')
          as (res' & -> & Hrep''). eauto. }
    destruct Hfold as (_ & res & Hres & Hrep'). unfold id. rewrite Hres. eauto.
Qed.

Lemma storeSolution_represents nonBoundary (rb : gmap Coord3D Coord2D) solution :
  forall i result (r : gmap Coord3D Coord2D) out,
  represents result r ->
  (forall k, k ∈ nonBoundary -> rb !! k = None) ->
  (forall k v, rb !! k = Some v -> r !! k = Some v) ->
  storeSolution nonBoundary i solution result = Some out ->
  exists r', represents out r'
    /\ (forall k v, rb !! k = Some v -> r' !! k = Some v)
    /\ (forall k, r' !! k <> r !! k -> k ∈ nonBoundary).
Proof.
  induction solution as [|point solution IH]; intros i result r out Hrep Hnb Hkeep;
    cbn [storeSolution].
  - intros [= <-]. exists r. split; [exact Hrep|]. split; [exact Hkeep|].
    intros k Hne. contradiction.
  - destruct (nonBoundary !! i) as [k0|] eqn:Hk0; [|discriminate].
    destruct (FastMaps.represents_Store hashForCoordMap result r k0 point Hrep)
      as (result' & -> & Hrep').
    cbn [mbind option_bind]. intros Hout.
    assert (Hin : k0 ∈ nonBoundary) by (eapply list_elem_of_lookup_2, Hk0).
    destruct (IH (S i) result' (<[k0 := point]> r) out Hrep' Hnb) as (r' & Hr' & Hkeep' & Hdiff).
    + intros k v Hk. rewrite lookup_insert_ne; [apply Hkeep, Hk|].
      intros <-. rewrite (Hnb k0 Hin) in Hk. discriminate.
    + exact Hout.
    + exists r'. split; [exact Hr'|]. split; [exact Hkeep'|].
      intros k Hne. destruct (decide (k = k0)) as [->|Hk]; [exact Hin|].
      apply Hdiff. rewrite lookup_insert_ne by congruence. exact Hne.
Qed.

Lemma storeSolution_total nonBoundary solution : forall i result r,
  represents result r ->
  (i + length solution <= length nonBoundary)%nat ->
  is_Some (storeSolution nonBoundary i solution result).
Proof.
  induction solution as [|point solution IH]; intros i result r Hrep Hlen;
    cbn [storeSolution length] in *; [eauto|].
  destruct (lookup_lt_is_Some_2 nonBoundary i) as [k0 ->]; [lia|].
  destruct (FastMaps.represents_Store hashForCoordMap result r k0 point Hrep)
    as (result' & -> & Hrep').
  cbn [mbind option_bind]. eapply IH; [exact Hrep'|lia].
Qed.

Lemma writeAxis_total i xs : forall j solution,
  (j + length xs <= length solution)%nat ->
  exists out, writeAxis i j xs solution = Some out /\ length out = length solution.
Proof.
  induction xs as [|x xs IH]; intros j solution Hlen; cbn [writeAxis length] in *.
  - eauto.
  - destruct (lookup_lt_is_Some_2 solution j) as [c ->]; [lia|].
    destruct (IH (S j) (<[j := setAxis i x c]> solution)) as (out & -> & Hout).
    + rewrite length_insert. lia.
    + exists out. split; [reflexivity|]. rewrite Hout, length_insert. reflexivity.
Qed.

Lemma writeAxis_length i xs : forall j solution out,
  writeAxis i j xs solution = Some out -> length out = length solution.
Proof.
  induction xs as [|x xs IH]; intros j solution out; cbn [writeAxis].
  - intros [= <-]. reflexivity.
  - destruct (solution !! j) as [c|]; [|discriminate].
    intros Hout. apply IH in Hout. rewrite Hout, length_insert. reflexivity.
Qed.

(** C9. Whenever [floater97] returns, every entry of the boundary map is
    in the result with its prescribed value, and the result differs from
    the boundary map only at non-boundary vertices of the mesh: the solver
    output is written to those alone.  When the system is accepted and the
    solver returns at most one value per unknown, [floater97] does return. *)
Theorem floater97_keeps_boundary (m : Mesh) (boundary : ParamMap)
    (rb : gmap Coord3D Coord2D) (edgeWeights : EdgeWeights)
    (previousParam : option ParamMap) :
  represents boundary rb ->
  (forall result,
     floater97 m boundary edgeWeights previousParam = Some result ->
     (forall k v, Load boundary k = Some v -> Load result k = Some v)
     /\ (forall k, Load result k <> Load boundary k ->
                   k ∈ VertexSlice m /\ Load boundary k = None))
  /\ (forall sys,
        assembleSystem m boundary edgeWeights
                       (nonBoundaryLoop boundary (VertexSlice m) []) = Some sys ->
        (forall i g, (length (SolveLinearSystem sys i g)
                      <= length (nonBoundaryLoop boundary (VertexSlice m) []))%nat) ->
        is_Some (floater97 m boundary edgeWeights previousParam)).
Proof.
  intros Hrep.
  pose proof (fun k => FastMaps.represents_Load hashForCoordMap boundary rb k Hrep) as Hload.
  destruct (copyBoundary_represents boundary rb Hrep) as (copy & Hcopy & Hrepcopy).
  assert (Hnb : forall k, k ∈ nonBoundaryLoop boundary (VertexSlice m) [] ->
                          k ∈ VertexSlice m /\ rb !! k = None).
  { intros k Hk. apply nonBoundaryLoop_elem in Hk as [Hk|[Hin Hnone]]; [inversion Hk|].
    rewrite <- Hload. auto. }
  unfold floater97. split.
  - intros result.
    destruct (assembleSystem _ _ _ _) as [sys|]; cbn [mbind option_bind]; [|discriminate].
    destruct (solve sys previousParam _) as [solution|]; cbn [mbind option_bind];
      [|discriminate].
    rewrite Hcopy. cbn [mbind option_bind]. intros Hstore.
    eapply storeSolution_represents in Hstore as (r' & Hr' & Hkeep & Hdiff);
      [|exact Hrepcopy|intros k Hk; apply Hnb, Hk|auto].
    pose proof (fun k => FastMaps.represents_Load hashForCoordMap result r' k Hr') as Hload'.
    split.
    + intros k v. rewrite Hload, Hload'. apply Hkeep.
    + intros k. rewrite Hload, Hload'. intros Hne.
      apply Hnb, Hdiff, Hne.
  - intros sys -> Hlen. cbn [mbind option_bind]. unfold solve.
    destruct (writeAxis_total 0 (SolveLinearSystem sys 0
                (initGuess previousParam (nonBoundaryLoop boundary (VertexSlice m) []) 0))
                0 (replicate (length (nonBoundaryLoop boundary (VertexSlice m) []))
                             (zeroF, zeroF)))
      as (s0 & -> & Hs0).
    { rewrite length_replicate. apply Hlen. }
    cbn [mbind option_bind].
    destruct (writeAxis_total 1 (SolveLinearSystem sys 1
                (initGuess previousParam (nonBoundaryLoop boundary (VertexSlice m) []) 1))
                0 s0)
      as (s1 & -> & Hs1).
    { rewrite Hs0, length_replicate. apply Hlen. }
    cbn [mbind option_bind]. rewrite Hcopy. cbn [mbind option_bind].
    eapply storeSolution_total; [exact Hrepcopy|].
    rewrite Hs1, Hs0, length_replicate. lia.
Qed.

(** *** The vertices that the result covers *)

Lemma storeSolution_keys nonBoundary solution :
  forall i result (r : gmap Coord3D Coord2D) out,
  represents result r ->
  storeSolution nonBoundary i solution result = Some out ->
  exists r' : gmap Coord3D Coord2D, represents out r'
    /\ forall k, is_Some (r' !! k)
                 <-> is_Some (r !! k)
                     \/ exists j, (i <= j < i + length solution)%nat
                                  /\ nonBoundary !! j = Some k.
Proof.
  induction solution as [|point solution IH]; intros i result r out Hrep;
    cbn [storeSolution length].
  - intros [= <-]. exists r. split; [exact Hrep|]. intros k. split; [auto|].
    intros [Hk|(j & Hj & _)]; [exact Hk|lia].
  - destruct (nonBoundary !! i) as [k0|] eqn:Hk0; [|discriminate].
    destruct (FastMaps.represents_Store hashForCoordMap result r k0 point Hrep)
      as (result' & -> & Hrep').
    cbn [mbind option_bind]. intros Hrest.
    destruct (IH (S i) result' _ out Hrep' Hrest) as (r' & Hout & Hkeys).
    exists r'. split; [exact Hout|]. intros k. rewrite Hkeys, lookup_insert_is_Some.
    split.
    + intros [[<-|[_ Hk]]|(j & Hj & Hnb)].
      * right. exists i. split; [lia|exact Hk0].
      * left. exact Hk.
      * right. exists j. split; [lia|exact Hnb].
    + intros [Hk|(j & Hj & Hnb)].
      * destruct (decide (k0 = k)); [left; left; assumption|left; right; auto].
      * destruct (decide (j = i)) as [->|Hne].
        -- left. left. congruence.
        -- right. exists j. split; [lia|exact Hnb].
Qed.

Lemma solve_length sys previousParam nonBoundary solution :
  solve sys previousParam nonBoundary = Some solution ->
  length solution = length nonBoundary.
Proof.
  unfold solve. destruct (writeAxis 0 0 _ _) as [s0|] eqn:H0; [|discriminate].
  cbn [mbind option_bind]. intros H1.
  apply writeAxis_length in H0, H1. rewrite H1, H0. apply length_replicate.
Qed.

Lemma floater97_keys (m : Mesh) (boundary : ParamMap) (rb : gmap Coord3D Coord2D)
    (edgeWeights : EdgeWeights) (previousParam : option ParamMap) result :
  represents boundary rb ->
  floater97 m boundary edgeWeights previousParam = Some result ->
  forall k, is_Some (Load result k) <-> is_Some (Load boundary k) \/ k ∈ VertexSlice m.
Proof.
  intros Hrep.
  pose proof (fun k => FastMaps.represents_Load hashForCoordMap boundary rb k Hrep) as Hload.
  destruct (copyBoundary_represents boundary rb Hrep) as (copy & Hcopy & Hrepcopy).
  unfold floater97.
  destruct (assembleSystem _ _ _ _) as [sys|]; cbn [mbind option_bind]; [|discriminate].
  destruct (solve sys previousParam _) as [solution|] eqn:Hsolve;
    cbn [mbind option_bind]; [|discriminate].
  rewrite Hcopy. cbn [mbind option_bind]. intros Hstore k.
  apply solve_length in Hsolve.
  destruct (storeSolution_keys _ _ _ _ _ _ Hrepcopy Hstore) as (r' & Hr' & Hkeys).
  rewrite (FastMaps.represents_Load hashForCoordMap result r' k Hr'), Hkeys, Hload.
  split.
  - intros [Hk|(j & _ & Hj)]; [auto|].
    apply list_elem_of_lookup_2, nonBoundaryLoop_elem in Hj as [Hj|[Hin Hnone]];
      [inversion Hj|auto].
  - intros [Hk|Hin]; [auto|].
    destruct (rb !! k) as [v|] eqn:Hk; [left; eauto|]. right.
    assert (Hnb : k ∈ nonBoundaryLoop boundary (VertexSlice m) []).
    { apply nonBoundaryLoop_elem. right. split; [exact Hin|]. rewrite Hload. exact Hk. }
    apply list_elem_of_lookup in Hnb as [j Hj]. exists j. split; [|exact Hj].
    apply lookup_lt_Some in Hj. lia.
Qed.

(** X19.  Whenever [floater97] returns, the result has an entry for
    every vertex of the mesh and for every key of the boundary map, and
    for no other point. *)
Theorem floater97_covers_vertices (m : Mesh) (boundary : ParamMap)
    (rb : gmap Coord3D Coord2D) (edgeWeights : EdgeWeights)
    (previousParam : option ParamMap) (result : ParamMap) :
  represents boundary rb ->
  floater97 m boundary edgeWeights previousParam = Some result ->
  forall k, is_Some (Load result k) <-> is_Some (Load boundary k) \/ k ∈ VertexSlice m.
Proof. apply floater97_keys. Qed.

(** *** [NewMeshUVMapForCoords] *)

(** A [MeshUVMap] has a triangle of the mesh, a pointer, as its key: the
    entries are listed in the order of the iteration over the mesh. *)
Definition NewMeshUVMapForCoords (mesh : Mesh) (mapping : ParamMap)
  : option (list (Geometry.Triangle * (Coord2D * Coord2D * Coord2D))) :=
  mapM (fun t =>
          Load mapping (Geometry.T0 t) ≫= fun v0 =>
          Load mapping (Geometry.T1 t) ≫= fun v1 =>
          Load mapping (Geometry.T2 t) ≫= fun v2 =>
          Some (t, (v0, v1, v2)))
       mesh.

Lemma corner_VertexSlice (m : Mesh) t c :
  t ∈ m -> c ∈ Geometry.corners t -> c ∈ VertexSlice m.
Proof.
  intros Ht Hc. unfold VertexSlice. apply elem_of_remove_dups, list_elem_of_In, in_flat_map.
  exists t. split; apply list_elem_of_In; assumption.
Qed.

(** X20.  The parameterization that [floater97] returns can always be
    turned into a UV map of the mesh: [NewMeshUVMapForCoords] finds every
    vertex of every triangle in it and does not panic; the UV map has one
    entry per triangle, in the iteration order, and each entry holds the
    three coordinates that the parameterization stores for the corners of
    its triangle. *)
Theorem floater97_NewMeshUVMapForCoords (m : Mesh) (boundary : ParamMap)
    (rb : gmap Coord3D Coord2D) (edgeWeights : EdgeWeights)
    (previousParam : option ParamMap) (result : ParamMap) :
  represents boundary rb ->
  floater97 m boundary edgeWeights previousParam = Some result ->
  exists uv, NewMeshUVMapForCoords m result = Some uv
    /\ uv.*1 = m
    /\ forall t v0 v1 v2, (t, (v0, v1, v2)) ∈ uv ->
         Load result (Geometry.T0 t) = Some v0
         /\ Load result (Geometry.T1 t) = Some v1
         /\ Load result (Geometry.T2 t) = Some v2.
Proof.
  intros Hrep Hrun. pose proof (floater97_keys m boundary rb _ _ result Hrep Hrun) as Hkeys.
  assert (Hall : forall t, t ∈ m -> forall c, c ∈ Geometry.corners t ->
                   is_Some (Load result c)).
  { intros t Ht c Hc. apply Hkeys. right. eapply corner_VertexSlice; eassumption. }
  assert (Hsome : is_Some (NewMeshUVMapForCoords m result)).
  { unfold NewMeshUVMapForCoords. apply mapM_is_Some, Forall_forall. intros t Ht.
    unfold compose.
    destruct (Hall t Ht (Geometry.T0 t)) as [v0 ->];
      [unfold Geometry.corners; rewrite !elem_of_cons; auto|].
    destruct (Hall t Ht (Geometry.T1 t)) as [v1 ->];
      [unfold Geometry.corners; rewrite !elem_of_cons; auto|].
    destruct (Hall t Ht (Geometry.T2 t)) as [v2 ->];
      [unfold Geometry.corners; rewrite !elem_of_cons; auto|].
    cbn. eauto. }
  destruct Hsome as [uv Huv]. exists uv. split; [exact Huv|].
  unfold NewMeshUVMapForCoords in Huv. apply mapM_Some in Huv.
  split.
  - clear -Huv. induction Huv as [|t p ts ps Hp _ IH]; [reflexivity|].
    cbn. rewrite IH. f_equal.
    destruct (Load result (Geometry.T0 t)); [|discriminate].
    destruct (Load result (Geometry.T1 t)); [|discriminate].
    destruct (Load result (Geometry.T2 t)); [|discriminate].
    cbn in Hp. injection Hp as <-. reflexivity.
  - intros t v0 v1 v2 Hin. apply list_elem_of_lookup in Hin as [i Hi].
    eapply Forall2_lookup_r in Hi as (t' & _ & Ht'); [|exact Huv].
    cbn in Ht'.
    destruct (Load result (Geometry.T0 t')) as [w0|] eqn:H0; [|discriminate].
    destruct (Load result (Geometry.T1 t')) as [w1|] eqn:H1; [|discriminate].
    destruct (Load result (Geometry.T2 t')) as [w2|] eqn:H2; [|discriminate].
    cbn in Ht'. injection Ht' as <- <- <- <-. auto.
Qed.

End Floater97.

(** A fan of three triangles around the interior vertex [4]; all keys
    share one hash, so the maps run in slow mode. *)
Definition demoMesh : list (@Geometry.Triangle Z) :=
  [Geometry.mkTriangle 1 2 4; Geometry.mkTriangle 2 3 4; Geometry.mkTriangle 3 1 4].

Definition demoBoundaryEntries : gmap Z (Z * Z) :=
  {[ 1 := (0, 0); 2 := (1, 0); 3 := (0, 1) ]}.

Definition demoBoundary : @FastMaps.CoordMap Z (Z * Z) _ _ :=
  {| FastMaps.slowMap := Some demoBoundaryEntries; FastMaps.fastMap := None |}.

Lemma floater97_keeps_boundary_witness :
  let hash := fun _ : Z => 0%N in
  let assemble := fun (_ : list (@Geometry.Triangle Z))
                      (_ : @FastMaps.CoordMap Z (Z * Z) _ _) (_ : unit) (_ : list Z) =>
                    Some tt in
  let solver := fun (_ : unit) (_ : nat) (_ : option (list Z)) => [7] in
  FastMaps.represents hash demoBoundary demoBoundaryEntries
  /\ ((forall result,
         floater97 0 hash assemble solver demoMesh demoBoundary tt None = Some result ->
         (forall k v, FastMaps.Load hash demoBoundary k = Some v ->
                      FastMaps.Load hash result k = Some v)
         /\ (forall k, FastMaps.Load hash result k <> FastMaps.Load hash demoBoundary k ->
                       k ∈ VertexSlice demoMesh
                       /\ FastMaps.Load hash demoBoundary k = None))
      /\ (forall sys,
            assemble demoMesh demoBoundary tt
                     (nonBoundaryLoop hash demoBoundary (VertexSlice demoMesh) [])
            = Some sys ->
            (forall i g, (length (solver sys i g)
                          <= length (nonBoundaryLoop hash demoBoundary
                                                     (VertexSlice demoMesh) []))%nat) ->
            is_Some (floater97 0 hash assemble solver demoMesh demoBoundary tt None))).
Proof.
  intros hash assemble solver.
  assert (Hrep : FastMaps.represents hash demoBoundary demoBoundaryEntries)
    by reflexivity.
  split; [exact Hrep|].
  exact (floater97_keeps_boundary 0 hash assemble solver demoMesh demoBoundary
           demoBoundaryEntries tt None Hrep).
Defined.

(** On the fan, the interior vertex gets the solver's value and the
    boundary keeps its own. *)
Example demo_floater97 :
  (fun r => (FastMaps.Load (fun _ => 0%N) r 4, FastMaps.Load (fun _ => 0%N) r 2))
  <$> floater97 0 (fun _ : Z => 0%N) (fun _ _ (_ : unit) _ => Some tt)
                (fun _ _ _ => [7]) demoMesh demoBoundary tt None
  = Some (Some (7, 7), Some (1, 0)).
Proof. vm_compute. reflexivity. Qed.

Definition demoResult : @FastMaps.CoordMap Z (Z * Z) _ _ :=
  default demoBoundary
          (floater97 0 (fun _ : Z => 0%N) (fun _ _ (_ : unit) _ => Some tt)
                     (fun _ _ _ => [7]) demoMesh demoBoundary tt None).

Lemma demoResult_run :
  floater97 0 (fun _ : Z => 0%N) (fun _ _ (_ : unit) _ => Some tt)
            (fun _ _ _ => [7]) demoMesh demoBoundary tt None
  = Some demoResult.
Proof. vm_compute. reflexivity. Qed.

Lemma floater97_covers_vertices_witness :
  FastMaps.represents (fun _ : Z => 0%N) demoBoundary demoBoundaryEntries
  /\ floater97 0 (fun _ : Z => 0%N) (fun _ _ (_ : unit) _ => Some tt)
               (fun _ _ _ => [7]) demoMesh demoBoundary tt None
     = Some demoResult
  /\ forall k, is_Some (FastMaps.Load (fun _ : Z => 0%N) demoResult k)
               <-> is_Some (FastMaps.Load (fun _ : Z => 0%N) demoBoundary k)
                   \/ k ∈ VertexSlice demoMesh.
Proof.
  assert (Hrep : FastMaps.represents (fun _ : Z => 0%N) demoBoundary demoBoundaryEntries)
    by reflexivity.
  split; [exact Hrep|]. split; [exact demoResult_run|].
  exact (floater97_covers_vertices 0 (fun _ : Z => 0%N) (fun _ _ (_ : unit) _ => Some tt)
           (fun _ _ _ => [7]) demoMesh demoBoundary demoBoundaryEntries tt None
           demoResult Hrep demoResult_run).
Defined.

Lemma floater97_NewMeshUVMapForCoords_witness :
  FastMaps.represents (fun _ : Z => 0%N) demoBoundary demoBoundaryEntries
  /\ floater97 0 (fun _ : Z => 0%N) (fun _ _ (_ : unit) _ => Some tt)
               (fun _ _ _ => [7]) demoMesh demoBoundary tt None
     = Some demoResult
  /\ exists uv, NewMeshUVMapForCoords (fun _ : Z => 0%N) demoMesh demoResult = Some uv
       /\ uv.*1 = demoMesh
       /\ forall t v0 v1 v2, (t, (v0, v1, v2)) ∈ uv ->
            FastMaps.Load (fun _ : Z => 0%N) demoResult (Geometry.T0 t) = Some v0
            /\ FastMaps.Load (fun _ : Z => 0%N) demoResult (Geometry.T1 t) = Some v1
            /\ FastMaps.Load (fun _ : Z => 0%N) demoResult (Geometry.T2 t) = Some v2.
Proof.
  assert (Hrep : FastMaps.represents (fun _ : Z => 0%N) demoBoundary demoBoundaryEntries)
    by reflexivity.
  split; [exact Hrep|]. split; [exact demoResult_run|].
  exact (floater97_NewMeshUVMapForCoords 0 (fun _ : Z => 0%N)
           (fun _ _ (_ : unit) _ => Some tt) (fun _ _ _ => [7]) demoMesh demoBoundary
           demoBoundaryEntries tt None demoResult Hrep demoResult_run).
Defined.

(** The UV map of the fan: the interior vertex [4] has the solver's value
    in each of the three triangles. *)
Example demo_NewMeshUVMapForCoords :
  NewMeshUVMapForCoords (fun _ : Z => 0%N) demoMesh demoResult
  = Some [(Geometry.mkTriangle 1 2 4, ((0, 0), (1, 0), (7, 7)));
          (Geometry.mkTriangle 2 3 4, ((1, 0), (0, 1), (7, 7)));
          (Geometry.mkTriangle 3 1 4, ((0, 1), (0, 0), (7, 7)))].
Proof. vm_compute. reflexivity. Qed.

End Floater.

(** ** Dual Contouring: the triangles of an active edge

    [addEdge] of [DualContouring.Mesh].  The vector operations are
    parameters of the section; [FloatGeometry] below instantiates them
    with binary64 floating-point numbers. *)

Module DualContouring.
Section EmitTriangles.

Context {Coord3D F : Type}.

Abbreviation Triangle := (@Geometry.Triangle Coord3D).

(** [t.Normal()], [a.Dot(b)], [x > y] and [x < 0] *)
Variable Normal : Triangle -> Coord3D.
Variable Dot : Coord3D -> Coord3D -> F.
Variable gt : F -> F -> bool.
Variable ltZero : F -> bool.








(** [t[0], t[1] = t[1], t[0]] *)
Definition swap01 (t : Triangle) : Triangle :=
  Geometry.mkTriangle (Geometry.T1 t) (Geometry.T0 t) (Geometry.T2 t).

(** Lines 205-209: flip to match the normal of the edge intersection. *)
Definition orient (ts : Triangle * Triangle) (edgeNormal : Coord3D)
  : Triangle * Triangle :=
  if ltZero (Dot (Normal ts.1) edgeNormal) then (swap01 ts.1, swap01 ts.2) else ts.

Record dcEdge : Type := mkEdge {
  Populated : bool;
  Active : bool;
  Triangulated : bool;
  EdgeCoord : Coord3D;
  EdgeNormal : Coord3D
}.



(** The diagonal of a triangulation, as the pair of corners shared by its
    two triangles: [t1[1]] and [t1[2]]. *)
Definition diagonal (ts : Triangle * Triangle) : Coord3D * Coord3D :=
  (Geometry.T1 ts.1, Geometry.T2 ts.1).

Lemma orient_keeps_diagonal ts n :
  diagonal (orient ts n) = diagonal ts
  \/ diagonal (orient ts n) = (Geometry.T0 ts.1, Geometry.T2 ts.1).
Proof.
  unfold orient. destruct (ltZero _); [right|left]; reflexivity.
Qed.


End EmitTriangles.
End DualContouring.

(** ** Binary64 vectors

    Modelled from the spec: [Coord3D]'s arithmetic and [Triangle.Normal]
    are not among the sources.  By the spec a [Vec3] is a tuple of three
    64-bit floats with the usual arithmetic, dot, cross and normalize, and
    the normal of a triangle is the unit cross of its two leading edges. *)

Module FloatGeometry.

Local Open Scope float_scope.

(** Modelled from the spec: [Coord3D], three 64-bit floats. *)
Record Coord3D : Type := XYZ { X : float; Y : float; Z : float }.

(** Modelled from the spec: [Coord3D.Sub]. *)
Definition Sub (a b : Coord3D) : Coord3D :=
  XYZ (X a - X b) (Y a - Y b) (Z a - Z b).

(** Modelled from the spec: [Coord3D.Scale]. *)
Definition Scale (a : Coord3D) (s : float) : Coord3D :=
  XYZ (X a * s) (Y a * s) (Z a * s).

(** Modelled from the spec: [Coord3D.Dot]. *)
Definition Dot (a b : Coord3D) : float :=
  X a * X b + Y a * Y b + Z a * Z b.

(** Modelled from the spec: [Coord3D.Cross]. *)
Definition Cross (a b : Coord3D) : Coord3D :=
  XYZ (Y a * Z b - Z a * Y b) (Z a * X b - X a * Z b) (X a * Y b - Y a * X b).

(** Modelled from the spec: [Coord3D.Norm]. *)
Definition Norm (a : Coord3D) : float := PrimFloat.sqrt (Dot a a).

(** Modelled from the spec: [Coord3D.Normalize]. *)
Definition Normalize (a : Coord3D) : Coord3D := Scale a (1 / Norm a).

(** Modelled from the spec: [Triangle.Normal], the unit cross of the two
    leading edges. *)
Definition Normal (t : @Geometry.Triangle Coord3D) : Coord3D :=
  Normalize (Cross (Sub (Geometry.T1 t) (Geometry.T0 t))
                   (Sub (Geometry.T2 t) (Geometry.T0 t))).


Definition ltZero (x : float) : bool := PrimFloat.ltb x 0.



End FloatGeometry.

(** ** The decimator

    [decimator.Decimate] and [decimator.decimatePtrMesh].  The pointer-mesh
    overlay and the geometry of a vertex removal ([newDecVertex], the
    criterion and [attemptRemoveVertex]) are parameters: the overlay is not
    among the sources, and the control flow is what is at stake here. *)

Module Decimator.
Section Decimate.

Context {Mesh PtrMesh PtrCoord DecVertex : Type}.

(** [newPtrMeshMesh(m)] and [pm.Mesh()] *)
Variable newPtrMeshMesh : Mesh -> PtrMesh.
Variable toMesh : PtrMesh -> Mesh.
(** The vertices of the triangles of the overlay, in the order in which
    [for c := range coords] yields them. *)
Variable coordsOf : PtrMesh -> list PtrCoord.
(** [newDecVertex(c, d.FeatureAngle)] reads the triangles around [c] as
    the overlay has them now. *)
Variable newDecVertex : PtrMesh -> PtrCoord -> DecVertex.
(** [d.Criterion.canRemoveVertex(v)] *)
Variable canRemoveVertex : DecVertex -> bool.
(** [d.attemptRemoveVertex(p, v)]: the overlay after the attempt (rolled
    back when it fails) and whether the vertex was removed. *)
Variable attemptRemoveVertex : PtrMesh -> DecVertex -> PtrMesh * bool.













End Decimate.

(** *** A pass that leaves a removable vertex

    Two vertices; [2] can always be removed, [1] only once [2] is gone
    (removing a vertex changes the triangles around its neighbours).  The
    iteration visits [1] before [2]. *)





End Decimator.

(** ** [Mesh.Repair] (mesh_ops.go)

    A hash of [Repair] is a [Coord3D] with integral coordinates: a triple
    of integers here.  [gridCell c] stands for the three values
    [math.Round(c.X/epsilon)], [math.Round(c.Y/epsilon)] and
    [math.Round(c.Z/epsilon)].  An [*equivalenceClass] is the position of
    the class in the [heap] of classes allocated so far; a class is not
    changed once it has been stored. *)

Module Repair.
Section Repair.

Context {Coord3D : Type} `{Countable Coord3D}.

Abbreviation Cell := (Z * Z * Z)%type.
Abbreviation Mesh := (list (@Geometry.Triangle Coord3D)).

Variable gridCell : Coord3D -> Cell.

Record equivalenceClass : Type := mkClass {
  Elements : list Coord3D;
  Hashes : list Cell;
  Canonical : Coord3D
}.

Record repairState : Type := mkState {
  heap : list equivalenceClass;
  hashToClass : gmap Cell nat;
  allClasses : gset nat
}.

(** The eight hashes of a vertex, in the order of the three nested loops. *)
Definition vertexHashes (c : Coord3D) : list Cell :=
  let '(x, y, z) := gridCell c in
  i ← [0; 1]; j ← [0; 1]; k ← [0; 1]; [(x + i, y + j, z + k)].

(** [classes]: the classes found under the hashes of the vertex. *)
Definition classesOf (st : repairState) (hashes : list Cell) : gset nat :=
  list_to_set (omap (fun h => hashToClass st !! h) hashes).

(** The inner loop over [class.Hashes]: append the hashes not yet there. *)
Definition mergeHashes (acc hs : list Cell) : list Cell :=
  foldl (fun acc h => if decide (h ∈ acc) then acc else acc ++ [h]) acc hs.

(** One round of [for class := range classes]. *)
Definition mergeClass (hp : list equivalenceClass)
    (acc : gset nat * equivalenceClass) (id : nat) : gset nat * equivalenceClass :=
  match hp !! id with
  | Some class =>
      (acc.1 ∖ {[id]},
       {| Elements := Elements acc.2 ++ Elements class;
          Hashes := mergeHashes (Hashes acc.2) (Hashes class);
          Canonical := Canonical acc.2 |})
  | None => acc
  end.

(** [for _, hash := range hashes { hashToClass[hash] = class }] *)
Definition pointHashes (m : gmap Cell nat) (hashes : list Cell) (id : nat)
  : gmap Cell nat :=
  foldl (fun m h => <[h := id]> m) m hashes.

(** The body of the loop over the vertices, for the vertex [c]. *)
Definition addVertex (st : repairState) (c : Coord3D) : repairState :=
  let hashes := vertexHashes c in
  let classes := classesOf st hashes in
  let fresh := {| Elements := [c]; Hashes := hashes; Canonical := c |} in
  let id := length (heap st) in
  if decide (size classes = 0%nat) then
    {| heap := heap st ++ [fresh];
       hashToClass := pointHashes (hashToClass st) hashes id;
       allClasses := allClasses st ∪ {[id]} |}
  else
    let '(live, newClass) :=
      foldl (mergeClass (heap st)) (allClasses st, fresh) (elements classes) in
    {| heap := heap st ++ [newClass];
       hashToClass := pointHashes (hashToClass st) (Hashes newClass) id;
       allClasses := live ∪ {[id]} |}.

Definition emptyState : repairState :=
  {| heap := []; hashToClass := ∅; allClasses := ∅ |}.

Definition addVertices (order : list Coord3D) : repairState :=
  foldl addVertex emptyState order.

(** [coordToClass]: for each class left, each element points to it. *)
Definition coordToClass (st : repairState) : gmap Coord3D nat :=
  foldl (fun m id =>
           match heap st !! id with
           | Some class => foldl (fun m c => <[c := id]> m) m (Elements class)
           | None => m
           end)
        ∅ (elements (allClasses st)).

(** [coordToClass[c].Canonical]; a vertex without class is a nil
    dereference. *)
Definition canonicalOf (st : repairState) (c : Coord3D) : option Coord3D :=
  coordToClass st !! c ≫= fun id => Canonical <$> heap st !! id.

Definition repairTriangle (st : repairState) (t : @Geometry.Triangle Coord3D)
  : option (@Geometry.Triangle Coord3D) :=
  canonicalOf st (Geometry.T0 t) ≫= fun c0 =>
  canonicalOf st (Geometry.T1 t) ≫= fun c1 =>
  canonicalOf st (Geometry.T2 t) ≫= fun c2 =>
  Some (Geometry.mkTriangle c0 c1 c2).

(** [Repair] on a mesh whose vertices the first loop visits in the order
    [order]. *)
Definition RepairIn (order : list Coord3D) (m : Mesh) : option Mesh :=
  mapM (repairTriangle (addVertices order)) m.

(** *** Classes, cells and connection *)

(** Two vertices share a cell. *)
Definition shareCell (a b : Coord3D) : Prop :=
  exists h, h ∈ vertexHashes a /\ h ∈ vertexHashes b.

(** One step of the merge relation among the vertices [vs]. *)
Definition adjacent (vs : list Coord3D) (a b : Coord3D) : Prop :=
  a ∈ vs /\ b ∈ vs /\ shareCell a b.

(** Merged transitively: linked by a chain of vertices sharing cells. *)
Definition connected (vs : list Coord3D) : relation Coord3D := rtc (adjacent vs).

(** A class that [allClasses] still holds. *)
Definition live (st : repairState) (id : nat) (class : equivalenceClass) : Prop :=
  id ∈ allClasses st /\ heap st !! id = Some class.

Lemma vertexHashes_nonempty c : exists h, h ∈ vertexHashes c.
Proof.
  unfold vertexHashes. destruct (gridCell c) as [[x y] z].
  eexists. cbn. left.
Qed.

Lemma shareCell_sym a b : shareCell a b -> shareCell b a.
Proof. intros (h & Ha & Hb). exists h. auto. Qed.

Lemma connected_sym vs a b : connected vs a b -> connected vs b a.
Proof.
  unfold connected. intros Hab. induction Hab as [|a b c (Ha & Hb & Hs) _ IH].
  - reflexivity.
  - eapply rtc_trans; [exact IH|]. apply rtc_once.
    repeat split; auto using shareCell_sym.
Qed.

Lemma connected_mono vs vs' a b :
  (forall v, v ∈ vs -> v ∈ vs') -> connected vs a b -> connected vs' a b.
Proof.
  intros Hsub. unfold connected. apply rtc_subrel.
  intros x y (Hx & Hy & Hs). repeat split; auto.
Qed.

Lemma mergeHashes_elem hs : forall acc h,
  h ∈ mergeHashes acc hs <-> h ∈ acc \/ h ∈ hs.
Proof.
  unfold mergeHashes. induction hs as [|x hs IH]; intros acc h; cbn [foldl].
  - split; [auto|]. intros [Hacc|Hnil]; [exact Hacc|inversion Hnil].
  - rewrite IH, elem_of_cons. destruct (decide (x ∈ acc)) as [Hin|Hnin].
    + split; [tauto|]. intros [Hacc|[->|Hhs]]; tauto.
    + rewrite elem_of_app, list_elem_of_singleton. tauto.
Qed.

Lemma pointHashes_lookup hs : forall (m : gmap Cell nat) id h,
  pointHashes m hs id !! h = if decide (h ∈ hs) then Some id else m !! h.
Proof.
  unfold pointHashes. induction hs as [|x hs IH]; intros m id h; cbn [foldl].
  - rewrite decide_False by apply not_elem_of_nil. reflexivity.
  - rewrite IH. destruct (decide (h ∈ hs)) as [Hin|Hnin].
    + rewrite decide_True by (right; exact Hin). reflexivity.
    + destruct (decide (h = x)) as [->|Hne].
      * rewrite decide_True by left. apply lookup_insert_eq.
      * rewrite decide_False by (rewrite elem_of_cons; tauto).
        apply lookup_insert_ne. congruence.
Qed.

Lemma classesOf_elem st hashes id :
  id ∈ classesOf st hashes
  <-> exists h, h ∈ hashes /\ hashToClass st !! h = Some id.
Proof.
  unfold classesOf. rewrite elem_of_list_to_set, list_elem_of_omap. reflexivity.
Qed.

(** What the loop over [classes] computes. *)
Lemma foldl_mergeClass hp ids : forall acc,
  (forall id, id ∈ ids -> is_Some (hp !! id)) ->
  let res := foldl (mergeClass hp) acc ids in
  res.1 = acc.1 ∖ list_to_set ids
  /\ (forall v, v ∈ Elements res.2
        <-> v ∈ Elements acc.2
            \/ exists id class, id ∈ ids /\ hp !! id = Some class /\ v ∈ Elements class)
  /\ (forall h, h ∈ Hashes res.2
        <-> h ∈ Hashes acc.2
            \/ exists id class, id ∈ ids /\ hp !! id = Some class /\ h ∈ Hashes class)
  /\ Canonical res.2 = Canonical acc.2.
Proof.
  induction ids as [|id ids IH]; intros acc Hvalid; cbn [foldl].
  - cbv zeta. split; [cbn; rewrite difference_empty_L; reflexivity|].
    split; [|split; [|reflexivity]].
    + intros v. split; [auto|]. intros [Hv|(id & cl & Hin & _)]; [exact Hv|inversion Hin].
    + intros h. split; [auto|]. intros [Hh|(id & cl & Hin & _)]; [exact Hh|inversion Hin].
  - destruct (Hvalid id) as [cl Hcl]; [left|].
    assert (Hstep : mergeClass hp acc id
                    = (acc.1 ∖ {[id]},
                       {| Elements := Elements acc.2 ++ Elements cl;
                          Hashes := mergeHashes (Hashes acc.2) (Hashes cl);
                          Canonical := Canonical acc.2 |})).
    { unfold mergeClass. rewrite Hcl. reflexivity. }
    rewrite Hstep.
    match goal with |- context [foldl _ ?a ids] => specialize (IH a) end.
    destruct IH as (Hlive & Hel & Hha & Hcan).
    { intros id' Hin. apply Hvalid. right. exact Hin. }
    cbv zeta. cbn [fst snd Elements Hashes Canonical] in *.
    split; [rewrite Hlive; cbn; apply difference_difference_l_L|].
    split; [|split; [|exact Hcan]].
    + intros v. rewrite Hel, elem_of_app. split.
      * intros [[Hv|Hv]|(id' & cl' & Hin & Hl & Hv)]; [auto| |].
        -- right. exists id, cl. split; [left|auto].
        -- right. exists id', cl'. split; [right; exact Hin|auto].
      * intros [Hv|(id' & cl' & Hin & Hl & Hv)]; [auto|].
        apply elem_of_cons in Hin as [->|Hin].
        -- left. right. congruence.
        -- right. exists id', cl'. auto.
    + intros h. rewrite Hha, mergeHashes_elem. split.
      * intros [[Hv|Hv]|(id' & cl' & Hin & Hl & Hv)]; [auto| |].
        -- right. exists id, cl. split; [left|auto].
        -- right. exists id', cl'. split; [right; exact Hin|auto].
      * intros [Hv|(id' & cl' & Hin & Hl & Hv)]; [auto|].
        apply elem_of_cons in Hin as [->|Hin].
        -- left. right. congruence.
        -- right. exists id', cl'. auto.
Qed.

(** *** The invariant of the loop over the vertices

    After the vertices [done] have been visited. *)
Record invariant (done : list Coord3D) (st : repairState) : Prop := mkInv {
  inv_alloc : forall id, id ∈ allClasses st -> (id < length (heap st))%nat;
  inv_cover : forall v, v ∈ done -> exists id class, live st id class /\ v ∈ Elements class;
  inv_sound : forall id class v, live st id class -> v ∈ Elements class -> v ∈ done;
  inv_hashes : forall id class h, live st id class ->
      (h ∈ Hashes class <-> exists v, v ∈ Elements class /\ h ∈ vertexHashes v);
  inv_index : forall h id,
      hashToClass st !! h = Some id <-> exists class, live st id class /\ h ∈ Hashes class;
  inv_linked : forall id class v w, live st id class ->
      v ∈ Elements class -> w ∈ Elements class -> connected done v w;
  inv_canonical : forall id class, live st id class ->
      Canonical class ∈ Elements class
      /\ exists before after, done = before ++ Canonical class :: after
           /\ forall u, u ∈ after -> u ∉ Elements class
}.

Lemma invariant_empty : invariant [] emptyState.
Proof.
  split; unfold live, emptyState; cbn.
  - intros id Hin. set_solver.
  - intros v Hin. inversion Hin.
  - intros id cl v [Hin _]. set_solver.
  - intros id cl h [Hin _]. set_solver.
  - intros h id. rewrite lookup_empty. split; [discriminate|].
    intros (cl & [Hin _] & _). set_solver.
  - intros id cl v w [Hin _]. set_solver.
  - intros id cl [Hin _]. set_solver.
Qed.

(** Both branches of [addVertex] are the general merge. *)
Lemma addVertex_unfold st c :
  addVertex st c
  = let res := foldl (mergeClass (heap st))
                     (allClasses st,
                      {| Elements := [c]; Hashes := vertexHashes c; Canonical := c |})
                     (elements (classesOf st (vertexHashes c))) in
    {| heap := heap st ++ [res.2];
       hashToClass := pointHashes (hashToClass st) (Hashes res.2) (length (heap st));
       allClasses := res.1 ∪ {[length (heap st)]} |}.
Proof.
  unfold addVertex. cbv zeta. destruct (decide _) as [Hzero|Hpos].
  - apply size_empty_inv in Hzero. apply leibniz_equiv in Hzero.
    rewrite Hzero, elements_empty. reflexivity.
  - destruct (foldl _ _ _) as [lv nc]. reflexivity.
Qed.

(** Two live classes with a common hash are one class. *)
Lemma live_unique_hash done st id1 cl1 id2 cl2 h :
  invariant done st -> live st id1 cl1 -> live st id2 cl2 ->
  h ∈ Hashes cl1 -> h ∈ Hashes cl2 -> id1 = id2 /\ cl1 = cl2.
Proof.
  intros Hinv H1 H2 Hh1 Hh2.
  assert (E1 : hashToClass st !! h = Some id1) by (apply (inv_index _ _ Hinv); eauto).
  assert (E2 : hashToClass st !! h = Some id2) by (apply (inv_index _ _ Hinv); eauto).
  assert (id1 = id2) by congruence. subst id2. split; [reflexivity|].
  destruct H1 as [_ H1], H2 as [_ H2]. congruence.
Qed.

(** Two live classes with a common element are one class. *)
Lemma live_unique_elem done st id1 cl1 id2 cl2 v :
  invariant done st -> live st id1 cl1 -> live st id2 cl2 ->
  v ∈ Elements cl1 -> v ∈ Elements cl2 -> id1 = id2 /\ cl1 = cl2.
Proof.
  intros Hinv H1 H2 Hv1 Hv2. destruct (vertexHashes_nonempty v) as [h Hh].
  eapply (live_unique_hash done st _ _ _ _ h); eauto.
  - apply (inv_hashes _ _ Hinv id1 cl1 h H1). eauto.
  - apply (inv_hashes _ _ Hinv id2 cl2 h H2). eauto.
Qed.

(** Connected vertices are in the same live class. *)
Lemma connected_same_class done st id class v w :
  invariant done st -> live st id class -> v ∈ Elements class ->
  connected done v w -> w ∈ Elements class.
Proof.
  intros Hinv Hlive Hv Hvw. unfold connected in Hvw.
  induction Hvw as [|v u w (Hvd & Hud & (h & Hhv & Hhu)) _ IH]; [exact Hv|].
  apply IH. destruct (inv_cover _ _ Hinv u Hud) as (id' & cl' & Hlive' & Hu).
  assert (Heq : id = id' /\ class = cl').
  { eapply (live_unique_hash done st _ _ _ _ h); eauto.
    - apply (inv_hashes _ _ Hinv id class h Hlive). eauto.
    - apply (inv_hashes _ _ Hinv id' cl' h Hlive'). eauto. }
  destruct Heq as [_ ->]. exact Hu.
Qed.

(** The state after a vertex, in terms of the state before. *)
Lemma addVertex_spec done st c :
  invariant done st ->
  exists newClass,
    heap (addVertex st c) = heap st ++ [newClass]
    /\ allClasses (addVertex st c)
       = allClasses st ∖ classesOf st (vertexHashes c) ∪ {[length (heap st)]}
    /\ hashToClass (addVertex st c)
       = pointHashes (hashToClass st) (Hashes newClass) (length (heap st))
    /\ Canonical newClass = c
    /\ (forall v, v ∈ Elements newClass
          <-> v = c \/ exists id class, id ∈ classesOf st (vertexHashes c)
                         /\ live st id class /\ v ∈ Elements class)
    /\ (forall h, h ∈ Hashes newClass
          <-> h ∈ vertexHashes c
              \/ exists id class, id ∈ classesOf st (vertexHashes c)
                   /\ live st id class /\ h ∈ Hashes class).
Proof.
  intros Hinv. rewrite addVertex_unfold. cbv zeta.
  assert (Hfound : forall id, id ∈ classesOf st (vertexHashes c) ->
                              exists class, live st id class).
  { intros id Hid. apply classesOf_elem in Hid as (h & _ & Hh).
    apply (inv_index _ _ Hinv) in Hh as (cl & Hl & _). eauto. }
  pose proof (foldl_mergeClass (heap st) (elements (classesOf st (vertexHashes c)))
                (allClasses st,
                 {| Elements := [c]; Hashes := vertexHashes c; Canonical := c |}))
    as Hfold.
  destruct Hfold as (Hlive & Hel & Hha & Hcan).
  { intros id Hid. apply elem_of_elements in Hid.
    destruct (Hfound id Hid) as (cl & _ & Hcl). eauto. }
  cbn [fst snd Elements Hashes Canonical] in *.
  match goal with |- context [foldl ?f ?a ?l] => set (res := foldl f a l) in * end.
  exists res.2. cbn [heap allClasses hashToClass].
  split; [reflexivity|]. split.
  { rewrite Hlive. f_equal. f_equal. apply leibniz_equiv. apply list_to_set_elements. }
  split; [reflexivity|]. split; [exact Hcan|]. split.
  - intros v. rewrite Hel, list_elem_of_singleton. split.
    + intros [->|(id & cl & Hid & Hcl & Hv)]; [auto|]. right.
      apply elem_of_elements in Hid. destruct (Hfound id Hid) as (cl' & Hl').
      assert (cl' = cl) by (destruct Hl'; congruence). subst cl'. eauto.
    + intros [->|(id & cl & Hid & [_ Hcl] & Hv)]; [auto|]. right.
      exists id, cl. rewrite elem_of_elements. auto.
  - intros h. rewrite Hha. split.
    + intros [Hh|(id & cl & Hid & Hcl & Hh)]; [auto|]. right.
      apply elem_of_elements in Hid. destruct (Hfound id Hid) as (cl' & Hl').
      assert (cl' = cl) by (destruct Hl'; congruence). subst cl'. eauto.
    + intros [Hh|(id & cl & Hid & [_ Hcl] & Hh)]; [auto|]. right.
      exists id, cl. rewrite elem_of_elements. auto.
Qed.

Lemma addVertex_live done st c newClass id class :
  invariant done st ->
  heap (addVertex st c) = heap st ++ [newClass] ->
  allClasses (addVertex st c)
  = allClasses st ∖ classesOf st (vertexHashes c) ∪ {[length (heap st)]} ->
  live (addVertex st c) id class
  <-> (id = length (heap st) /\ class = newClass)
      \/ (live st id class /\ id ∉ classesOf st (vertexHashes c)).
Proof.
  intros Hinv Hheap Hall. unfold live. rewrite Hheap, Hall.
  rewrite elem_of_union, elem_of_difference, elem_of_singleton. split.
  - intros [[[Hin Hnot]| ->] Hcl].
    + right. pose proof (inv_alloc _ _ Hinv id Hin) as Hlt.
      rewrite lookup_app_l in Hcl by exact Hlt. auto.
    + left. rewrite lookup_app_r, Nat.sub_diag in Hcl by lia.
      cbn in Hcl. split; congruence.
  - intros [[-> ->]|[[Hin Hcl] Hnot]].
    + split; [auto|]. rewrite lookup_app_r, Nat.sub_diag by lia. reflexivity.
    + split; [auto|]. pose proof (inv_alloc _ _ Hinv id Hin) as Hlt.
      rewrite lookup_app_l by exact Hlt. exact Hcl.
Qed.

Lemma addVertex_invariant done st c :
  invariant done st -> c ∉ done -> invariant (done ++ [c]) (addVertex st c).
Proof.
  intros Hinv Hfresh.
  destruct (addVertex_spec done st c Hinv)
    as (nc & Hheap & Hall & Hindex & Hcan & Hel & Hha).
  pose proof (fun id cl => addVertex_live done st c nc id cl Hinv Hheap Hall) as Hlive.
  assert (Hmono : forall v w, connected done v w -> connected (done ++ [c]) v w).
  { intros v w. apply connected_mono. intros u Hu. apply elem_of_app. auto. }
  assert (Hmerged : forall id, id ∈ classesOf st (vertexHashes c) ->
            forall cl, live st id cl ->
            exists u, u ∈ Elements cl /\ shareCell u c).
  { intros id Hid cl Hl. apply classesOf_elem in Hid as (h & Hhc & Hh).
    apply (inv_index _ _ Hinv) in Hh as (cl' & Hl' & Hhcl).
    assert (cl' = cl) by (destruct Hl, Hl'; congruence). subst cl'.
    apply (inv_hashes _ _ Hinv id cl h Hl) in Hhcl as (u & Hu & Hhu).
    exists u. split; [exact Hu|]. exists h. auto. }
  assert (Htoc : forall v, v ∈ Elements nc -> connected (done ++ [c]) v c).
  { intros v Hv. apply Hel in Hv as [->|(id & cl & Hid & Hl & Hv)]; [reflexivity|].
    destruct (Hmerged id Hid cl Hl) as (u & Hu & Hshare).
    eapply rtc_r; [apply Hmono, (inv_linked _ _ Hinv id cl v u Hl Hv Hu)|].
    split; [|split; [|exact Hshare]].
    - apply elem_of_app. left. eapply inv_sound; eauto.
    - apply elem_of_app. right. left. }
  split.
  - (* inv_alloc *)
    intros id. rewrite Hall, Hheap, length_app, elem_of_union, elem_of_difference,
      elem_of_singleton. cbn.
    intros [[Hin _]| ->]; [apply (inv_alloc _ _ Hinv) in Hin|]; lia.
  - (* inv_cover *)
    intros v Hv. apply elem_of_app in Hv as [Hv|Hv].
    + destruct (inv_cover _ _ Hinv v Hv) as (id & cl & Hl & Hvc).
      destruct (decide (id ∈ classesOf st (vertexHashes c))) as [Hid|Hid].
      * exists (length (heap st)), nc. split; [apply Hlive; auto|].
        apply Hel. right. eauto.
      * exists id, cl. split; [apply Hlive; auto|exact Hvc].
    + apply list_elem_of_singleton in Hv as ->.
      exists (length (heap st)), nc. split; [apply Hlive; auto|]. apply Hel. auto.
  - (* inv_sound *)
    intros id cl v Hl Hv. apply Hlive in Hl as [[-> ->]|[Hl Hid]]; apply elem_of_app.
    + apply Hel in Hv as [->|(id' & cl' & _ & Hl' & Hv)].
      * right. left.
      * left. eapply inv_sound; eauto.
    + left. eapply inv_sound; eauto.
  - (* inv_hashes *)
    intros id cl h Hl. apply Hlive in Hl as [[-> ->]|[Hl Hid]].
    + rewrite Hha. split.
      * intros [Hh|(id' & cl' & Hid' & Hl' & Hh)].
        -- exists c. split; [apply Hel; auto|exact Hh].
        -- apply (inv_hashes _ _ Hinv id' cl' h Hl') in Hh as (v & Hv & Hh).
           exists v. split; [apply Hel; right; eauto|exact Hh].
      * intros (v & Hv & Hh). apply Hel in Hv as [->|(id' & cl' & Hid' & Hl' & Hv)].
        -- left. exact Hh.
        -- right. exists id', cl'. split; [exact Hid'|]. split; [exact Hl'|].
           apply (inv_hashes _ _ Hinv id' cl' h Hl'). eauto.
    + apply (inv_hashes _ _ Hinv id cl h Hl).
  - (* inv_index *)
    intros h id. rewrite Hindex, pointHashes_lookup.
    destruct (decide (h ∈ Hashes nc)) as [Hin|Hnin].
    + split.
      * intros [= <-]. exists nc. split; [apply Hlive; auto|exact Hin].
      * intros (cl & Hl & Hh). apply Hlive in Hl as [[-> ->]|[Hl Hid]]; [reflexivity|].
        exfalso. apply Hid. apply Hha in Hin as [Hhc|(id' & cl' & Hid' & Hl' & Hh')].
        -- apply classesOf_elem. exists h. split; [exact Hhc|].
           apply (inv_index _ _ Hinv). eauto.
        -- destruct (live_unique_hash done st id cl id' cl' h Hinv Hl Hl' Hh Hh')
             as [-> _]. exact Hid'.
    + rewrite (inv_index _ _ Hinv h id). split.
      * intros (cl & Hl & Hh). exists cl. split; [|exact Hh].
        apply Hlive. right. split; [exact Hl|]. intros Hid.
        apply Hnin, Hha. right. eauto.
      * intros (cl & Hl & Hh). apply Hlive in Hl as [[-> ->]|[Hl Hid]]; [contradiction|].
        eauto.
  - (* inv_linked *)
    intros id cl v w Hl Hv Hw. apply Hlive in Hl as [[-> ->]|[Hl Hid]].
    + eapply rtc_trans; [apply Htoc, Hv|]. apply connected_sym, Htoc, Hw.
    + apply Hmono. eapply inv_linked; eauto.
  - (* inv_canonical *)
    intros id cl Hl. apply Hlive in Hl as [[-> ->]|[Hl Hid]].
    + rewrite Hcan. split; [apply Hel; auto|].
      exists done, []. split; [reflexivity|]. intros u Hu. inversion Hu.
    + destruct (inv_canonical _ _ Hinv id cl Hl) as (Hc & before & after & Hdone & Hafter).
      split; [exact Hc|]. exists before, (after ++ [c]). split.
      * rewrite Hdone. rewrite <- app_assoc. reflexivity.
      * intros u Hu. apply elem_of_app in Hu as [Hu|Hu]; [apply Hafter, Hu|].
        apply list_elem_of_singleton in Hu as ->. intros Hc'.
        apply Hfresh. eapply inv_sound; eauto.
Qed.

Lemma foldl_addVertex_invariant rest : forall done st,
  invariant done st -> NoDup (done ++ rest) ->
  invariant (done ++ rest) (foldl addVertex st rest).
Proof.
  induction rest as [|c rest IH]; intros done st Hinv Hnd; cbn [foldl].
  - rewrite app_nil_r. exact Hinv.
  - replace (done ++ c :: rest) with ((done ++ [c]) ++ rest) in *
      by (rewrite <- app_assoc; reflexivity).
    apply IH; [|exact Hnd]. apply addVertex_invariant; [exact Hinv|].
    apply NoDup_app in Hnd as (Hnd & _ & _).
    apply NoDup_app in Hnd as (_ & Hdis & _).
    intros Hin. apply (Hdis c Hin). left.
Qed.

Lemma addVertices_invariant order :
  NoDup order -> invariant order (addVertices order).
Proof.
  intros Hnd. apply (foldl_addVertex_invariant order [] emptyState).
  - apply invariant_empty.
  - exact Hnd.
Qed.

(** *** The final map from vertices to classes *)

Lemma foldl_insert_elements (els : list Coord3D) id : forall (m : gmap Coord3D nat) v,
  foldl (fun m c => <[c := id]> m) m els !! v
  = if decide (v ∈ els) then Some id else m !! v.
Proof.
  induction els as [|x els IH]; intros m v; cbn [foldl].
  - rewrite decide_False by apply not_elem_of_nil. reflexivity.
  - rewrite IH. destruct (decide (v ∈ els)) as [Hin|Hnin].
    + rewrite decide_True by (right; exact Hin). reflexivity.
    + destruct (decide (v = x)) as [->|Hne].
      * rewrite decide_True by left. apply lookup_insert_eq.
      * rewrite decide_False by (rewrite elem_of_cons; tauto).
        apply lookup_insert_ne. congruence.
Qed.

Lemma coordToClass_fold (hp : list equivalenceClass) ids :
  forall (m : gmap Coord3D nat) v,
  (forall id, foldl (fun m id =>
                       match hp !! id with
                       | Some class => foldl (fun m c => <[c := id]> m) m (Elements class)
                       | None => m
                       end) m ids !! v = Some id ->
     m !! v = Some id
     \/ (id ∈ ids /\ exists class, hp !! id = Some class /\ v ∈ Elements class))
  /\ (is_Some (m !! v)
      \/ (exists id class, id ∈ ids /\ hp !! id = Some class /\ v ∈ Elements class) ->
      is_Some (foldl (fun m id =>
                        match hp !! id with
                        | Some class => foldl (fun m c => <[c := id]> m) m (Elements class)
                        | None => m
                        end) m ids !! v)).
Proof.
  induction ids as [|id0 ids IH]; intros m v; cbn [foldl].
  - split; [auto|]. intros [Hm|(id & cl & Hin & _)]; [exact Hm|inversion Hin].
  - destruct (IH (match hp !! id0 with
                  | Some class => foldl (fun m c => <[c := id0]> m) m (Elements class)
                  | None => m
                  end) v) as [IH1 IH2].
    split.
    + intros id Hid. apply IH1 in Hid as [Hid|(Hin & cl & Hcl & Hv)].
      * destruct (hp !! id0) as [cl0|] eqn:Hcl0; [|auto].
        rewrite foldl_insert_elements in Hid.
        destruct (decide (v ∈ Elements cl0)) as [Hv|Hv]; [|auto].
        injection Hid as <-. right. split; [left|eauto].
      * right. split; [right; exact Hin|eauto].
    + intros Hsome. apply IH2.
      destruct Hsome as [Hm|(id & cl & Hin & Hcl & Hv)].
      * left. destruct (hp !! id0) as [cl0|]; [|exact Hm].
        rewrite foldl_insert_elements. destruct (decide _); eauto.
      * apply elem_of_cons in Hin as [->|Hin]; [|right; eauto].
        left. rewrite Hcl, foldl_insert_elements, decide_True by exact Hv. eauto.
Qed.

Lemma coordToClass_spec done st id class v :
  invariant done st -> live st id class -> v ∈ Elements class ->
  coordToClass st !! v = Some id.
Proof.
  intros Hinv Hl Hv. unfold coordToClass.
  destruct (coordToClass_fold (heap st) (elements (allClasses st)) ∅ v) as [H1 H2].
  destruct H2 as [id' Hid'].
  { right. exists id, class. destruct Hl as [Hin Hcl].
    rewrite elem_of_elements. auto. }
  rewrite Hid'. f_equal.
  apply H1 in Hid' as [Hemp|(Hin & cl' & Hcl' & Hv')].
  - rewrite lookup_empty in Hemp. discriminate.
  - apply elem_of_elements in Hin.
    eapply (live_unique_elem done st id' cl' id class v); eauto. split; auto.
Qed.

Lemma canonicalOf_spec done st id class v :
  invariant done st -> live st id class -> v ∈ Elements class ->
  canonicalOf st v = Some (Canonical class).
Proof.
  intros Hinv Hl Hv. unfold canonicalOf.
  rewrite (coordToClass_spec done st id class v Hinv Hl Hv). cbn.
  destruct Hl as [_ ->]. reflexivity.
Qed.

(** The vertex a vertex is remapped to. *)
Definition canon (order : list Coord3D) (v : Coord3D) : Coord3D :=
  default v (canonicalOf (addVertices order) v).

(** C7 (as the code has it). Vertices chained by shared cells are merged
    into one class, transitively, and no others; every vertex of a class is
    remapped in the output mesh to one vertex of the class, its canonical
    representative, which is the vertex of the class the loop visited last
    (each merge makes the vertex at hand the canonical one). *)
Theorem Repair_canonical_is_last_inserted (order : list Coord3D) (m : Mesh) :
  NoDup order ->
  (forall t c, t ∈ m -> c ∈ Geometry.corners t -> c ∈ order) ->
  RepairIn order m = Some (Geometry.MapCoords (canon order) m)
  /\ forall v, v ∈ order ->
       connected order v (canon order v)
       /\ (forall u, u ∈ order ->
             (canon order u = canon order v <-> connected order v u))
       /\ exists before after,
            order = before ++ canon order v :: after
            /\ forall u, u ∈ after -> ~ connected order v u.
Proof.
  intros Hnd Hcorners.
  pose proof (addVertices_invariant order Hnd) as Hinv.
  assert (Hcanon : forall v, v ∈ order ->
            exists id cl, live (addVertices order) id cl /\ v ∈ Elements cl
                          /\ canonicalOf (addVertices order) v = Some (Canonical cl)
                          /\ canon order v = Canonical cl).
  { intros v Hv. destruct (inv_cover _ _ Hinv v Hv) as (id & cl & Hl & Hvc).
    exists id, cl. split; [exact Hl|]. split; [exact Hvc|].
    pose proof (canonicalOf_spec _ _ _ _ _ Hinv Hl Hvc) as Hc.
    split; [exact Hc|]. unfold canon. rewrite Hc. reflexivity. }
  split.
  - unfold RepairIn, Geometry.MapCoords. apply mapM_Some.
    apply Forall2_fmap_r, Forall_Forall2_diag, Forall_forall. intros t Ht.
    unfold repairTriangle, Geometry.mapTriangle.
    assert (Hc : forall c, c ∈ Geometry.corners t ->
              canonicalOf (addVertices order) c = Some (canon order c)).
    { intros c Hc. destruct (Hcanon c (Hcorners t c Ht Hc)) as (id & cl & _ & _ & -> & ->).
      reflexivity. }
    unfold Geometry.corners in Hc.
    rewrite !Hc by set_solver. reflexivity.
  - intros v Hv. destruct (Hcanon v Hv) as (id & cl & Hl & Hvc & _ & Hcv).
    destruct (inv_canonical _ _ Hinv id cl Hl) as (Hk & before & after & Horder & Hafter).
    rewrite Hcv. split; [|split].
    + eapply inv_linked; eauto.
    + intros u Hu. destruct (Hcanon u Hu) as (id' & cl' & Hl' & Huc & _ & ->). split.
      * intros Heq.
        destruct (inv_canonical _ _ Hinv id' cl' Hl') as (Hk' & _).
        rewrite Heq in Hk'.
        destruct (live_unique_elem _ _ _ _ _ _ _ Hinv Hl Hl' Hk Hk') as [_ <-].
        eapply inv_linked; eauto.
      * intros Hconn.
        pose proof (connected_same_class _ _ _ _ _ _ Hinv Hl Hvc Hconn) as Huc'.
        destruct (live_unique_elem _ _ _ _ _ _ _ Hinv Hl Hl' Huc' Huc) as [_ <-].
        reflexivity.
    + exists before, after. split; [exact Horder|].
      intros u Hu Hconn. apply (Hafter u Hu).
      exact (connected_same_class _ _ _ _ v u Hinv Hl Hvc Hconn).
Qed.

(** *** What [Repair] keeps *)

(** The class of a visited vertex and its canonical vertex. *)
Lemma canon_class (order : list Coord3D) (v : Coord3D) :
  NoDup order -> v ∈ order ->
  exists id cl, live (addVertices order) id cl /\ v ∈ Elements cl
                /\ canonicalOf (addVertices order) v = Some (Canonical cl)
                /\ canon order v = Canonical cl.
Proof.
  intros Hnd Hv. pose proof (addVertices_invariant order Hnd) as Hinv.
  destruct (inv_cover _ _ Hinv v Hv) as (id & cl & Hl & Hvc).
  exists id, cl. split; [exact Hl|]. split; [exact Hvc|].
  pose proof (canonicalOf_spec _ _ _ _ _ Hinv Hl Hvc) as Hc.
  split; [exact Hc|]. unfold canon. rewrite Hc. reflexivity.
Qed.

Lemma canon_connected (order : list Coord3D) (v : Coord3D) :
  NoDup order -> v ∈ order ->
  canon order v ∈ order /\ connected order v (canon order v).
Proof.
  intros Hnd Hv. pose proof (addVertices_invariant order Hnd) as Hinv.
  destruct (canon_class order v Hnd Hv) as (id & cl & Hl & Hvc & _ & ->).
  destruct (inv_canonical _ _ Hinv id cl Hl) as (Hk & _).
  split; [eapply inv_sound; eauto|eapply inv_linked; eauto].
Qed.

Lemma canon_of_connected (order : list Coord3D) (v u : Coord3D) :
  NoDup order -> v ∈ order -> u ∈ order -> connected order v u ->
  canon order u = canon order v.
Proof.
  intros Hnd Hv Hu Hconn. pose proof (addVertices_invariant order Hnd) as Hinv.
  destruct (canon_class order v Hnd Hv) as (id & cl & Hl & Hvc & _ & ->).
  destruct (canon_class order u Hnd Hu) as (id' & cl' & Hl' & Huc & _ & ->).
  pose proof (connected_same_class _ _ _ _ _ _ Hinv Hl Hvc Hconn) as Huc'.
  destruct (live_unique_elem _ _ _ _ _ _ _ Hinv Hl Hl' Huc' Huc) as [_ <-].
  reflexivity.
Qed.

Lemma RepairIn_run (order : list Coord3D) (m : Mesh) :
  NoDup order ->
  (forall t c, t ∈ m -> c ∈ Geometry.corners t -> c ∈ order) ->
  RepairIn order m = Some (Geometry.MapCoords (canon order) m).
Proof.
  intros Hnd Hcorners.
  unfold RepairIn, Geometry.MapCoords. apply mapM_Some.
  apply Forall2_fmap_r, Forall_Forall2_diag, Forall_forall. intros t Ht.
  unfold repairTriangle, Geometry.mapTriangle.
  assert (Hc : forall c, c ∈ Geometry.corners t ->
            canonicalOf (addVertices order) c = Some (canon order c)).
  { intros c Hc.
    destruct (canon_class order c Hnd (Hcorners t c Ht Hc)) as (id & cl & _ & _ & -> & ->).
    reflexivity. }
  unfold Geometry.corners in Hc.
  rewrite !Hc by (rewrite !elem_of_cons; auto). reflexivity.
Qed.

Lemma MapCoords_fixed (f : Coord3D -> Coord3D) (m : Mesh) :
  (forall t c, t ∈ m -> c ∈ Geometry.corners t -> f c = c) ->
  Geometry.MapCoords f m = m.
Proof.
  intros Hfix. unfold Geometry.MapCoords.
  rewrite <- (map_id m) at 2. apply map_ext_in. intros t Ht%list_elem_of_In.
  unfold Geometry.mapTriangle. destruct t as [a b c]. cbn.
  rewrite (Hfix _ a Ht), (Hfix _ b Ht), (Hfix _ c Ht);
    unfold Geometry.corners; cbn; rewrite ?elem_of_cons; auto.
Qed.

Lemma corner_MapCoords (f : Coord3D -> Coord3D) (m : Mesh) t c :
  t ∈ Geometry.MapCoords f m -> c ∈ Geometry.corners t ->
  exists t' c', t' ∈ m /\ c' ∈ Geometry.corners t' /\ c = f c'.
Proof.
  unfold Geometry.MapCoords. intros Ht Hc.
  apply list_elem_of_In, in_map_iff in Ht as (t' & <- & Ht'%list_elem_of_In).
  unfold Geometry.corners, Geometry.mapTriangle in Hc. cbn in Hc.
  unfold Geometry.corners.
  rewrite !elem_of_cons, elem_of_nil in Hc.
  destruct Hc as [->|[->|[->|[]]]]; eexists t', _; (split; [exact Ht'|]);
    (split; [|reflexivity]); rewrite !elem_of_cons; auto.
Qed.

(** Vertices of which no two share a cell are their own canonical
    vertex. *)
Lemma canon_separated (order : list Coord3D) (v : Coord3D) :
  NoDup order ->
  (forall a b, a ∈ order -> b ∈ order -> shareCell a b -> a = b) ->
  v ∈ order -> canon order v = v.
Proof.
  intros Hnd Hsep Hv. destruct (canon_connected order v Hnd Hv) as [_ Hconn].
  unfold connected in Hconn.
  induction Hconn as [|a b c (Ha & Hb & Hs) _ IH]; [reflexivity|].
  pose proof (Hsep a b Ha Hb Hs) as <-. exact (IH Hv).
Qed.

Lemma RepairIn_separated (order : list Coord3D) (m : Mesh) :
  NoDup order ->
  (forall t c, t ∈ m -> c ∈ Geometry.corners t -> c ∈ order) ->
  (forall a b, a ∈ order -> b ∈ order -> shareCell a b -> a = b) ->
  RepairIn order m = Some m.
Proof.
  intros Hnd Hcorners Hsep. rewrite (RepairIn_run order m Hnd Hcorners). f_equal.
  apply MapCoords_fixed. intros t c Ht Hc.
  apply canon_separated; eauto.
Qed.

(** X21.  [Repair] moves vertices and does nothing else: the result has
    one triangle for each triangle of the mesh, in the same order, also
    for a triangle that the merge makes degenerate; every vertex of the
    result is a vertex of the input that is linked to the vertex it
    replaces; and the canonical vertices are not moved again. *)
Theorem Repair_keeps_triangles_and_vertices (order : list Coord3D) (m : Mesh) :
  NoDup order ->
  (forall t c, t ∈ m -> c ∈ Geometry.corners t -> c ∈ order) ->
  exists out, RepairIn order m = Some out
    /\ length out = length m
    /\ (forall t c, t ∈ out -> c ∈ Geometry.corners t ->
          c ∈ order /\ canon order c = c
          /\ exists t' c', t' ∈ m /\ c' ∈ Geometry.corners t' /\ connected order c' c).
Proof.
  intros Hnd Hcorners. exists (Geometry.MapCoords (canon order) m).
  split; [exact (RepairIn_run order m Hnd Hcorners)|].
  split; [unfold Geometry.MapCoords; apply length_map|].
  intros t c Ht Hc.
  destruct (corner_MapCoords _ _ _ _ Ht Hc) as (t' & c' & Ht' & Hc' & ->).
  pose proof (Hcorners t' c' Ht' Hc') as Hin.
  destruct (canon_connected order c' Hnd Hin) as [Hk Hconn].
  split; [exact Hk|]. split.
  - apply (canon_of_connected order c' (canon order c') Hnd Hin Hk Hconn).
  - exists t', c'. auto.
Qed.

(** X22.  A mesh of which no two distinct vertices share a cell is returned
    as it is. *)
Theorem Repair_separated_unchanged (order : list Coord3D) (m : Mesh) :
  NoDup order ->
  (forall t c, t ∈ m -> c ∈ Geometry.corners t -> c ∈ order) ->
  (forall a b, a ∈ order -> b ∈ order -> shareCell a b -> a = b) ->
  RepairIn order m = Some m.
Proof. apply RepairIn_separated. Qed.

(** X23.  [Repair] is idempotent: in the repaired mesh no two distinct
    vertices share a cell, and a second [Repair], in whatever order its
    loop visits the vertices of the repaired mesh, returns the repaired
    mesh unchanged. *)
Theorem Repair_idempotent (order order' : list Coord3D) (m out : Mesh) :
  NoDup order ->
  (forall t c, t ∈ m -> c ∈ Geometry.corners t -> c ∈ order) ->
  RepairIn order m = Some out ->
  NoDup order' ->
  (forall c, c ∈ order' <-> exists t, t ∈ out /\ c ∈ Geometry.corners t) ->
  (forall a b, a ∈ order' -> b ∈ order' -> shareCell a b -> a = b)
  /\ RepairIn order' out = Some out.
Proof.
  intros Hnd Hcorners Hrun Hnd' Hvs.
  rewrite (RepairIn_run order m Hnd Hcorners) in Hrun. injection Hrun as <-.
  assert (Hcanon : forall c, c ∈ order' -> c ∈ order /\ canon order c = c).
  { intros c (t & Ht & Hc)%Hvs.
    destruct (corner_MapCoords _ _ _ _ Ht Hc) as (t' & c' & Ht' & Hc' & ->).
    pose proof (Hcorners t' c' Ht' Hc') as Hin.
    destruct (canon_connected order c' Hnd Hin) as [Hk Hconn].
    split; [exact Hk|].
    apply (canon_of_connected order c' (canon order c') Hnd Hin Hk Hconn). }
  assert (Hsep : forall a b, a ∈ order' -> b ∈ order' -> shareCell a b -> a = b).
  { intros a b Ha Hb Hs.
    destruct (Hcanon a Ha) as [Hao Hca], (Hcanon b Hb) as [Hbo Hcb].
    rewrite <- Hca, <- Hcb. symmetry.
    apply (canon_of_connected order a b Hnd Hao Hbo).
    apply rtc_once. repeat split; assumption. }
  split; [exact Hsep|].
  apply RepairIn_separated; [exact Hnd'| |exact Hsep].
  intros t c Ht Hc. apply Hvs. eauto.
Qed.

End Repair.

(** *** Integer coordinates on the unit grid ([epsilon = 1]) *)

Definition gridA : Z * Z * Z := (0, 0, 0).
Definition gridB : Z * Z * Z := (1, 0, 0).
Definition gridD : Z * Z * Z := (9, 9, 9).

Definition gridMesh : list (@Geometry.Triangle (Z * Z * Z)) :=
  [Geometry.mkTriangle gridA gridB gridD].

Lemma Repair_canonical_is_last_inserted_witness :
  NoDup [gridA; gridB; gridD]
  /\ (forall t c, t ∈ gridMesh -> c ∈ Geometry.corners t -> c ∈ [gridA; gridB; gridD])
  /\ (RepairIn id [gridA; gridB; gridD] gridMesh
      = Some (Geometry.MapCoords (canon id [gridA; gridB; gridD]) gridMesh)
      /\ forall v, v ∈ [gridA; gridB; gridD] ->
           connected id [gridA; gridB; gridD] v (canon id [gridA; gridB; gridD] v)
           /\ (forall u, u ∈ [gridA; gridB; gridD] ->
                 (canon id [gridA; gridB; gridD] u = canon id [gridA; gridB; gridD] v
                  <-> connected id [gridA; gridB; gridD] v u))
           /\ exists before after,
                [gridA; gridB; gridD] = before ++ canon id [gridA; gridB; gridD] v :: after
                /\ forall u, u ∈ after -> ~ connected id [gridA; gridB; gridD] v u).
Proof.
  assert (Hnd : NoDup [gridA; gridB; gridD]).
  { unfold gridA, gridB, gridD.
    repeat (constructor; [rewrite ?elem_of_cons, elem_of_nil; intuition congruence|]).
    constructor. }
  assert (Hcorners : forall t c, t ∈ gridMesh -> c ∈ Geometry.corners t ->
                                 c ∈ [gridA; gridB; gridD]).
  { intros t c Ht Hc. apply list_elem_of_singleton in Ht. subst t. exact Hc. }
  split; [exact Hnd|]. split; [exact Hcorners|].
  exact (Repair_canonical_is_last_inserted id [gridA; gridB; gridD] gridMesh Hnd Hcorners).
Defined.

(** [gridA] is visited first and shares a cell with [gridB], visited
    second: both are remapped to [gridB], the one inserted last, and not to
    the first-inserted [gridA]. *)
Lemma Repair_not_first_inserted :
  RepairIn id [gridA; gridB; gridD] gridMesh
  = Some [Geometry.mkTriangle gridB gridB gridD]
  /\ canonicalOf (addVertices id [gridA; gridB; gridD]) gridA = Some gridB
  /\ (1, 0, 0) ∈ vertexHashes id gridA
  /\ (1, 0, 0) ∈ vertexHashes id gridB
  /\ gridA <> gridB.
Proof.
  split; [vm_compute; reflexivity|]. split; [vm_compute; reflexivity|].
  split; [|split].
  - cbn. rewrite !elem_of_cons. auto 10.
  - cbn. rewrite !elem_of_cons. auto 10.
  - discriminate.
Qed.

(** *** The extras on the grid mesh *)

Definition gridE : Z * Z * Z := (5, 5, 5).

Definition gridRepaired : list (@Geometry.Triangle (Z * Z * Z)) :=
  [Geometry.mkTriangle gridB gridB gridD].

Definition gridSeparated : list (@Geometry.Triangle (Z * Z * Z)) :=
  [Geometry.mkTriangle gridA gridD gridE].

Lemma grid_NoDup3 (a b c : Z * Z * Z) :
  a <> b -> a <> c -> b <> c -> NoDup [a; b; c].
Proof.
  intros Hab Hac Hbc.
  repeat (constructor; [rewrite ?elem_of_cons, elem_of_nil; intuition congruence|]).
  constructor.
Qed.

Lemma grid_corners (a b c : Z * Z * Z) (order : list (Z * Z * Z)) :
  a ∈ order -> b ∈ order -> c ∈ order ->
  forall t v, t ∈ [Geometry.mkTriangle a b c] -> v ∈ Geometry.corners t -> v ∈ order.
Proof.
  intros Ha Hb Hc t v Ht Hv. apply list_elem_of_singleton in Ht. subst t.
  unfold Geometry.corners in Hv. cbn in Hv.
  rewrite !elem_of_cons, elem_of_nil in Hv. destruct Hv as [->|[->|[->|[]]]]; assumption.
Qed.

(** Sharing a cell, as a test. *)
Definition shareCellb (a b : Z * Z * Z) : bool :=
  existsb (fun h => bool_decide (h ∈ vertexHashes id b)) (vertexHashes id a).

Lemma shareCellb_spec (a b : Z * Z * Z) : shareCell id a b -> shareCellb a b = true.
Proof.
  intros (h & Ha & Hb). unfold shareCellb. apply existsb_exists. exists h.
  split; [apply list_elem_of_In; exact Ha|apply bool_decide_eq_true; exact Hb].
Qed.

Lemma grid_separated (order : list (Z * Z * Z)) :
  forallb (fun a => forallb (fun b => bool_decide (a = b) || negb (shareCellb a b)) order)
          order = true ->
  forall a b, a ∈ order -> b ∈ order -> shareCell id a b -> a = b.
Proof.
  intros Hall a b Ha Hb Hs. rewrite forallb_forall in Hall.
  specialize (Hall a (proj1 (list_elem_of_In _ _) Ha)). rewrite forallb_forall in Hall.
  specialize (Hall b (proj1 (list_elem_of_In _ _) Hb)).
  rewrite (shareCellb_spec a b Hs) in Hall. cbn in Hall. rewrite orb_false_r in Hall.
  apply bool_decide_eq_true in Hall. exact Hall.
Qed.

Lemma Repair_keeps_triangles_and_vertices_witness :
  NoDup [gridA; gridB; gridD]
  /\ (forall t c, t ∈ gridMesh -> c ∈ Geometry.corners t -> c ∈ [gridA; gridB; gridD])
  /\ exists out, RepairIn id [gridA; gridB; gridD] gridMesh = Some out
       /\ length out = length gridMesh
       /\ (forall t c, t ∈ out -> c ∈ Geometry.corners t ->
             c ∈ [gridA; gridB; gridD] /\ canon id [gridA; gridB; gridD] c = c
             /\ exists t' c', t' ∈ gridMesh /\ c' ∈ Geometry.corners t'
                              /\ connected id [gridA; gridB; gridD] c' c).
Proof.
  assert (Hnd : NoDup [gridA; gridB; gridD]) by (apply grid_NoDup3; discriminate).
  assert (Hcorners : forall t c, t ∈ gridMesh -> c ∈ Geometry.corners t ->
                                 c ∈ [gridA; gridB; gridD]).
  { apply grid_corners; rewrite !elem_of_cons; auto. }
  split; [exact Hnd|]. split; [exact Hcorners|].
  exact (Repair_keeps_triangles_and_vertices id [gridA; gridB; gridD] gridMesh Hnd Hcorners).
Defined.

Lemma Repair_separated_unchanged_witness :
  NoDup [gridA; gridD; gridE]
  /\ (forall t c, t ∈ gridSeparated -> c ∈ Geometry.corners t -> c ∈ [gridA; gridD; gridE])
  /\ (forall a b, a ∈ [gridA; gridD; gridE] -> b ∈ [gridA; gridD; gridE] ->
                  shareCell id a b -> a = b)
  /\ RepairIn id [gridA; gridD; gridE] gridSeparated = Some gridSeparated.
Proof.
  assert (Hnd : NoDup [gridA; gridD; gridE]) by (apply grid_NoDup3; discriminate).
  assert (Hcorners : forall t c, t ∈ gridSeparated -> c ∈ Geometry.corners t ->
                                 c ∈ [gridA; gridD; gridE]).
  { apply grid_corners; rewrite !elem_of_cons; auto. }
  assert (Hsep : forall a b, a ∈ [gridA; gridD; gridE] -> b ∈ [gridA; gridD; gridE] ->
                             shareCell id a b -> a = b).
  { apply grid_separated. vm_compute. reflexivity. }
  split; [exact Hnd|]. split; [exact Hcorners|]. split; [exact Hsep|].
  exact (Repair_separated_unchanged id [gridA; gridD; gridE] gridSeparated
           Hnd Hcorners Hsep).
Defined.

Lemma Repair_idempotent_witness :
  NoDup [gridA; gridB; gridD]
  /\ (forall t c, t ∈ gridMesh -> c ∈ Geometry.corners t -> c ∈ [gridA; gridB; gridD])
  /\ RepairIn id [gridA; gridB; gridD] gridMesh = Some gridRepaired
  /\ NoDup [gridD; gridB]
  /\ (forall c, c ∈ [gridD; gridB]
                <-> exists t, t ∈ gridRepaired /\ c ∈ Geometry.corners t)
  /\ (forall a b, a ∈ [gridD; gridB] -> b ∈ [gridD; gridB] -> shareCell id a b -> a = b)
  /\ RepairIn id [gridD; gridB] gridRepaired = Some gridRepaired.
Proof.
  assert (Hnd : NoDup [gridA; gridB; gridD]) by (apply grid_NoDup3; discriminate).
  assert (Hcorners : forall t c, t ∈ gridMesh -> c ∈ Geometry.corners t ->
                                 c ∈ [gridA; gridB; gridD]).
  { apply grid_corners; rewrite !elem_of_cons; auto. }
  assert (Hrun : RepairIn id [gridA; gridB; gridD] gridMesh = Some gridRepaired)
    by (vm_compute; reflexivity).
  assert (Hnd' : NoDup [gridD; gridB]).
  { repeat (constructor; [rewrite ?elem_of_cons, elem_of_nil; intuition discriminate|]).
    constructor. }
  assert (Hvs : forall c, c ∈ [gridD; gridB]
                          <-> exists t, t ∈ gridRepaired /\ c ∈ Geometry.corners t).
  { intros c. split.
    - intros Hc. exists (Geometry.mkTriangle gridB gridB gridD).
      split; [apply list_elem_of_singleton; reflexivity|].
      unfold Geometry.corners. cbn. rewrite !elem_of_cons, elem_of_nil in Hc.
      rewrite !elem_of_cons. tauto.
    - intros (t & Ht & Hc). apply list_elem_of_singleton in Ht. subst t.
      unfold Geometry.corners in Hc. cbn in Hc. rewrite !elem_of_cons, elem_of_nil in Hc.
      rewrite !elem_of_cons. tauto. }
  split; [exact Hnd|]. split; [exact Hcorners|]. split; [exact Hrun|].
  split; [exact Hnd'|]. split; [exact Hvs|].
  exact (Repair_idempotent id [gridA; gridB; gridD] [gridD; gridB] gridMesh gridRepaired
           Hnd Hcorners Hrun Hnd' Hvs).
Defined.

End Repair.

(** ** The mesh hierarchy (mesh_hierarchy.go)

    The rotation, the solids and the grouping of triangles are parameters.
    The pointer-mesh overlay is not among the sources and is modelled from
    the spec. *)

Module Hierarchy.
Section Hierarchy.

Context {Coord3D : Type} `{Countable Coord3D}.
Context {Solid : Type}.

Abbreviation Triangle := (@Geometry.Triangle Coord3D).
Abbreviation Mesh := (list (@Geometry.Triangle Coord3D)).

(** [rot.Apply] for the fixed rotation of [misalignMesh]. *)
Variable rotApply : Coord3D -> Coord3D.
(** [NewColliderSolid(GroupedTrianglesToCollider(ts))] and
    [NewColliderSolid(MeshToCollider(mesh))] *)
Variable solidOfGrouped : list Triangle -> Solid.
Variable solidOfMesh : Mesh -> Solid.
Variable Contains : Solid -> Coord3D -> bool.
(** [c.X < minVertex.X] *)
Variable ltX : Coord3D -> Coord3D -> bool.
(** [GroupTriangles] reorders the slice in place. *)
Variable GroupTriangles : list Triangle -> list Triangle.
(** [mesh.VertexSlice()[0]] *)
Variable firstVertex : Mesh -> Coord3D.

(** *** The overlay *)

(** Modelled from the spec: the overlay is "built from a Mesh by
    allocating one PtrCoord per distinct vertex and one PtrTriangle per
    face, wiring mutual references".  A [*ptrTriangle] is the position of
    its face in [faces]; [present] holds the triangles still linked in the
    mesh; the triangles of a [ptrCoord] are the faces that have it as a
    corner, which [Remove] leaves alone. *)
Record ptrMesh : Type := mkPtrMesh {
  faces : list Triangle;
  present : gset nat
}.

(** Modelled from the spec: [newPtrMeshMesh], one [ptrTriangle] per face,
    all of them in the mesh. *)
Definition newPtrMeshMesh (m : Mesh) : ptrMesh :=
  {| faces := m; present := list_to_set (seq 0 (length m)) |}.

(** Modelled from the spec: the face [t] refers to the [ptrCoord] of [c],
    one per distinct vertex. *)
Definition cornerOf (pm : ptrMesh) (c : Coord3D) (t : nat) : bool :=
  match faces pm !! t with
  | Some tri => Geometry.hasCorner tri c
  | None => false
  end.

(** Modelled from the spec: [c.Triangles], the faces wired to the
    [ptrCoord] of [c]. *)
Definition coordTriangles (pm : ptrMesh) (c : Coord3D) : list nat :=
  filter (fun t => cornerOf pm c t = true) (seq 0 (length (faces pm))).

(** Modelled from the spec: [pm.Remove(t)] unlinks [t] from the mesh. *)
Definition Remove (pm : ptrMesh) (t : nat) : ptrMesh :=
  {| faces := faces pm; present := present pm ∖ {[t]} |}.

(** Modelled from the spec: [pm.Peek()], a vertex of a triangle of the
    mesh, or [nil] when the mesh has no triangle. *)
Definition Peek (pm : ptrMesh) : option Coord3D :=
  match elements (present pm) with
  | [] => None
  | t :: _ => Geometry.T0 <$> faces pm !! t
  end.

(** Modelled from the spec: [pm.IterateCoords], the vertices of the
    triangles of the mesh, each once. *)
Definition IterateCoords (pm : ptrMesh) : list Coord3D :=
  remove_dups (t ← elements (present pm);
               default [] (Geometry.corners <$> faces pm !! t)).

(** *** [removeAllConnected] *)

Record bfsState : Type := mkBfs {
  bfsMesh : ptrMesh;
  resultMap : gset nat;
  queue : list nat;
  result : list Triangle
}.

(** [m.Remove(t); resultMap[t] = true; queue = append(queue, t);
    result = append(result, t.Triangle())] *)
Definition visit (st : bfsState) (t : nat) : bfsState :=
  {| bfsMesh := Remove (bfsMesh st) t;
     resultMap := resultMap st ∪ {[t]};
     queue := queue st ++ [t];
     result := result st ++ default [] ((fun tri => [tri]) <$> faces (bfsMesh st) !! t) |}.

(** [if !resultMap[t1] { ... }] *)
Definition visitNew (st : bfsState) (t1 : nat) : bfsState :=
  if decide (t1 ∈ resultMap st) then st else visit st t1.

(** The body of the loop over the queue, for the triangle [t]. *)
Definition expand (st : bfsState) (t : nat) : bfsState :=
  match faces (bfsMesh st) !! t with
  | Some tri =>
      foldl (fun st c => foldl visitNew st (coordTriangles (bfsMesh st) c))
            st (Geometry.corners tri)
  | None => st
  end.

(** [for idx < len(queue) { ... }], for at most [fuel] rounds. *)
Fixpoint bfsLoop (fuel : nat) (st : bfsState) (idx : nat) : option bfsState :=
  match queue st !! idx with
  | None => Some st
  | Some t =>
      match fuel with
      | O => None
      | S fuel' => bfsLoop fuel' (expand st t) (S idx)
      end
  end.

Definition removeAllConnected (pm : ptrMesh) (c : Coord3D)
  : option (ptrMesh * list Triangle) :=
  let st0 := foldl visit {| bfsMesh := pm; resultMap := ∅; queue := []; result := [] |}
                   (coordTriangles pm c) in
  match bfsLoop (length (faces pm)) st0 0 with
  | Some st => Some (bfsMesh st, result st)
  | None => None
  end.

(** *** The tree *)

#[local] Unset Elimination Schemes.
Inductive MeshHierarchy : Type :=
| mkHierarchy (mesh : Mesh) (meshSolid : Solid) (children : list MeshHierarchy).
#[local] Set Elimination Schemes.

Definition HMesh (h : MeshHierarchy) : Mesh :=
  match h with mkHierarchy mesh _ _ => mesh end.

Definition MeshSolid (h : MeshHierarchy) : Solid :=
  match h with mkHierarchy _ s _ => s end.

Definition Children (h : MeshHierarchy) : list MeshHierarchy :=
  match h with mkHierarchy _ _ cs => cs end.

Fixpoint insertLeaf (h : MeshHierarchy) (mesh : Mesh) (solid : Solid) : MeshHierarchy :=
  match h with
  | mkHierarchy m s children =>
      let v := firstVertex mesh in
      mkHierarchy m s
        ((fix go (cs : list MeshHierarchy) : list MeshHierarchy :=
            match cs with
            | [] => [mkHierarchy mesh solid []]
            | child :: rest =>
                if Contains (MeshSolid child) v
                then insertLeaf child mesh solid :: rest
                else child :: go rest
            end) children)
  end.

(** [FullMesh]: the triangles of the root and of all its descendants. *)
Fixpoint FullMesh (h : MeshHierarchy) : Mesh :=
  match h with
  | mkHierarchy m _ children =>
      m ++ (fix go (cs : list MeshHierarchy) : Mesh :=
              match cs with
              | [] => []
              | child :: rest => FullMesh child ++ go rest
              end) children
  end.

(** [Mesh.MapCoords] with a function that may panic. *)
Definition mapCoordsPartial (f : Coord3D -> option Coord3D) (m : Mesh) : option Mesh :=
  mapM (fun t =>
          f (Geometry.T0 t) ≫= fun c0 =>
          f (Geometry.T1 t) ≫= fun c1 =>
          f (Geometry.T2 t) ≫= fun c2 =>
          Some (Geometry.mkTriangle c0 c1 c2)) m.

(** [MeshHierarchy.MapCoords] *)
Fixpoint hierarchyMapCoords (f : Coord3D -> option Coord3D) (h : MeshHierarchy)
  : option MeshHierarchy :=
  match h with
  | mkHierarchy m _ children =>
      match mapCoordsPartial f m with
      | None => None
      | Some m' =>
          match (fix go (cs : list MeshHierarchy) : option (list MeshHierarchy) :=
                   match cs with
                   | [] => Some []
                   | child :: rest =>
                       match hierarchyMapCoords f child, go rest with
                       | Some child', Some rest' => Some (child' :: rest')
                       | _, _ => None
                       end
                   end) children with
          | Some children' => Some (mkHierarchy m' (solidOfMesh m') children')
          | None => None
          end
      end
  end.

(** *** [misalignedMeshToHierarchy] *)

(** The scan of the roots: the first root whose solid contains the vertex
    takes the shell as a leaf; without one the shell is a new root. *)
Fixpoint placeShell (roots : list MeshHierarchy) (mesh : Mesh) (solid : Solid)
    (minVertex : Coord3D) : list MeshHierarchy :=
  match roots with
  | [] => [mkHierarchy mesh solid []]
  | x :: rest =>
      if Contains (MeshSolid x) minVertex
      then insertLeaf x mesh solid :: rest
      else x :: placeShell rest mesh solid minVertex
  end.

(** [for pm.Peek() != nil { ... }], for at most [fuel] rounds. *)
Fixpoint closedMeshLoop (fuel : nat) (pm : ptrMesh) (roots : list MeshHierarchy)
  : option (list MeshHierarchy) :=
  match Peek pm with
  | None => Some roots
  | Some start =>
      match fuel with
      | O => None
      | S fuel' =>
          let minVertex :=
            foldl (fun mv c => if ltX c mv then c else mv) start (IterateCoords pm) in
          match removeAllConnected pm minVertex with
          | None => None
          | Some (pm', stripped) =>
              let grouped := GroupTriangles stripped in
              closedMeshLoop fuel' pm'
                (placeShell roots grouped (solidOfGrouped grouped) minVertex)
          end
      end
  end.

Definition misalignedMeshToHierarchy (m : Mesh) : option (list MeshHierarchy) :=
  closedMeshLoop (length m) (newPtrMeshMesh m) [].

(** *** [misalignMesh] and [MeshToHierarchy] *)

(** [invMapping], filled as [MapCoords] calls the closure on the corners. *)
Definition invMapping (m : Mesh) : gmap Coord3D Coord3D :=
  foldl (fun acc c => <[rotApply c := c]> acc) ∅ (flat_map Geometry.corners m).

Definition misalignMesh (m : Mesh) : Mesh * (Coord3D -> option Coord3D) :=
  (Geometry.MapCoords rotApply m, fun c => invMapping m !! c).

Definition MeshToHierarchy (m : Mesh) : option (list MeshHierarchy) :=
  if Geometry.NeedsRepair m then None
  else
    let '(misaligned, inv) := misalignMesh m in
    misalignedMeshToHierarchy misaligned ≫= mapM (hierarchyMapCoords inv).

(** *** The overlay: adjacency through a shared vertex *)

(** Two faces share a vertex. *)
Definition adjacent (pm : ptrMesh) (t t1 : nat) : Prop :=
  exists c, cornerOf pm c t = true /\ cornerOf pm c t1 = true.

(** The triangles still in the mesh are closed under adjacency: what has
    been removed so far is a union of whole shells. *)
Definition closedPresent (pm : ptrMesh) : Prop :=
  forall t t1, t ∈ present pm -> adjacent pm t t1 -> t1 ∈ present pm.

Definition validPresent (pm : ptrMesh) : Prop :=
  forall t, t ∈ present pm -> (t < length (faces pm))%nat.

(** The plain triangles of a list of faces. *)
Definition facesOf (pm : ptrMesh) (ts : list nat) : list Triangle :=
  omap (fun t => faces pm !! t) ts.

Lemma cornerOf_faces pm pm' c t :
  faces pm = faces pm' -> cornerOf pm c t = cornerOf pm' c t.
Proof. unfold cornerOf. intros ->. reflexivity. Qed.

Lemma cornerOf_lt pm c t : cornerOf pm c t = true -> (t < length (faces pm))%nat.
Proof.
  unfold cornerOf. destruct (faces pm !! t) as [tri|] eqn:Ht; [|discriminate].
  intros _. eapply lookup_lt_Some, Ht.
Qed.

Lemma coordTriangles_elem pm c t :
  t ∈ coordTriangles pm c <-> cornerOf pm c t = true.
Proof.
  unfold coordTriangles. rewrite list_elem_of_filter, elem_of_seq. split; [tauto|].
  intros Hc. split; [exact Hc|]. apply cornerOf_lt in Hc. lia.
Qed.

Lemma coordTriangles_faces pm pm' c :
  faces pm = faces pm' -> coordTriangles pm c = coordTriangles pm' c.
Proof.
  intros Hf. unfold coordTriangles. rewrite Hf.
  apply list_filter_iff. intros t. rewrite (cornerOf_faces pm pm' c t Hf). reflexivity.
Qed.

Lemma coordTriangles_NoDup pm c : NoDup (coordTriangles pm c).
Proof. apply NoDup_filter, NoDup_seq. Qed.

Lemma adjacent_sym pm t t1 : adjacent pm t t1 -> adjacent pm t1 t.
Proof. intros (c & Ht & Ht1). exists c. auto. Qed.

(** *** The invariant of the search

    [pm0] is the overlay when [removeAllConnected] is entered. *)
Record bfsInv (pm0 : ptrMesh) (st : bfsState) : Prop := mkBfsInv {
  bfs_faces : faces (bfsMesh st) = faces pm0;
  bfs_present : present (bfsMesh st) = present pm0 ∖ resultMap st;
  bfs_marks : forall t, t ∈ resultMap st <-> t ∈ queue st;
  bfs_nodup : NoDup (queue st);
  bfs_sub : forall t, t ∈ queue st -> t ∈ present pm0;
  bfs_result : result st = facesOf pm0 (queue st)
}.

Lemma visit_inv pm0 st t :
  bfsInv pm0 st -> t ∈ present pm0 -> t ∉ queue st -> bfsInv pm0 (visit st t).
Proof.
  intros [Hf Hp Hm Hn Hs Hr] Hin Hnew. split; cbn.
  - exact Hf.
  - rewrite Hp. apply difference_difference_l_L.
  - intros t'. rewrite elem_of_union, elem_of_singleton, elem_of_app,
      list_elem_of_singleton, Hm. reflexivity.
  - apply NoDup_app. split; [exact Hn|]. split; [|apply NoDup_singleton].
    intros x Hx Hx'. apply list_elem_of_singleton in Hx' as ->. contradiction.
  - intros t' Ht'. apply elem_of_app in Ht' as [Ht'|Ht']; [auto|].
    apply list_elem_of_singleton in Ht' as ->. exact Hin.
  - rewrite Hr, Hf. unfold facesOf. rewrite omap_app. f_equal. cbn.
    destruct (faces pm0 !! t); reflexivity.
Qed.

Lemma foldl_visit_inv pm0 ts : forall st,
  bfsInv pm0 st -> NoDup ts ->
  (forall t, t ∈ ts -> t ∈ present pm0 /\ t ∉ queue st) ->
  bfsInv pm0 (foldl visit st ts) /\ queue (foldl visit st ts) = queue st ++ ts.
Proof.
  induction ts as [|t ts IH]; intros st Hinv Hnd Hts; cbn [foldl].
  - rewrite app_nil_r. auto.
  - apply NoDup_cons in Hnd as [Hnt Hnd].
    destruct (Hts t) as [Hp Hq]; [left|].
    destruct (IH (visit st t)) as [Hinv' Hq'].
    + apply visit_inv; assumption.
    + exact Hnd.
    + intros t' Ht'. destruct (Hts t') as [Hp' Hq'0]; [right; exact Ht'|].
      split; [exact Hp'|]. cbn. rewrite elem_of_app, list_elem_of_singleton.
      intros [Hold| ->]; contradiction.
    + split; [exact Hinv'|]. rewrite Hq'. cbn. rewrite <- app_assoc. reflexivity.
Qed.

Lemma visitNew_inv pm0 st t :
  bfsInv pm0 st -> t ∈ present pm0 ->
  bfsInv pm0 (visitNew st t)
  /\ t ∈ resultMap (visitNew st t)
  /\ queue st `prefix_of` queue (visitNew st t).
Proof.
  intros Hinv Hin. unfold visitNew. destruct (decide (t ∈ resultMap st)) as [Hm|Hm].
  - split; [exact Hinv|]. split; [exact Hm|reflexivity].
  - split; [|split].
    + apply visit_inv; [exact Hinv|exact Hin|]. rewrite <- (bfs_marks _ _ Hinv). exact Hm.
    + cbn. apply elem_of_union. right. apply elem_of_singleton. reflexivity.
    + cbn. apply prefix_app_r. reflexivity.
Qed.

Lemma prefix_marks pm0 st st' t :
  bfsInv pm0 st -> bfsInv pm0 st' -> queue st `prefix_of` queue st' ->
  t ∈ resultMap st -> t ∈ resultMap st'.
Proof.
  intros Hinv Hinv' [k Hk] Ht. apply (bfs_marks _ _ Hinv'). rewrite Hk.
  apply elem_of_app. left. apply (bfs_marks _ _ Hinv). exact Ht.
Qed.

Lemma foldl_visitNew_inv pm0 ts : forall st,
  bfsInv pm0 st -> (forall t, t ∈ ts -> t ∈ present pm0) ->
  bfsInv pm0 (foldl visitNew st ts)
  /\ (forall t, t ∈ ts -> t ∈ resultMap (foldl visitNew st ts))
  /\ queue st `prefix_of` queue (foldl visitNew st ts).
Proof.
  induction ts as [|t ts IH]; intros st Hinv Hts; cbn [foldl].
  - split; [exact Hinv|]. split; [|reflexivity]. intros t Ht. inversion Ht.
  - destruct (visitNew_inv pm0 st t Hinv) as (Hinv1 & Hm1 & Hpre1); [apply Hts; left|].
    destruct (IH (visitNew st t) Hinv1) as (Hinv2 & Hm2 & Hpre2).
    { intros t' Ht'. apply Hts. right. exact Ht'. }
    split; [exact Hinv2|]. split.
    + intros t' Ht'. apply elem_of_cons in Ht' as [->|Ht']; [|apply Hm2, Ht'].
      exact (prefix_marks pm0 _ _ t Hinv1 Hinv2 Hpre2 Hm1).
    + etransitivity; eassumption.
Qed.

Lemma foldl_corners_inv pm0 t cs : forall st,
  bfsInv pm0 st -> closedPresent pm0 -> t ∈ present pm0 ->
  (forall c, c ∈ cs -> cornerOf pm0 c t = true) ->
  let st' := foldl (fun st c => foldl visitNew st (coordTriangles (bfsMesh st) c)) st cs in
  bfsInv pm0 st'
  /\ (forall c t1, c ∈ cs -> cornerOf pm0 c t1 = true -> t1 ∈ resultMap st')
  /\ queue st `prefix_of` queue st'.
Proof.
  induction cs as [|c cs IH]; intros st Hinv Hclosed Ht Hcs; cbn [foldl].
  - cbv zeta. split; [exact Hinv|]. split; [|reflexivity]. intros c t1 Hc. inversion Hc.
  - rewrite (coordTriangles_faces (bfsMesh st) pm0 c (bfs_faces _ _ Hinv)).
    destruct (foldl_visitNew_inv pm0 (coordTriangles pm0 c) st Hinv) as (Hinv1 & Hm1 & Hpre1).
    { intros t1 Ht1. apply coordTriangles_elem in Ht1.
      apply (Hclosed t t1 Ht). exists c. split; [apply Hcs; left|exact Ht1]. }
    destruct (IH _ Hinv1 Hclosed Ht) as (Hinv2 & Hm2 & Hpre2).
    { intros c' Hc'. apply Hcs. right. exact Hc'. }
    cbv zeta. split; [exact Hinv2|]. split.
    + intros c' t1 Hc' Ht1. apply elem_of_cons in Hc' as [->|Hc']; [|eapply Hm2; eauto].
      eapply prefix_marks; [exact Hinv1|exact Hinv2|exact Hpre2|].
      apply Hm1, coordTriangles_elem, Ht1.
    + etransitivity; eassumption.
Qed.

Lemma expand_inv pm0 st t :
  bfsInv pm0 st -> closedPresent pm0 -> t ∈ queue st ->
  bfsInv pm0 (expand st t)
  /\ (forall t1, adjacent pm0 t t1 -> t1 ∈ resultMap (expand st t))
  /\ queue st `prefix_of` queue (expand st t).
Proof.
  intros Hinv Hclosed Ht. unfold expand. rewrite (bfs_faces _ _ Hinv).
  destruct (faces pm0 !! t) as [tri|] eqn:Htri.
  - destruct (foldl_corners_inv pm0 t (Geometry.corners tri) st Hinv Hclosed)
      as (Hinv' & Hm & Hpre).
    + apply (bfs_sub _ _ Hinv), Ht.
    + intros c Hc. unfold cornerOf. rewrite Htri. unfold Geometry.hasCorner.
      apply bool_decide_eq_true. exact Hc.
    + split; [exact Hinv'|]. split; [|exact Hpre].
      intros t1 (c & Hct & Hct1). apply (Hm c t1); [|exact Hct1].
      unfold cornerOf in Hct. rewrite Htri in Hct.
      unfold Geometry.hasCorner in Hct. apply bool_decide_eq_true in Hct. exact Hct.
  - split; [exact Hinv|]. split; [|reflexivity].
    intros t1 (c & Hct & _). unfold cornerOf in Hct. rewrite Htri in Hct. discriminate.
Qed.

(** The first [idx] triangles of the queue have been expanded. *)
Definition expandedUpTo (pm0 : ptrMesh) (st : bfsState) (idx : nat) : Prop :=
  forall i t t1, (i < idx)%nat -> queue st !! i = Some t ->
                 adjacent pm0 t t1 -> t1 ∈ resultMap st.

Lemma queue_length pm0 st :
  validPresent pm0 -> bfsInv pm0 st -> (length (queue st) <= length (faces pm0))%nat.
Proof.
  intros Hvalid Hinv.
  assert (Hsub : queue st ⊆+ seq 0%nat (length (faces pm0))).
  { apply NoDup_submseteq; [apply (bfs_nodup _ _ Hinv)|].
    intros t Ht. apply elem_of_seq. apply (bfs_sub _ _ Hinv), Hvalid in Ht. lia. }
  apply submseteq_length in Hsub. rewrite length_seq in Hsub. exact Hsub.
Qed.

(** The loop over the queue ends within as many rounds as there are
    faces, with every triangle of the queue expanded. *)
Lemma bfsLoop_spec pm0 : forall fuel st idx,
  validPresent pm0 -> closedPresent pm0 -> bfsInv pm0 st ->
  expandedUpTo pm0 st idx ->
  (length (faces pm0) <= fuel + idx)%nat ->
  exists st', bfsLoop fuel st idx = Some st'
    /\ bfsInv pm0 st'
    /\ expandedUpTo pm0 st' (length (queue st'))
    /\ queue st `prefix_of` queue st'.
Proof.
  induction fuel as [|fuel IH]; intros st idx Hvalid Hclosed Hinv Hexp Hfuel.
  - cbn [bfsLoop]. destruct (queue st !! idx) as [t|] eqn:Ht.
    + apply lookup_lt_Some in Ht. pose proof (queue_length pm0 st Hvalid Hinv). lia.
    + exists st. split; [reflexivity|]. split; [exact Hinv|]. split; [|reflexivity].
      apply lookup_ge_None in Ht. intros i t t1 Hi. apply Hexp. lia.
  - cbn [bfsLoop]. destruct (queue st !! idx) as [t|] eqn:Ht.
    + destruct (expand_inv pm0 st t Hinv Hclosed) as (Hinv' & Hadj & Hpre).
      { eapply list_elem_of_lookup_2, Ht. }
      destruct (IH (expand st t) (S idx) Hvalid Hclosed Hinv') as (st' & Hrun & Hinv'' & Hexp' & Hpre').
      * intros i t' t1 Hi Ht' Hadj'.
        destruct (decide (i = idx)) as [->|Hne].
        -- pose proof (prefix_lookup_Some _ _ _ _ Ht Hpre) as Ht''.
           assert (t' = t) by congruence. subst t'. apply Hadj, Hadj'.
        -- assert (Hlt : (i < idx)%nat) by lia.
           destruct (lookup_lt_is_Some_2 (queue st) i) as [x Hx].
           { apply lookup_lt_Some in Ht. lia. }
           pose proof (prefix_lookup_Some _ _ _ _ Hx Hpre) as Hx'.
           assert (t' = x) by congruence. subst x.
           eapply prefix_marks; [exact Hinv|exact Hinv'|exact Hpre|].
           eapply Hexp; eauto.
      * lia.
      * exists st'. split; [exact Hrun|]. split; [exact Hinv''|]. split; [exact Hexp'|].
        etransitivity; eassumption.
    + exists st. split; [reflexivity|]. split; [exact Hinv|]. split; [|reflexivity].
      apply lookup_ge_None in Ht. intros i t t1 Hi. apply Hexp. lia.
Qed.


(** *** The triangles of a forest *)

Fixpoint fullMeshes (hs : list MeshHierarchy) : Mesh :=
  match hs with
  | [] => []
  | h :: rest => FullMesh h ++ fullMeshes rest
  end.

Lemma FullMesh_unfold m s children :
  FullMesh (mkHierarchy m s children) = m ++ fullMeshes children.
Proof.
  reflexivity.
Qed.

Lemma MeshHierarchy_forest_ind (P : MeshHierarchy -> Prop) :
  (forall m s children, Forall P children -> P (mkHierarchy m s children)) ->
  forall h, P h.
Proof.
  intros Hstep. fix IH 1. intros [m s children]. apply Hstep.
  induction children as [|c cs IHcs]; constructor; [apply IH|exact IHcs].
Qed.

Lemma insertLeaf_FullMesh mesh solid h :
  FullMesh (insertLeaf h mesh solid) ≡ₚ FullMesh h ++ mesh.
Proof.
  induction h as [m s children IH] using MeshHierarchy_forest_ind.
  cbn [insertLeaf]. rewrite !FullMesh_unfold, <- app_assoc. f_equiv.
  induction IH as [|c cs Hc _ IHcs]; cbn [fullMeshes].
  - rewrite FullMesh_unfold. cbn [fullMeshes app]. rewrite !app_nil_r. reflexivity.
  - destruct (Contains (MeshSolid c) (firstVertex mesh)); cbn [fullMeshes].
    + rewrite Hc. rewrite <- !app_assoc. f_equiv. apply Permutation_app_comm.
    + rewrite IHcs, app_assoc. reflexivity.
Qed.


(** *** Mapping the coordinates back *)

Lemma mapCoordsPartial_total (f : Coord3D -> option Coord3D) (g : Coord3D -> Coord3D)
    (m : Mesh) :
  (forall t c, t ∈ m -> c ∈ Geometry.corners t -> f c = Some (g c)) ->
  mapCoordsPartial f m = Some (Geometry.MapCoords g m).
Proof.
  intros Hf. unfold mapCoordsPartial, Geometry.MapCoords. apply mapM_Some.
  apply Forall2_fmap_r, Forall_Forall2_diag, Forall_forall. intros t Ht.
  assert (Hc : forall c, c ∈ Geometry.corners t -> f c = Some (g c)) by (intros; eauto).
  unfold Geometry.corners in Hc.
  rewrite !Hc by set_solver. reflexivity.
Qed.

Lemma hierarchyMapCoords_total (f : Coord3D -> option Coord3D) (g : Coord3D -> Coord3D) h :
  (forall t c, t ∈ FullMesh h -> c ∈ Geometry.corners t -> f c = Some (g c)) ->
  exists h', hierarchyMapCoords f h = Some h'
             /\ FullMesh h' = Geometry.MapCoords g (FullMesh h).
Proof.
  induction h as [m s children IH] using MeshHierarchy_forest_ind.
  rewrite FullMesh_unfold. intros Hf. cbn [hierarchyMapCoords].
  rewrite (mapCoordsPartial_total f g m).
  2:{ intros t c Ht. apply Hf, elem_of_app. auto. }
  assert (Hkids : exists children',
            (fix go (cs : list MeshHierarchy) : option (list MeshHierarchy) :=
               match cs with
               | [] => Some []
               | child :: rest =>
                   match hierarchyMapCoords f child, go rest with
                   | Some child', Some rest' => Some (child' :: rest')
                   | _, _ => None
                   end
               end) children = Some children'
            /\ fullMeshes children' = Geometry.MapCoords g (fullMeshes children)).
  { assert (Hsub : forall t c, t ∈ fullMeshes children -> c ∈ Geometry.corners t ->
                               f c = Some (g c)).
    { intros t c Ht. apply Hf, elem_of_app. auto. }
    clear Hf. induction IH as [|c cs Hc _ IHcs].
    - exists []. split; reflexivity.
    - cbn [fullMeshes] in Hsub.
      destruct Hc as (c' & -> & Hc').
      { intros t x Ht. apply Hsub, elem_of_app. auto. }
      destruct IHcs as (cs' & -> & Hcs').
      { intros t x Ht. apply Hsub, elem_of_app. auto. }
      exists (c' :: cs'). split; [reflexivity|].
      cbn [fullMeshes]. rewrite Hc', Hcs'. unfold Geometry.MapCoords.
      rewrite map_app. reflexivity. }
  destruct Hkids as (children' & -> & Hfull).
  eexists. split; [reflexivity|].
  rewrite FullMesh_unfold, Hfull. unfold Geometry.MapCoords. rewrite map_app. reflexivity.
Qed.


(** *** The loop over the shells *)



Lemma newPtrMeshMesh_valid (m : Mesh) : validPresent (newPtrMeshMesh m).
Proof.
  intros t. unfold newPtrMeshMesh. cbn [faces present].
  rewrite elem_of_list_to_set, elem_of_seq. lia.
Qed.

Lemma newPtrMeshMesh_closed (m : Mesh) : closedPresent (newPtrMeshMesh m).
Proof.
  intros t t1 _ (c & _ & Hc). apply cornerOf_lt in Hc.
  unfold newPtrMeshMesh in *. cbn [faces present] in *.
  rewrite elem_of_list_to_set, elem_of_seq. lia.
Qed.









(** *** The inverse of the rotation *)








(** *** The shell that [removeAllConnected] strips *)

(** [t] is linked to the vertex [c] by a chain of faces, each sharing a
    vertex with the next, from a face that has [c] as a corner. *)
Definition connectedTo (pm : ptrMesh) (c : Coord3D) (t : nat) : Prop :=
  exists t0, cornerOf pm c t0 = true /\ rtc (adjacent pm) t0 t.

Lemma foldl_visit_queue ts : forall st,
  queue (foldl visit st ts) = queue st ++ ts
  /\ faces (bfsMesh (foldl visit st ts)) = faces (bfsMesh st).
Proof.
  induction ts as [|t ts IH]; intros st; cbn [foldl].
  - rewrite app_nil_r. auto.
  - destruct (IH (visit st t)) as [-> ->]. cbn. rewrite <- app_assoc. auto.
Qed.

Lemma foldl_visitNew_queue ts : forall st x,
  (x ∈ queue (foldl visitNew st ts) -> x ∈ queue st \/ x ∈ ts)
  /\ faces (bfsMesh (foldl visitNew st ts)) = faces (bfsMesh st).
Proof.
  induction ts as [|t ts IH]; intros st x; cbn [foldl].
  - auto.
  - destruct (IH (visitNew st t) x) as [Hq Hf]. unfold visitNew in *.
    destruct (decide (t ∈ resultMap st)).
    + split; [|exact Hf]. intros Hx. apply Hq in Hx as [Hx|Hx]; [auto|].
      right. right. exact Hx.
    + split; [|exact Hf]. intros Hx. apply Hq in Hx as [Hx|Hx].
      * cbn in Hx. apply elem_of_app in Hx as [Hx|Hx]; [auto|].
        apply list_elem_of_singleton in Hx as ->. right. left.
      * right. right. exact Hx.
Qed.

Lemma expand_queue st t x :
  x ∈ queue (expand st t) -> x ∈ queue st \/ adjacent (bfsMesh st) t x.
Proof.
  unfold expand. destruct (faces (bfsMesh st) !! t) as [tri|] eqn:Htri; [|auto].
  assert (Hgen : forall cs st',
             faces (bfsMesh st') = faces (bfsMesh st) ->
             (forall c, c ∈ cs -> c ∈ Geometry.corners tri) ->
             x ∈ queue (foldl (fun st c => foldl visitNew st (coordTriangles (bfsMesh st) c))
                              st' cs) ->
             x ∈ queue st' \/ adjacent (bfsMesh st) t x).
  { induction cs as [|c cs IH]; intros st' Hf Hcs; cbn [foldl]; [auto|].
    intros Hx. apply IH in Hx.
    - destruct Hx as [Hx|Hx]; [|auto].
      apply foldl_visitNew_queue in Hx as [Hx|Hx]; [auto|].
      right. exists c. apply coordTriangles_elem in Hx.
      rewrite (cornerOf_faces _ _ c x Hf) in Hx. split; [|exact Hx].
      unfold cornerOf. rewrite Htri. apply bool_decide_eq_true, Hcs. left.
    - destruct (foldl_visitNew_queue (coordTriangles (bfsMesh st') c) st' x) as [_ ->].
      exact Hf.
    - intros c' Hc'. apply Hcs. right. exact Hc'. }
  apply Hgen; auto.
Qed.

Lemma expand_faces st t : faces (bfsMesh (expand st t)) = faces (bfsMesh st).
Proof.
  unfold expand. destruct (faces (bfsMesh st) !! t) as [tri|]; [|reflexivity].
  generalize (Geometry.corners tri). intros cs.
  assert (Hgen : forall st', faces (bfsMesh st') = faces (bfsMesh st) ->
            faces (bfsMesh (foldl (fun st c => foldl visitNew st
                                                     (coordTriangles (bfsMesh st) c))
                                  st' cs))
            = faces (bfsMesh st)).
  { induction cs as [|c cs IH]; intros st' Hf; cbn [foldl]; [exact Hf|].
    apply IH.
    destruct (foldl_visitNew_queue (coordTriangles (bfsMesh st') c) st' 0%nat) as [_ ->].
    exact Hf. }
  apply Hgen. reflexivity.
Qed.

(** Every triangle that enters the queue is linked to the start. *)
Lemma bfsLoop_linked (pm : ptrMesh) (R : nat -> Prop) :
  (forall t t1, R t -> adjacent pm t t1 -> R t1) ->
  forall fuel st idx st',
    faces (bfsMesh st) = faces pm ->
    (forall x, x ∈ queue st -> R x) ->
    bfsLoop fuel st idx = Some st' ->
    forall x, x ∈ queue st' -> R x.
Proof.
  intros Hclosed. induction fuel as [|fuel IH]; intros st idx st' Hf Hq; cbn [bfsLoop].
  - destruct (queue st !! idx); [discriminate|]. intros [= <-]. exact Hq.
  - destruct (queue st !! idx) as [t|] eqn:Ht; [|intros [= <-]; exact Hq].
    apply IH.
    + rewrite expand_faces. exact Hf.
    + intros x Hx. apply expand_queue in Hx as [Hx|(c & Hct & Hcx)]; [auto|].
      apply (Hclosed t x).
      * apply Hq. eapply list_elem_of_lookup_2, Ht.
      * exists c. rewrite <- (cornerOf_faces _ pm c t Hf), <- (cornerOf_faces _ pm c x Hf).
        auto.
Qed.

Lemma removeAllConnected_run pm c t0 :
  validPresent pm -> closedPresent pm ->
  t0 ∈ present pm -> cornerOf pm c t0 = true ->
  let st0 := foldl visit {| bfsMesh := pm; resultMap := ∅; queue := []; result := [] |}
                   (coordTriangles pm c) in
  exists st, bfsLoop (length (faces pm)) st0 0 = Some st
    /\ bfsInv pm st
    /\ expandedUpTo pm st (length (queue st))
    /\ coordTriangles pm c `prefix_of` queue st.
Proof.
  intros Hvalid Hclosed Ht0 Hc0. cbv zeta.
  set (init := {| bfsMesh := pm; resultMap := ∅; queue := []; result := [] |}).
  assert (Hinit : bfsInv pm init).
  { split; cbn; try reflexivity.
    - rewrite difference_empty_L. reflexivity.
    - intros t. rewrite elem_of_empty, elem_of_nil. reflexivity.
    - constructor.
    - intros t Ht. inversion Ht. }
  destruct (foldl_visit_inv pm (coordTriangles pm c) init Hinit (coordTriangles_NoDup pm c))
    as [Hinv0 Hq0].
  { intros t Ht. split; [|cbn; apply not_elem_of_nil].
    apply coordTriangles_elem in Ht. apply (Hclosed t0 t Ht0). exists c. auto. }
  cbn [queue init app] in Hq0.
  destruct (bfsLoop_spec pm (length (faces pm)) (foldl visit init (coordTriangles pm c)) 0
              Hvalid Hclosed Hinv0)
    as (st & Hrun & Hinv & Hexp & Hpre).
  { intros i t t1 Hi. lia. }
  { lia. }
  exists st. split; [exact Hrun|]. split; [exact Hinv|]. split; [exact Hexp|].
  rewrite <- Hq0. exact Hpre.
Qed.

(** X13.  [removeAllConnected(pm, c)], called with a vertex [c] of a
    triangle of the mesh, returns, and strips exactly the triangles that a
    chain of faces sharing a vertex links to [c], each once: the result is
    the shell of [c], the rest of the mesh is left in place, and the faces
    themselves are not changed. *)
Theorem removeAllConnected_component (pm : ptrMesh) (c : Coord3D) (t0 : nat) :
  validPresent pm -> closedPresent pm ->
  t0 ∈ present pm -> cornerOf pm c t0 = true ->
  exists pm' q,
    removeAllConnected pm c = Some (pm', facesOf pm q)
    /\ NoDup q
    /\ (forall t, t ∈ q <-> connectedTo pm c t)
    /\ (forall t, t ∈ q -> t ∈ present pm)
    /\ present pm' = present pm ∖ list_to_set q
    /\ faces pm' = faces pm.
Proof.
  intros Hvalid Hclosed Ht0 Hc0.
  destruct (removeAllConnected_run pm c t0 Hvalid Hclosed Ht0 Hc0)
    as (st & Hrun & Hinv & Hexp & Hpre).
  exists (bfsMesh st), (queue st). unfold removeAllConnected. cbv zeta.
  rewrite Hrun. split; [rewrite (bfs_result _ _ Hinv); reflexivity|].
  split; [apply (bfs_nodup _ _ Hinv)|]. split; [|split; [apply (bfs_sub _ _ Hinv)|split]].
  - intros t. split.
    + revert t. eapply (bfsLoop_linked pm (connectedTo pm c)); [| | |exact Hrun].
      * intros t t1 (s & Hs & Hst) Hadj. exists s. split; [exact Hs|].
        eapply rtc_r; eassumption.
      * destruct (foldl_visit_queue (coordTriangles pm c)
                    {| bfsMesh := pm; resultMap := ∅; queue := []; result := [] |})
          as [_ ->]. reflexivity.
      * intros x. destruct (foldl_visit_queue (coordTriangles pm c)
                    {| bfsMesh := pm; resultMap := ∅; queue := []; result := [] |})
          as [-> _]. cbn. intros Hx. apply coordTriangles_elem in Hx.
        exists x. split; [exact Hx|reflexivity].
    + intros (s & Hs & Hst).
      assert (Hclose : forall s t, rtc (adjacent pm) s t -> s ∈ queue st -> t ∈ queue st).
      { clear s Hs Hst t. intros s t Hst. induction Hst as [s|s u t Hsu _ IH]; [auto|].
        intros Hsq. apply IH. apply list_elem_of_lookup in Hsq as [i Hi].
        apply (bfs_marks _ _ Hinv).
        apply (Hexp i s u); [eapply lookup_lt_Some, Hi|exact Hi|exact Hsu]. }
      apply (Hclose s t Hst). destruct Hpre as [k ->]. apply elem_of_app. left.
      apply coordTriangles_elem, Hs.
  - rewrite (bfs_present _ _ Hinv). f_equal. apply set_eq. intros t.
    rewrite elem_of_list_to_set. apply (bfs_marks _ _ Hinv).
  - apply (bfs_faces _ _ Hinv).
Qed.

(** *** [MapCoords] and [insertLeaf] on the tree *)

(** The number of meshes of a tree. *)
Fixpoint nodes (h : MeshHierarchy) : nat :=
  match h with
  | mkHierarchy _ _ children =>
      S ((fix go (cs : list MeshHierarchy) : nat :=
            match cs with
            | [] => O
            | child :: rest => (nodes child + go rest)%nat
            end) children)
  end.

Fixpoint forestNodes (hs : list MeshHierarchy) : nat :=
  match hs with
  | [] => O
  | h :: rest => (nodes h + forestNodes rest)%nat
  end.

Lemma nodes_unfold m s children :
  nodes (mkHierarchy m s children) = S (forestNodes children).
Proof. reflexivity. Qed.

Lemma hierarchyMapCoords_nodes (f : Coord3D -> option Coord3D) h :
  forall h', hierarchyMapCoords f h = Some h' ->
             nodes h' = nodes h /\ length (Children h') = length (Children h)
             /\ mapCoordsPartial f (HMesh h) = Some (HMesh h')
             /\ MeshSolid h' = solidOfMesh (HMesh h').
Proof.
  induction h as [m s children IH] using MeshHierarchy_forest_ind.
  intros h'. cbn [hierarchyMapCoords].
  destruct (mapCoordsPartial f m) as [m'|] eqn:Hm; [|discriminate].
  match goal with
  | |- context [match ?g children with _ => _ end] => destruct (g children) as [cs'|] eqn:Hcs
  end; [|discriminate].
  intros [= <-]. rewrite !nodes_unfold. cbn [Children HMesh MeshSolid].
  assert (Hkids : forestNodes cs' = forestNodes children /\ length cs' = length children).
  { clear Hm. revert cs' Hcs. induction IH as [|c cs Hc _ IHcs]; intros cs' Hcs.
    - injection Hcs as <-. auto.
    - destruct (hierarchyMapCoords f c) as [c'|] eqn:Hc'; [|discriminate].
      match type of Hcs with
      | match ?g cs with _ => _ end = _ => destruct (g cs) as [rest'|] eqn:Hrest
      end; [|discriminate].
      injection Hcs as <-. destruct (Hc c' eq_refl) as (Hn & _).
      destruct (IHcs rest' eq_refl) as (Hn' & Hl').
      cbn [forestNodes length]. rewrite Hn, Hn', Hl'. auto. }
  destruct Hkids as [-> ->]. auto.
Qed.

(** X14.  [MeshHierarchy.MapCoords(f)] maps the mesh of every node and
    keeps the tree: the result has as many nodes, its root as many
    children, its root mesh is the root mesh mapped, its root solid is
    rebuilt from the mapped mesh, and [FullMesh] of the result is
    [FullMesh] of the tree with [f] applied to every triangle. *)
Theorem hierarchyMapCoords_FullMesh (g : Coord3D -> Coord3D) (h : MeshHierarchy) :
  exists h', hierarchyMapCoords (fun c => Some (g c)) h = Some h'
    /\ FullMesh h' = Geometry.MapCoords g (FullMesh h)
    /\ HMesh h' = Geometry.MapCoords g (HMesh h)
    /\ MeshSolid h' = solidOfMesh (HMesh h')
    /\ nodes h' = nodes h
    /\ length (Children h') = length (Children h).
Proof.
  destruct (hierarchyMapCoords_total (fun c => Some (g c)) g h) as (h' & Hrun & Hfull).
  { reflexivity. }
  exists h'. split; [exact Hrun|]. split; [exact Hfull|].
  destruct (hierarchyMapCoords_nodes _ h h' Hrun) as (Hn & Hl & Hm & Hs).
  rewrite (mapCoordsPartial_total (fun c => Some (g c)) g (HMesh h)) in Hm by reflexivity.
  injection Hm as Hm. auto.
Qed.

Lemma insertLeaf_nodes mesh solid h :
  nodes (insertLeaf h mesh solid) = S (nodes h).
Proof.
  induction h as [m s children IH] using MeshHierarchy_forest_ind.
  cbn [insertLeaf]. rewrite !nodes_unfold. f_equal.
  induction IH as [|c cs Hc _ IHcs]; cbn [forestNodes].
  - reflexivity.
  - destruct (Contains (MeshSolid c) (firstVertex mesh)); cbn [forestNodes].
    + rewrite Hc. reflexivity.
    + rewrite IHcs. lia.
Qed.

Lemma placeShell_nodes mesh solid v roots :
  forestNodes (placeShell roots mesh solid v) = S (forestNodes roots).
Proof.
  induction roots as [|x rest IH]; cbn [placeShell forestNodes]; [reflexivity|].
  destruct (Contains (MeshSolid x) v); cbn [forestNodes].
  - rewrite insertLeaf_nodes. reflexivity.
  - rewrite IH. lia.
Qed.

(** X15.  [insertLeaf] adds one node and nothing else: the tree has one
    node more, its triangles are the triangles it had and those of the new
    mesh, and the mesh and the solid of the root are kept. *)
Theorem insertLeaf_adds_one (h : MeshHierarchy) (mesh : Mesh) (solid : Solid) :
  nodes (insertLeaf h mesh solid) = S (nodes h)
  /\ FullMesh (insertLeaf h mesh solid) ≡ₚ FullMesh h ++ mesh
  /\ HMesh (insertLeaf h mesh solid) = HMesh h
  /\ MeshSolid (insertLeaf h mesh solid) = MeshSolid h.
Proof.
  split; [apply insertLeaf_nodes|]. split; [apply insertLeaf_FullMesh|].
  destruct h as [m s children]. split; reflexivity.
Qed.

End Hierarchy.

(** Three tetrahedra with vertices on a line: a solid is the span of its
    vertices, the second tetrahedron lies inside the span of the first. *)
Definition tetrahedron (a b c d : Z) : list (@Geometry.Triangle Z) :=
  [Geometry.mkTriangle a b c; Geometry.mkTriangle a d b;
   Geometry.mkTriangle a c d; Geometry.mkTriangle b d c].

Definition demoMesh : list (@Geometry.Triangle Z) :=
  tetrahedron 0 10 20 30 ++ tetrahedron 11 12 13 14 ++ tetrahedron 40 41 42 43.

Definition demoRot (c : Z) : Z := c + 100.

Definition demoFirstVertex (m : list (@Geometry.Triangle Z)) : Z :=
  hd 0 (flat_map Geometry.corners m).

Definition spanOf (m : list (@Geometry.Triangle Z)) : Z * Z :=
  let cs := flat_map Geometry.corners m in
  (foldr Z.min (hd 0 cs) cs, foldr Z.max (hd 0 cs) cs).

Definition inSpan (s : Z * Z) (c : Z) : bool := (s.1 <=? c) && (c <=? s.2).

Definition demoMeshToHierarchy (rot : Z -> Z) (m : list (@Geometry.Triangle Z))
  : option (list (@MeshHierarchy Z (Z * Z))) :=
  MeshToHierarchy rot spanOf spanOf inSpan Z.ltb (@rev _) demoFirstVertex m.


(** The first tetrahedron is a root with the second as its child; the
    third is a root of its own. *)
Example demo_MeshToHierarchy :
  demoMeshToHierarchy demoRot demoMesh
  = Some [mkHierarchy (rev (tetrahedron 0 10 20 30)) (0, 30)
            [mkHierarchy (rev (tetrahedron 11 12 13 14)) (11, 14) []];
          mkHierarchy (rev (tetrahedron 40 41 42 43)) (40, 43) []].
Proof. vm_compute. reflexivity. Qed.

(** When the map applied before the search sends two vertices of the mesh
    to one point, the table of [misalignMesh] holds one of them only, and
    the triangles that had the other come back changed: no triangle of
    the result has the edge from [0] to [1]. *)
Example demo_MeshToHierarchy_collision :
  Geometry.NeedsRepair (tetrahedron 0 1 2 3) = false
  /\ exists hs,
       demoMeshToHierarchy (fun c => if c =? 1 then 0 else c) (tetrahedron 0 1 2 3) = Some hs
       /\ Geometry.Find (fullMeshes hs) [0; 1] = [].
Proof.
  split; [vm_compute; reflexivity|].
  eexists. split; [vm_compute; reflexivity|]. vm_compute. reflexivity.
Qed.

Lemma removeAllConnected_component_witness :
  let pm := newPtrMeshMesh demoMesh in
  validPresent pm /\ closedPresent pm /\ 0%nat ∈ present pm /\ cornerOf pm 0 0%nat = true
  /\ exists pm' q,
       removeAllConnected pm 0 = Some (pm', facesOf pm q)
       /\ NoDup q
       /\ (forall t, t ∈ q <-> connectedTo pm 0 t)
       /\ (forall t, t ∈ q -> t ∈ present pm)
       /\ present pm' = present pm ∖ list_to_set q
       /\ faces pm' = faces pm.
Proof.
  cbv zeta.
  assert (Hv : validPresent (newPtrMeshMesh demoMesh)).
  { exact (newPtrMeshMesh_valid demoMesh). }
  assert (Hc : closedPresent (newPtrMeshMesh demoMesh)).
  { exact (newPtrMeshMesh_closed demoMesh). }
  assert (Hin : 0%nat ∈ present (newPtrMeshMesh demoMesh)).
  { apply elem_of_list_to_set. cbn. left. }
  assert (Hcorner : cornerOf (newPtrMeshMesh demoMesh) 0 0%nat = true) by reflexivity.
  split; [exact Hv|]. split; [exact Hc|]. split; [exact Hin|]. split; [exact Hcorner|].
  exact (removeAllConnected_component demoRot Z.ltb (newPtrMeshMesh demoMesh) 0 0%nat
           Hv Hc Hin Hcorner).
Defined.

(** The shell of the vertex [0] is the first tetrahedron. *)
Example demo_removeAllConnected :
  (removeAllConnected (newPtrMeshMesh demoMesh) 0 ≫= fun p =>
   Some (size (present p.1), bool_decide (0%nat ∈ present p.1), p.2))
  = Some (8%nat, false, tetrahedron 0 10 20 30).
Proof. vm_compute. reflexivity. Qed.

End Hierarchy.

(** ** Dual Contouring: the layout of cubes, corners and edges

    [dcCubeLayout] of the third part of the sources.  The indices are Go
    [int]s.  The slices of a layout are allocated with the lengths that
    [newDcCubeLayout] computes, so an index into one of them is far from
    the ends of the [int] range: the arithmetic below is that of [Z]. *)

Module DcCubeLayout.

(** [a / b] and [a % b] on [int] truncate toward zero; a zero divisor
    panics. *)
Definition quo (a b : Z) : option Z :=
  if decide (b = 0) then None else Some (a ÷ b).

Definition rem (a b : Z) : option Z :=
  if decide (b = 0) then None else Some (Z.rem a b).

(** [len(s)] *)
Definition len {A : Type} (s : list A) : Z := Z.of_nat (length s).

Section Layout.

Context {F : Type}.

(** The zero value of [float64]. *)
Variable zeroF : F.

Abbreviation Coord3D := (F * F * F)%type.

Record dcCube : Type := mkCube {
  cubePopulated : bool;
  VertexPosition : Coord3D
}.

Record dcCorner : Type := mkCorner {
  cornerPopulated : bool;
  Value : bool;
  cornerCoord : Coord3D
}.

Record dcEdge : Type := mkEdge {
  edgePopulated : bool;
  Active : bool;
  Triangulated : bool;
  edgeCoord : Coord3D;
  edgeNormal : Coord3D
}.

Record dcCubeLayout : Type := mkLayout {
  Xs : list F;
  Ys : list F;
  Zs : list F;
  ZOffset : Z;
  BufRows : Z;
  Corners : list dcCorner;
  Cubes : list dcCube;
  Edges : list dcEdge
}.

Definition Remaining (d : dcCubeLayout) : Z :=
  len (Zs d) - (BufRows d + ZOffset d).

Definition edgeCounts (d : dcCubeLayout) : Z * Z * Z :=
  ((len (Xs d) - 1) * len (Ys d),
   (len (Ys d) - 1) * len (Xs d),
   len (Xs d) * len (Ys d)).

Definition cornerIdx (d : dcCubeLayout) (x y z : Z) : Z :=
  x + (y + z * len (Ys d)) * len (Xs d).

Definition xEdgeIdx (d : dcCubeLayout) (x y z : Z) : Z :=
  let '(xCount, yCount, zCount) := edgeCounts d in
  z * (xCount + yCount + zCount) + (len (Xs d) - 1) * y + x.

Definition yEdgeIdx (d : dcCubeLayout) (x y z : Z) : Z :=
  let '(xCount, yCount, zCount) := edgeCounts d in
  z * (xCount + yCount + zCount) + xCount + len (Xs d) * y + x.

Definition zEdgeIdx (d : dcCubeLayout) (x y z : Z) : Z :=
  let '(xCount, yCount, zCount) := edgeCounts d in
  z * (xCount + yCount + zCount) + xCount + yCount + len (Xs d) * y + x.

Definition cubeCoord (d : dcCubeLayout) (c : Z) : option (Z * Z * Z) :=
  x ← rem c (len (Xs d) - 1);
  cubeIdx ← quo c (len (Xs d) - 1);
  y ← rem cubeIdx (len (Ys d) - 1);
  z ← quo cubeIdx (len (Ys d) - 1);
  Some (x, y, z).

(** [result[k+j*2+i*4] = (x + k) + ((y+j)+(z+i)*len(d.Ys))*len(d.Xs)] *)
Definition CubeCorners (d : dcCubeLayout) (c : Z) : option (list Z) :=
  cubeCoord d c ≫= fun '(x, y, z) =>
  Some (i ← [0; 1]; j ← [0; 1]; k ← [0; 1];
        [(x + k) + ((y + j) + (z + i) * len (Ys d)) * len (Xs d)]).

Definition CubeEdges (d : dcCubeLayout) (c : Z) : option (list Z) :=
  cubeCoord d c ≫= fun '(x, y, z) =>
  Some [xEdgeIdx d x y z;
        yEdgeIdx d x y z;
        yEdgeIdx d (x + 1) y z;
        xEdgeIdx d x (y + 1) z;
        zEdgeIdx d x y z;
        zEdgeIdx d (x + 1) y z;
        zEdgeIdx d x (y + 1) z;
        zEdgeIdx d (x + 1) (y + 1) z;
        xEdgeIdx d x y (z + 1);
        yEdgeIdx d x y (z + 1);
        yEdgeIdx d (x + 1) y (z + 1);
        xEdgeIdx d x (y + 1) (z + 1)].

Definition EdgeCorners (d : dcCubeLayout) (e : Z) : option (Z * Z) :=
  let '(xCount, yCount, zCount) := edgeCounts d in
  z ← quo e (xCount + yCount + zCount);
  edgeIdx ← rem e (xCount + yCount + zCount);
  if edgeIdx <? xCount then
    x ← rem edgeIdx (len (Xs d) - 1);
    y ← quo edgeIdx (len (Xs d) - 1);
    Some (cornerIdx d x y z, cornerIdx d (x + 1) y z)
  else if edgeIdx <? xCount + yCount then
    let edgeIdx := edgeIdx - xCount in
    x ← rem edgeIdx (len (Xs d));
    y ← quo edgeIdx (len (Xs d));
    Some (cornerIdx d x y z, cornerIdx d x (y + 1) z)
  else
    let edgeIdx := edgeIdx - (xCount + yCount) in
    x ← rem edgeIdx (len (Xs d));
    y ← quo edgeIdx (len (Xs d));
    Some (cornerIdx d x y z, cornerIdx d x y (z + 1)).

(** The closure [cubeAt] of [EdgeCubes]. *)
Definition cubeAt (d : dcCubeLayout) (x y z : Z) : Z :=
  if (z <? 0) || (x <? 0) || (y <? 0) || (len (Xs d) - 1 <=? x)
     || (len (Ys d) - 1 <=? y) || (BufRows d - 1 <=? z)
  then -1
  else x + (y + z * (len (Ys d) - 1)) * (len (Xs d) - 1).

Definition EdgeCubes (d : dcCubeLayout) (e : Z) : option (list Z) :=
  let '(xCount, yCount, zCount) := edgeCounts d in
  z ← quo e (xCount + yCount + zCount);
  edgeIdx ← rem e (xCount + yCount + zCount);
  if edgeIdx <? xCount then
    x ← rem edgeIdx (len (Xs d) - 1);
    y ← quo edgeIdx (len (Xs d) - 1);
    Some [cubeAt d x (y - 1) (z - 1); cubeAt d x y (z - 1);
          cubeAt d x (y - 1) z; cubeAt d x y z]
  else if edgeIdx <? xCount + yCount then
    let edgeIdx := edgeIdx - xCount in
    x ← rem edgeIdx (len (Xs d));
    y ← quo edgeIdx (len (Xs d));
    Some [cubeAt d (x - 1) y (z - 1); cubeAt d x y (z - 1);
          cubeAt d (x - 1) y z; cubeAt d x y z]
  else
    let edgeIdx := edgeIdx - (xCount + yCount) in
    x ← rem edgeIdx (len (Xs d));
    y ← quo edgeIdx (len (Xs d));
    Some [cubeAt d (x - 1) (y - 1) z; cubeAt d x (y - 1) z;
          cubeAt d (x - 1) y z; cubeAt d x y z].

Definition UsableEdges (d : dcCubeLayout) : Z :=
  let atBottom := ZOffset d + BufRows d =? len (Zs d) in
  let '(xCount, yCount, _) := edgeCounts d in
  if atBottom then len (Edges d) else len (Edges d) - (xCount + yCount).

(** [d.Corner(idx).Value] for each corner of the cube: [result] is set
    when a corner differs from the first one. *)
Definition CubeActive (d : dcCubeLayout) (c : Z) : option bool :=
  CubeCorners d c ≫= fun corners =>
  mapM (fun idx => Value <$> index (Corners d) idx) corners ≫= fun values =>
  match values with
  | [] => Some false
  | value :: rest => Some (existsb (fun thisValue => negb (eqb value thisValue)) rest)
  end.

(** *** Allocation and [Shift] *)

(** [make([]T, n)]: a negative length panics. *)
Definition make {A : Type} (zero : A) (n : Z) : option (list A) :=
  if n <? 0 then None else Some (replicate (Z.to_nat n) zero).

(** [copy(s, s[k:])]: the elements from [k] on move to the front and the
    last [k] places keep what they hold; slicing off the slice panics. *)
Definition copyDown {A : Type} (s : list A) (k : Z) : option (list A) :=
  if (k <? 0) || (len s <? k) then None
  else Some (drop (Z.to_nat k) s ++ drop (length s - Z.to_nat k) s).

(** [for i := from; i < len(s); i++ { s[i] = f(i) }], [n] rounds left. *)
Fixpoint fillFrom {A : Type} (f : Z -> option A) (n : nat) (i : Z) (s : list A)
  : option (list A) :=
  match n with
  | O => Some s
  | S n' =>
      f i ≫= fun v =>
      if (i <? 0) || (len s <=? i) then None
      else fillFrom f n' (i + 1) (<[Z.to_nat i := v]> s)
  end.

Definition refill {A : Type} (f : Z -> option A) (from : Z) (s : list A)
  : option (list A) :=
  fillFrom f (Z.to_nat (len s - from)) from s.

Definition zeroCoord : Coord3D := (zeroF, zeroF, zeroF).
(** [dcCube{}] and [dcEdge{}] *)
Definition zeroCube : dcCube := mkCube false zeroCoord.
Definition zeroEdge : dcEdge := mkEdge false false false zeroCoord zeroCoord.

(** [dcCorner{Coord: XYZ(d.Xs[x], d.Ys[y], d.Zs[z+d.ZOffset])}] for the
    corner [i] of the buffer, as [Shift] computes it. *)
Definition shiftedCorner (xs ys zs : list F) (zOffset : Z) (i : Z) : option dcCorner :=
  x ← rem i (len xs);
  q ← quo i (len xs);
  y ← rem q (len ys);
  z ← quo q (len ys);
  cx ← index xs x;
  cy ← index ys y;
  cz ← index zs (z + zOffset);
  Some (mkCorner false false (cx, cy, cz)).

Definition Shift (d : dcCubeLayout) : option dcCubeLayout :=
  let rows := Z.min (Remaining d) (BufRows d - 2) in
  let cubeRowSize := (len (Xs d) - 1) * (len (Ys d) - 1) in
  let cornerRowSize := len (Xs d) * len (Ys d) in
  let edgeRowSize :=
    (len (Xs d) - 1) * len (Ys d) + (len (Ys d) - 1) * len (Xs d) + cornerRowSize in
  copyDown (Cubes d) (rows * cubeRowSize) ≫= fun cubes =>
  copyDown (Corners d) (rows * cornerRowSize) ≫= fun corners =>
  copyDown (Edges d) (rows * edgeRowSize) ≫= fun edges =>
  let zOffset := ZOffset d + rows in
  refill (fun _ => Some zeroCube) (len cubes - rows * cubeRowSize) cubes ≫= fun cubes =>
  refill (fun _ => Some zeroEdge) (len edges - rows * edgeRowSize) edges ≫= fun edges =>
  refill (shiftedCorner (Xs d) (Ys d) (Zs d) zOffset)
         (len corners - rows * cornerRowSize) corners ≫= fun corners =>
  Some {| Xs := Xs d; Ys := Ys d; Zs := Zs d; ZOffset := zOffset;
          BufRows := BufRows d; Corners := corners; Cubes := cubes;
          Edges := edges |}.

Definition DefaultDualContouringBufferSize : Z := 1000000.

(** The three loops that append the corners of the first [bufRows] rows. *)
Definition initialCorners (xs ys zs : list F) (bufRows : Z) : option (list dcCorner) :=
  (fun rows => concat rows) <$>
  mapM (fun i =>
          (fun rows => concat rows) <$>
          mapM (fun y =>
                  mapM (fun x =>
                          index zs i ≫= fun z => Some (mkCorner false false (x, y, z)))
                       xs)
               ys)
       (seqZ 0 bufRows).

(** [newDcCubeLayout] from the axis values on: [Xs], [Ys] and [Zs] are
    computed in binary64 from the bounds and are taken as they are. *)
Definition newDcCubeLayout (xs ys zs : list F) (bufSize : Z) : option dcCubeLayout :=
  let bufSize := if bufSize =? 0 then DefaultDualContouringBufferSize else bufSize in
  quo bufSize (len xs * len ys) ≫= fun bufRows =>
  let bufRows := Z.min (Z.max bufRows 4) (len zs) in
  make zeroCube ((len xs - 1) * (len ys - 1) * (bufRows - 1)) ≫= fun cubes =>
  let xCount := (len xs - 1) * len ys in
  let yCount := (len ys - 1) * len xs in
  let zCount := len xs * len ys in
  make zeroEdge ((xCount + yCount) * bufRows + zCount * (bufRows - 1)) ≫= fun edges =>
  initialCorners xs ys zs bufRows ≫= fun corners =>
  Some {| Xs := xs; Ys := ys; Zs := zs; ZOffset := 0; BufRows := bufRows;
          Corners := corners; Cubes := cubes; Edges := edges |}.

(** *** Index arithmetic *)

(** The lengths that [newDcCubeLayout] gives to the slices. *)
Definition numCubes (d : dcCubeLayout) : Z :=
  (len (Xs d) - 1) * (len (Ys d) - 1) * (BufRows d - 1).

Definition numCorners (d : dcCubeLayout) : Z :=
  len (Xs d) * len (Ys d) * BufRows d.

Definition numEdges (d : dcCubeLayout) : Z :=
  let '(xCount, yCount, zCount) := edgeCounts d in
  (xCount + yCount) * BufRows d + zCount * (BufRows d - 1).

(** A buffer with at least one cube. *)
Definition hasCubes (d : dcCubeLayout) : Prop :=
  2 <= len (Xs d) /\ 2 <= len (Ys d) /\ 2 <= BufRows d.

(** The cube at [(x, y, z)] is in the buffer. *)
Definition inGrid (d : dcCubeLayout) (x y z : Z) : Prop :=
  0 <= x < len (Xs d) - 1 /\ 0 <= y < len (Ys d) - 1 /\ 0 <= z < BufRows d - 1.

Lemma quo_nonneg a b : 0 <= a -> 0 < b -> quo a b = Some (a / b).
Proof.
  intros Ha Hb. unfold quo. destruct (decide (b = 0)); [lia|].
  rewrite Z.quot_div_nonneg by lia. reflexivity.
Qed.

Lemma rem_nonneg a b : 0 <= a -> 0 < b -> rem a b = Some (a mod b).
Proof.
  intros Ha Hb. unfold rem. destruct (decide (b = 0)); [lia|].
  rewrite Z.rem_mod_nonneg by lia. reflexivity.
Qed.

Lemma div_encode x y b : 0 <= x < b -> (x + y * b) / b = y.
Proof. intros Hx. rewrite Z.div_add by lia. rewrite Z.div_small by lia. lia. Qed.

Lemma mod_encode x y b : 0 <= x < b -> (x + y * b) mod b = x.
Proof. intros Hx. rewrite Z.mod_add by lia. apply Z.mod_small. lia. Qed.

Lemma div_decode a b k : 0 <= a < b * k -> 0 < b ->
  0 <= a / b < k /\ 0 <= a mod b < b /\ a = a mod b + (a / b) * b.
Proof.
  intros Ha Hb. split; [|split].
  - split; [apply Z.div_pos; lia|]. apply Z.div_lt_upper_bound; lia.
  - apply Z.mod_pos_bound. lia.
  - pose proof (Z.div_mod a b). lia.
Qed.

Lemma cubeAt_inGrid d x y z :
  inGrid d x y z -> cubeAt d x y z = x + (y + z * (len (Ys d) - 1)) * (len (Xs d) - 1).
Proof.
  intros (Hx & Hy & Hz). unfold cubeAt.
  replace (z <? 0) with false by lia. replace (x <? 0) with false by lia.
  replace (y <? 0) with false by lia.
  replace (len (Xs d) - 1 <=? x) with false by lia.
  replace (len (Ys d) - 1 <=? y) with false by lia.
  replace (BufRows d - 1 <=? z) with false by lia.
  reflexivity.
Qed.

Lemma cubeAt_range d x y z : inGrid d x y z -> 0 <= cubeAt d x y z < numCubes d.
Proof.
  intros Hin. rewrite (cubeAt_inGrid d x y z Hin). destruct Hin as (Hx & Hy & Hz).
  unfold numCubes.
  assert (H1 : 0 <= z * (len (Ys d) - 1)) by nia.
  assert (H2 : y + z * (len (Ys d) - 1) <= (len (Ys d) - 1) * (BufRows d - 1) - 1) by nia.
  assert (H3 : (y + z * (len (Ys d) - 1)) * (len (Xs d) - 1)
               <= ((len (Ys d) - 1) * (BufRows d - 1) - 1) * (len (Xs d) - 1)).
  { apply Z.mul_le_mono_nonneg_r; lia. }
  nia.
Qed.

Lemma cubeCoord_decode d c :
  hasCubes d -> 0 <= c < numCubes d ->
  exists x y z, cubeCoord d c = Some (x, y, z) /\ inGrid d x y z /\ cubeAt d x y z = c.
Proof.
  intros (Hnx & Hny & Hb) Hc. unfold numCubes in Hc.
  destruct (div_decode c (len (Xs d) - 1) ((len (Ys d) - 1) * (BufRows d - 1)))
    as (Hq & Hr & Hc1); [lia|lia|].
  destruct (div_decode (c / (len (Xs d) - 1)) (len (Ys d) - 1) (BufRows d - 1))
    as (Hq2 & Hr2 & Hc2); [lia|lia|].
  exists (c mod (len (Xs d) - 1)), ((c / (len (Xs d) - 1)) mod (len (Ys d) - 1)),
    ((c / (len (Xs d) - 1)) / (len (Ys d) - 1)).
  assert (Hin : inGrid d (c mod (len (Xs d) - 1))
                  ((c / (len (Xs d) - 1)) mod (len (Ys d) - 1))
                  ((c / (len (Xs d) - 1)) / (len (Ys d) - 1))).
  { unfold inGrid. lia. }
  split; [|split; [exact Hin|]].
  - unfold cubeCoord. rewrite rem_nonneg, quo_nonneg by lia. cbn [mbind option_bind].
    rewrite rem_nonneg, quo_nonneg by lia. reflexivity.
  - rewrite (cubeAt_inGrid _ _ _ _ Hin). lia.
Qed.

Lemma cubeCoord_cubeAt d x y z :
  inGrid d x y z -> cubeCoord d (cubeAt d x y z) = Some (x, y, z).
Proof.
  intros Hin. pose proof (cubeAt_range d x y z Hin) as Hrange.
  rewrite (cubeAt_inGrid d x y z Hin) in *. destruct Hin as (Hx & Hy & Hz).
  assert (H1 : 0 <= z * (len (Ys d) - 1)) by nia.
  unfold cubeCoord. rewrite rem_nonneg, quo_nonneg by lia. cbn [mbind option_bind].
  rewrite mod_encode, div_encode by lia.
  rewrite rem_nonneg, quo_nonneg by lia. cbn [mbind option_bind].
  rewrite mod_encode, div_encode by lia. reflexivity.
Qed.

(** X1.  [cubeCoord] and [cubeAt] are inverse to each other: a cube index
    of the buffer decodes to a position of the grid that [cubeAt] sends
    back to the index, and the index [cubeAt] gives to a position of the
    grid decodes to that position; [cubeAt] answers [-1] off the grid. *)
Theorem cubeCoord_cubeAt_inverse (d : dcCubeLayout) :
  hasCubes d ->
  (forall c, 0 <= c < numCubes d ->
     exists x y z, cubeCoord d c = Some (x, y, z) /\ inGrid d x y z
                   /\ cubeAt d x y z = c)
  /\ (forall x y z, inGrid d x y z ->
        0 <= cubeAt d x y z < numCubes d
        /\ cubeCoord d (cubeAt d x y z) = Some (x, y, z))
  /\ (forall x y z, ~ inGrid d x y z -> cubeAt d x y z = -1).
Proof.
  intros Hd. split; [|split].
  - intros c Hc. apply cubeCoord_decode; assumption.
  - intros x y z Hin. split; [apply cubeAt_range, Hin|apply cubeCoord_cubeAt, Hin].
  - intros x y z Hout. unfold cubeAt, inGrid in *.
    destruct ((z <? 0) || (x <? 0) || (y <? 0) || (len (Xs d) - 1 <=? x)
              || (len (Ys d) - 1 <=? y) || (BufRows d - 1 <=? z)) eqn:Hb;
      [reflexivity|].
    exfalso. apply Hout. repeat (apply orb_false_elim in Hb as [Hb ?]). lia.
Qed.

(** *** Decoding an edge index *)

Definition edgeRow (d : dcCubeLayout) : Z :=
  let '(xCount, yCount, zCount) := edgeCounts d in xCount + yCount + zCount.

Lemma edgeRow_pos d : 2 <= len (Xs d) -> 2 <= len (Ys d) -> 0 < edgeRow d.
Proof. intros Hx Hy. unfold edgeRow, edgeCounts. nia. Qed.

(** An edge index splits into its row and its offset in the row. *)
Lemma edge_split d z r :
  0 <= z -> 0 <= r < edgeRow d ->
  quo (z * edgeRow d + r) (edgeRow d) = Some z
  /\ rem (z * edgeRow d + r) (edgeRow d) = Some r.
Proof.
  intros Hz Hr. assert (0 <= z * edgeRow d) by nia.
  rewrite quo_nonneg, rem_nonneg by lia.
  replace (z * edgeRow d + r) with (r + z * edgeRow d) by lia.
  rewrite div_encode, mod_encode by lia. auto.
Qed.

Lemma xEdgeIdx_split d x y z :
  2 <= len (Xs d) -> 0 <= x < len (Xs d) - 1 -> 0 <= y < len (Ys d) -> 0 <= z ->
  let r := (len (Xs d) - 1) * y + x in
  xEdgeIdx d x y z = z * edgeRow d + r
  /\ 0 <= r < (len (Xs d) - 1) * len (Ys d)
  /\ rem r (len (Xs d) - 1) = Some x /\ quo r (len (Xs d) - 1) = Some y.
Proof.
  intros Hnx Hx Hy Hz r. subst r.
  assert (0 <= (len (Xs d) - 1) * y) by nia.
  assert ((len (Xs d) - 1) * y + x < (len (Xs d) - 1) * len (Ys d)) by nia.
  split; [unfold xEdgeIdx, edgeRow, edgeCounts; lia|]. split; [lia|].
  rewrite rem_nonneg, quo_nonneg by lia.
  replace ((len (Xs d) - 1) * y + x) with (x + y * (len (Xs d) - 1)) by lia.
  rewrite mod_encode, div_encode by lia. auto.
Qed.

Lemma yEdgeIdx_split d x y z :
  2 <= len (Xs d) -> 0 <= x < len (Xs d) -> 0 <= y < len (Ys d) - 1 -> 0 <= z ->
  let r := len (Xs d) * y + x in
  yEdgeIdx d x y z = z * edgeRow d + ((len (Xs d) - 1) * len (Ys d) + r)
  /\ 0 <= r < (len (Ys d) - 1) * len (Xs d)
  /\ rem r (len (Xs d)) = Some x /\ quo r (len (Xs d)) = Some y.
Proof.
  intros Hnx Hx Hy Hz r. subst r.
  assert (0 <= len (Xs d) * y) by nia.
  assert (len (Xs d) * y + x < (len (Ys d) - 1) * len (Xs d)) by nia.
  split; [unfold yEdgeIdx, edgeRow, edgeCounts; lia|]. split; [lia|].
  rewrite rem_nonneg, quo_nonneg by lia.
  replace (len (Xs d) * y + x) with (x + y * len (Xs d)) by lia.
  rewrite mod_encode, div_encode by lia. auto.
Qed.

Lemma zEdgeIdx_split d x y z :
  2 <= len (Xs d) -> 0 <= x < len (Xs d) -> 0 <= y < len (Ys d) -> 0 <= z ->
  let r := len (Xs d) * y + x in
  zEdgeIdx d x y z
  = z * edgeRow d + ((len (Xs d) - 1) * len (Ys d) + (len (Ys d) - 1) * len (Xs d) + r)
  /\ 0 <= r < len (Xs d) * len (Ys d)
  /\ rem r (len (Xs d)) = Some x /\ quo r (len (Xs d)) = Some y.
Proof.
  intros Hnx Hx Hy Hz r. subst r.
  assert (0 <= len (Xs d) * y) by nia.
  assert (len (Xs d) * y + x < len (Xs d) * len (Ys d)) by nia.
  split; [unfold zEdgeIdx, edgeRow, edgeCounts; lia|]. split; [lia|].
  rewrite rem_nonneg, quo_nonneg by lia.
  replace (len (Xs d) * y + x) with (x + y * len (Xs d)) by lia.
  rewrite mod_encode, div_encode by lia. auto.
Qed.

(** The two functions on edges share their case analysis: [kx], [ky] and
    [kz] are what they return for an edge along each axis. *)
Definition edgeCases {A : Type} (d : dcCubeLayout) (e : Z)
    (kx ky kz : Z -> Z -> Z -> A) : option A :=
  let '(xCount, yCount, zCount) := edgeCounts d in
  z ← quo e (xCount + yCount + zCount);
  edgeIdx ← rem e (xCount + yCount + zCount);
  if edgeIdx <? xCount then
    x ← rem edgeIdx (len (Xs d) - 1);
    y ← quo edgeIdx (len (Xs d) - 1);
    Some (kx x y z)
  else if edgeIdx <? xCount + yCount then
    let edgeIdx := edgeIdx - xCount in
    x ← rem edgeIdx (len (Xs d));
    y ← quo edgeIdx (len (Xs d));
    Some (ky x y z)
  else
    let edgeIdx := edgeIdx - (xCount + yCount) in
    x ← rem edgeIdx (len (Xs d));
    y ← quo edgeIdx (len (Xs d));
    Some (kz x y z).

Lemma EdgeCorners_cases d e :
  EdgeCorners d e
  = edgeCases d e
      (fun x y z => (cornerIdx d x y z, cornerIdx d (x + 1) y z))
      (fun x y z => (cornerIdx d x y z, cornerIdx d x (y + 1) z))
      (fun x y z => (cornerIdx d x y z, cornerIdx d x y (z + 1))).
Proof. reflexivity. Qed.

Lemma EdgeCubes_cases d e :
  EdgeCubes d e
  = edgeCases d e
      (fun x y z => [cubeAt d x (y - 1) (z - 1); cubeAt d x y (z - 1);
                     cubeAt d x (y - 1) z; cubeAt d x y z])
      (fun x y z => [cubeAt d (x - 1) y (z - 1); cubeAt d x y (z - 1);
                     cubeAt d (x - 1) y z; cubeAt d x y z])
      (fun x y z => [cubeAt d (x - 1) (y - 1) z; cubeAt d x (y - 1) z;
                     cubeAt d (x - 1) y z; cubeAt d x y z]).
Proof. reflexivity. Qed.

Lemma edgeCases_x {A : Type} d x y z (kx ky kz : Z -> Z -> Z -> A) :
  2 <= len (Xs d) -> 2 <= len (Ys d) ->
  0 <= x < len (Xs d) - 1 -> 0 <= y < len (Ys d) -> 0 <= z ->
  edgeCases d (xEdgeIdx d x y z) kx ky kz = Some (kx x y z).
Proof.
  intros Hnx Hny Hx Hy Hz.
  destruct (xEdgeIdx_split d x y z Hnx Hx Hy Hz) as (-> & Hr & Hrem & Hquo).
  destruct (edge_split d z ((len (Xs d) - 1) * y + x) Hz) as (Hq1 & Hr1).
  { unfold edgeRow, edgeCounts. nia. }
  unfold edgeCases. unfold edgeRow, edgeCounts in *. rewrite Hq1, Hr1.
  cbn [mbind option_bind].
  replace (_ <? _) with true by lia. rewrite Hrem, Hquo. reflexivity.
Qed.

Lemma edgeCases_y {A : Type} d x y z (kx ky kz : Z -> Z -> Z -> A) :
  2 <= len (Xs d) -> 2 <= len (Ys d) ->
  0 <= x < len (Xs d) -> 0 <= y < len (Ys d) - 1 -> 0 <= z ->
  edgeCases d (yEdgeIdx d x y z) kx ky kz = Some (ky x y z).
Proof.
  intros Hnx Hny Hx Hy Hz.
  destruct (yEdgeIdx_split d x y z Hnx Hx Hy Hz) as (-> & Hr & Hrem & Hquo).
  destruct (edge_split d z ((len (Xs d) - 1) * len (Ys d) + (len (Xs d) * y + x)) Hz)
    as (Hq1 & Hr1).
  { unfold edgeRow, edgeCounts. nia. }
  unfold edgeCases. unfold edgeRow, edgeCounts in *. rewrite Hq1, Hr1.
  cbn [mbind option_bind].
  replace (_ <? (len (Xs d) - 1) * len (Ys d)) with false by lia.
  replace (_ <? _) with true by lia.
  replace ((len (Xs d) - 1) * len (Ys d) + (len (Xs d) * y + x)
           - (len (Xs d) - 1) * len (Ys d)) with (len (Xs d) * y + x) by lia.
  rewrite Hrem, Hquo. reflexivity.
Qed.

Lemma edgeCases_z {A : Type} d x y z (kx ky kz : Z -> Z -> Z -> A) :
  2 <= len (Xs d) -> 2 <= len (Ys d) ->
  0 <= x < len (Xs d) -> 0 <= y < len (Ys d) -> 0 <= z ->
  edgeCases d (zEdgeIdx d x y z) kx ky kz = Some (kz x y z).
Proof.
  intros Hnx Hny Hx Hy Hz.
  destruct (zEdgeIdx_split d x y z Hnx Hx Hy Hz) as (-> & Hr & Hrem & Hquo).
  destruct (edge_split d z ((len (Xs d) - 1) * len (Ys d)
                            + (len (Ys d) - 1) * len (Xs d) + (len (Xs d) * y + x)) Hz)
    as (Hq1 & Hr1).
  { unfold edgeRow, edgeCounts. nia. }
  unfold edgeCases. unfold edgeRow, edgeCounts in *. rewrite Hq1, Hr1.
  cbn [mbind option_bind].
  assert (0 <= (len (Ys d) - 1) * len (Xs d)) by nia.
  replace (_ <? (len (Xs d) - 1) * len (Ys d)) with false by lia.
  replace (_ <? _) with false by lia.
  replace ((len (Xs d) - 1) * len (Ys d) + (len (Ys d) - 1) * len (Xs d)
           + (len (Xs d) * y + x)
           - ((len (Xs d) - 1) * len (Ys d) + (len (Ys d) - 1) * len (Xs d)))
    with (len (Xs d) * y + x) by lia.
  rewrite Hrem, Hquo. reflexivity.
Qed.

(** *** The corners and the edges of a cube *)

Lemma cornerIdx_range d x y z :
  0 <= x < len (Xs d) -> 0 <= y < len (Ys d) -> 0 <= z < BufRows d ->
  0 <= cornerIdx d x y z < numCorners d.
Proof.
  intros Hx Hy Hz. unfold cornerIdx, numCorners.
  assert (H1 : 0 <= z * len (Ys d)) by nia.
  assert (H2 : y + z * len (Ys d) <= len (Ys d) * BufRows d - 1) by nia.
  assert (H3 : (y + z * len (Ys d)) * len (Xs d)
               <= (len (Ys d) * BufRows d - 1) * len (Xs d)).
  { apply Z.mul_le_mono_nonneg_r; lia. }
  nia.
Qed.

Lemma cornerIdx_inj d x y z x' y' z' :
  0 <= x < len (Xs d) -> 0 <= y < len (Ys d) -> 0 <= z ->
  0 <= x' < len (Xs d) -> 0 <= y' < len (Ys d) -> 0 <= z' ->
  cornerIdx d x y z = cornerIdx d x' y' z' -> x = x' /\ y = y' /\ z = z'.
Proof.
  intros Hx Hy Hz Hx' Hy' Hz' Heq. unfold cornerIdx in Heq.
  assert (Hxx : x = x').
  { rewrite <- (mod_encode x (y + z * len (Ys d)) (len (Xs d))) by lia.
    rewrite Heq. apply mod_encode. lia. }
  assert (Hrow : y + z * len (Ys d) = y' + z' * len (Ys d)).
  { rewrite <- (div_encode x (y + z * len (Ys d)) (len (Xs d))) by lia.
    rewrite Heq. apply div_encode. lia. }
  assert (Hyy : y = y').
  { rewrite <- (mod_encode y z (len (Ys d))) by lia.
    rewrite Hrow. apply mod_encode. lia. }
  assert (Hzz : z = z').
  { rewrite <- (div_encode y z (len (Ys d))) by lia.
    rewrite Hrow. apply div_encode. lia. }
  auto.
Qed.

Lemma CubeCorners_unfold d c x y z :
  cubeCoord d c = Some (x, y, z) ->
  CubeCorners d c
  = Some [cornerIdx d x y z; cornerIdx d (x + 1) y z;
          cornerIdx d x (y + 1) z; cornerIdx d (x + 1) (y + 1) z;
          cornerIdx d x y (z + 1); cornerIdx d (x + 1) y (z + 1);
          cornerIdx d x (y + 1) (z + 1); cornerIdx d (x + 1) (y + 1) (z + 1)].
Proof.
  intros Hc. unfold CubeCorners. rewrite Hc. cbn. unfold cornerIdx.
  rewrite !Z.add_0_r. reflexivity.
Qed.

(** X2.  The eight corners of a cube of the buffer are eight different
    indices into [Corners]: corner [k+2j+4i] of the cube at [(x, y, z)] is
    the grid point [(x+k, y+j, z+i)]. *)
Theorem CubeCorners_valid (d : dcCubeLayout) (c : Z) :
  hasCubes d -> 0 <= c < numCubes d ->
  exists x y z corners,
    cubeCoord d c = Some (x, y, z)
    /\ CubeCorners d c = Some corners
    /\ corners = (i ← [0; 1]; j ← [0; 1]; k ← [0; 1]; [cornerIdx d (x + k) (y + j) (z + i)])
    /\ Forall (fun idx => 0 <= idx < numCorners d) corners
    /\ NoDup corners.
Proof.
  intros Hd Hc. destruct (cubeCoord_decode d c Hd Hc) as (x & y & z & Hxyz & Hin & _).
  destruct Hin as (Hx & Hy & Hz). destruct Hd as (Hnx & Hny & Hb).
  eexists x, y, z, _. split; [exact Hxyz|]. split; [apply CubeCorners_unfold, Hxyz|].
  split; [cbn; rewrite !Z.add_0_r; reflexivity|]. split.
  - repeat (apply Forall_cons; split; [apply cornerIdx_range; lia|]). apply Forall_nil_2.
  - repeat (apply NoDup_cons; split;
            [rewrite ?elem_of_cons, elem_of_nil;
             intros Hdup;
             repeat (destruct Hdup as [Hdup|Hdup];
                     [apply cornerIdx_inj in Hdup; lia|]);
             exact Hdup|]).
    apply NoDup_nil_2.
Qed.

Lemma xEdgeIdx_range d x y z :
  2 <= len (Xs d) -> 2 <= len (Ys d) ->
  0 <= x < len (Xs d) - 1 -> 0 <= y < len (Ys d) -> 0 <= z < BufRows d ->
  0 <= xEdgeIdx d x y z < numEdges d.
Proof.
  intros Hnx Hny Hx Hy Hz.
  destruct (xEdgeIdx_split d x y z Hnx Hx Hy) as (-> & Hr & _); [lia|].
  pose proof (edgeRow_pos d Hnx Hny) as Hrow.
  assert (Hnum : numEdges d = (BufRows d - 1) * edgeRow d
                              + (len (Xs d) - 1) * len (Ys d)
                              + (len (Ys d) - 1) * len (Xs d)).
  { unfold numEdges, edgeRow, edgeCounts. lia. }
  assert (0 <= (len (Ys d) - 1) * len (Xs d)) by nia.
  assert (0 <= z * edgeRow d) by nia.
  assert (z * edgeRow d <= (BufRows d - 1) * edgeRow d).
  { apply Z.mul_le_mono_nonneg_r; lia. }
  lia.
Qed.

Lemma yEdgeIdx_range d x y z :
  2 <= len (Xs d) -> 2 <= len (Ys d) ->
  0 <= x < len (Xs d) -> 0 <= y < len (Ys d) - 1 -> 0 <= z < BufRows d ->
  0 <= yEdgeIdx d x y z < numEdges d.
Proof.
  intros Hnx Hny Hx Hy Hz.
  destruct (yEdgeIdx_split d x y z Hnx Hx Hy) as (-> & Hr & _); [lia|].
  pose proof (edgeRow_pos d Hnx Hny) as Hrow.
  assert (Hnum : numEdges d = (BufRows d - 1) * edgeRow d
                              + (len (Xs d) - 1) * len (Ys d)
                              + (len (Ys d) - 1) * len (Xs d)).
  { unfold numEdges, edgeRow, edgeCounts. lia. }
  assert (0 <= (len (Xs d) - 1) * len (Ys d)) by nia.
  assert (0 <= z * edgeRow d) by nia.
  assert (z * edgeRow d <= (BufRows d - 1) * edgeRow d).
  { apply Z.mul_le_mono_nonneg_r; lia. }
  lia.
Qed.

Lemma zEdgeIdx_range d x y z :
  2 <= len (Xs d) -> 2 <= len (Ys d) ->
  0 <= x < len (Xs d) -> 0 <= y < len (Ys d) -> 0 <= z < BufRows d - 1 ->
  0 <= zEdgeIdx d x y z < numEdges d.
Proof.
  intros Hnx Hny Hx Hy Hz.
  destruct (zEdgeIdx_split d x y z Hnx Hx Hy) as (-> & Hr & _); [lia|].
  pose proof (edgeRow_pos d Hnx Hny) as Hrow.
  assert (Hnum : numEdges d = (BufRows d - 1) * edgeRow d
                              + (len (Xs d) - 1) * len (Ys d)
                              + (len (Ys d) - 1) * len (Xs d)).
  { unfold numEdges, edgeRow, edgeCounts. lia. }
  assert (Hrow' : edgeRow d = (len (Xs d) - 1) * len (Ys d)
                              + (len (Ys d) - 1) * len (Xs d)
                              + len (Xs d) * len (Ys d)).
  { unfold edgeRow, edgeCounts. lia. }
  assert (0 <= (len (Xs d) - 1) * len (Ys d)) by nia.
  assert (0 <= (len (Ys d) - 1) * len (Xs d)) by nia.
  assert (0 <= z * edgeRow d) by nia.
  assert ((z + 1) * edgeRow d <= (BufRows d - 1) * edgeRow d).
  { apply Z.mul_le_mono_nonneg_r; lia. }
  lia.
Qed.

Lemma CubeEdges_unfold d c x y z :
  cubeCoord d c = Some (x, y, z) ->
  CubeEdges d c
  = Some [xEdgeIdx d x y z; yEdgeIdx d x y z; yEdgeIdx d (x + 1) y z;
          xEdgeIdx d x (y + 1) z; zEdgeIdx d x y z; zEdgeIdx d (x + 1) y z;
          zEdgeIdx d x (y + 1) z; zEdgeIdx d (x + 1) (y + 1) z;
          xEdgeIdx d x y (z + 1); yEdgeIdx d x y (z + 1);
          yEdgeIdx d (x + 1) y (z + 1); xEdgeIdx d x (y + 1) (z + 1)].
Proof. intros Hc. unfold CubeEdges. rewrite Hc. reflexivity. Qed.

(** X3.  [CubeEdges] gives twelve indices into [Edges] for every cube of
    the buffer: none is negative, so the test [edgeIdx < 0] that
    [populateCubes] makes on them never fires. *)
Theorem CubeEdges_in_range (d : dcCubeLayout) (c : Z) :
  hasCubes d -> 0 <= c < numCubes d ->
  exists edges, CubeEdges d c = Some edges
                /\ length edges = 12%nat
                /\ Forall (fun e => 0 <= e < numEdges d) edges.
Proof.
  intros Hd Hc. destruct (cubeCoord_decode d c Hd Hc) as (x & y & z & Hxyz & Hin & _).
  destruct Hin as (Hx & Hy & Hz). destruct Hd as (Hnx & Hny & Hb).
  eexists. split; [apply CubeEdges_unfold, Hxyz|]. split; [reflexivity|].
  repeat (apply Forall_cons; split;
          [first [apply xEdgeIdx_range; lia | apply yEdgeIdx_range; lia
                 | apply zEdgeIdx_range; lia]|]).
  apply Forall_nil_2.
Qed.

(** *** Edges against corners and cubes *)

(** X4.  The ends of the twelve edges of a cube are corners of the cube,
    as the drawing of the source has them: with [c0 .. c7] the corners,
    edge 0 joins [c0] and [c1], edge 1 [c0] and [c2], and so on. *)
Theorem CubeEdges_EdgeCorners (d : dcCubeLayout) (c : Z) :
  hasCubes d -> 0 <= c < numCubes d ->
  exists c0 c1 c2 c3 c4 c5 c6 c7 edges,
    CubeCorners d c = Some [c0; c1; c2; c3; c4; c5; c6; c7]
    /\ CubeEdges d c = Some edges
    /\ mapM (EdgeCorners d) edges
       = Some [(c0, c1); (c0, c2); (c1, c3); (c2, c3);
               (c0, c4); (c1, c5); (c2, c6); (c3, c7);
               (c4, c5); (c4, c6); (c5, c7); (c6, c7)].
Proof.
  intros Hd Hc. destruct (cubeCoord_decode d c Hd Hc) as (x & y & z & Hxyz & Hin & _).
  destruct Hin as (Hx & Hy & Hz). destruct Hd as (Hnx & Hny & Hb).
  do 9 eexists. split; [apply CubeCorners_unfold, Hxyz|].
  split; [apply CubeEdges_unfold, Hxyz|].
  cbn [mapM]. rewrite !EdgeCorners_cases.
  repeat first [rewrite edgeCases_x by lia | rewrite edgeCases_y by lia
               | rewrite edgeCases_z by lia].
  reflexivity.
Qed.

(** The slot of a cube among the four cubes of its [k]-th edge. *)
Definition cubeSlots : list nat := [3; 3; 2; 2; 3; 2; 1; 0; 1; 1; 0; 0]%nat.

(** X5.  A cube of the buffer is one of the four cubes that [EdgeCubes]
    gives for each of its twelve edges, at the slot of [cubeSlots]: the
    quad of an edge takes a vertex from every cube around the edge. *)
Theorem CubeEdges_EdgeCubes (d : dcCubeLayout) (c : Z) :
  hasCubes d -> 0 <= c < numCubes d ->
  exists edges,
    CubeEdges d c = Some edges
    /\ forall k e slot,
         edges !! k = Some e -> cubeSlots !! k = Some slot ->
         exists cubes, EdgeCubes d e = Some cubes /\ length cubes = 4%nat
                       /\ cubes !! slot = Some c.
Proof.
  intros Hd Hc. destruct (cubeCoord_decode d c Hd Hc) as (x & y & z & Hxyz & Hin & Hat).
  destruct Hin as (Hx & Hy & Hz). destruct Hd as (Hnx & Hny & Hb).
  eexists. split; [apply CubeEdges_unfold, Hxyz|].
  intros k e slot He Hslot.
  do 12 (destruct k as [|k];
         [cbn -[xEdgeIdx yEdgeIdx zEdgeIdx] in He; cbn in Hslot;
          injection He as <-; injection Hslot as <-;
          rewrite EdgeCubes_cases;
          first [rewrite edgeCases_x by lia | rewrite edgeCases_y by lia
                | rewrite edgeCases_z by lia];
          eexists; split; [reflexivity|]; split; [reflexivity|];
          cbn [lookup list_lookup];
          rewrite ?Z.add_simpl_r; f_equal; exact Hat|]).
  cbn in He. discriminate.
Qed.

(** *** Slices *)

Lemma index_nonneg {A : Type} (s : list A) (i : Z) :
  0 <= i -> index s i = s !! Z.to_nat i.
Proof. intros Hi. unfold index. replace (i <? 0) with false by lia. reflexivity. Qed.

Lemma index_Some_range {A : Type} (s : list A) (i : Z) (a : A) :
  index s i = Some a -> 0 <= i < len s.
Proof.
  unfold index, len. destruct (i <? 0) eqn:Hi; [discriminate|].
  intros Hl. apply lookup_lt_Some in Hl. lia.
Qed.

Lemma index_is_Some {A : Type} (s : list A) (i : Z) :
  0 <= i < len s -> is_Some (index s i).
Proof.
  intros Hi. rewrite index_nonneg by lia. apply lookup_lt_is_Some. unfold len in Hi. lia.
Qed.

Lemma make_Some {A : Type} (zero : A) (n : Z) :
  0 <= n -> make zero n = Some (replicate (Z.to_nat n) zero).
Proof. intros Hn. unfold make. replace (n <? 0) with false by lia. reflexivity. Qed.

Lemma copyDown_spec {A : Type} (s : list A) (k : Z) :
  0 <= k <= len s ->
  exists s', copyDown s k = Some s'
    /\ len s' = len s
    /\ (forall i, 0 <= i < len s - k -> index s' i = index s (i + k))
    /\ (forall i, len s - k <= i -> index s' i = index s i).
Proof.
  intros Hk. unfold copyDown, len in *.
  replace ((k <? 0) || (Z.of_nat (length s) <? k)) with false by lia.
  eexists. split; [reflexivity|].
  assert (Hlen : length (drop (Z.to_nat k) s ++ drop (length s - Z.to_nat k) s) = length s).
  { rewrite length_app, !length_drop. lia. }
  split; [rewrite Hlen; reflexivity|]. split.
  - intros i Hi. rewrite !index_nonneg by lia.
    rewrite lookup_app_l by (rewrite length_drop; lia).
    rewrite lookup_drop. f_equal. lia.
  - intros i Hi. destruct (decide (i < 0)) as [Hneg|Hpos].
    { unfold index. replace (i <? 0) with true by lia. reflexivity. }
    rewrite !index_nonneg by lia.
    rewrite lookup_app_r by (rewrite length_drop; lia).
    rewrite lookup_drop, length_drop. f_equal. lia.
Qed.

Lemma fillFrom_spec {A : Type} (f : Z -> option A) (g : Z -> A) (n : nat) :
  forall (lo : Z) (s : list A),
  0 <= lo -> lo + Z.of_nat n <= len s ->
  (forall i, lo <= i < lo + Z.of_nat n -> f i = Some (g i)) ->
  exists s', fillFrom f n lo s = Some s'
    /\ len s' = len s
    /\ (forall i, lo <= i < lo + Z.of_nat n -> index s' i = Some (g i))
    /\ (forall i, ~ lo <= i < lo + Z.of_nat n -> index s' i = index s i).
Proof.
  induction n as [|n IH]; intros lo s Hlo Hhi Hf.
  - exists s. cbn. split; [reflexivity|]. split; [reflexivity|].
    split; [intros i Hi; lia|auto].
  - cbn [fillFrom]. rewrite Hf by lia. cbn [mbind option_bind].
    replace ((lo <? 0) || (len s <=? lo)) with false by lia.
    assert (Hlen : len (<[Z.to_nat lo := g lo]> s) = len s).
    { unfold len. rewrite length_insert. reflexivity. }
    destruct (IH (lo + 1) (<[Z.to_nat lo := g lo]> s)) as (s' & Hrun & Hlen' & Hnew & Hold).
    + lia.
    + rewrite Hlen. lia.
    + intros i Hi. apply Hf. lia.
    + exists s'. split; [exact Hrun|]. split; [lia|]. split.
      * intros i Hi. destruct (decide (i = lo)) as [->|Hne].
        -- rewrite Hold by lia. rewrite index_nonneg by lia.
           apply list_lookup_insert_eq. unfold len in Hhi. lia.
        -- apply Hnew. lia.
      * intros i Hi. rewrite Hold by lia.
        destruct (decide (i < 0)) as [Hneg|Hpos].
        { unfold index. replace (i <? 0) with true by lia. reflexivity. }
        rewrite !index_nonneg by lia. apply list_lookup_insert_ne. lia.
Qed.

Lemma refill_spec {A : Type} (f : Z -> option A) (g : Z -> A) (from : Z) (s : list A) :
  0 <= from <= len s ->
  (forall i, from <= i < len s -> f i = Some (g i)) ->
  exists s', refill f from s = Some s'
    /\ len s' = len s
    /\ (forall i, from <= i < len s -> index s' i = Some (g i))
    /\ (forall i, i < from -> index s' i = index s i).
Proof.
  intros Hfrom Hf. unfold refill.
  destruct (fillFrom_spec f g (Z.to_nat (len s - from)) from s) as (s' & Hrun & Hlen & Hnew & Hold).
  - lia.
  - lia.
  - intros i Hi. apply Hf. lia.
  - exists s'. split; [exact Hrun|]. split; [exact Hlen|]. split.
    + intros i Hi. apply Hnew. lia.
    + intros i Hi. apply Hold. lia.
Qed.

(** *** The layout invariant *)

(** The coordinate of the grid point [(x, y, z)] of the buffer: the
    buffer row [z] is the row [z + ZOffset] of the grid. *)
Definition gridCoord (d : dcCubeLayout) (x y z : Z) : option Coord3D :=
  cx ← index (Xs d) x;
  cy ← index (Ys d) y;
  cz ← index (Zs d) (z + ZOffset d);
  Some (cx, cy, cz).

Record wfLayout (d : dcCubeLayout) : Prop := mkWf {
  wf_dims : hasCubes d;
  wf_offset : 0 <= ZOffset d /\ 0 <= Remaining d;
  wf_cubes : len (Cubes d) = numCubes d;
  wf_corners : len (Corners d) = numCorners d;
  wf_edges : len (Edges d) = numEdges d;
  wf_coords : forall x y z,
    0 <= x < len (Xs d) -> 0 <= y < len (Ys d) -> 0 <= z < BufRows d ->
    exists corner, index (Corners d) (cornerIdx d x y z) = Some corner
                   /\ gridCoord d x y z = Some (cornerCoord corner)
}.

Definition rowsToShift (d : dcCubeLayout) : Z :=
  Z.min (Remaining d) (BufRows d - 2).

Lemma cornerIdx_bound d x y z :
  0 <= x < len (Xs d) -> 0 <= y < len (Ys d) -> 0 <= z ->
  len (Xs d) * len (Ys d) * z <= cornerIdx d x y z < len (Xs d) * len (Ys d) * (z + 1).
Proof.
  intros Hx Hy Hz. unfold cornerIdx.
  assert (H1 : 0 <= y * len (Xs d)) by nia.
  assert (H2 : (y + 1) * len (Xs d) <= len (Ys d) * len (Xs d)).
  { apply Z.mul_le_mono_nonneg_r; lia. }
  nia.
Qed.

Lemma corner_decode d i :
  1 <= len (Xs d) -> 1 <= len (Ys d) -> 0 <= i ->
  exists x y z, 0 <= x < len (Xs d) /\ 0 <= y < len (Ys d) /\ 0 <= z
                /\ i = cornerIdx d x y z.
Proof.
  intros Hnx Hny Hi.
  exists (i mod len (Xs d)), ((i / len (Xs d)) mod len (Ys d)),
    ((i / len (Xs d)) / len (Ys d)).
  assert (Hq : 0 <= i / len (Xs d)) by (apply Z.div_pos; lia).
  split; [apply Z.mod_pos_bound; lia|]. split; [apply Z.mod_pos_bound; lia|].
  split; [apply Z.div_pos; lia|]. unfold cornerIdx.
  pose proof (Z.div_mod i (len (Xs d))).
  pose proof (Z.div_mod (i / len (Xs d)) (len (Ys d))). nia.
Qed.

Lemma shiftedCorner_at d zOffset x y z :
  0 <= x < len (Xs d) -> 0 <= y < len (Ys d) -> 0 <= z ->
  shiftedCorner (Xs d) (Ys d) (Zs d) zOffset (cornerIdx d x y z)
  = (cx ← index (Xs d) x; cy ← index (Ys d) y; cz ← index (Zs d) (z + zOffset);
     Some (mkCorner false false (cx, cy, cz))).
Proof.
  intros Hx Hy Hz. unfold shiftedCorner, cornerIdx.
  assert (H1 : 0 <= z * len (Ys d)) by nia.
  assert (H2 : 0 <= (y + z * len (Ys d)) * len (Xs d)) by nia.
  rewrite rem_nonneg, quo_nonneg by lia. cbn [mbind option_bind].
  rewrite mod_encode, div_encode by lia.
  rewrite rem_nonneg, quo_nonneg by lia. cbn [mbind option_bind].
  rewrite mod_encode, div_encode by lia. reflexivity.
Qed.

Lemma cornerIdx_shift d x y z rows :
  cornerIdx d x y (z + rows) = cornerIdx d x y z + rows * (len (Xs d) * len (Ys d)).
Proof. unfold cornerIdx. lia. Qed.

Definition zeroCorner : dcCorner := mkCorner false false zeroCoord.

(** What [Shift] does, in one statement. *)
Lemma Shift_spec d :
  wfLayout d ->
  let rows := rowsToShift d in
  let cubeRowSize := (len (Xs d) - 1) * (len (Ys d) - 1) in
  let cornerRowSize := len (Xs d) * len (Ys d) in
  exists d',
    Shift d = Some d'
    /\ wfLayout d'
    /\ (Xs d' = Xs d /\ Ys d' = Ys d /\ Zs d' = Zs d /\ BufRows d' = BufRows d)
    /\ ZOffset d' = ZOffset d + rows
    /\ (forall i, 0 <= i < numCubes d - rows * cubeRowSize ->
          index (Cubes d') i = index (Cubes d) (i + rows * cubeRowSize))
    /\ (forall i, numCubes d - rows * cubeRowSize <= i < numCubes d ->
          index (Cubes d') i = Some zeroCube)
    /\ (forall i, 0 <= i < numEdges d - rows * edgeRow d ->
          index (Edges d') i = index (Edges d) (i + rows * edgeRow d))
    /\ (forall i, numEdges d - rows * edgeRow d <= i < numEdges d ->
          index (Edges d') i = Some zeroEdge)
    /\ (forall i, 0 <= i < numCorners d - rows * cornerRowSize ->
          index (Corners d') i = index (Corners d) (i + rows * cornerRowSize))
    /\ (forall i, numCorners d - rows * cornerRowSize <= i < numCorners d ->
          exists corner, index (Corners d') i = Some corner
                         /\ cornerPopulated corner = false).
Proof.
  intros [(Hnx & Hny & Hb) (Hoff & Hrem) Hcubes Hcorners Hedges Hcoords].
  intros rows cubeRowSize cornerRowSize.
  assert (Hrows : 0 <= rows <= BufRows d - 2) by (unfold rows, rowsToShift; lia).
  assert (Hrows' : rows <= Remaining d) by (unfold rows, rowsToShift; lia).
  assert (HcubeRow : 0 <= cubeRowSize) by (unfold cubeRowSize; nia).
  assert (HcornerRow : 0 < cornerRowSize) by (unfold cornerRowSize; nia).
  pose proof (edgeRow_pos d Hnx Hny) as HedgeRow.
  assert (HnumCubes : numCubes d = cubeRowSize * (BufRows d - 1)).
  { unfold numCubes, cubeRowSize. reflexivity. }
  assert (HnumCorners : numCorners d = cornerRowSize * BufRows d).
  { unfold numCorners, cornerRowSize. reflexivity. }
  assert (HnumEdges : numEdges d = (BufRows d - 1) * edgeRow d
                                   + (len (Xs d) - 1) * len (Ys d)
                                   + (len (Ys d) - 1) * len (Xs d)).
  { unfold numEdges, edgeRow, edgeCounts. lia. }
  assert (Hx0 : 0 <= (len (Xs d) - 1) * len (Ys d)) by nia.
  assert (Hy0 : 0 <= (len (Ys d) - 1) * len (Xs d)) by nia.
  assert (Hk1 : 0 <= rows * cubeRowSize <= len (Cubes d)).
  { rewrite Hcubes, HnumCubes. split; [nia|].
    rewrite (Z.mul_comm rows). apply Z.mul_le_mono_nonneg_l; lia. }
  assert (Hk2 : 0 <= rows * cornerRowSize <= len (Corners d)).
  { rewrite Hcorners, HnumCorners. split; [nia|].
    rewrite (Z.mul_comm rows). apply Z.mul_le_mono_nonneg_l; lia. }
  assert (Hk3 : 0 <= rows * edgeRow d <= len (Edges d)).
  { rewrite Hedges, HnumEdges. split; [nia|].
    assert (rows * edgeRow d <= (BufRows d - 1) * edgeRow d).
    { apply Z.mul_le_mono_nonneg_r; lia. }
    lia. }
  assert (HedgeRowEq : (len (Xs d) - 1) * len (Ys d) + (len (Ys d) - 1) * len (Xs d)
                       + len (Xs d) * len (Ys d) = edgeRow d).
  { unfold edgeRow, edgeCounts. reflexivity. }
  destruct (copyDown_spec (Cubes d) _ Hk1) as (cubes1 & Hc1 & Hc1len & Hc1mv & Hc1old).
  destruct (copyDown_spec (Corners d) _ Hk2) as (corners1 & Hn1 & Hn1len & Hn1mv & Hn1old).
  destruct (copyDown_spec (Edges d) _ Hk3) as (edges1 & He1 & He1len & He1mv & He1old).
  destruct (refill_spec (fun _ => Some zeroCube) (fun _ => zeroCube)
              (len cubes1 - rows * cubeRowSize) cubes1)
    as (cubes2 & Hc2 & Hc2len & Hc2new & Hc2old); [lia|auto|].
  destruct (refill_spec (fun _ => Some zeroEdge) (fun _ => zeroEdge)
              (len edges1 - rows * edgeRow d) edges1)
    as (edges2 & He2 & He2len & He2new & He2old); [lia|auto|].
  set (f := shiftedCorner (Xs d) (Ys d) (Zs d) (ZOffset d + rows)).
  assert (Hf : forall x y z,
             0 <= x < len (Xs d) -> 0 <= y < len (Ys d) -> 0 <= z < BufRows d ->
             exists corner, f (cornerIdx d x y z) = Some corner
               /\ cornerPopulated corner = false
               /\ (cx ← index (Xs d) x; cy ← index (Ys d) y;
                   cz ← index (Zs d) (z + (ZOffset d + rows)); Some (cx, cy, cz))
                  = Some (cornerCoord corner)).
  { intros x y z Hx Hy Hz. unfold f. rewrite shiftedCorner_at by lia.
    destruct (index_is_Some (Xs d) x Hx) as [cx ->].
    destruct (index_is_Some (Ys d) y Hy) as [cy ->].
    destruct (index_is_Some (Zs d) (z + (ZOffset d + rows))) as [cz ->].
    { unfold Remaining in *. lia. }
    cbn. eexists. split; [reflexivity|]. split; reflexivity. }
  assert (Hfi : forall i, 0 <= i < numCorners d ->
                  exists x y z, 0 <= x < len (Xs d) /\ 0 <= y < len (Ys d)
                                /\ 0 <= z < BufRows d /\ i = cornerIdx d x y z).
  { intros i Hi. destruct (corner_decode d i) as (x & y & z & Hx & Hy & Hz & ->); [lia..|].
    exists x, y, z. repeat split; try lia.
    pose proof (cornerIdx_bound d x y z Hx Hy Hz) as Hbd.
    rewrite HnumCorners in Hi. fold cornerRowSize in Hbd.
    assert (cornerRowSize * z < cornerRowSize * BufRows d) by lia.
    apply Z.mul_lt_mono_pos_l in H; lia. }
  destruct (refill_spec f (fun i => default zeroCorner (f i))
              (len corners1 - rows * cornerRowSize) corners1)
    as (corners2 & Hn2 & Hn2len & Hn2new & Hn2old); [lia| |].
  { intros i Hi. destruct (Hfi i) as (x & y & z & Hx & Hy & Hz & ->); [lia|].
    destruct (Hf x y z Hx Hy Hz) as (corner & -> & _). reflexivity. }
  eexists. split.
  { unfold Shift. cbv zeta. rewrite HedgeRowEq.
    change (Z.min (Remaining d) (BufRows d - 2)) with rows.
    change ((len (Xs d) - 1) * (len (Ys d) - 1)) with cubeRowSize.
    change (len (Xs d) * len (Ys d)) with cornerRowSize.
    rewrite Hc1, Hn1, He1. cbn [mbind option_bind].
    rewrite Hc2. cbn [mbind option_bind]. rewrite He2. cbn [mbind option_bind].
    fold f. rewrite Hn2. reflexivity. }
  split.
  { split; cbn [Xs Ys Zs ZOffset BufRows Corners Cubes Edges].
    - unfold hasCubes. cbn. auto.
    - unfold Remaining in *. cbn. lia.
    - unfold numCubes. cbn. fold (numCubes d). lia.
    - unfold numCorners. cbn. fold (numCorners d). lia.
    - unfold numEdges, edgeCounts. cbn. fold (edgeCounts d). fold (numEdges d). lia.
    - intros x y z Hx Hy Hz. unfold gridCoord, cornerIdx. cbn.
      fold (cornerIdx d x y z).
      pose proof (cornerIdx_bound d x y z Hx Hy ltac:(lia)) as Hbd.
      fold cornerRowSize in Hbd.
      destruct (decide (z < BufRows d - rows)) as [Hkeep|Hfresh].
      + assert (Hlt : cornerIdx d x y z < len corners1 - rows * cornerRowSize).
        { rewrite Hn1len, Hcorners, HnumCorners.
          assert (cornerRowSize * (z + 1) <= cornerRowSize * (BufRows d - rows)).
          { apply Z.mul_le_mono_nonneg_l; lia. }
          lia. }
        rewrite Hn2old by lia. rewrite Hn1mv by lia.
        rewrite <- cornerIdx_shift.
        destruct (Hcoords x y (z + rows)) as (corner & Hc & Hg); [lia..|].
        exists corner. split; [exact Hc|]. unfold gridCoord in Hg.
        replace (z + (ZOffset d + rows)) with (z + rows + ZOffset d) by lia.
        exact Hg.
      + assert (Hge : len corners1 - rows * cornerRowSize <= cornerIdx d x y z).
        { rewrite Hn1len, Hcorners, HnumCorners.
          assert (cornerRowSize * (BufRows d - rows) <= cornerRowSize * z).
          { apply Z.mul_le_mono_nonneg_l; lia. }
          lia. }
        assert (Hhi : cornerIdx d x y z < len corners1).
        { rewrite Hn1len, Hcorners. apply cornerIdx_range; lia. }
        rewrite Hn2new by lia.
        destruct (Hf x y z Hx Hy Hz) as (corner & Hfc & _ & Hg).
        rewrite Hfc. cbn. exists corner. split; [reflexivity|]. exact Hg. }
  split; [cbn; auto|]. split; [reflexivity|].
  cbn [Cubes Edges Corners].
  split. { intros i Hi. rewrite Hc2old by lia. apply Hc1mv. lia. }
  split. { intros i Hi. apply Hc2new. lia. }
  split. { intros i Hi. rewrite He2old by lia. apply He1mv. lia. }
  split. { intros i Hi. apply He2new. lia. }
  split. { intros i Hi. rewrite Hn2old by lia. apply Hn1mv. lia. }
  intros i Hi. rewrite Hn2new by lia.
  destruct (Hfi i) as (x & y & z & Hx & Hy & Hz & ->); [lia|].
  destruct (Hf x y z Hx Hy Hz) as (corner & -> & Hpop & _).
  exists corner. split; [reflexivity|exact Hpop].
Qed.

(** *** The layout [newDcCubeLayout] builds *)

Lemma mapM_total {A B : Type} (f : A -> option B) (g : A -> B) (l : list A) :
  (forall a, a ∈ l -> f a = Some (g a)) -> mapM f l = Some (g <$> l).
Proof.
  intros Hf. apply mapM_Some. apply Forall2_fmap_r, Forall_Forall2_diag, Forall_forall.
  exact Hf.
Qed.

Lemma concat_uniform_length {A : Type} (ls : list (list A)) (w : nat) :
  Forall (fun r => length r = w) ls -> length (concat ls) = (length ls * w)%nat.
Proof.
  induction 1 as [|r ls Hr _ IH]; [reflexivity|].
  cbn. rewrite length_app, IH, Hr. reflexivity.
Qed.

Lemma concat_uniform_lookup {A : Type} (ls : list (list A)) (w : nat) :
  Forall (fun r => length r = w) ls ->
  forall i j, (j < w)%nat -> concat ls !! (i * w + j)%nat = ls !! i ≫= (fun r => r !! j).
Proof.
  induction 1 as [|r ls Hr _ IH]; intros i j Hj.
  - cbn. rewrite !lookup_nil. reflexivity.
  - destruct i as [|i]; cbn [concat].
    + cbn. rewrite lookup_app_l by lia. reflexivity.
    + rewrite lookup_app_r by (cbn; lia).
      replace (S i * w + j - length r)%nat with (i * w + j)%nat by (cbn; lia).
      rewrite IH by exact Hj. reflexivity.
Qed.

Lemma initialCorners_spec (xs ys zs : list F) (bufRows : Z) :
  0 <= bufRows <= len zs ->
  exists cs,
    initialCorners xs ys zs bufRows = Some cs
    /\ length cs = (Z.to_nat bufRows * (length ys * length xs))%nat
    /\ forall x y z cx cy,
         xs !! x = Some cx -> ys !! y = Some cy -> (z < Z.to_nat bufRows)%nat ->
         exists cz, zs !! z = Some cz
                    /\ cs !! (z * (length ys * length xs) + (y * length xs + x))%nat
                       = Some (mkCorner false false (cx, cy, cz)).
Proof.
  intros Hb. unfold len in Hb.
  set (row := fun i : Z =>
                concat ((fun y => (fun x => mkCorner false false
                                              (x, y, default zeroF (index zs i))) <$> xs)
                        <$> ys)).
  assert (Hrows : mapM (fun i =>
                          (fun rows => concat rows) <$>
                          mapM (fun y =>
                                  mapM (fun x =>
                                          index zs i ≫= fun z =>
                                          Some (mkCorner false false (x, y, z)))
                                       xs)
                               ys)
                       (seqZ 0 bufRows)
                  = Some (row <$> seqZ 0 bufRows)).
  { apply mapM_total. intros i Hi. apply elem_of_seqZ in Hi.
    destruct (index_is_Some zs i) as [cz Hcz]; [unfold len; lia|].
    rewrite (mapM_total _ (fun y => (fun x => mkCorner false false (x, y, cz)) <$> xs)).
    - cbn. unfold row. rewrite Hcz. reflexivity.
    - intros y _. apply mapM_total. intros x _. rewrite Hcz. reflexivity. }
  assert (Hrow : Forall (fun r => length r = (length ys * length xs)%nat)
                        (row <$> seqZ 0 bufRows)).
  { apply Forall_fmap, Forall_forall. intros i _. unfold row. cbn.
    rewrite (concat_uniform_length _ (length xs)).
    - rewrite length_fmap. reflexivity.
    - apply Forall_fmap, Forall_forall. intros y _. cbn. apply length_fmap. }
  exists (concat (row <$> seqZ 0 bufRows)). split; [|split].
  - unfold initialCorners. rewrite Hrows. reflexivity.
  - rewrite (concat_uniform_length _ _ Hrow), length_fmap, length_seqZ. reflexivity.
  - intros x y z cx cy Hx Hy Hz.
    destruct (lookup_lt_is_Some_2 zs z) as [cz Hcz]; [lia|].
    exists cz. split; [exact Hcz|].
    assert (Hxlt : (x < length xs)%nat) by (eapply lookup_lt_Some, Hx).
    assert (Hylt : (y < length ys)%nat) by (eapply lookup_lt_Some, Hy).
    rewrite (concat_uniform_lookup _ _ Hrow) by nia.
    rewrite list_lookup_fmap.
    rewrite (lookup_seqZ_lt 0 bufRows z) by lia. cbn [fmap option_fmap option_map mbind option_bind].
    unfold row. rewrite (concat_uniform_lookup _ (length xs)).
    + rewrite list_lookup_fmap, Hy. cbn. rewrite list_lookup_fmap, Hx. cbn.
      rewrite index_nonneg by lia. rewrite Z.add_0_l, Nat2Z.id, Hcz. reflexivity.
    + apply Forall_fmap, Forall_forall. intros y' _. cbn. apply length_fmap.
    + exact Hxlt.
Qed.

Lemma newDcCubeLayout_spec (xs ys zs : list F) (bufSize : Z) :
  2 <= len xs -> 2 <= len ys -> 3 <= len zs ->
  exists d, newDcCubeLayout xs ys zs bufSize = Some d
            /\ Xs d = xs /\ Ys d = ys /\ Zs d = zs /\ ZOffset d = 0
            /\ Z.min 4 (len zs) <= BufRows d <= len zs
            /\ wfLayout d.
Proof.
  intros Hnx Hny Hnz. unfold newDcCubeLayout.
  set (size := if bufSize =? 0 then DefaultDualContouringBufferSize else bufSize).
  assert (Hxy : 0 < len xs * len ys) by nia.
  unfold quo at 1. destruct (decide (len xs * len ys = 0)) as [|_]; [lia|].
  cbn [mbind option_bind].
  set (bufRows := Z.min (Z.max (size ÷ (len xs * len ys)) 4) (len zs)).
  assert (Hrows : Z.min 4 (len zs) <= bufRows <= len zs) by (unfold bufRows; lia).
  assert (Hb3 : 3 <= bufRows) by lia.
  assert (Hx0 : 0 <= (len xs - 1) * len ys) by nia.
  assert (Hy0 : 0 <= (len ys - 1) * len xs) by nia.
  assert (Hcubes0 : 0 <= (len xs - 1) * (len ys - 1) * (bufRows - 1)).
  { apply Z.mul_nonneg_nonneg; [nia|lia]. }
  assert (Hedges0 : 0 <= ((len xs - 1) * len ys + (len ys - 1) * len xs) * bufRows
                         + len xs * len ys * (bufRows - 1)).
  { apply Z.add_nonneg_nonneg; apply Z.mul_nonneg_nonneg; lia. }
  rewrite (make_Some zeroCube _ Hcubes0). cbn [mbind option_bind]. cbv zeta.
  rewrite (make_Some zeroEdge _ Hedges0). cbn [mbind option_bind].
  destruct (initialCorners_spec xs ys zs bufRows) as (cs & -> & Hlen & Hcs); [lia|].
  cbn [mbind option_bind]. eexists. split; [reflexivity|].
  cbn [Xs Ys Zs ZOffset BufRows]. do 4 (split; [reflexivity|]). split; [exact Hrows|].
  split; cbn [Xs Ys Zs ZOffset BufRows Corners Cubes Edges].
  - unfold hasCubes. cbn. lia.
  - unfold Remaining. cbn. lia.
  - unfold numCubes, len. cbn [Xs Ys BufRows Cubes]. rewrite length_replicate.
    fold (len xs). fold (len ys). rewrite Z2Nat.id by exact Hcubes0. reflexivity.
  - unfold numCorners, len. cbn [Xs Ys BufRows Corners]. rewrite Hlen.
    fold (len xs). fold (len ys). unfold len. nia.
  - unfold numEdges, edgeCounts, len. cbn [Xs Ys BufRows Edges].
    rewrite length_replicate. fold (len xs). fold (len ys).
    rewrite Z2Nat.id by exact Hedges0. reflexivity.
  - intros x y z Hx Hy Hz. unfold gridCoord, cornerIdx. cbn [Xs Ys Zs ZOffset Corners].
    destruct (index_is_Some xs x Hx) as [cx Hcx].
    destruct (index_is_Some ys y Hy) as [cy Hcy].
    rewrite Hcx, Hcy. cbn [mbind option_bind].
    rewrite index_nonneg in Hcx, Hcy by lia.
    destruct (Hcs (Z.to_nat x) (Z.to_nat y) (Z.to_nat z) cx cy Hcx Hcy) as (cz & Hcz & Hc);
      [lia|].
    rewrite Z.add_0_r. rewrite (index_nonneg zs z) by lia. rewrite Hcz.
    cbn [mbind option_bind]. exists (mkCorner false false (cx, cy, cz)).
    split; [|reflexivity].
    assert (H1 : 0 <= z * len ys) by nia.
    assert (H2 : 0 <= (y + z * len ys) * len xs) by nia.
    rewrite index_nonneg by lia. rewrite <- Hc. f_equal.
    unfold len. apply Nat2Z.inj.
    rewrite Z2Nat.id by (unfold len in *; lia).
    rewrite !Nat2Z.inj_add, !Nat2Z.inj_mul, !Z2Nat.id by lia. lia.
Qed.

(** X6.  On axes with at least two values each and at least three along
    [z] (what [Mesh] asks for), [newDcCubeLayout] returns a layout that
    meets the invariant: between three and [len(Zs)] rows and at least four
    when [Zs] allows, slices of the lengths that the index functions
    assume, and every corner of the buffer holding the coordinate of its
    grid point. *)
Theorem newDcCubeLayout_wf (xs ys zs : list F) (bufSize : Z) :
  2 <= len xs -> 2 <= len ys -> 3 <= len zs ->
  exists d, newDcCubeLayout xs ys zs bufSize = Some d
            /\ Xs d = xs /\ Ys d = ys /\ Zs d = zs /\ ZOffset d = 0
            /\ Z.min 4 (len zs) <= BufRows d <= len zs
            /\ wfLayout d.
Proof. apply newDcCubeLayout_spec. Qed.

(** X7.  [Shift] on a layout that meets the invariant does not panic and
    keeps the invariant.  It moves the buffer up by
    [min(Remaining, BufRows-2)] rows: [ZOffset] grows and [Remaining]
    shrinks by that number and stays at least zero; with three rows or
    more, a [Shift] made while rows remain moves by at least one row, so
    the loop of [Mesh] ends. *)
Theorem Shift_keeps_layout (d : dcCubeLayout) :
  wfLayout d ->
  exists d', Shift d = Some d'
    /\ wfLayout d'
    /\ Xs d' = Xs d /\ Ys d' = Ys d /\ Zs d' = Zs d /\ BufRows d' = BufRows d
    /\ ZOffset d' = ZOffset d + rowsToShift d
    /\ Remaining d' = Remaining d - rowsToShift d
    /\ 0 <= Remaining d'
    /\ (0 < Remaining d -> 3 <= BufRows d -> Remaining d' < Remaining d).
Proof.
  intros Hwf. destruct (Shift_spec d Hwf) as (d' & Hrun & Hwf' & Hsame & Hoff & _).
  destruct Hsame as (HX & HY & HZ & HB).
  exists d'. split; [exact Hrun|]. split; [exact Hwf'|].
  do 4 (split; [assumption|]). split; [exact Hoff|].
  assert (Hrem : Remaining d' = Remaining d - rowsToShift d).
  { unfold Remaining. rewrite HZ, HB, Hoff. lia. }
  split; [exact Hrem|]. destruct Hwf' as [_ (_ & Hr) _ _ _ _].
  split; [exact Hr|]. intros Hpos Hb. rewrite Hrem. unfold rowsToShift. lia.
Qed.

(** X8.  What [Shift] keeps and what it clears.  With [rows] the number
    of rows moved, the cell [i + rows * rowSize] of each of the three
    slices becomes the cell [i]: the cubes, the corners with their
    [Populated] and [Value], and the edges with their Hermite data go down
    by [rows] rows.  The cells of the last [rows] rows are fresh: zero
    cubes, zero edges and corners that are not populated. *)
Theorem Shift_moves_rows (d d' : dcCubeLayout) :
  wfLayout d -> Shift d = Some d' ->
  let rows := rowsToShift d in
  let cubeRowSize := (len (Xs d) - 1) * (len (Ys d) - 1) in
  let cornerRowSize := len (Xs d) * len (Ys d) in
  (forall i, 0 <= i < numCubes d - rows * cubeRowSize ->
     index (Cubes d') i = index (Cubes d) (i + rows * cubeRowSize))
  /\ (forall i, numCubes d - rows * cubeRowSize <= i < numCubes d ->
        index (Cubes d') i = Some zeroCube)
  /\ (forall i, 0 <= i < numEdges d - rows * edgeRow d ->
        index (Edges d') i = index (Edges d) (i + rows * edgeRow d))
  /\ (forall i, numEdges d - rows * edgeRow d <= i < numEdges d ->
        index (Edges d') i = Some zeroEdge)
  /\ (forall i, 0 <= i < numCorners d - rows * cornerRowSize ->
        index (Corners d') i = index (Corners d) (i + rows * cornerRowSize))
  /\ (forall i, numCorners d - rows * cornerRowSize <= i < numCorners d ->
        exists corner, index (Corners d') i = Some corner
                       /\ cornerPopulated corner = false).
Proof.
  intros Hwf Hrun. destruct (Shift_spec d Hwf) as (d0 & Hrun0 & _ & _ & _ & Hrest).
  rewrite Hrun in Hrun0. injection Hrun0 as <-. exact Hrest.
Qed.

End Layout.

(** *** A small layout

    Three values along [x] and [y], six along [z], and a buffer of four
    rows: two rows remain after the first pass. *)
Definition demoLayout : @dcCubeLayout Z :=
  default (mkLayout [] [] [] 0 0 [] [] [])
          (newDcCubeLayout 0 [0; 1; 2] [0; 1; 2] [0; 1; 2; 3; 4; 5] 27).

Lemma demoLayout_hasCubes : hasCubes demoLayout.
Proof.
  unfold hasCubes. change (len (Xs demoLayout)) with 3.
  change (len (Ys demoLayout)) with 3. change (BufRows demoLayout) with 4. lia.
Qed.

Lemma demoLayout_wf : wfLayout demoLayout.
Proof.
  destruct (newDcCubeLayout_spec 0 [0; 1; 2] [0; 1; 2] [0; 1; 2; 3; 4; 5] 27)
    as (d & Hd & _ & _ & _ & _ & _ & Hwf); [unfold len; cbn; lia..|].
  unfold demoLayout. rewrite Hd. exact Hwf.
Qed.

Lemma cubeCoord_cubeAt_inverse_witness :
  hasCubes demoLayout
  /\ (forall c, 0 <= c < numCubes demoLayout ->
        exists x y z, cubeCoord demoLayout c = Some (x, y, z) /\ inGrid demoLayout x y z
                      /\ cubeAt demoLayout x y z = c)
  /\ (forall x y z, inGrid demoLayout x y z ->
        0 <= cubeAt demoLayout x y z < numCubes demoLayout
        /\ cubeCoord demoLayout (cubeAt demoLayout x y z) = Some (x, y, z))
  /\ (forall x y z, ~ inGrid demoLayout x y z -> cubeAt demoLayout x y z = -1).
Proof.
  split; [exact demoLayout_hasCubes|].
  apply (cubeCoord_cubeAt_inverse demoLayout demoLayout_hasCubes).
Defined.

Lemma CubeCorners_valid_witness :
  hasCubes demoLayout /\ 0 <= 7 < numCubes demoLayout
  /\ exists x y z corners,
       cubeCoord demoLayout 7 = Some (x, y, z)
       /\ CubeCorners demoLayout 7 = Some corners
       /\ corners = (i ← [0; 1]; j ← [0; 1]; k ← [0; 1];
                     [cornerIdx demoLayout (x + k) (y + j) (z + i)])
       /\ Forall (fun idx => 0 <= idx < numCorners demoLayout) corners
       /\ NoDup corners.
Proof.
  assert (Hc : 0 <= 7 < numCubes demoLayout).
  { change (numCubes demoLayout) with 12. lia. }
  split; [exact demoLayout_hasCubes|]. split; [exact Hc|].
  apply (CubeCorners_valid demoLayout 7 demoLayout_hasCubes Hc).
Defined.

Lemma CubeEdges_in_range_witness :
  hasCubes demoLayout /\ 0 <= 7 < numCubes demoLayout
  /\ exists edges, CubeEdges demoLayout 7 = Some edges
                   /\ length edges = 12%nat
                   /\ Forall (fun e => 0 <= e < numEdges demoLayout) edges.
Proof.
  assert (Hc : 0 <= 7 < numCubes demoLayout).
  { change (numCubes demoLayout) with 12. lia. }
  split; [exact demoLayout_hasCubes|]. split; [exact Hc|].
  apply (CubeEdges_in_range demoLayout 7 demoLayout_hasCubes Hc).
Defined.

Lemma CubeEdges_EdgeCorners_witness :
  hasCubes demoLayout /\ 0 <= 7 < numCubes demoLayout
  /\ exists c0 c1 c2 c3 c4 c5 c6 c7 edges,
       CubeCorners demoLayout 7 = Some [c0; c1; c2; c3; c4; c5; c6; c7]
       /\ CubeEdges demoLayout 7 = Some edges
       /\ mapM (EdgeCorners demoLayout) edges
          = Some [(c0, c1); (c0, c2); (c1, c3); (c2, c3);
                  (c0, c4); (c1, c5); (c2, c6); (c3, c7);
                  (c4, c5); (c4, c6); (c5, c7); (c6, c7)].
Proof.
  assert (Hc : 0 <= 7 < numCubes demoLayout).
  { change (numCubes demoLayout) with 12. lia. }
  split; [exact demoLayout_hasCubes|]. split; [exact Hc|].
  apply (CubeEdges_EdgeCorners demoLayout 7 demoLayout_hasCubes Hc).
Defined.

Lemma CubeEdges_EdgeCubes_witness :
  hasCubes demoLayout /\ 0 <= 7 < numCubes demoLayout
  /\ exists edges,
       CubeEdges demoLayout 7 = Some edges
       /\ forall k e slot,
            edges !! k = Some e -> cubeSlots !! k = Some slot ->
            exists cubes, EdgeCubes demoLayout e = Some cubes /\ length cubes = 4%nat
                          /\ cubes !! slot = Some 7.
Proof.
  assert (Hc : 0 <= 7 < numCubes demoLayout).
  { change (numCubes demoLayout) with 12. lia. }
  split; [exact demoLayout_hasCubes|]. split; [exact Hc|].
  apply (CubeEdges_EdgeCubes demoLayout 7 demoLayout_hasCubes Hc).
Defined.

(** The cube [7] of [demoLayout] is at [(1, 1, 1)]; its edge [7] is the
    [z] edge at [(2, 2, 1)], which has no other cube around it. *)
Example demoLayout_cube7 :
  cubeCoord demoLayout 7 = Some (1, 1, 1)
  /\ CubeCorners demoLayout 7 = Some [13; 14; 16; 17; 22; 23; 25; 26]
  /\ CubeEdges demoLayout 7
     = Some [24; 31; 32; 26; 37; 38; 40; 41; 45; 52; 53; 47]
  /\ EdgeCubes demoLayout 41 = Some [7; -1; -1; -1]
  /\ EdgeCorners demoLayout 41 = Some (17, 26).
Proof. vm_compute. repeat split. Qed.

Lemma newDcCubeLayout_wf_witness :
  2 <= len [0; 1; 2] /\ 2 <= len [0; 1; 2] /\ 3 <= len [0; 1; 2; 3; 4; 5]
  /\ exists d, newDcCubeLayout 0 [0; 1; 2] [0; 1; 2] [0; 1; 2; 3; 4; 5] 27 = Some d
               /\ Xs d = [0; 1; 2] /\ Ys d = [0; 1; 2] /\ Zs d = [0; 1; 2; 3; 4; 5]
               /\ ZOffset d = 0
               /\ Z.min 4 (len [0; 1; 2; 3; 4; 5]) <= BufRows d <= len [0; 1; 2; 3; 4; 5]
               /\ wfLayout d.
Proof.
  assert (H3 : 2 <= len [0; 1; 2]) by (unfold len; cbn; lia).
  assert (H6 : 3 <= len [0; 1; 2; 3; 4; 5]) by (unfold len; cbn; lia).
  split; [exact H3|]. split; [exact H3|]. split; [exact H6|].
  apply (newDcCubeLayout_wf 0 [0; 1; 2] [0; 1; 2] [0; 1; 2; 3; 4; 5] 27 H3 H3 H6).
Defined.

Lemma Shift_keeps_layout_witness :
  wfLayout demoLayout
  /\ exists d', Shift 0 demoLayout = Some d'
       /\ wfLayout d'
       /\ Xs d' = Xs demoLayout /\ Ys d' = Ys demoLayout /\ Zs d' = Zs demoLayout
       /\ BufRows d' = BufRows demoLayout
       /\ ZOffset d' = ZOffset demoLayout + rowsToShift demoLayout
       /\ Remaining d' = Remaining demoLayout - rowsToShift demoLayout
       /\ 0 <= Remaining d'
       /\ (0 < Remaining demoLayout -> 3 <= BufRows demoLayout ->
           Remaining d' < Remaining demoLayout).
Proof.
  split; [exact demoLayout_wf|].
  apply (Shift_keeps_layout 0 demoLayout demoLayout_wf).
Defined.

Definition demoShifted : @dcCubeLayout Z :=
  default demoLayout (Shift 0 demoLayout).

Lemma Shift_moves_rows_witness :
  wfLayout demoLayout /\ Shift 0 demoLayout = Some demoShifted
  /\ (forall i, 0 <= i < numCubes demoLayout - 2 * 4 ->
        index (Cubes demoShifted) i = index (Cubes demoLayout) (i + 2 * 4))
  /\ (forall i, numCorners demoLayout - 2 * 9 <= i < numCorners demoLayout ->
        exists corner, index (Corners demoShifted) i = Some corner
                       /\ cornerPopulated corner = false).
Proof.
  assert (Hrun : Shift 0 demoLayout = Some demoShifted) by (vm_compute; reflexivity).
  split; [exact demoLayout_wf|]. split; [exact Hrun|].
  pose proof (Shift_moves_rows 0 demoLayout demoShifted demoLayout_wf Hrun) as Hmv.
  cbv zeta in Hmv. destruct Hmv as (Hcubes & _ & _ & _ & _ & Hcorners).
  split; [exact Hcubes|exact Hcorners].
Defined.

(** After the shift the buffer holds the rows [2] to [5] of the grid. *)
Example demoShifted_rows :
  ZOffset demoShifted = 2 /\ Remaining demoShifted = 0
  /\ cornerCoord <$> index (Corners demoShifted) 0 = Some (0, 0, 2)
  /\ cornerCoord <$> index (Corners demoShifted) 35 = Some (2, 2, 5).
Proof. vm_compute. repeat split. Qed.

End DcCubeLayout.

(** ** Singular vertices (mesh_ops.go)

    [Triangle.SharesEdge] and the vertex-to-triangle map of the mesh are
    not among the sources: the first is a parameter, the second is the
    argument, as the list of its entries in the order of the iteration. *)

Module Singular.
Section SingularVertices.

Context {Coord3D Triangle : Type}.

(** [t.SharesEdge(t1)] *)
Variable SharesEdge : Triangle -> Triangle -> bool.

(** The variables of the breadth-first search. *)
Record search : Type := mkSearch {
  queue : list Z;
  numVisited : Z;
  changed : bool
}.

(** Lines 201-205: the body of [for j, t1 := range tris]. *)
Definition visit (t : Triangle) (s : search) (j : nat) (t1 : Triangle) : search :=
  if bool_decide (queue s !! j = Some 0) && SharesEdge t t1 then
    {| queue := <[j := 1]> (queue s);
       numVisited := numVisited s + 1;
       changed := true |}
  else s.

Fixpoint visitAll (t : Triangle) (j : nat) (tris : list Triangle) (s : search) : search :=
  match tris with
  | [] => s
  | t1 :: rest => visitAll t (S j) rest (visit t s j t1)
  end.

(** Lines 196-207: the body of [for i, status := range queue], with
    [t := tris[i]]; the status is read when the loop reaches [i]. *)
Definition expand (tris : list Triangle) (s : search) (i : nat) (t : Triangle) : search :=
  if bool_decide (queue s !! i = Some 1) then
    let s' := visitAll t 0 tris s in
    {| queue := <[i := 2]> (queue s');
       numVisited := numVisited s';
       changed := changed s' |}
  else s.

(** The queue has one entry per triangle: the loop over the queue is a
    loop over the triangles and their indices. *)
Fixpoint passFrom (tris : list Triangle) (i : nat) (rest : list Triangle) (s : search)
  : search :=
  match rest with
  | [] => s
  | t :: rest' => passFrom tris (S i) rest' (expand tris s i t)
  end.

Definition pass (tris : list Triangle) (s : search) : search :=
  passFrom tris 0 tris s.

(** [for changed { changed = false; ... }]; [None] when the fuel runs
    out. *)
Fixpoint bfs (fuel : nat) (tris : list Triangle) (s : search) : option search :=
  match fuel with
  | O => None
  | S fuel' =>
      let s' := pass tris {| queue := queue s; numVisited := numVisited s;
                             changed := false |} in
      if changed s' then bfs fuel' tris s' else Some s'
  end.

(** Lines 186-192. *)
Definition start (tris : list Triangle) : search :=
  {| queue := <[0%nat := 1]> (replicate (length tris) 0);
     numVisited := 1;
     changed := true |}.

(** [numVisited != len(tris)] after the search. *)
Definition isSingular (tris : list Triangle) : option bool :=
  (fun s => negb (numVisited s =? Z.of_nat (length tris)))
    <$> bfs (length tris) tris (start tris).

Fixpoint SingularVerticesFrom (v2t : list (Coord3D * list Triangle)) (res : list Coord3D)
  : option (list Coord3D) :=
  match v2t with
  | [] => Some res
  | (vertex, tris) :: rest =>
      if Z.of_nat (length tris) =? 0 then SingularVerticesFrom rest res
      else
        isSingular tris ≫= fun b : bool =>
        SingularVerticesFrom rest (if b then res ++ [vertex] else res)
  end.

Definition SingularVertices (v2t : list (Coord3D * list Triangle))
  : option (list Coord3D) :=
  SingularVerticesFrom v2t [].

(** *** The fan of a vertex *)

(** The triangles at [i] and [j] of the fan share an edge. *)
Definition linked (tris : list Triangle) (i j : nat) : Prop :=
  exists t t1, tris !! i = Some t /\ tris !! j = Some t1 /\ SharesEdge t t1 = true.

(** Some triangle of the fan cannot be reached from the first one. *)
Definition disconnected (tris : list Triangle) : Prop :=
  exists j t, tris !! j = Some t /\ ~ rtc (linked tris) 0%nat j.

Definition visited (q : list Z) : Z :=
  Z.of_nat (length (filter (fun x => x <> 0) q)).

Record invariant (tris : list Triangle) (s : search) : Prop := mkInv {
  inv_length : length (queue s) = length tris;
  inv_status : forall j q, queue s !! j = Some q -> q = 0 \/ q = 1 \/ q = 2;
  inv_count : numVisited s = visited (queue s);
  inv_reached : forall j q, queue s !! j = Some q -> q <> 0 -> rtc (linked tris) 0%nat j;
  inv_expanded : forall j k, queue s !! j = Some 2 -> linked tris j k ->
      exists q, queue s !! k = Some q /\ q <> 0;
  inv_first : exists q, queue s !! 0%nat = Some q /\ q <> 0
}.

(** Statuses only go up, and only a mark sets [changed]. *)
Record extends (s s' : search) : Prop := mkExt {
  ext_kept : forall k q, queue s !! k = Some q -> q <> 0 ->
      exists q', queue s' !! k = Some q' /\ q' <> 0 /\ (q = 2 -> q' = 2);
  ext_count : numVisited s <= numVisited s';
  ext_changed : changed s = true -> changed s' = true;
  ext_progress : changed s' = true -> changed s = true \/ numVisited s < numVisited s';
  ext_quiet : changed s' = false ->
      forall k, queue s' !! k = Some 1 -> queue s !! k = Some 1
}.

Lemma extends_refl s : extends s s.
Proof. split; eauto; lia. Qed.

Lemma extends_trans s1 s2 s3 : extends s1 s2 -> extends s2 s3 -> extends s1 s3.
Proof.
  intros [K1 C1 H1 P1 Q1] [K2 C2 H2 P2 Q2]. split.
  - intros k q Hq Hne. destruct (K1 k q Hq Hne) as (q' & Hq' & Hne' & H2').
    destruct (K2 k q' Hq' Hne') as (q'' & Hq'' & Hne'' & H2'').
    exists q''. split; [exact Hq''|]. split; [exact Hne''|]. auto.
  - lia.
  - auto.
  - intros Hc. destruct (P2 Hc) as [Hc2|Hlt]; [|right; lia].
    destruct (P1 Hc2) as [Hc1|Hlt]; [left; exact Hc1|right; lia].
  - intros Hc k Hk.
    destruct (changed s2) eqn:Hc2.
    + rewrite (H2 eq_refl) in Hc. discriminate.
    + apply Q1; [reflexivity|]. apply Q2; assumption.
Qed.

Lemma visited_insert (q : list Z) (j : nat) (old new : Z) :
  q !! j = Some old ->
  visited (<[j := new]> q)
  = visited q - (if decide (old <> 0) then 1 else 0) + (if decide (new <> 0) then 1 else 0).
Proof.
  intros Hj. unfold visited.
  pose proof (lookup_lt_Some _ _ _ Hj) as Hlt.
  rewrite insert_take_drop by exact Hlt.
  rewrite <- (take_drop_middle q j old Hj) at 3.
  rewrite !filter_app, !filter_cons, !length_app.
  destruct (decide (old <> 0)), (decide (new <> 0)); cbn [length]; lia.
Qed.

Lemma visited_le (q : list Z) : visited q <= Z.of_nat (length q).
Proof. unfold visited. pose proof (length_filter (fun x => x <> 0) q). lia. Qed.

Lemma visited_full (q : list Z) :
  visited q = Z.of_nat (length q) <-> forall j x, q !! j = Some x -> x <> 0.
Proof.
  unfold visited. induction q as [|x q IH].
  - cbn. split; [intros _ j y Hj; inversion Hj|reflexivity].
  - rewrite filter_cons. pose proof (length_filter (fun x => x <> 0) q) as Hle.
    destruct (decide (x <> 0)) as [Hx|Hx]; cbn [length].
    + split.
      * intros Heq [|j] y Hj; cbn in Hj; [congruence|].
        apply (proj1 IH ltac:(lia) j y Hj).
      * intros Hall. assert (Hq : forall j y, q !! j = Some y -> y <> 0).
        { intros j y Hj. apply (Hall (S j) y Hj). }
        apply IH in Hq. lia.
    + split; [lia|]. intros Hall. exfalso. apply Hx. apply (Hall 0%nat x). reflexivity.
Qed.

Lemma visit_spec (tris : list Triangle) (s : search) (i j : nat) (t t1 : Triangle) :
  invariant tris s ->
  tris !! i = Some t -> tris !! j = Some t1 ->
  (exists q, queue s !! i = Some q /\ q <> 0) ->
  invariant tris (visit t s j t1)
  /\ extends s (visit t s j t1)
  /\ (SharesEdge t t1 = true -> exists q, queue (visit t s j t1) !! j = Some q /\ q <> 0).
Proof.
  intros Hinv Hi Hj (qi & Hqi & Hne).
  assert (Hjq : exists q, queue s !! j = Some q).
  { apply lookup_lt_is_Some. rewrite (inv_length _ _ Hinv). eapply lookup_lt_Some, Hj. }
  destruct Hjq as [qj Hqj].
  unfold visit. destruct (bool_decide (queue s !! j = Some 0)) eqn:Hz; cbn [andb].
  2:{ split; [exact Hinv|]. split; [apply extends_refl|]. intros _.
      exists qj. split; [exact Hqj|]. intros ->. apply bool_decide_eq_false in Hz.
      contradiction. }
  apply bool_decide_eq_true in Hz.
  destruct (SharesEdge t t1) eqn:Hs.
  2:{ split; [exact Hinv|]. split; [apply extends_refl|]. discriminate. }
  assert (Hlt : (j < length (queue s))%nat) by (eapply lookup_lt_Some, Hz).
  assert (Hreach : rtc (linked tris) 0%nat j).
  { eapply rtc_r; [exact (inv_reached _ _ Hinv i qi Hqi Hne)|].
    exists t, t1. auto. }
  split; [|split].
  - split; cbn [queue numVisited changed].
    + rewrite length_insert. apply (inv_length _ _ Hinv).
    + intros k q Hk. destruct (decide (k = j)) as [->|Hkj].
      * rewrite list_lookup_insert_eq in Hk by exact Hlt. injection Hk as <-. auto.
      * rewrite list_lookup_insert_ne in Hk by congruence. eapply inv_status; eauto.
    + rewrite (visited_insert _ _ 0 1 Hz), (inv_count _ _ Hinv).
      destruct (decide (0 <> 0)); [contradiction|]. destruct (decide (1 <> 0)); lia.
    + intros k q Hk Hq. destruct (decide (k = j)) as [->|Hkj]; [exact Hreach|].
      rewrite list_lookup_insert_ne in Hk by congruence. eapply inv_reached; eauto.
    + intros k m Hk Hlink. destruct (decide (k = j)) as [->|Hkj].
      * rewrite list_lookup_insert_eq in Hk by exact Hlt. discriminate.
      * rewrite list_lookup_insert_ne in Hk by congruence.
        destruct (inv_expanded _ _ Hinv k m Hk Hlink) as (q & Hq & Hqne).
        destruct (decide (m = j)) as [->|Hmj]; [congruence|].
        exists q. rewrite list_lookup_insert_ne by congruence. auto.
    + destruct (inv_first _ _ Hinv) as (q & Hq & Hqne).
      destruct (decide (j = 0%nat)) as [->|Hj0]; [congruence|].
      exists q. rewrite list_lookup_insert_ne by congruence. auto.
  - split; cbn [queue numVisited changed]; try lia; auto; try discriminate.
    intros k q Hk Hq. destruct (decide (k = j)) as [->|Hkj]; [congruence|].
      exists q. rewrite list_lookup_insert_ne by congruence. auto.
  - intros _. exists 1. cbn [queue]. rewrite list_lookup_insert_eq by exact Hlt.
    split; [reflexivity|lia].
Qed.

Lemma visitAll_spec (tris : list Triangle) (i : nat) (t : Triangle) :
  tris !! i = Some t ->
  forall rest pre s,
    tris = pre ++ rest ->
    invariant tris s ->
    (exists q, queue s !! i = Some q /\ q <> 0) ->
    invariant tris (visitAll t (length pre) rest s)
    /\ extends s (visitAll t (length pre) rest s)
    /\ (forall k t1, rest !! k = Some t1 -> SharesEdge t t1 = true ->
          exists q, queue (visitAll t (length pre) rest s) !! (length pre + k)%nat = Some q
                    /\ q <> 0).
Proof.
  intros Hi. induction rest as [|t1 rest IH]; intros pre s Htris Hinv Hq.
  - cbn. split; [exact Hinv|]. split; [apply extends_refl|]. intros k t1 Hk. inversion Hk.
  - cbn [visitAll].
    assert (Hj : tris !! length pre = Some t1).
    { rewrite Htris. apply list_lookup_middle. reflexivity. }
    destruct (visit_spec tris s i (length pre) t t1 Hinv Hi Hj Hq) as (Hinv1 & Hext1 & Hm1).
    assert (Hq1 : exists q, queue (visit t s (length pre) t1) !! i = Some q /\ q <> 0).
    { destruct Hq as (q & Hq & Hne).
      destruct (ext_kept _ _ Hext1 i q Hq Hne) as (q' & Hq' & Hne' & _). eauto. }
    specialize (IH (pre ++ [t1]) (visit t s (length pre) t1)).
    rewrite length_app in IH. cbn [length] in IH.
    replace (length pre + 1)%nat with (S (length pre)) in IH by lia.
    destruct IH as (Hinv2 & Hext2 & Hm2);
      [rewrite <- app_assoc; exact Htris|exact Hinv1|exact Hq1|].
    split; [exact Hinv2|]. split; [eapply extends_trans; eassumption|].
    intros [|k] t2 Hk Hs.
    + cbn in Hk. injection Hk as <-. destruct (Hm1 Hs) as (q & Hq' & Hne).
      destruct (ext_kept _ _ Hext2 _ q Hq' Hne) as (q' & Hq'' & Hne' & _).
      exists q'. rewrite Nat.add_0_r. auto.
    + cbn in Hk. destruct (Hm2 k t2 Hk Hs) as (q & Hq' & Hne).
      exists q. replace (length pre + S k)%nat with (S (length pre) + k)%nat by lia. auto.
Qed.

Lemma expand_spec (tris : list Triangle) (s : search) (i : nat) (t : Triangle) :
  invariant tris s -> tris !! i = Some t ->
  invariant tris (expand tris s i t)
  /\ extends s (expand tris s i t)
  /\ queue (expand tris s i t) !! i <> Some 1.
Proof.
  intros Hinv Hi. unfold expand.
  destruct (bool_decide (queue s !! i = Some 1)) eqn:H1.
  2:{ apply bool_decide_eq_false in H1. split; [exact Hinv|].
      split; [apply extends_refl|exact H1]. }
  apply bool_decide_eq_true in H1. cbv zeta.
  destruct (visitAll_spec tris i t Hi tris [] s eq_refl Hinv) as (Hinv1 & Hext1 & Hm1).
  { exists 1. split; [exact H1|lia]. }
  cbn [length] in Hinv1, Hext1, Hm1. set (s' := visitAll t 0 tris s) in *.
  destruct (ext_kept _ _ Hext1 i 1 H1 ltac:(lia)) as (qi & Hqi & Hqine & _).
  assert (Hlt : (i < length (queue s'))%nat) by (eapply lookup_lt_Some, Hqi).
  split; [|split].
  - split; cbn [queue numVisited changed].
    + rewrite length_insert. apply (inv_length _ _ Hinv1).
    + intros k q Hk. destruct (decide (k = i)) as [->|Hki].
      * rewrite list_lookup_insert_eq in Hk by exact Hlt. injection Hk as <-. auto.
      * rewrite list_lookup_insert_ne in Hk by congruence. eapply inv_status; eauto.
    + rewrite (visited_insert _ _ qi 2 Hqi), (inv_count _ _ Hinv1).
      destruct (decide (qi <> 0)); [|contradiction]. destruct (decide (2 <> 0)); lia.
    + intros k q Hk Hq. destruct (decide (k = i)) as [->|Hki].
      * eapply (inv_reached _ _ Hinv1); eauto.
      * rewrite list_lookup_insert_ne in Hk by congruence. eapply inv_reached; eauto.
    + intros k m Hk Hlink.
      assert (Hm : exists q, queue s' !! m = Some q /\ q <> 0).
      { destruct (decide (k = i)) as [->|Hki].
        - destruct Hlink as (t0 & t1 & Ht0 & Ht1 & Hs).
          assert (t0 = t) by congruence. subst t0.
          exact (Hm1 m t1 Ht1 Hs).
        - rewrite list_lookup_insert_ne in Hk by congruence.
          exact (inv_expanded _ _ Hinv1 k m Hk Hlink). }
      destruct Hm as (q & Hq & Hqne).
      destruct (decide (m = i)) as [->|Hmi].
      * exists 2. rewrite list_lookup_insert_eq by exact Hlt. split; [reflexivity|lia].
      * exists q. rewrite list_lookup_insert_ne by congruence. auto.
    + destruct (inv_first _ _ Hinv1) as (q & Hq & Hqne).
      destruct (decide (i = 0%nat)) as [->|Hi0].
      * exists 2. rewrite list_lookup_insert_eq by exact Hlt. split; [reflexivity|lia].
      * exists q. rewrite list_lookup_insert_ne by congruence. auto.
  - split; cbn [queue numVisited changed].
    + intros k q Hk Hq. destruct (ext_kept _ _ Hext1 k q Hk Hq) as (q' & Hq' & Hne' & H2').
      destruct (decide (k = i)) as [->|Hki].
      * exists 2. rewrite list_lookup_insert_eq by exact Hlt. split; [reflexivity|].
        split; [lia|reflexivity].
      * exists q'. rewrite list_lookup_insert_ne by congruence. auto.
    + apply (ext_count _ _ Hext1).
    + apply (ext_changed _ _ Hext1).
    + apply (ext_progress _ _ Hext1).
    + intros Hc k Hk. destruct (decide (k = i)) as [->|Hki].
      * rewrite list_lookup_insert_eq in Hk by exact Hlt. discriminate.
      * rewrite list_lookup_insert_ne in Hk by congruence.
        exact (ext_quiet _ _ Hext1 Hc k Hk).
  - cbn [queue]. rewrite list_lookup_insert_eq by exact Hlt. discriminate.
Qed.

Lemma passFrom_spec (tris : list Triangle) :
  forall rest pre s,
    tris = pre ++ rest ->
    invariant tris s ->
    invariant tris (passFrom tris (length pre) rest s)
    /\ extends s (passFrom tris (length pre) rest s)
    /\ (changed (passFrom tris (length pre) rest s) = false ->
        forall k, (length pre <= k)%nat ->
                  queue (passFrom tris (length pre) rest s) !! k <> Some 1).
Proof.
  induction rest as [|t rest IH]; intros pre s Htris Hinv.
  - cbn. split; [exact Hinv|]. split; [apply extends_refl|].
    intros _ k Hk Hq. apply lookup_lt_Some in Hq.
    rewrite (inv_length _ _ Hinv), Htris, app_nil_r in Hq. lia.
  - cbn [passFrom].
    assert (Hi : tris !! length pre = Some t).
    { rewrite Htris. apply list_lookup_middle. reflexivity. }
    destruct (expand_spec tris s (length pre) t Hinv Hi) as (Hinv1 & Hext1 & Hdone).
    specialize (IH (pre ++ [t]) (expand tris s (length pre) t)).
    rewrite length_app in IH. cbn [length] in IH.
    replace (length pre + 1)%nat with (S (length pre)) in IH by lia.
    destruct IH as (Hinv2 & Hext2 & Hq2); [rewrite <- app_assoc; exact Htris|exact Hinv1|].
    split; [exact Hinv2|]. split; [eapply extends_trans; eassumption|].
    intros Hc k Hk. destruct (decide (k = length pre)) as [->|Hne].
    + intros Hone. apply Hdone. exact (ext_quiet _ _ Hext2 Hc _ Hone).
    + apply Hq2; [exact Hc|lia].
Qed.

Lemma invariant_reset (tris : list Triangle) (s : search) (c : bool) :
  invariant tris s ->
  invariant tris {| queue := queue s; numVisited := numVisited s; changed := c |}.
Proof. intros [? ? ? ? ? ?]. split; assumption. Qed.

Lemma pass_spec (tris : list Triangle) (s : search) :
  invariant tris s ->
  let s' := pass tris {| queue := queue s; numVisited := numVisited s;
                         changed := false |} in
  invariant tris s'
  /\ (changed s' = true -> numVisited s < numVisited s')
  /\ (changed s' = false -> forall k, queue s' !! k <> Some 1).
Proof.
  intros Hinv s'.
  destruct (passFrom_spec tris tris [] _ eq_refl (invariant_reset tris s false Hinv))
    as (Hinv' & Hext & Hq).
  cbn [length] in Hinv', Hext, Hq. fold (pass tris) in Hinv', Hext, Hq.
  split; [exact Hinv'|]. split.
  - intros Hc. destruct (ext_progress _ _ Hext Hc) as [Hf|Hlt]; [discriminate|exact Hlt].
  - intros Hc k. apply Hq; [exact Hc|lia].
Qed.

(** The loop ends within the fuel that is left for the unvisited
    triangles. *)
Lemma bfs_spec (tris : list Triangle) : forall fuel s,
  invariant tris s ->
  Z.of_nat (length tris) - numVisited s < Z.of_nat fuel ->
  exists s', bfs fuel tris s = Some s' /\ invariant tris s'
             /\ forall k, queue s' !! k <> Some 1.
Proof.
  induction fuel as [|fuel IH]; intros s Hinv Hfuel.
  - exfalso. pose proof (visited_le (queue s)) as Hle.
    rewrite <- (inv_count _ _ Hinv), (inv_length _ _ Hinv) in Hle. lia.
  - cbn [bfs]. destruct (pass_spec tris s Hinv) as (Hinv' & Hprog & Hquiet).
    cbv zeta in Hinv', Hprog, Hquiet |- *.
    destruct (changed (pass tris _)) eqn:Hc.
    + apply IH; [exact Hinv'|]. specialize (Hprog eq_refl). lia.
    + eexists. split; [reflexivity|]. split; [exact Hinv'|]. exact (Hquiet eq_refl).
Qed.

Lemma visited_replicate (n : nat) : visited (replicate n 0) = 0.
Proof.
  unfold visited. induction n as [|n IH]; [reflexivity|].
  cbn [replicate]. rewrite filter_cons. destruct (decide (0 <> 0)); [contradiction|exact IH].
Qed.

Lemma start_invariant (tris : list Triangle) :
  tris <> [] -> invariant tris (start tris).
Proof.
  intros Hne. assert (Hlen : (0 < length tris)%nat) by (destruct tris; [contradiction|cbn; lia]).
  assert (H0 : replicate (length tris) 0 !! 0%nat = Some 0).
  { apply lookup_replicate_2. exact Hlen. }
  assert (Hlt : (0 < length (replicate (length tris) 0%Z))%nat)
    by (rewrite length_replicate; exact Hlen).
  unfold start. split; cbn [queue numVisited changed].
  - rewrite length_insert, length_replicate. reflexivity.
  - intros j q Hj. destruct (decide (j = 0%nat)) as [->|Hj0].
    + rewrite list_lookup_insert_eq in Hj by exact Hlt. injection Hj as <-. auto.
    + rewrite list_lookup_insert_ne in Hj by congruence.
      apply lookup_replicate in Hj as [-> _]. auto.
  - rewrite (visited_insert _ _ 0 1 H0), visited_replicate.
    destruct (decide (0 <> 0)); [contradiction|]. destruct (decide (1 <> 0)); lia.
  - intros j q Hj Hq. destruct (decide (j = 0%nat)) as [->|Hj0]; [reflexivity|].
    rewrite list_lookup_insert_ne in Hj by congruence.
    apply lookup_replicate in Hj as [-> _]. contradiction.
  - intros j k Hj. destruct (decide (j = 0%nat)) as [->|Hj0].
    + rewrite list_lookup_insert_eq in Hj by exact Hlt. discriminate.
    + rewrite list_lookup_insert_ne in Hj by congruence.
      apply lookup_replicate in Hj as [? _]. discriminate.
  - exists 1. rewrite list_lookup_insert_eq by exact Hlt. split; [reflexivity|lia].
Qed.

Lemma visited_short (q : list Z) :
  visited q <> Z.of_nat (length q) -> exists j, q !! j = Some 0.
Proof.
  unfold visited. induction q as [|x q IH]; [cbn; congruence|].
  rewrite filter_cons. destruct (decide (x <> 0)) as [Hx|Hx]; cbn [length].
  - intros Hne. destruct IH as [j Hj]; [lia|]. exists (S j). exact Hj.
  - intros _. exists 0%nat. cbn. f_equal. lia.
Qed.

(** After the search the visited entries are the triangles linked to the
    first one. *)
Lemma bfs_reached (tris : list Triangle) (s : search) :
  invariant tris s -> (forall k, queue s !! k <> Some 1) ->
  forall j, rtc (linked tris) 0%nat j -> exists q, queue s !! j = Some q /\ q <> 0.
Proof.
  intros Hinv Hno.
  apply (rtc_ind_r (fun j => exists q, queue s !! j = Some q /\ q <> 0));
    [exact (inv_first _ _ Hinv)|].
  intros k m _ Hlink (q & Hq & Hne).
  destruct (inv_status _ _ Hinv k q Hq) as [-> | [-> | ->]].
  - contradiction.
  - exfalso. exact (Hno k Hq).
  - exact (inv_expanded _ _ Hinv k m Hq Hlink).
Qed.

Lemma isSingular_spec (tris : list Triangle) :
  tris <> [] ->
  exists b, isSingular tris = Some b /\ (b = true <-> disconnected tris).
Proof.
  intros Hne. assert (Hlen : (0 < length tris)%nat) by (destruct tris; [contradiction|cbn; lia]).
  destruct (bfs_spec tris (length tris) (start tris) (start_invariant tris Hne))
    as (s & Hs & Hinv & Hno); [cbn; lia|].
  unfold isSingular. rewrite Hs. cbn [fmap option_fmap option_map]. eexists.
  split; [reflexivity|].
  rewrite negb_true_iff, Z.eqb_neq, (inv_count _ _ Hinv), <- (inv_length _ _ Hinv).
  split.
  - intros Hshort. destruct (visited_short _ Hshort) as [j Hj].
    assert (Ht : is_Some (tris !! j)).
    { apply lookup_lt_is_Some. rewrite <- (inv_length _ _ Hinv).
      eapply lookup_lt_Some, Hj. }
    destruct Ht as [t Ht]. exists j, t. split; [exact Ht|].
    intros Hreach. destruct (bfs_reached tris s Hinv Hno j Hreach) as (q & Hq & Hq0).
    congruence.
  - intros (j & t & Ht & Hunreached) Hfull.
    assert (Hq : is_Some (queue s !! j)).
    { apply lookup_lt_is_Some. rewrite (inv_length _ _ Hinv). eapply lookup_lt_Some, Ht. }
    destruct Hq as [q Hq]. apply Hunreached.
    apply (inv_reached _ _ Hinv j q Hq). exact (proj1 (visited_full _) Hfull j q Hq).
Qed.

Lemma SingularVerticesFrom_spec : forall v2t res,
  exists found, SingularVerticesFrom v2t res = Some (res ++ found)
    /\ sublist found (v2t.*1)
    /\ forall v, v ∈ found <-> exists tris, (v, tris) ∈ v2t /\ disconnected tris.
Proof.
  induction v2t as [|[vertex tris] rest IH]; intros res.
  - exists []. cbn. rewrite app_nil_r. split; [reflexivity|]. split; [constructor|].
    intros v. split; [intros Hv; inversion Hv|intros (tris & Hin & _); inversion Hin].
  - cbn [SingularVerticesFrom fmap list_fmap fst].
    destruct (Z.eqb_spec (Z.of_nat (length tris)) 0) as [Hz|Hnz].
    + destruct (IH res) as (found & Hrun & Hsub & Hmem). exists found.
      split; [exact Hrun|]. split; [apply sublist_cons; exact Hsub|].
      intros v. rewrite Hmem. split.
      * intros (ts & Hin & Hd). exists ts. split; [right; exact Hin|exact Hd].
      * intros (ts & Hin & Hd). apply elem_of_cons in Hin as [Heq|Hin]; [|eauto].
        injection Heq as -> ->. destruct Hd as (j & t & Ht & _).
        destruct tris; [inversion Ht|cbn in Hz; lia].
    + assert (Hne : tris <> []) by (intros ->; cbn in Hnz; lia).
      destruct (isSingular_spec tris Hne) as (b & -> & Hb). cbn [mbind option_bind].
      destruct b.
      * destruct (IH (res ++ [vertex])) as (found & Hrun & Hsub & Hmem).
        exists (vertex :: found). rewrite Hrun, <- app_assoc. split; [reflexivity|].
        split; [apply sublist_skip; exact Hsub|].
        intros v. rewrite elem_of_cons, Hmem. split.
        -- intros [->|(ts & Hin & Hd)].
           ++ exists tris. split; [left|apply Hb; reflexivity].
           ++ exists ts. split; [right; exact Hin|exact Hd].
        -- intros (ts & Hin & Hd). apply elem_of_cons in Hin as [Heq|Hin]; [|eauto].
           injection Heq as -> ->. left. reflexivity.
      * destruct (IH res) as (found & Hrun & Hsub & Hmem). exists found.
        split; [exact Hrun|]. split; [apply sublist_cons; exact Hsub|].
        intros v. rewrite Hmem. split.
        -- intros (ts & Hin & Hd). exists ts. split; [right; exact Hin|exact Hd].
        -- intros (ts & Hin & Hd). apply elem_of_cons in Hin as [Heq|Hin]; [|eauto].
           injection Heq as -> ->. apply Hb in Hd. discriminate.
Qed.

(** X24.  The search of [SingularVertices] ends, and the vertices it returns
    are, in the order of the iteration, the vertices of which some triangle
    of the fan is not linked to the first triangle of the fan by a chain
    of triangles of the fan that share an edge; a vertex with an empty
    fan is not returned. *)
Theorem SingularVertices_disconnected_fans (v2t : list (Coord3D * list Triangle)) :
  exists res, SingularVertices v2t = Some res
    /\ sublist res (v2t.*1)
    /\ forall v, v ∈ res <-> exists tris, (v, tris) ∈ v2t /\ disconnected tris.
Proof. exact (SingularVerticesFrom_spec v2t []). Qed.

End SingularVertices.

(** *** Fans of triangles over integer points

    Two triangles share an edge here when two corners of the first are
    corners of the second. *)

Definition demoSharesEdge (t t1 : Z * Z * Z) : bool :=
  let '(a, b, c) := t in
  let '(a1, b1, c1) := t1 in
  let has (x : Z) := (x =? a1) || (x =? b1) || (x =? c1) in
  2 <=? (if has a then 1 else 0) + (if has b then 1 else 0) + (if has c then 1 else 0).

(** Vertex [0] has a fan whose second triangle is reached through the
    third, in a second round of the search; the fans of vertex [10] touch
    at the vertex only; vertex [20] has no triangle left. *)
Definition demoFans : list (Z * list (Z * Z * Z)) :=
  [(0, [(0, 1, 2); (0, 3, 4); (0, 2, 3)]);
   (10, [(10, 11, 12); (10, 13, 14)]);
   (20, [])].

Example demo_SingularVertices :
  SingularVertices demoSharesEdge demoFans = Some [10]
  /\ (fun s => (queue s, numVisited s))
       <$> bfs demoSharesEdge 3 [(0, 1, 2); (0, 3, 4); (0, 2, 3)]
               (start [(0, 1, 2); (0, 3, 4); (0, 2, 3)])
     = Some ([2; 2; 2], 3)
  /\ bfs demoSharesEdge 1 [(0, 1, 2); (0, 3, 4); (0, 2, 3)]
         (start [(0, 1, 2); (0, 3, 4); (0, 2, 3)]) = None.
Proof. vm_compute. repeat split. Qed.

End Singular.

(** ** Filling the loop around a removed vertex (the decimator)

    The geometry is in floating point: the operations on [float64], the
    planes and the distances are parameters, and the results hold for every
    choice of them. *)

Module FillLoop.
Section FillLoop.

(** [*ptrCoord], [*plane] and [float64] *)
Context {C Plane F : Type}.

Variable zeroF oneF : F.
(** [x == 0], [x < 0], [x < y], [x - y], [x / y], [math.Abs], [math.Min] *)
Variable feq0 : F -> bool.
Variable flt0 : F -> bool.
Variable flt : F -> F -> bool.
Variable fsub : F -> F -> F.
Variable fdiv : F -> F -> F.
Variable fabs : F -> F.
Variable fmin : F -> F -> F.
(** [p.Eval(c.Coord3D)] *)
Variable Eval : Plane -> C -> F.
(** Lines 1091-1093: the plane through [c1] and [c2] along the normal of
    the average plane; and [sepLine.Norm()]. *)
Variable sepPlaneOf : Plane -> C -> C -> Plane.
Variable sepNorm : C -> C -> F.
(** [d.MinimumAspectRatio] and [DefaultDecimatorMinAspectRatio] *)
Variable MinimumAspectRatio : F.
Variable DefaultDecimatorMinAspectRatio : F.

Definition len {A : Type} (s : list A) : Z := Z.of_nat (length s).

Record subloop : Type := mkSubloop {
  Loop : list C;
  Start : Z;
  Length : Z
}.

Definition newSubloop (loop : list C) (start end_ : Z) : option subloop :=
  let end_ := if end_ <? start then end_ + len loop else end_ in
  if end_ - start + 1 <? 3 then None
  else Some {| Loop := loop; Start := start; Length := end_ - start + 1 |}.

(** [s.Loop[(s.Start+i)%len(s.Loop)]] *)
Definition Get (s : subloop) (i : Z) : option C :=
  if len (Loop s) =? 0 then None
  else index (Loop s) (Z.rem (Start s + i) (len (Loop s))).

Definition Slice (s : subloop) : option (list C) :=
  if Length s <? 0 then None
  else mapM (Get s) (seqZ 0 (Length s)).

(** The body of the loop of [subloopSplitDist], for the indices [idxs] that
    are left; an early [return 0, 0] ends it. *)
Fixpoint splitDistLoop (loop : subloop) (p : Plane) (idxs : list Z) (sign : Z) (minAbs : F)
  : option (Z * F) :=
  match idxs with
  | [] => Some (sign, minAbs)
  | i :: rest =>
      match Get loop (i + 1) with
      | None => None
      | Some c =>
          let dist := Eval p c in
          if feq0 dist then Some (0, zeroF)
          else
            let curSign := if flt0 dist then -1 else 1 in
            if i =? 0 then splitDistLoop loop p rest curSign (fabs dist)
            else if negb (sign =? curSign) then Some (0, zeroF)
            else splitDistLoop loop p rest sign (fmin minAbs (fabs dist))
      end
  end.

Definition subloopSplitDist (loop : subloop) (p : Plane) : option (Z * F) :=
  splitDistLoop loop p (seqZ 0 (Length loop - 2)) 0 zeroF.

Definition createSubloops (avgPlane : Plane) (coords : list C) (i j : Z)
  : option (option subloop * option subloop * F) :=
  c1 ← index coords i;
  c2 ← index coords j;
  let sepPlane := sepPlaneOf avgPlane c1 c2 in
  loop1 ← newSubloop coords i j;
  '(sign1, minAbs1) ← subloopSplitDist loop1 sepPlane;
  if sign1 =? 0 then Some (None, None, zeroF)
  else
    loop2 ← newSubloop coords j i;
    '(sign2, minAbs2) ← subloopSplitDist loop2 sepPlane;
    if (sign2 =? 0) || (sign2 =? sign1) then Some (None, None, zeroF)
    else Some (Some loop1, Some loop2, fdiv (fmin minAbs1 minAbs2) (sepNorm c1 c2)).

(** [bestAspectRatio], [bestLoop1], [bestLoop2] *)
Definition best : Type := (F * option subloop * option subloop)%type.

(** Lines 1057-1067, for one pair [i], [j]; [None] is a panic. *)
Definition tryPair (avgPlane : Plane) (coords : list C) (i : Z)
    (acc : option best) (j : Z) : option best :=
  acc ≫= fun '(bestAspectRatio, bestLoop1, bestLoop2) =>
  if i + len coords - j <? 2 then Some (bestAspectRatio, bestLoop1, bestLoop2)
  else
    createSubloops avgPlane coords i j ≫= fun '(loop1, loop2, aspectRatio) =>
    if feq0 aspectRatio then Some (bestAspectRatio, bestLoop1, bestLoop2)
    else if feq0 bestAspectRatio
            || flt (fabs (fsub aspectRatio oneF)) (fabs (fsub bestAspectRatio oneF))
    then Some (aspectRatio, loop1, loop2)
    else Some (bestAspectRatio, bestLoop1, bestLoop2).

(** [for j := i + 2; j < len(coords); j++] *)
Definition tryRow (avgPlane : Plane) (coords : list C) (acc : option best) (i : Z)
  : option best :=
  foldl (tryPair avgPlane coords i) acc (seqZ (i + 2) (len coords - (i + 2))).

(** Lines 1053-1069. *)
Definition search (avgPlane : Plane) (coords : list C) : option best :=
  foldl (tryRow avgPlane coords) (Some (zeroF, None, None)) (seqZ 0 (len coords)).

Definition minRatio : F :=
  if feq0 MinimumAspectRatio then DefaultDecimatorMinAspectRatio else MinimumAspectRatio.

(** A [ptrTriangle], by its three corners. *)
Abbreviation ptrTriangle := (C * C * C)%type.

(** [fillLoop] and, inlined, [fillLoops]; the outer [None] is a panic (or
    the end of the fuel), the inner [None] the [nil] result. *)
Fixpoint fillLoop (fuel : nat) (avgPlane : Plane) (coords : list C)
  : option (option (list ptrTriangle)) :=
  match fuel with
  | O => None
  | S fuel' =>
      if len coords <? 3 then None
      else if len coords =? 3 then
        c0 ← index coords 0;
        c1 ← index coords 1;
        c2 ← index coords 2;
        Some (Some [(c0, c2, c1)])
      else
        search avgPlane coords ≫= fun '(bestAspectRatio, bestLoop1, bestLoop2) =>
        if feq0 bestAspectRatio then Some None
        else if flt bestAspectRatio minRatio then Some None
        else
          loop1 ← bestLoop1;
          coords1 ← Slice loop1;
          tris1 ← fillLoop fuel' avgPlane coords1;
          match tris1 with
          | None => Some None
          | Some tris1 =>
              loop2 ← bestLoop2;
              coords2 ← Slice loop2;
              tris2 ← fillLoop fuel' avgPlane coords2;
              match tris2 with
              | None => Some None
              | Some tris2 => Some (Some (tris1 ++ tris2))
              end
          end
  end.

Definition cornersOf (t : ptrTriangle) : list C := [t.1.1; t.1.2; t.2].

Hypothesis feq0_zero : feq0 zeroF = true.

Lemma fillLoop_Get_Some (s : subloop) (i : Z) :
  Loop s <> [] -> 0 <= Start s -> 0 <= i ->
  exists c, Get s i = Some c /\ c ∈ Loop s.
Proof.
  intros Hne Hs Hi. unfold Get.
  assert (Hlen : 0 < len (Loop s)).
  { unfold len. destruct (Loop s); [contradiction|cbn; lia]. }
  destruct (Z.eqb_spec (len (Loop s)) 0) as [Hz|_]; [lia|].
  pose proof (Z.rem_bound_pos (Start s + i) (len (Loop s)) ltac:(lia) Hlen) as [Hr0 Hr1].
  unfold index. destruct (Z.ltb_spec (Z.rem (Start s + i) (len (Loop s))) 0) as [Hneg|_]; [lia|].
  destruct (lookup_lt_is_Some_2 (Loop s) (Z.to_nat (Z.rem (Start s + i) (len (Loop s)))))
    as [c Hc]; [unfold len in *; lia|].
  exists c. split; [exact Hc|]. eapply list_elem_of_lookup_2, Hc.
Qed.

Lemma fillLoop_Slice_spec (s : subloop) :
  Loop s <> [] -> 0 <= Start s -> 0 <= Length s ->
  exists l, Slice s = Some l /\ len l = Length s /\ forall c, c ∈ l -> c ∈ Loop s.
Proof.
  intros Hne Hs Hl. unfold Slice.
  destruct (Z.ltb_spec (Length s) 0) as [Hneg|_]; [lia|].
  assert (Hsome : is_Some (mapM (Get s) (seqZ 0 (Length s)))).
  { apply mapM_is_Some, Forall_forall. intros i Hi. apply elem_of_seqZ in Hi.
    unfold compose. destruct (fillLoop_Get_Some s i Hne Hs ltac:(lia)) as (c & -> & _). eauto. }
  destruct Hsome as [l Hl']. exists l. split; [exact Hl'|].
  apply mapM_Some in Hl'. split.
  - unfold len. rewrite <- (Forall2_length _ _ _ Hl'), length_seqZ. lia.
  - intros c Hc. apply list_elem_of_lookup in Hc as [k Hk].
    eapply Forall2_lookup_r in Hk as (i & Hi & Hget); [|exact Hl'].
    apply list_elem_of_lookup_2, elem_of_seqZ in Hi.
    destruct (fillLoop_Get_Some s i Hne Hs ltac:(lia)) as (c' & Hc' & Hin). congruence.
Qed.

Lemma splitDistLoop_total (loop : subloop) (p : Plane) :
  Loop loop <> [] -> 0 <= Start loop ->
  forall idxs sign minAbs,
    (forall i, i ∈ idxs -> 0 <= i) ->
    is_Some (splitDistLoop loop p idxs sign minAbs).
Proof.
  intros Hne Hs. induction idxs as [|i rest IH]; intros sign minAbs Hpos; [cbn; eauto|].
  cbn [splitDistLoop].
  destruct (fillLoop_Get_Some loop (i + 1) Hne Hs) as (c & -> & _).
  { specialize (Hpos i ltac:(left)). lia. }
  assert (Hrest : forall k, k ∈ rest -> 0 <= k) by (intros k Hk; apply Hpos; right; exact Hk).
  cbv zeta. destruct (feq0 (Eval p c)); [eauto|].
  destruct (i =? 0); [apply IH; exact Hrest|].
  destruct (negb _); [eauto|apply IH; exact Hrest].
Qed.

Lemma subloopSplitDist_total (loop : subloop) (p : Plane) :
  Loop loop <> [] -> 0 <= Start loop -> is_Some (subloopSplitDist loop p).
Proof.
  intros Hne Hs. apply splitDistLoop_total; [exact Hne|exact Hs|].
  intros i Hi. apply elem_of_seqZ in Hi. lia.
Qed.

(** A pair of indices at which the loop can be cut in two loops of at
    least three vertices. *)
Definition cut (coords : list C) (i j : Z) : Prop :=
  0 <= i /\ i + 2 <= j /\ j < len coords /\ 2 <= i + len coords - j.

Lemma createSubloops_spec (avgPlane : Plane) (coords : list C) (i j : Z) :
  cut coords i j ->
  exists r, createSubloops avgPlane coords i j = Some r
    /\ (r = (None, None, zeroF)
        \/ exists ratio,
             r = (Some {| Loop := coords; Start := i; Length := j - i + 1 |},
                  Some {| Loop := coords; Start := j; Length := i + len coords - j + 1 |},
                  ratio)).
Proof.
  intros (Hi & Hij & Hj & Hwrap). unfold createSubloops.
  assert (Hne : coords <> []) by (intros ->; unfold len in Hj; cbn in Hj; lia).
  assert (Hidx : forall k, 0 <= k < len coords -> is_Some (index coords k)).
  { intros k Hk. unfold index. destruct (Z.ltb_spec k 0); [lia|].
    apply lookup_lt_is_Some_2. unfold len in Hk. lia. }
  destruct (Hidx i ltac:(lia)) as [c1 ->], (Hidx j ltac:(lia)) as [c2 ->].
  cbn [mbind option_bind]. cbv zeta.
  assert (H1 : newSubloop coords i j
               = Some {| Loop := coords; Start := i; Length := j - i + 1 |}).
  { unfold newSubloop. destruct (Z.ltb_spec j i); [lia|].
    destruct (Z.ltb_spec (j - i + 1) 3); [lia|reflexivity]. }
  assert (H2 : newSubloop coords j i
               = Some {| Loop := coords; Start := j; Length := i + len coords - j + 1 |}).
  { unfold newSubloop. destruct (Z.ltb_spec i j); [|lia].
    destruct (Z.ltb_spec (i + len coords - j + 1) 3); [lia|reflexivity]. }
  rewrite H1. cbn [mbind option_bind].
  destruct (subloopSplitDist_total {| Loop := coords; Start := i; Length := j - i + 1 |}
              (sepPlaneOf avgPlane c1 c2) Hne Hi) as [[sign1 minAbs1] ->].
  cbn [mbind option_bind].
  destruct (sign1 =? 0); [eauto|].
  rewrite H2. cbn [mbind option_bind].
  destruct (subloopSplitDist_total
              {| Loop := coords; Start := j; Length := i + len coords - j + 1 |}
              (sepPlaneOf avgPlane c1 c2) Hne ltac:(cbn; lia)) as [[sign2 minAbs2] ->].
  cbn [mbind option_bind].
  destruct ((sign2 =? 0) || (sign2 =? sign1)); eauto.
Qed.

(** What the search holds: nothing yet, or the two loops of a cut. *)
Definition goodBest (coords : list C) (b : best) : Prop :=
  feq0 b.1.1 = true
  \/ exists i j, cut coords i j
       /\ b.1.2 = Some {| Loop := coords; Start := i; Length := j - i + 1 |}
       /\ b.2 = Some {| Loop := coords; Start := j; Length := i + len coords - j + 1 |}.

Lemma tryPair_spec (avgPlane : Plane) (coords : list C) (i j : Z) (b : best) :
  0 <= i -> i + 2 <= j -> j < len coords -> goodBest coords b ->
  exists b', tryPair avgPlane coords i (Some b) j = Some b' /\ goodBest coords b'.
Proof.
  intros Hi Hij Hj Hb. unfold tryPair. cbn [mbind option_bind].
  destruct b as [[bestAspectRatio bestLoop1] bestLoop2].
  destruct (Z.ltb_spec (i + len coords - j) 2) as [Hwrap|Hwrap]; [eauto|].
  assert (Hcut : cut coords i j) by (unfold cut; lia).
  destruct (createSubloops_spec avgPlane coords i j Hcut) as (r & -> & Hr).
  cbn [mbind option_bind]. destruct r as [[loop1 loop2] aspectRatio].
  destruct (feq0 aspectRatio) eqn:Hzero; [eauto|].
  destruct (feq0 bestAspectRatio || _); [|eauto].
  eexists. split; [reflexivity|]. destruct Hr as [Hr|(ratio & Hr)].
  - injection Hr as -> -> ->. rewrite feq0_zero in Hzero. discriminate.
  - injection Hr as -> -> ->. right. exists i, j. cbn. auto.
Qed.

Lemma tryRow_spec (avgPlane : Plane) (coords : list C) (i : Z) (b : best) :
  0 <= i -> goodBest coords b ->
  exists b', tryRow avgPlane coords (Some b) i = Some b' /\ goodBest coords b'.
Proof.
  intros Hi. unfold tryRow.
  assert (Hjs : forall j, j ∈ seqZ (i + 2) (len coords - (i + 2)) ->
                          i + 2 <= j /\ j < len coords).
  { intros j Hj. apply elem_of_seqZ in Hj. lia. }
  revert b Hjs. generalize (seqZ (i + 2) (len coords - (i + 2))).
  induction l as [|j js IH]; intros b Hjs Hb; [cbn; eauto|].
  cbn [foldl]. destruct (Hjs j ltac:(left)) as [Hij Hj].
  destruct (tryPair_spec avgPlane coords i j b Hi Hij Hj Hb) as (b' & -> & Hb').
  apply IH; [|exact Hb']. intros k Hk. apply Hjs. right. exact Hk.
Qed.

Lemma search_spec (avgPlane : Plane) (coords : list C) :
  exists b, search avgPlane coords = Some b /\ goodBest coords b.
Proof.
  unfold search.
  assert (Hb : goodBest coords (zeroF, None, None)) by (left; exact feq0_zero).
  assert (His : forall i, i ∈ seqZ 0 (len coords) -> 0 <= i).
  { intros i Hi. apply elem_of_seqZ in Hi. lia. }
  revert Hb His. generalize (zeroF, @None subloop, @None subloop).
  generalize (seqZ 0 (len coords)).
  induction l as [|i rest IH]; intros b Hb His; [cbn; eauto|].
  cbn [foldl]. destruct (tryRow_spec avgPlane coords i b (His i ltac:(left)) Hb)
    as (b' & Hrow & Hb').
  unfold best in *. rewrite Hrow.
  apply IH; [exact Hb'|]. intros k Hk. apply His. right. exact Hk.
Qed.

Lemma fillLoop_rem_inj (n start a b : Z) :
  0 <= start -> 0 <= a < n -> 0 <= b < n ->
  Z.rem (start + a) n = Z.rem (start + b) n -> a = b.
Proof.
  intros Hs Ha Hb. rewrite !Z.rem_mod_nonneg by lia. intros Heq.
  pose proof (Z.div_mod (start + a) n ltac:(lia)) as Da.
  pose proof (Z.div_mod (start + b) n ltac:(lia)) as Db.
  pose proof (Z.mod_pos_bound (start + a) n ltac:(lia)) as Ba.
  rewrite Heq in Da.
  assert (Hd : a - b = n * ((start + a) / n - (start + b) / n)) by lia.
  assert (Hq : (start + a) / n - (start + b) / n = 0) by nia.
  rewrite Hq in Hd. lia.
Qed.

Lemma fillLoop_Slice_NoDup (s : subloop) (l : list C) :
  NoDup (Loop s) -> 0 <= Start s -> Length s <= len (Loop s) ->
  Slice s = Some l -> NoDup l.
Proof.
  intros Hnd Hs Hlen. unfold Slice.
  destruct (Z.ltb_spec (Length s) 0) as [Hneg|Hpos]; [discriminate|].
  intros Hl. apply mapM_Some in Hl. apply NoDup_alt. intros a b c Ha Hb.
  eapply Forall2_lookup_r in Ha as (i & Hi & Hgi); [|exact Hl].
  eapply Forall2_lookup_r in Hb as (j & Hj & Hgj); [|exact Hl].
  apply lookup_seqZ in Hi as [-> Hia], Hj as [-> Hjb].
  unfold Get in Hgi, Hgj.
  destruct (Z.eqb_spec (len (Loop s)) 0) as [Hz|Hnz]; [discriminate|].
  unfold index in Hgi, Hgj.
  destruct (Z.ltb_spec (Z.rem (Start s + (0 + Z.of_nat a)) (len (Loop s))) 0);
    [discriminate|].
  destruct (Z.ltb_spec (Z.rem (Start s + (0 + Z.of_nat b)) (len (Loop s))) 0);
    [discriminate|].
  pose proof (NoDup_lookup _ _ _ _ Hnd Hgi Hgj) as Heq.
  apply Z2Nat.inj in Heq; [|assumption|assumption].
  apply fillLoop_rem_inj in Heq; lia.
Qed.

Lemma fillLoop_spec (avgPlane : Plane) : forall fuel coords,
  3 <= len coords -> (length coords <= fuel)%nat ->
  exists r, fillLoop fuel avgPlane coords = Some r
    /\ forall tris, r = Some tris ->
         len tris = len coords - 2
         /\ (forall t c, t ∈ tris -> c ∈ cornersOf t -> c ∈ coords)
         /\ (NoDup coords -> forall t, t ∈ tris -> NoDup (cornersOf t)).
Proof.
  induction fuel as [|fuel IH]; intros coords Hlen Hfuel.
  { unfold len in Hlen. lia. }
  cbn [fillLoop]. destruct (Z.ltb_spec (len coords) 3) as [Hlt|_]; [lia|].
  destruct (Z.eqb_spec (len coords) 3) as [H3|Hn3].
  - destruct coords as [|c0 [|c1 [|c2 [|? ?]]]]; unfold len in H3; cbn in H3; try lia.
    cbn. eexists. split; [reflexivity|]. intros tris Htris. injection Htris as <-.
    split; [reflexivity|]. split.
    + intros t c Ht Hc. apply list_elem_of_singleton in Ht. subst t.
      unfold cornersOf in Hc. cbn in Hc. rewrite !elem_of_cons in Hc |- *.
      rewrite elem_of_nil in Hc. tauto.
    + intros Hnd t Ht. apply list_elem_of_singleton in Ht. subst t.
      unfold cornersOf. cbn. eapply NoDup_Permutation_proper; [|exact Hnd].
      apply Permutation_cons; [reflexivity|]. apply Permutation_swap.
  - destruct (search_spec avgPlane coords) as ([[bestRatio bestLoop1] bestLoop2] & -> & Hgood).
    cbn [mbind option_bind].
    destruct (feq0 bestRatio) eqn:Hzero.
    { eexists. split; [reflexivity|]. discriminate. }
    destruct (flt bestRatio minRatio).
    { eexists. split; [reflexivity|]. discriminate. }
    destruct Hgood as [Hbad|(i & j & (Hi & Hij & Hj & Hwrap) & H1 & H2)];
      [cbn in Hbad; congruence|].
    cbn in H1, H2. subst bestLoop1 bestLoop2. cbn [mbind option_bind].
    assert (Hne : coords <> []) by (intros ->; unfold len in Hj; cbn in Hj; lia).
    destruct (fillLoop_Slice_spec {| Loop := coords; Start := i; Length := j - i + 1 |})
      as (coords1 & Hs1 & Hl1 & Hin1); cbn [Loop Start Length]; [exact Hne|lia|lia|].
    destruct (fillLoop_Slice_spec
                {| Loop := coords; Start := j; Length := i + len coords - j + 1 |})
      as (coords2 & Hs2 & Hl2 & Hin2); cbn [Loop Start Length]; [exact Hne|lia|lia|].
    cbn [Loop Start Length] in Hl1, Hl2, Hin1, Hin2.
    rewrite Hs1. cbn [mbind option_bind].
    destruct (IH coords1) as (r1 & -> & Hr1); [lia|unfold len in *; lia|].
    cbn [mbind option_bind].
    destruct r1 as [tris1|]; [|eexists; split; [reflexivity|discriminate]].
    rewrite Hs2. cbn [mbind option_bind].
    destruct (IH coords2) as (r2 & -> & Hr2); [lia|unfold len in *; lia|].
    cbn [mbind option_bind].
    destruct r2 as [tris2|]; [|eexists; split; [reflexivity|discriminate]].
    eexists. split; [reflexivity|]. intros tris Htris. injection Htris as <-.
    destruct (Hr1 tris1 eq_refl) as (Hn1 & Hc1 & Hd1).
    destruct (Hr2 tris2 eq_refl) as (Hn2 & Hc2 & Hd2).
    split; [|split].
    + unfold len in *. rewrite length_app. lia.
    + intros t c Ht Hc. apply elem_of_app in Ht as [Ht|Ht]; eauto.
    + intros Hnd t Ht. apply elem_of_app in Ht as [Ht|Ht].
      * apply Hd1; [|exact Ht].
        eapply (fillLoop_Slice_NoDup {| Loop := coords; Start := i; Length := j - i + 1 |});
          cbn [Loop Start Length]; [exact Hnd|lia|lia|exact Hs1].
      * apply Hd2; [|exact Ht].
        eapply (fillLoop_Slice_NoDup
                  {| Loop := coords; Start := j; Length := i + len coords - j + 1 |});
          cbn [Loop Start Length]; [exact Hnd|lia|lia|exact Hs2].
Qed.

(** X25.  [fillLoop] on a loop of at least three vertices does not panic
    and its recursion ends; it gives up with [nil], or fills the loop with
    two triangles less than the loop has vertices, each with corners among
    the vertices of the loop, and with three different corners when the
    loop repeats no vertex. *)
Theorem fillLoop_triangulates (avgPlane : Plane) (coords : list C) (fuel : nat) :
  3 <= len coords -> (length coords <= fuel)%nat ->
  exists r, fillLoop fuel avgPlane coords = Some r
    /\ forall tris, r = Some tris ->
         len tris = len coords - 2
         /\ (forall t c, t ∈ tris -> c ∈ cornersOf t -> c ∈ coords)
         /\ (NoDup coords -> forall t, t ∈ tris -> NoDup (cornersOf t)).
Proof. apply fillLoop_spec. Qed.

(** A loop of fewer than three vertices is a panic. *)
Lemma fillLoop_short (avgPlane : Plane) (coords : list C) (fuel : nat) :
  len coords < 3 -> fillLoop fuel avgPlane coords = None.
Proof.
  intros Hlen. destruct fuel; [reflexivity|]. cbn [fillLoop].
  destruct (Z.ltb_spec (len coords) 3); [reflexivity|lia].
Qed.

End FillLoop.

(** *** A square in the plane, with integers for the floats *)

Definition demoEval (p : Z * Z * Z) (c : Z * Z) : Z :=
  let '(a, b, bias) := p in a * c.1 + b * c.2 - bias.

(** The line through [c1] and [c2]. *)
Definition demoSepPlane (avg : Z * Z * Z) (c1 c2 : Z * Z) : Z * Z * Z :=
  let a := c2.2 - c1.2 in
  let b := c1.1 - c2.1 in
  (a, b, a * c1.1 + b * c1.2).

Definition demoFill (fuel : nat) (coords : list (Z * Z))
  : option (option (list ((Z * Z) * (Z * Z) * (Z * Z)))) :=
  fillLoop 0 1 (Z.eqb 0) (fun x => x <? 0) Z.ltb Z.sub Z.quot Z.abs Z.min
           demoEval demoSepPlane (fun _ _ => 1) 0 0 fuel (0, 0, 1) coords.

Definition demoSquare : list (Z * Z) := [(0, 0); (2, 0); (2, 2); (0, 2)].

Lemma fillLoop_triangulates_witness :
  (0 =? 0) = true
  /\ 3 <= len demoSquare
  /\ (length demoSquare <= 4)%nat
  /\ exists r, demoFill 4 demoSquare = Some r
       /\ forall tris, r = Some tris ->
            len tris = len demoSquare - 2
            /\ (forall t c, t ∈ tris -> c ∈ cornersOf t -> c ∈ demoSquare)
            /\ (NoDup demoSquare -> forall t, t ∈ tris -> NoDup (cornersOf t)).
Proof.
  assert (Hzero : (0 =? 0) = true) by reflexivity.
  assert (Hlen : 3 <= len demoSquare) by (vm_compute; discriminate).
  assert (Hfuel : (length demoSquare <= 4)%nat) by (cbn; lia).
  split; [exact Hzero|]. split; [exact Hlen|]. split; [exact Hfuel|].
  exact (fillLoop_triangulates 0 1 (Z.eqb 0) (fun x => x <? 0) Z.ltb Z.sub Z.quot Z.abs
           Z.min demoEval demoSepPlane (fun _ _ => 1) 0 0 Hzero (0, 0, 1) demoSquare 4%nat
           Hlen Hfuel).
Defined.

(** The square is cut along a diagonal; a loop with three vertices on a
    line has no cut and is given up; two vertices are a panic. *)
Example demo_fillLoop :
  demoFill 4 demoSquare
  = Some (Some [((0, 0), (2, 2), (2, 0)); ((2, 2), (0, 0), (0, 2))])
  /\ demoFill 4 [(0, 0); (1, 0); (2, 0); (3, 0)] = Some None
  /\ demoFill 4 [(0, 0); (1, 0)] = None.
Proof. vm_compute. repeat split. Qed.

End FillLoop.

(** ** The boundary of a mesh as a sequence (parameterization.go) *)

Module Boundary.
Section BoundarySequence.

Context {Coord3D : Type} `{Countable Coord3D}.

Abbreviation Triangle := (@Geometry.Triangle Coord3D).
Abbreviation Mesh := (list (@Geometry.Triangle Coord3D)).
Abbreviation NextMap := (@FastMaps.CoordMap Coord3D Coord3D _ _).

Variable hashForCoordMap : Coord3D -> N.
(** [Coord3D{}], the zero value. *)
Variable zeroCoord : Coord3D.

Abbreviation Load := (FastMaps.Load hashForCoordMap).
Abbreviation Store := (FastMaps.Store hashForCoordMap).
Abbreviation represents := (FastMaps.represents hashForCoordMap).

(** Lines 163-167, for the corner [i] of the triangle [t]; [None] is the
    panic of a store to a map without storage. *)
Definition edgeStep (m : Mesh) (t : Triangle) (acc : option (NextMap * Coord3D))
    (i : nat) : option (NextMap * Coord3D) :=
  acc ≫= fun '(vertexToNext, start) =>
  let p1 := Geometry.corner t i in
  let p2 := Geometry.corner t ((i + 1) mod 3) in
  if bool_decide (length (Geometry.Find m [p1; p2]) = 1%nat)
  then (fun v => (v, p1)) <$> Store vertexToNext p1 p2
  else Some (vertexToNext, start).

(** Lines 158-169: [vertexToNext] and [start] after the iteration. *)
Definition collect (m : Mesh) : option (NextMap * Coord3D) :=
  foldl (fun acc t => foldl (edgeStep m t) acc [0; 1; 2]%nat)
        (Some (FastMaps.NewCoordMap, zeroCoord)) m.

(** Lines 177-184: [for cur != start { ... }]; the outer [None] is the end
    of the fuel. *)
Fixpoint walk (fuel : nat) (vertexToNext : NextMap) (start cur : Coord3D)
    (res : list Coord3D) : option (outcome (list Coord3D)) :=
  match fuel with
  | O => None
  | S fuel' =>
      if decide (cur = start) then Some (Returned res)
      else
        match Load vertexToNext cur with
        | Some next => walk fuel' vertexToNext start next (res ++ [cur])
        | None =>
            Some (Panicked
              "mesh is non-manifold, not oriented consistently, or has an invalid boundary")
        end
  end.

Definition boundarySequence (fuel : nat) (m : Mesh) : option (outcome (list Coord3D)) :=
  match collect m with
  | None => Some (Panicked "assignment to entry in nil map")
  | Some (vertexToNext, start) =>
      if (FastMaps.Len vertexToNext =? 0)%nat
      then Some (Panicked "the mesh did not contain any boundary edges")
      else
        match walk fuel vertexToNext start
                   (FastMaps.ValueOr hashForCoordMap zeroCoord vertexToNext start)
                   [start] with
        | Some (Returned res) =>
            if (length res <? FastMaps.Len vertexToNext)%nat
            then Some (Panicked "mesh has multiple, non-connected boundaries")
            else Some (Returned res)
        | other => other
        end
  end.

(** *** Boundary edges and cycles *)

(** A side of a triangle, in the order of its corners, that no other
    triangle of the mesh has. *)
Definition isBoundaryEdge (m : Mesh) (p1 p2 : Coord3D) : Prop :=
  exists t i, t ∈ m /\ (i < 3)%nat
    /\ p1 = Geometry.corner t i /\ p2 = Geometry.corner t ((i + 1) mod 3)
    /\ length (Geometry.Find m [p1; p2]) = 1%nat.

(** [res] lists, from [start] and without repetition, all the keys of
    [next], each followed by its value, the last one by the first. *)
Record cycleOf (next : gmap Coord3D Coord3D) (start : Coord3D) (res : list Coord3D)
  : Prop := mkCycle {
  cyc_head : head res = Some start;
  cyc_nodup : NoDup res;
  cyc_next : forall i x, res !! i = Some x -> next !! x = res !! (S i mod length res)%nat;
  cyc_all : forall k, is_Some (next !! k) <-> k ∈ res
}.

(** What the iteration has collected after the sides [sides]. *)
Record collected (m : Mesh) (sides : list (Triangle * nat))
    (next : gmap Coord3D Coord3D) (start : Coord3D) : Prop := mkCollected {
  col_sound : forall p1 p2, next !! p1 = Some p2 -> isBoundaryEdge m p1 p2;
  col_complete : forall t i, (t, i) ∈ sides ->
      length (Geometry.Find m [Geometry.corner t i; Geometry.corner t ((i + 1) mod 3)])
      = 1%nat ->
      is_Some (next !! Geometry.corner t i);
  col_start : next <> ∅ -> is_Some (next !! start)
}.

Lemma edgeStep_spec (m : Mesh) (sides : list (Triangle * nat)) (t : Triangle) (i : nat)
    (v : NextMap) (start : Coord3D) (next : gmap Coord3D Coord3D) :
  t ∈ m -> (i < 3)%nat ->
  represents v next -> collected m sides next start ->
  exists v' start' next',
    edgeStep m t (Some (v, start)) i = Some (v', start')
    /\ represents v' next' /\ collected m ((t, i) :: sides) next' start'.
Proof.
  intros Ht Hi Hrep [Hs Hc Hst]. unfold edgeStep. cbn [mbind option_bind]. cbv zeta.
  destruct (bool_decide _) eqn:Hb.
  - apply bool_decide_eq_true in Hb.
    destruct (FastMaps.represents_Store hashForCoordMap v next (Geometry.corner t i)
                (Geometry.corner t ((i + 1) mod 3)) Hrep) as (v' & -> & Hrep').
    cbn [fmap option_fmap option_map]. eexists _, _, _. split; [reflexivity|].
    split; [exact Hrep'|]. split.
    + intros p1 p2 Hp. destruct (decide (p1 = Geometry.corner t i)) as [->|Hne].
      * rewrite lookup_insert_eq in Hp. injection Hp as <-. exists t, i. auto.
      * rewrite lookup_insert_ne in Hp by congruence. eauto.
    + intros t' i' Hin Hone.
      destruct (decide (Geometry.corner t' i' = Geometry.corner t i)) as [->|Hne].
      * rewrite lookup_insert_eq. eauto.
      * rewrite lookup_insert_ne by congruence.
        apply elem_of_cons in Hin as [Heq|Hin]; [congruence|eauto].
    + intros _. rewrite lookup_insert_eq. eauto.
  - apply bool_decide_eq_false in Hb. eexists _, _, _. split; [reflexivity|].
    split; [exact Hrep|]. split; [exact Hs| |exact Hst].
    intros t' i' Hin Hone. apply elem_of_cons in Hin as [Heq|Hin]; [|eauto].
    injection Heq as -> ->. contradiction.
Qed.

Lemma collect_spec (m : Mesh) :
  exists v start next,
    collect m = Some (v, start) /\ represents v next
    /\ (forall p1 p2, next !! p1 = Some p2 -> isBoundaryEdge m p1 p2)
    /\ (forall p1 p2, isBoundaryEdge m p1 p2 -> is_Some (next !! p1))
    /\ (next <> ∅ -> is_Some (next !! start)).
Proof.
  assert (Hgen : forall ts sides v start next,
            (forall t, t ∈ ts -> t ∈ m) ->
            represents v next -> collected m sides next start ->
            exists v' start' next',
              foldl (fun acc t => foldl (edgeStep m t) acc [0; 1; 2]%nat)
                    (Some (v, start)) ts = Some (v', start')
              /\ represents v' next'
              /\ (forall p1 p2, next' !! p1 = Some p2 -> isBoundaryEdge m p1 p2)
              /\ (forall t i, (t ∈ ts /\ (i < 3)%nat) \/ (t, i) ∈ sides ->
                    length (Geometry.Find m [Geometry.corner t i;
                                             Geometry.corner t ((i + 1) mod 3)]) = 1%nat ->
                    is_Some (next' !! Geometry.corner t i))
              /\ (next' <> ∅ -> is_Some (next' !! start'))).
  { induction ts as [|t ts IH]; intros sides v start next Hsub Hrep Hcol.
    - cbn [foldl]. exists v, start, next. split; [reflexivity|]. split; [exact Hrep|].
      destruct Hcol as [Hs Hc Hst]. split; [exact Hs|]. split; [|exact Hst].
      intros t i [[Hin _]|Hin]; [inversion Hin|eauto].
    - cbn [foldl]. assert (Ht : t ∈ m) by (apply Hsub; left).
      destruct (edgeStep_spec m sides t 0 v start next Ht ltac:(lia) Hrep Hcol)
        as (v0 & s0 & n0 & -> & Hrep0 & Hcol0).
      destruct (edgeStep_spec m _ t 1 v0 s0 n0 Ht ltac:(lia) Hrep0 Hcol0)
        as (v1 & s1 & n1 & -> & Hrep1 & Hcol1).
      destruct (edgeStep_spec m _ t 2 v1 s1 n1 Ht ltac:(lia) Hrep1 Hcol1)
        as (v2 & s2 & n2 & -> & Hrep2 & Hcol2).
      destruct (IH _ v2 s2 n2 ltac:(intros t' Ht'; apply Hsub; right; exact Ht')
                  Hrep2 Hcol2) as (v' & start' & next' & Hrun & Hrep' & Hs' & Hc' & Hst').
      exists v', start', next'. split; [exact Hrun|]. split; [exact Hrep'|].
      split; [exact Hs'|]. split; [|exact Hst'].
      intros t' i [[Hin Hi]|Hin] Hone.
      + apply elem_of_cons in Hin as [->|Hin].
        * apply Hc'; [|exact Hone]. right. rewrite !elem_of_cons.
          destruct i as [|[|[|i]]]; [auto|auto|auto|lia].
        * apply Hc'; [|exact Hone]. left. auto.
      + apply Hc'; [|exact Hone]. right. rewrite !elem_of_cons. auto. }
  destruct (Hgen m [] FastMaps.NewCoordMap zeroCoord ∅) as
    (v & start & next & Hrun & Hrep & Hs & Hc & Hst).
  - auto.
  - apply FastMaps.represents_new.
  - split; [intros p1 p2 Hp; rewrite lookup_empty in Hp; discriminate| |congruence].
    intros t i Hin. inversion Hin.
  - exists v, start, next. split; [exact Hrun|]. split; [exact Hrep|].
    split; [exact Hs|]. split; [|exact Hst].
    intros p1 p2 (t & i & Ht & Hi & -> & -> & Hone). apply Hc; [left; auto|exact Hone].
Qed.

(** The list walked so far, with the vertex [cur] at hand. *)
Record walked (next : gmap Coord3D Coord3D) (start cur : Coord3D) (res : list Coord3D)
  : Prop := mkWalked {
  wk_head : head res = Some start;
  wk_fresh : forall i x, res !! S i = Some x -> x <> start;
  wk_step : forall i x y, res !! i = Some x -> res !! S i = Some y -> next !! x = Some y;
  wk_last : exists l, last res = Some l /\ next !! l = Some cur
}.

Lemma walk_sound (v : NextMap) (next : gmap Coord3D Coord3D) (start : Coord3D) :
  represents v next ->
  forall fuel cur res out,
    walk fuel v start cur res = Some (Returned out) ->
    walked next start cur res -> walked next start start out.
Proof.
  intros Hrep. induction fuel as [|fuel IH]; intros cur res out Hrun Hw; [discriminate|].
  cbn [walk] in Hrun. destruct (decide (cur = start)) as [->|Hne].
  - injection Hrun as <-. exact Hw.
  - rewrite (FastMaps.represents_Load hashForCoordMap v next cur Hrep) in Hrun.
    destruct (next !! cur) as [nxt|] eqn:Hnxt; [|discriminate].
    apply (IH nxt (res ++ [cur]) out Hrun).
    destruct Hw as [Hh Hf Hs (l & Hl & Hlc)].
    assert (Hlen : (0 < length res)%nat) by (destruct res; [discriminate|cbn; lia]).
    rewrite last_lookup in Hl.
    split.
    + destruct res; [discriminate|exact Hh].
    + intros i x Hx. destruct (decide (S i < length res)%nat) as [Hlt|Hge].
      * rewrite lookup_app_l in Hx by exact Hlt. eauto.
      * rewrite lookup_app_r in Hx by lia.
        apply list_lookup_singleton_Some in Hx as [_ <-]. exact Hne.
    + intros i x y Hx Hy. destruct (decide (S i < length res)%nat) as [Hlt|Hge].
      * rewrite lookup_app_l in Hx by lia. rewrite lookup_app_l in Hy by exact Hlt. eauto.
      * assert (Hi : (i < length res)%nat).
        { apply lookup_lt_Some in Hy. rewrite length_app in Hy. cbn in Hy. lia. }
        rewrite lookup_app_l in Hx by exact Hi. rewrite lookup_app_r in Hy by lia.
        apply list_lookup_singleton_Some in Hy as [Hy0 <-].
        replace i with (pred (length res)) in Hx by lia. congruence.
    + exists cur. split; [apply last_snoc|exact Hnxt].
Qed.

(** A walk that comes back to [start] has met no vertex twice. *)
Lemma walked_NoDup (next : gmap Coord3D Coord3D) (start : Coord3D) (res : list Coord3D) :
  walked next start start res -> NoDup res.
Proof.
  intros [Hh Hf Hs (l & Hl & Hlc)]. rewrite last_lookup in Hl.
  assert (Hlen : (0 < length res)%nat) by (destruct res; [discriminate|cbn; lia]).
  assert (Horbit : forall a b, (a < b)%nat ->
            forall d, (b + d < length res)%nat -> res !! a = res !! b ->
                      res !! (a + d)%nat = res !! (b + d)%nat).
  { intros a b Hab. induction d as [|d IH]; intros Hd Heq.
    - rewrite !Nat.add_0_r. exact Heq.
    - specialize (IH ltac:(lia) Heq).
      destruct (lookup_lt_is_Some_2 res (b + d)%nat ltac:(lia)) as [y Hy].
      destruct (lookup_lt_is_Some_2 res (b + S d)%nat ltac:(lia)) as [z Hz].
      destruct (lookup_lt_is_Some_2 res (a + S d)%nat ltac:(lia)) as [z' Hz'].
      rewrite Hy in IH.
      replace (b + S d)%nat with (S (b + d)) in Hz by lia.
      replace (a + S d)%nat with (S (a + d)) in Hz' by lia.
      pose proof (Hs _ _ _ Hy Hz) as E1. pose proof (Hs _ _ _ IH Hz') as E2.
      replace (b + S d)%nat with (S (b + d)) by lia.
      replace (a + S d)%nat with (S (a + d)) by lia. congruence. }
  assert (Hlt : forall a b x, (a < b)%nat -> res !! a = Some x -> res !! b = Some x -> False).
  { intros a b x Hab Ha Hb. pose proof (lookup_lt_Some _ _ _ Hb) as Hbn.
    pose proof (Horbit a b Hab (length res - 1 - b)%nat ltac:(lia) ltac:(congruence)) as Ho.
    replace (b + (length res - 1 - b))%nat with (pred (length res)) in Ho by lia.
    rewrite Hl in Ho.
    destruct (lookup_lt_is_Some_2 res (S (a + (length res - 1 - b)))%nat ltac:(lia))
      as [w Hw].
    pose proof (Hs _ _ _ Ho Hw) as E. rewrite Hlc in E. injection E as <-.
    exact (Hf _ _ Hw eq_refl). }
  apply NoDup_alt. intros a b x Ha Hb.
  destruct (Nat.lt_trichotomy a b) as [Hab|[Hab|Hab]]; [|exact Hab|].
  - exfalso. exact (Hlt a b x Hab Ha Hb).
  - exfalso. exact (Hlt b a x Hab Hb Ha).
Qed.

Lemma walked_keys (next : gmap Coord3D Coord3D) (start cur : Coord3D) (res : list Coord3D) :
  walked next start cur res -> forall k, k ∈ res -> is_Some (next !! k).
Proof.
  intros [Hh Hf Hs (l & Hl & Hlc)] k Hk. rewrite last_lookup in Hl.
  apply list_elem_of_lookup in Hk as [i Hi]. pose proof (lookup_lt_Some _ _ _ Hi) as Hlt.
  destruct (decide (S i < length res)%nat) as [Hin|Hout].
  - destruct (lookup_lt_is_Some_2 res (S i) Hin) as [y Hy]. rewrite (Hs _ _ _ Hi Hy). eauto.
  - replace i with (pred (length res)) in Hi by lia.
    assert (k = l) by congruence. subst k. eauto.
Qed.

(** A walk that is back at [start] and is as long as the map is a cycle
    through all its keys. *)
Lemma walked_cycle (next : gmap Coord3D Coord3D) (start : Coord3D) (res : list Coord3D) :
  walked next start start res -> (size next <= length res)%nat ->
  cycleOf next start res.
Proof.
  intros Hw Hsize. pose proof (walked_NoDup _ _ _ Hw) as Hnd.
  pose proof (walked_keys _ _ _ _ Hw) as Hkeys.
  destruct Hw as [Hh Hf Hs (l & Hl & Hlc)]. rewrite last_lookup in Hl.
  assert (Hlen : (0 < length res)%nat) by (destruct res; [discriminate|cbn; lia]).
  split; [exact Hh|exact Hnd| |].
  - intros i x Hi. pose proof (lookup_lt_Some _ _ _ Hi) as Hlt.
    destruct (decide (S i < length res)%nat) as [Hin|Hout].
    + rewrite Nat.mod_small by exact Hin.
      destruct (lookup_lt_is_Some_2 res (S i) Hin) as [y Hy]. rewrite Hy. eauto.
    + replace (S i) with (length res) by lia. rewrite Nat.Div0.mod_same.
      replace i with (pred (length res)) in Hi by lia.
      assert (x = l) by congruence. subst x. rewrite Hlc.
      destruct res; [discriminate|]. cbn in Hh |- *. congruence.
  - intros k. split; [|apply Hkeys].
    assert (Hsub : (list_to_set res : gset Coord3D) ⊆ dom next).
    { intros x Hx. apply elem_of_list_to_set in Hx. apply elem_of_dom. auto. }
    assert (Hsz : size (list_to_set res : gset Coord3D) = length res).
    { apply size_list_to_set. exact Hnd. }
    assert (Heq : (list_to_set res : gset Coord3D) ≡ dom next).
    { apply set_subseteq_size_equiv; [exact Hsub|]. rewrite size_dom, Hsz. exact Hsize. }
    intros Hk. apply elem_of_dom in Hk. apply Heq in Hk.
    apply elem_of_list_to_set in Hk. exact Hk.
Qed.

Lemma walk_complete (v : NextMap) (next : gmap Coord3D Coord3D) (start : Coord3D)
    (res : list Coord3D) :
  represents v next -> cycleOf next start res ->
  forall d k fuel x,
    (length res - k = d)%nat -> (1 <= k <= length res)%nat ->
    res !! (k mod length res)%nat = Some x -> (d < fuel)%nat ->
    walk fuel v start x (take k res) = Some (Returned res).
Proof.
  intros Hrep [Hh Hnd Hnext Hall].
  assert (H0 : res !! 0%nat = Some start) by (destruct res; [discriminate|exact Hh]).
  induction d as [|d IH]; intros k fuel x Hd Hk Hx Hfuel.
  - assert (k = length res) by lia. subst k. rewrite Nat.Div0.mod_same in Hx.
    assert (x = start) by congruence. subst x.
    destruct fuel as [|fuel]; [lia|]. cbn [walk].
    destruct (decide (start = start)) as [_|Hne]; [|contradiction].
    rewrite firstn_all. reflexivity.
  - assert (Hlt : (k < length res)%nat) by lia.
    rewrite Nat.mod_small in Hx by exact Hlt.
    destruct fuel as [|fuel]; [lia|]. cbn [walk].
    destruct (decide (x = start)) as [->|Hne].
    { pose proof (NoDup_lookup _ _ _ _ Hnd Hx H0). lia. }
    rewrite (FastMaps.represents_Load hashForCoordMap v next x Hrep), (Hnext k x Hx).
    destruct (lookup_lt_is_Some_2 res (S k mod length res)%nat) as [y Hy].
    { apply Nat.mod_upper_bound. lia. }
    rewrite Hy. rewrite <- (take_S_r res k x Hx).
    apply (IH (S k) fuel y); [lia|lia|exact Hy|lia].
Qed.

Lemma boundarySequence_spec (m : Mesh) :
  exists v start next,
    collect m = Some (v, start) /\ represents v next
    /\ (forall p1 p2, next !! p1 = Some p2 -> isBoundaryEdge m p1 p2)
    /\ (forall p1 p2, isBoundaryEdge m p1 p2 -> is_Some (next !! p1))
    /\ (forall fuel res, boundarySequence fuel m = Some (Returned res) ->
                          cycleOf next start res)
    /\ (forall fuel res, cycleOf next start res -> (length res <= fuel)%nat ->
                          boundarySequence fuel m = Some (Returned res)).
Proof.
  destruct (collect_spec m) as (v & start & next & Hcol & Hrep & Hs & Hc & Hst).
  exists v, start, next. split; [exact Hcol|]. split; [exact Hrep|].
  split; [exact Hs|]. split; [exact Hc|].
  assert (Hunfold : forall fuel,
            boundarySequence fuel m
            = if (size next =? 0)%nat
              then Some (Panicked "the mesh did not contain any boundary edges")
              else
                match walk fuel v start (default zeroCoord (next !! start)) [start] with
                | Some (Returned res) =>
                    if (length res <? size next)%nat
                    then Some (Panicked "mesh has multiple, non-connected boundaries")
                    else Some (Returned res)
                | other => other
                end).
  { intros fuel. unfold boundarySequence. rewrite Hcol.
    rewrite (FastMaps.represents_Len hashForCoordMap v next Hrep).
    unfold FastMaps.ValueOr.
    rewrite (FastMaps.represents_Load hashForCoordMap v next start Hrep). reflexivity. }
  split.
  - intros fuel res. rewrite Hunfold.
    destruct (Nat.eqb_spec (size next) 0) as [Hz|Hnz]; [discriminate|].
    assert (Hne : next <> ∅) by (intros ->; apply Hnz, map_size_empty).
    destruct (Hst Hne) as [cur Hcur]. rewrite Hcur. change (default zeroCoord (Some cur)) with cur.
    destruct (walk fuel v start cur [start]) as [[out|msg]|] eqn:Hwalk; try discriminate.
    destruct (Nat.ltb_spec (length out) (size next)) as [Hshort|Hlong]; [discriminate|].
    intros Heq. injection Heq as ->.
    apply walked_cycle; [|exact Hlong].
    apply (walk_sound v next start Hrep fuel cur [start] res Hwalk).
    split; [reflexivity| | |].
    + intros i x Hx. destruct i; discriminate.
    + intros i x y Hx Hy. destruct i; discriminate.
    + exists start. split; [reflexivity|exact Hcur].
  - intros fuel res Hcyc Hfuel. rewrite Hunfold. pose proof Hcyc as [Hh Hnd Hnext Hall].
    assert (H0 : res !! 0%nat = Some start) by (destruct res; [discriminate|exact Hh]).
    assert (Hlen : (0 < length res)%nat) by (destruct res; [discriminate|cbn; lia]).
    assert (Hsize : size next = length res).
    { rewrite <- size_dom, <- (size_list_to_set (C := gset Coord3D) res Hnd).
      apply set_size_proper. intros k. rewrite elem_of_dom, elem_of_list_to_set. apply Hall. }
    destruct (Nat.eqb_spec (size next) 0) as [Hz|_]; [lia|].
    pose proof (Hnext 0%nat start H0) as Hcur.
    destruct (lookup_lt_is_Some_2 res (1 mod length res)%nat) as [cur Hc1].
    { apply Nat.mod_upper_bound. lia. }
    rewrite Hc1 in Hcur. rewrite Hcur. change (default zeroCoord (Some cur)) with cur.
    assert (Htake : take 1 res = [start]).
    { destruct res as [|a res']; [discriminate|]. cbn in H0 |- *. rewrite take_0. congruence. }
    rewrite <- Htake.
    rewrite (walk_complete v next start res Hrep Hcyc (length res - 1) 1 fuel cur);
      [|lia|lia|exact Hc1|lia].
    destruct (Nat.ltb_spec (length res) (size next)) as [Hshort|_]; [lia|reflexivity].
Qed.

(** X26.  With [next] the map from the first to the second vertex of the
    boundary edges that the iteration over the mesh collects, and [start]
    the first vertex of the boundary edge stored last: what
    [boundarySequence] returns is the cycle of [next] from [start], which
    repeats no vertex, has each vertex followed by its [next], the last
    one by [start], and holds every key of [next]; no other list is ever
    returned, and on such a cycle the walk ends within [len(res)] rounds
    and returns it. *)
Theorem boundarySequence_cycle (m : Mesh) :
  exists v start next,
    collect m = Some (v, start) /\ represents v next
    /\ (forall p1 p2, next !! p1 = Some p2 -> isBoundaryEdge m p1 p2)
    /\ (forall p1 p2, isBoundaryEdge m p1 p2 -> is_Some (next !! p1))
    /\ (forall fuel res, boundarySequence fuel m = Some (Returned res) ->
                          cycleOf next start res)
    /\ (forall fuel res, cycleOf next start res -> (length res <= fuel)%nat ->
                          boundarySequence fuel m = Some (Returned res)).
Proof. exact (boundarySequence_spec m). Qed.

End BoundarySequence.

(** *** A square of two triangles, and two triangles that touch at a vertex *)

Definition demoSquare : list (@Geometry.Triangle Z) :=
  [Geometry.mkTriangle 1 2 3; Geometry.mkTriangle 1 3 4].

Definition demoBowtie : list (@Geometry.Triangle Z) :=
  [Geometry.mkTriangle 1 2 3; Geometry.mkTriangle 3 4 5].

Example demo_boundarySequence :
  boundarySequence (fun _ : Z => 0%N) 0 4 demoSquare = Some (Returned [4; 1; 2; 3])
  /\ boundarySequence Z.to_N 0 4 demoSquare = Some (Returned [4; 1; 2; 3])
  /\ boundarySequence Z.to_N 0 3 demoSquare = None
  /\ boundarySequence Z.to_N 0 9 demoBowtie
     = Some (Panicked "mesh has multiple, non-connected boundaries")
  /\ boundarySequence Z.to_N 0 9 []
     = Some (Panicked "the mesh did not contain any boundary edges").
Proof. vm_compute. repeat split. Qed.

End Boundary.

(** ** The quad tree of UV maps (parameterization.go)

    The UV maps are opaque and the areas are [float64] values with the
    comparison and the sum as parameters. *)

Module ParamQuadTree.
Section BuildParamQuadTree.

(** [MeshUVMap] and [float64] *)
Context {P F : Type}.

Variable zeroF : F.
(** [x < y] and [x + y] *)
Variable flt : F -> F -> bool.
Variable fadd : F -> F -> F.

#[local] Unset Elimination Schemes.
Inductive paramQuadTree : Type :=
| mkTree (Leaf : option P) (Branches : list paramQuadTree).
#[local] Set Elimination Schemes.

Definition Leaf (t : paramQuadTree) : option P :=
  match t with mkTree l _ => l end.

Definition Branches (t : paramQuadTree) : list paramQuadTree :=
  match t with mkTree _ bs => bs end.

(** An array of four elements, by its index. *)
Definition set4 {A : Type} (arr : nat -> A) (j : nat) (x : A) : nat -> A :=
  fun k => if (k =? j)%nat then x else arr k.

(** [assignments], [assignmentsAreas] and [assignmentsTotals] *)
Record piles : Type := mkPiles {
  assignments : nat -> list P;
  assignmentsAreas : nat -> list F;
  assignmentsTotals : nat -> F
}.

Definition emptyPiles : piles :=
  {| assignments := fun _ => [];
     assignmentsAreas := fun _ => [];
     assignmentsTotals := fun _ => zeroF |}.

(** Lines 1147-1154: the pile of the least total, the first one among
    equals. *)
Definition pickPile (totals : nat -> F) : nat :=
  (foldl (fun '(minArea, dstIndex) j =>
            if flt (totals j) minArea then (totals j, j) else (minArea, dstIndex))
         (totals 0%nat, 0%nat) [1; 2; 3]%nat).2.

(** Lines 1144-1159, from the index [i]; [None] is [areas[i]] out of
    range. *)
Fixpoint assign (areas : list F) (i : nat) (params : list P) (st : piles)
  : option piles :=
  match params with
  | [] => Some st
  | param :: rest =>
      match areas !! i with
      | None => None
      | Some area =>
          let dstIndex := pickPile (assignmentsTotals st) in
          assign areas (S i) rest
            {| assignments :=
                 set4 (assignments st) dstIndex (assignments st dstIndex ++ [param]);
               assignmentsAreas :=
                 set4 (assignmentsAreas st) dstIndex (assignmentsAreas st dstIndex ++ [area]);
               assignmentsTotals :=
                 set4 (assignmentsTotals st) dstIndex
                      (fadd (assignmentsTotals st dstIndex) area) |}
      end
  end.

(** [None] is a panic or the end of the fuel. *)
Fixpoint buildParamQuadTree (fuel : nat) (params : list P) (areas : list F)
  : option paramQuadTree :=
  match fuel with
  | O => None
  | S fuel' =>
      match params with
      | [p] => Some (mkTree (Some p) [])
      | _ =>
          if (length params <=? 4)%nat
          then Some (mkTree None (map (fun x => mkTree (Some x) []) params))
          else
            match assign areas 0 params emptyPiles with
            | None => None
            | Some st =>
                match
                  mapM (fun i => buildParamQuadTree fuel' (assignments st i)
                                                    (assignmentsAreas st i))
                       [0; 1; 2; 3]%nat
                with
                | None => None
                | Some branches => Some (mkTree None branches)
                end
            end
      end
  end.

(** The UV maps at the leaves, from left to right. *)
Fixpoint leaves (t : paramQuadTree) : list P :=
  match t with
  | mkTree l bs =>
      match l with Some p => [p] | None => [] end ++ concat (map leaves bs)
  end.

(** A node is a leaf without branches, or has at most four branches and
    no leaf. *)
Fixpoint shaped (t : paramQuadTree) : Prop :=
  match t with
  | mkTree l bs =>
      (match l with Some _ => bs = [] | None => (length bs <= 4)%nat end)
      /\ foldr (fun b acc => shaped b /\ acc) True bs
  end.

(** [0 < 0 + a]: the area counts. *)
Definition positive (a : F) : Prop := flt zeroF (fadd zeroF a) = true.

(** [x < x] is false, and the areas count. *)
Hypothesis flt_irrefl : forall x, flt x x = false.

Definition pile4 (st : piles) : list P :=
  assignments st 0%nat ++ assignments st 1%nat ++ assignments st 2%nat
  ++ assignments st 3%nat.

Lemma pickPile_lt (totals : nat -> F) : (pickPile totals < 4)%nat.
Proof.
  unfold pickPile. cbn [foldl].
  destruct (flt (totals 1%nat) (totals 0%nat));
    repeat match goal with |- context [if ?b then _ else _] => destruct b end;
    cbn; lia.
Qed.

Lemma pickPile_start : pickPile (fun _ => zeroF) = 0%nat.
Proof. unfold pickPile. cbn [foldl]. rewrite !flt_irrefl. reflexivity. Qed.

Lemma pickPile_second (a : F) :
  positive a ->
  pickPile (set4 (fun _ => zeroF) 0 (fadd zeroF a)) = 1%nat.
Proof.
  intros Hpos. unfold pickPile, set4. cbn [foldl Nat.eqb].
  unfold positive in Hpos. rewrite Hpos, !flt_irrefl. reflexivity.
Qed.

Lemma set4_eq {A : Type} (arr : nat -> A) (j : nat) (x : A) : set4 arr j x j = x.
Proof. unfold set4. rewrite Nat.eqb_refl. reflexivity. Qed.

Lemma set4_ne {A : Type} (arr : nat -> A) (j k : nat) (x : A) :
  k <> j -> set4 arr j x k = arr k.
Proof. intros Hne. unfold set4. destruct (Nat.eqb_spec k j); [contradiction|reflexivity]. Qed.

Lemma pile4_set4 (st : piles) (d : nat) (p : P) asA asT :
  (d < 4)%nat ->
  pile4 {| assignments := set4 (assignments st) d (assignments st d ++ [p]);
           assignmentsAreas := asA; assignmentsTotals := asT |}
  ≡ₚ p :: pile4 st.
Proof.
  intros Hd. unfold pile4. cbn [assignments].
  destruct d as [|[|[|[|d]]]]; [| | |  |lia];
    rewrite set4_eq, !set4_ne by lia.
  - rewrite <- !app_assoc. cbn. symmetry. apply Permutation_middle.
  - rewrite <- !app_assoc. cbn. rewrite (app_assoc (assignments st 0%nat)).
    symmetry. rewrite (app_assoc (assignments st 0%nat)). apply Permutation_middle.
  - rewrite !app_assoc. rewrite <- (app_assoc _ [p]). cbn.
    symmetry. apply Permutation_middle.
  - rewrite !app_assoc. symmetry. apply Permutation_cons_append.
Qed.

Lemma assign_spec (areas : list F) :
  Forall positive areas ->
  forall params i st,
    (i + length params <= length areas)%nat ->
    (forall j, length (assignmentsAreas st j) = length (assignments st j)) ->
    (forall j, Forall positive (assignmentsAreas st j)) ->
    exists st', assign areas i params st = Some st'
      /\ (forall j, length (assignmentsAreas st' j) = length (assignments st' j))
      /\ (forall j, Forall positive (assignmentsAreas st' j))
      /\ (forall j, (length (assignments st j) <= length (assignments st' j))%nat)
      /\ pile4 st' ≡ₚ pile4 st ++ params.
Proof.
  intros Hpos. induction params as [|param rest IH]; intros i st Hlen Hsame Hall.
  - exists st. cbn [assign]. rewrite app_nil_r. auto.
  - cbn [assign]. cbn [length] in Hlen.
    destruct (lookup_lt_is_Some_2 areas i ltac:(lia)) as [area Harea]. rewrite Harea.
    cbv zeta. set (d := pickPile (assignmentsTotals st)).
    assert (Hd : (d < 4)%nat) by apply pickPile_lt.
    assert (Ha : positive area).
    { rewrite Forall_forall in Hpos. apply Hpos. eapply list_elem_of_lookup_2, Harea. }
    match goal with |- context [assign areas (S i) rest ?s] => set (st1 := s) end.
    destruct (IH (S i) st1) as (st' & Hrun & Hsame' & Hall' & Hmono & Hperm).
    + lia.
    + intros j. subst st1. cbn [assignments assignmentsAreas].
      destruct (decide (j = d)) as [->|Hne].
      * rewrite !set4_eq, !length_app, Hsame. reflexivity.
      * rewrite !set4_ne by exact Hne. apply Hsame.
    + intros j. subst st1. cbn [assignmentsAreas].
      destruct (decide (j = d)) as [->|Hne].
      * rewrite set4_eq. apply Forall_app. split; [apply Hall|]. constructor; [exact Ha|constructor].
      * rewrite set4_ne by exact Hne. apply Hall.
    + exists st'. split; [exact Hrun|]. split; [exact Hsame'|]. split; [exact Hall'|].
      split.
      * intros j. etransitivity; [|apply Hmono]. subst st1. cbn [assignments].
        destruct (decide (j = d)) as [->|Hne].
        -- rewrite set4_eq, length_app. lia.
        -- rewrite set4_ne by exact Hne. lia.
      * rewrite Hperm. subst st1. rewrite (pile4_set4 st d param _ _ Hd).
        cbn. apply Permutation_middle.
Qed.

(** With more than one map, no pile gets them all. *)
Lemma assign_spread (areas : list F) (params : list P) (st : piles) :
  Forall positive areas -> length areas = length params -> (2 <= length params)%nat ->
  assign areas 0 params emptyPiles = Some st ->
  forall j, (j < 4)%nat -> (length (assignments st j) < length params)%nat.
Proof.
  intros Hpos Hlen Hn Hrun.
  destruct params as [|p0 [|p1 rest]]; cbn [length] in *; try lia.
  destruct areas as [|a0 [|a1 areas']]; cbn [length] in *; try lia.
  assert (Ha0 : positive a0) by (inversion Hpos; assumption).
  cbn [assign lookup list_lookup] in Hrun. cbv zeta in Hrun.
  cbn [emptyPiles assignments assignmentsAreas assignmentsTotals] in Hrun.
  rewrite pickPile_start in Hrun.
  cbn beta in Hrun. rewrite (pickPile_second a0 Ha0) in Hrun.
  match type of Hrun with assign _ _ _ ?s = _ => set (st2 := s) in Hrun end.
  destruct (assign_spec (a0 :: a1 :: areas') Hpos rest 2 st2) as
    (st' & Hrun' & _ & _ & Hmono & Hperm).
  - cbn [length]. lia.
  - intros j. subst st2. cbn [assignments assignmentsAreas]. unfold set4.
    destruct j as [|[|j]]; reflexivity.
  - intros j. subst st2. cbn [assignmentsAreas]. unfold set4.
    inversion Hpos as [|? ? ? Hpos']. inversion Hpos'.
    destruct j as [|[|j]]; cbn; repeat constructor; assumption.
  - rewrite Hrun in Hrun'. injection Hrun' as <-.
    apply Permutation_length in Hperm. unfold pile4 in Hperm.
    rewrite !length_app in Hperm.
    pose proof (Hmono 0%nat) as H0. pose proof (Hmono 1%nat) as H1.
    assert (L0 : length (assignments st2 0%nat) = 1%nat) by reflexivity.
    assert (L1 : length (assignments st2 1%nat) = 1%nat) by reflexivity.
    assert (L2 : length (assignments st2 2%nat) = 0%nat) by reflexivity.
    assert (L3 : length (assignments st2 3%nat) = 0%nat) by reflexivity.
    intros j Hj. destruct j as [|[|[|[|j]]]]; lia.
Qed.

Lemma leaves_of_leaf_nodes (params : list P) :
  concat (map leaves (map (fun x => mkTree (Some x) []) params)) = params.
Proof. induction params as [|p ps IH]; [reflexivity|]. cbn. rewrite IH. reflexivity. Qed.

Lemma shaped_leaf_nodes (params : list P) :
  foldr (fun b acc => shaped b /\ acc) True (map (fun x => mkTree (Some x) []) params).
Proof. induction params as [|p ps IH]; cbn; auto. Qed.

Lemma buildParamQuadTree_spec : forall fuel params areas,
  length areas = length params -> Forall positive areas ->
  (length params < fuel)%nat ->
  exists t, buildParamQuadTree fuel params areas = Some t
    /\ leaves t ≡ₚ params /\ shaped t.
Proof.
  induction fuel as [|fuel IH]; intros params areas Hlen Hpos Hfuel; [lia|].
  cbn [buildParamQuadTree].
  destruct params as [|p [|q rest]].
  - eexists. split; [reflexivity|]. cbn. split; [reflexivity|]. split; [lia|exact I].
  - eexists. split; [reflexivity|]. cbn. auto.
  - set (params := p :: q :: rest) in *.
    destruct (Nat.leb_spec (length params) 4) as [Hsmall|Hbig].
    + eexists. split; [reflexivity|]. cbn [leaves shaped app].
      rewrite leaves_of_leaf_nodes, length_map.
      split; [reflexivity|]. split; [exact Hsmall|apply shaped_leaf_nodes].
    + destruct (assign_spec areas Hpos params 0 emptyPiles) as
        (st & Hrun & Hsame & Hall & _ & Hperm).
      { lia. } { intros j. reflexivity. } { intros j. constructor. }
      rewrite Hrun.
      pose proof (assign_spread areas params st Hpos Hlen ltac:(lia) Hrun) as Hspread.
      assert (Hsub : forall j, (j < 4)%nat ->
                exists t, buildParamQuadTree fuel (assignments st j) (assignmentsAreas st j)
                          = Some t
                  /\ leaves t ≡ₚ assignments st j /\ shaped t).
      { intros j Hj. apply IH; [apply Hsame|apply Hall|].
        specialize (Hspread j Hj). lia. }
      destruct (Hsub 0%nat ltac:(lia)) as (t0 & H0 & L0 & S0).
      destruct (Hsub 1%nat ltac:(lia)) as (t1 & H1 & L1 & S1).
      destruct (Hsub 2%nat ltac:(lia)) as (t2 & H2 & L2 & S2).
      destruct (Hsub 3%nat ltac:(lia)) as (t3 & H3 & L3 & S3).
      cbn [mapM]. rewrite H0, H1, H2, H3. cbn [mbind option_bind mret option_ret].
      eexists. split; [reflexivity|]. cbn [leaves shaped app map concat foldr length].
      split; [|repeat split; auto; lia].
      rewrite app_nil_r, L0, L1, L2, L3. exact Hperm.
Qed.

(** X29.  [buildParamQuadTree] on UV maps with one area each, every area
    positive, ends and does not panic: every UV map is at exactly one leaf
    of the tree, a leaf has no branches, and no node has more than four
    branches. *)
Theorem buildParamQuadTree_keeps_maps (fuel : nat) (params : list P) (areas : list F) :
  length areas = length params -> Forall positive areas ->
  (length params < fuel)%nat ->
  exists t, buildParamQuadTree fuel params areas = Some t
    /\ leaves t ≡ₚ params /\ shaped t.
Proof. apply buildParamQuadTree_spec. Qed.

End BuildParamQuadTree.

(** *** Six maps with the areas [5], [4], [3], [2], [1], [1] *)

Definition demoBuild (fuel : nat) (params : list Z) (areas : list Z)
  : option (@paramQuadTree Z) :=
  buildParamQuadTree 0 Z.ltb Z.add fuel params areas.

Lemma buildParamQuadTree_keeps_maps_witness :
  (forall x, (x <? x) = false)
  /\ length [5; 4; 3; 2; 1; 1] = length [10; 20; 30; 40; 50; 60]
  /\ Forall (positive 0 Z.ltb Z.add) [5; 4; 3; 2; 1; 1]
  /\ (length [10; 20; 30; 40; 50; 60] < 7)%nat
  /\ exists t, demoBuild 7 [10; 20; 30; 40; 50; 60] [5; 4; 3; 2; 1; 1] = Some t
       /\ leaves t ≡ₚ [10; 20; 30; 40; 50; 60] /\ shaped t.
Proof.
  assert (Hirr : forall x, (x <? x) = false) by (intros x; apply Z.ltb_irrefl).
  assert (Hpos : Forall (positive 0 Z.ltb Z.add) [5; 4; 3; 2; 1; 1])
    by (repeat constructor).
  assert (Hfuel : (length [10; 20; 30; 40; 50; 60] < 7)%nat) by (cbn; lia).
  split; [exact Hirr|]. split; [reflexivity|]. split; [exact Hpos|].
  split; [exact Hfuel|].
  exact (buildParamQuadTree_keeps_maps 0 Z.ltb Z.add Hirr 7 [10; 20; 30; 40; 50; 60]
           [5; 4; 3; 2; 1; 1] eq_refl Hpos Hfuel).
Defined.

(** The piles of the six maps; with areas that are all zero every map
    goes to the first pile and the recursion does not end. *)
Example demo_buildParamQuadTree :
  demoBuild 7 [10; 20; 30; 40; 50; 60] [5; 4; 3; 2; 1; 1]
  = Some (mkTree None
            [mkTree (Some 10) [];
             mkTree (Some 20) [];
             mkTree None [mkTree (Some 30) []; mkTree (Some 60) []];
             mkTree None [mkTree (Some 40) []; mkTree (Some 50) []]])
  /\ demoBuild 50 [10; 20; 30; 40; 50] [0; 0; 0; 0; 0] = None.
Proof. vm_compute. repeat split. Qed.

End ParamQuadTree.

(** ** The orientation test of the Dual Contouring repair

    [==] on [Coord3D] compares the three [float64] components: it is a
    parameter, symmetric and transitive as the comparison of floats is
    (not reflexive: [NaN != NaN]). *)

Module DcRepair.
Section SegmentOrientation.

Context {Coord3D : Type}.

Abbreviation Triangle := (@Geometry.Triangle Coord3D).
Abbreviation Segment := (Coord3D * Coord3D)%type.

Variable eqb : Coord3D -> Coord3D -> bool.

(** [for i, x := range t { if x == s[0] { return t[(i+3)%3] == s[1] } }]
    with [n] corners left from the index [i]; [None] is the panic after
    the loop. *)
Fixpoint segmentOrientationFrom (t : Triangle) (s : Segment) (i n : nat) : option bool :=
  match n with
  | O => None
  | S n' =>
      if eqb (Geometry.corner t i) s.1
      then Some (eqb (Geometry.corner t ((i + 3) mod 3)) s.2)
      else segmentOrientationFrom t s (S i) n'
  end.

Definition segmentOrientation (t : Triangle) (s : Segment) : option bool :=
  segmentOrientationFrom t s 0 3.

Hypothesis eqb_sym : forall a b, eqb a b = eqb b a.
Hypothesis eqb_trans : forall a b c, eqb a b = true -> eqb b c = true -> eqb a c = true.

Lemma eqb_same_class (x a b : Coord3D) : eqb x a = true -> eqb x b = eqb a b.
Proof.
  intros Hxa. destruct (eqb a b) eqn:Hab.
  - exact (eqb_trans x a b Hxa Hab).
  - destruct (eqb x b) eqn:Hxb; [|reflexivity].
    rewrite <- Hab. symmetry. apply (eqb_trans a x b); [|exact Hxb].
    rewrite eqb_sym. exact Hxa.
Qed.

(** X30.  [segmentOrientation] compares the corner it has found equal to
    the first end of the segment with the second end: the result is
    whether the two ends of the segment are equal, and not whether the
    triangle has them in this order; without a corner equal to the first
    end the call panics. *)
Theorem segmentOrientation_compares_ends (t : Triangle) (s0 s1 : Coord3D) :
  segmentOrientation t (s0, s1)
  = if existsb (fun c => eqb c s0) (Geometry.corners t)
    then Some (eqb s0 s1) else None.
Proof.
  unfold segmentOrientation, Geometry.corners. cbn [segmentOrientationFrom existsb fst snd].
  change ((0 + 3) mod 3)%nat with 0%nat. change ((1 + 3) mod 3)%nat with 1%nat.
  change ((2 + 3) mod 3)%nat with 2%nat. cbn [Geometry.corner].
  destruct (eqb (Geometry.T0 t) s0) eqn:H0; cbn [orb].
  { rewrite (eqb_same_class _ _ s1 H0). reflexivity. }
  destruct (eqb (Geometry.T1 t) s0) eqn:H1; cbn [orb].
  { rewrite (eqb_same_class _ _ s1 H1). reflexivity. }
  destruct (eqb (Geometry.T2 t) s0) eqn:H2; cbn [orb]; [|reflexivity].
  rewrite (eqb_same_class _ _ s1 H2). reflexivity.
Qed.

End SegmentOrientation.

Lemma segmentOrientation_compares_ends_witness :
  (forall a b, (a =? b) = (b =? a))
  /\ (forall a b c, (a =? b) = true -> (b =? c) = true -> (a =? c) = true)
  /\ segmentOrientation Z.eqb (Geometry.mkTriangle 1 2 3) (1, 2)
     = if existsb (fun c => c =? 1) (Geometry.corners (Geometry.mkTriangle 1 2 3))
       then Some (1 =? 2) else None.
Proof.
  assert (Hsym : forall a b, (a =? b) = (b =? a)) by (intros a b; apply Z.eqb_sym).
  assert (Htrans : forall a b c, (a =? b) = true -> (b =? c) = true -> (a =? c) = true).
  { intros a b c Hab Hbc. apply Z.eqb_eq in Hab, Hbc. apply Z.eqb_eq. congruence. }
  split; [exact Hsym|]. split; [exact Htrans|].
  exact (segmentOrientation_compares_ends Z.eqb Hsym Htrans (Geometry.mkTriangle 1 2 3) 1 2).
Defined.

(** The triangle has the segment in its order and in the opposite one:
    the answer is the same. *)
Example demo_segmentOrientation :
  segmentOrientation Z.eqb (Geometry.mkTriangle 1 2 3) (1, 2) = Some false
  /\ segmentOrientation Z.eqb (Geometry.mkTriangle 1 2 3) (2, 1) = Some false
  /\ segmentOrientation Z.eqb (Geometry.mkTriangle 1 2 3) (2, 2) = Some true
  /\ segmentOrientation Z.eqb (Geometry.mkTriangle 1 2 3) (4, 1) = None.
Proof. vm_compute. repeat split. Qed.

End DcRepair.
